(** * K-Map-Solver: the Quine-McCluskey engine and the group geometry

    A shallow embedding of [src/lib/solver.ts] (solveCustom, runQM,
    diffIndex, formatTerm, formatPosFromTerms), of [src/lib/kmap-utils.ts]
    (generateGrayCodes, getGridDimensions, getMintermIndex, getCoordinates)
    and of the overlay geometry of [src/components/KmapGrid.tsx]
    (uniqueSorted, isInCyclicInterval, minimalCyclicInterval,
    buildGroupOverlays), followed by the properties proved about them.

    JavaScript numbers that hold positions, indices and sizes are integers
    here ([Z]); array indices are [nat]; strings are [string]; arrays are
    lists; the object used as a dictionary and the [Map] are [gmap]s. *)

From Stdlib Require Import ZArith Lia Ascii String List Sorted Permutation.
From stdpp Require Import gmap strings list.

Local Open Scope Z_scope.

(** ** JavaScript primitives used by the sources *)

Module JS.

(** A number that may be [NaN] (the result of [parseInt]). *)
Inductive num : Type :=
| Num (z : Z)
| NaN.

Definition num_eq_dec (a b : num) : {a = b} + {a <> b}.
Proof. decide equality. apply Z.eq_dec. Defined.

(** [s.repeat(n)] for a one-character [s]. *)
Fixpoint repeat_char (c : ascii) (n : nat) : string :=
  match n with
  | O => EmptyString
  | S k => String c (repeat_char c k)
  end.

(** [p.toString(2)] for a positive integer, most significant bit first. *)
Fixpoint pos_to_bin (p : positive) : string :=
  match p with
  | xH => "1"
  | xO q => pos_to_bin q +:+ "0"
  | xI q => pos_to_bin q +:+ "1"
  end.

(** [z.toString(2)]: a minus sign and the magnitude for negatives. *)
Definition toString2 (z : Z) : string :=
  match z with
  | Z0 => "0"
  | Zpos p => pos_to_bin p
  | Zneg p => "-" +:+ pos_to_bin p
  end.

(** [s.padStart(n, c)] for a one-character filler. *)
Definition padStart (s : string) (n : nat) (c : ascii) : string :=
  repeat_char c (n - String.length s) +:+ s.

(** [s[i]] used as a string: the one-character string, or [undefined],
    which string concatenation and [parseInt] see as the text
    "undefined". *)
Definition char_at (s : string) (i : nat) : string :=
  match String.get i s with
  | Some c => String c EmptyString
  | None => "undefined"
  end.

(** [s.slice(a)] and [s.slice(a, b)] for non-negative [a <= b]. *)
Definition slice_from (s : string) (a : nat) : string :=
  String.substring a (String.length s - a) s.

Definition slice (s : string) (a b : nat) : string :=
  String.substring a (Nat.min b (String.length s) - a) s.

(** Value of a digit character in a radix of at most ten. *)
Definition digit_value (radix : Z) (c : ascii) : option Z :=
  match Ascii.is_nat c with
  | Some d => if Z.of_nat d <? radix then Some (Z.of_nat d) else None
  | None => None
  end.

(** The longest prefix of digits, read most significant first; [None]
    when the string does not start with a digit. *)
Fixpoint parse_digits (radix : Z) (acc : option Z) (s : string) : option Z :=
  match s with
  | EmptyString => acc
  | String c rest =>
      match digit_value radix c with
      | Some d =>
          parse_digits radix
            (Some (match acc with Some a => a * radix + d | None => d end))
            rest
      | None => acc
      end
  end.

Fixpoint skip_spaces (s : string) : string :=
  match s with
  | String c rest => if Ascii.is_space c then skip_spaces rest else s
  | EmptyString => s
  end.

(** [parseInt(s, radix)] for [radix <= 10]: leading white space, an
    optional sign, then the longest run of digits; [NaN] without one. *)
Definition parseInt (s : string) (radix : Z) : num :=
  let t := skip_spaces s in
  let '(sign, body) :=
    match t with
    | String "-"%char rest => (-1, rest)
    | String "+"%char rest => (1, rest)
    | _ => (1, t)
    end in
  match parse_digits radix None body with
  | Some v => Num (sign * v)
  | None => NaN
  end.

(** Insertion of [x] into a list sorted for the comparator [cmp]; [x]
    goes before the first element it does not exceed. *)
Fixpoint sort_insert {A} (cmp : A -> A -> Z) (x : A) (l : list A) : list A :=
  match l with
  | [] => [x]
  | y :: l' => if cmp x y <=? 0 then x :: l else y :: sort_insert cmp x l'
  end.

(** [xs.sort(cmp)]: the stable sort of the list for a consistent
    comparator, which is what every conforming engine returns. *)
Definition sort {A} (cmp : A -> A -> Z) (l : list A) : list A :=
  foldr (sort_insert cmp) [] l.

(** The comparator [(a, b) => a - b]. *)
Definition num_asc (a b : Z) : Z := a - b.

(** A [Set], as the list of its members in insertion order. *)
Definition set_has {A} `{EqDecision A} (s : list A) (x : A) : bool :=
  bool_decide (x ∈ s).

Definition set_add {A} `{EqDecision A} (s : list A) (x : A) : list A :=
  if set_has s x then s else s ++ [x].

Definition set_delete {A} `{EqDecision A} (s : list A) (x : A) : list A :=
  filter (fun y => y <> x) s.

(** [`${z}`]: the decimal text of an integer. *)
Definition to_decimal (z : Z) : string :=
  match z with
  | Z0 => "0"
  | Zpos p => pretty.pretty (Npos p)
  | Zneg p => "-" +:+ pretty.pretty (Npos p)
  end.

End JS.

Export JS.

Global Instance num_eq_decision : EqDecision num := num_eq_dec.

Global Instance num_countable : Countable num :=
  inj_countable'
    (fun n => match n with Num z => Some z | NaN => None end)
    (fun o => match o with Some z => Num z | None => NaN end)
    (fun n => match n with Num _ => eq_refl | NaN => eq_refl end).

(** ** Grid utilities ([src/lib/kmap-utils.ts]) *)

(** Reflected Gray codes of [n] bits, by the mirror construction. *)
Fixpoint generateGrayCodes (n : nat) : list string :=
  match n with
  | O => [EmptyString]
  | S k =>
      match k with
      | O => ["0"; "1"]
      | S _ =>
          let prev := generateGrayCodes k in
          map (String "0"%char) prev ++ map (String "1"%char) (rev prev)
      end
  end.

Record GridDimensions := { rowBits : nat; colBits : nat }.

Definition getGridDimensions (vars : Z) : GridDimensions :=
  if vars =? 2 then {| rowBits := 1; colBits := 1 |}
  else if vars =? 3 then {| rowBits := 1; colBits := 2 |}
  else if vars =? 4 then {| rowBits := 2; colBits := 2 |}
  else if vars =? 5 then {| rowBits := 2; colBits := 2 |}
  else {| rowBits := 2; colBits := 2 |}.

(** [mapIndex] is [None] when the call has two arguments; with three the
    map bit is written in front of the row and column bits. *)
Definition getMintermIndex (rowGray colGray : string) (mapIndex : option num) : num :=
  parseInt
    ((match mapIndex with
      | Some mi => if decide (mi = Num 1) then "1" else "0"
      | None => ""
      end) +:+ rowGray +:+ colGray)
    2.

Record Coordinates := { rowBin : string; colBin : string; map : num }.

Definition getCoordinates (minterm : Z) (vars : Z) : Coordinates :=
  let bin := padStart (toString2 minterm) (Z.to_nat vars) "0" in
  if vars =? 2 then
    {| rowBin := char_at bin 0; colBin := char_at bin 1; map := Num 0 |}
  else if vars =? 3 then
    {| rowBin := char_at bin 0; colBin := slice_from bin 1; map := Num 0 |}
  else if vars =? 4 then
    {| rowBin := slice bin 0 2; colBin := slice_from bin 2; map := Num 0 |}
  else if vars =? 5 then
    {| map := parseInt (char_at bin 0) 10;
       rowBin := slice bin 1 3; colBin := slice_from bin 3 |}
  else {| rowBin := "0"; colBin := "0"; map := Num 0 |}.

(** ** Overlay geometry ([src/components/KmapGrid.tsx]) *)

Record GroupRect := {
  groupId : Z;
  x : Z;
  y : Z;
  w : Z;
  h : Z;
  area : Z;
  tileId : string
}.

Definition uniqueSorted (xs : list Z) : list Z :=
  sort num_asc (foldl set_add [] xs).

(** [%] is the remainder that takes the sign of the dividend. *)
Definition isInCyclicInterval (value start len size : Z) : bool :=
  Z.rem (value - start + size) size <? len.

Record Interval := { i_start : Z; i_len : Z }.

(** The inner loop over [start]: the first feasible start updates the best
    pair when the length improves on it, and the loop stops there. *)
Fixpoint scan_starts (uniq : list Z) (len size : Z) (starts : list Z)
    (best : Interval) : Interval :=
  match starts with
  | [] => best
  | start :: rest =>
      if forallb (fun v => isInCyclicInterval v start len size) uniq then
        if len <? i_len best then {| i_start := start; i_len := len |} else best
      else scan_starts uniq len size rest best
  end.

(** The outer loop over [len], left as soon as a best pair is recorded. *)
Fixpoint scan_lens (uniq : list Z) (size : Z) (lens : list Z)
    (best : Interval) : Interval :=
  match lens with
  | [] => best
  | len :: rest =>
      let best' := scan_starts uniq len size (seqZ 0 size) best in
      if negb (i_len best' =? size + 1) then best'
      else scan_lens uniq size rest best'
  end.

Definition minimalCyclicInterval (indices : list Z) (size : Z) : Interval :=
  match indices with
  | [] => {| i_start := 0; i_len := 0 |}
  | _ =>
      let uniq := uniqueSorted indices in
      if Z.of_nat (length uniq) =? size then {| i_start := 0; i_len := size |}
      else
        let best :=
          scan_lens uniq size (seqZ 1 size) {| i_start := 0; i_len := size + 1 |} in
        {| i_start := i_start best; i_len := Z.min (i_len best) size |}
  end.

(** An array with the index of each entry, as [forEach((v, i) => ...)] and
    the counting loops see it. *)
Definition indexed {A} (l : list A) : list (Z * A) :=
  zip (seqZ 0 (Z.of_nat (length l))) l.

(** The [Map] from position to grid coordinate filled by the two loops
    over the row and column codes; a later [set] replaces an earlier one. *)
Definition coordTable (rowCodes colCodes : list string) (mapIndex : Z)
    : gmap num (Z * Z) :=
  foldl (fun acc rw =>
           foldl (fun acc' cl =>
                    <[getMintermIndex rw.2 cl.2 (Some (Num mapIndex)) := (rw.1, cl.1)]> acc')
                 acc (indexed colCodes))
        ∅ (indexed rowCodes).

(** The comparator [(a, b) => b.area - a.area || a.groupId - b.groupId]. *)
Definition rect_cmp (a b : GroupRect) : Z :=
  let d := area b - area a in
  if d =? 0 then groupId a - groupId b else d.

(** The rectangles one group contributes: none when no position of the
    group lies on this map, else one tile per offset pair. *)
Definition groupRects (rowCodes colCodes : list string)
    (coordByMinterm : gmap num (Z * Z)) (gid : Z) (group : list Z) : list GroupRect :=
  let coords := omap (fun m => coordByMinterm !! Num m) group in
  match coords with
  | [] => []
  | _ =>
      let rows := fst <$> coords in
      let cols := snd <$> coords in
      let nrows := Z.of_nat (length rowCodes) in
      let ncols := Z.of_nat (length colCodes) in
      let rowInterval := minimalCyclicInterval rows nrows in
      let colInterval := minimalCyclicInterval cols ncols in
      let rowWraps := nrows <? i_start rowInterval + i_len rowInterval in
      let colWraps := ncols <? i_start colInterval + i_len colInterval in
      let yOffsets := if rowWraps then [0; - nrows] else [0] in
      let xOffsets := if colWraps then [0; - ncols] else [0] in
      dy ← yOffsets;
      dx ← xOffsets;
      [ {| groupId := gid;
           x := i_start colInterval + dx;
           y := i_start rowInterval + dy;
           w := i_len colInterval;
           h := i_len rowInterval;
           area := i_len colInterval * i_len rowInterval;
           tileId := to_decimal gid +:+ ":" +:+ to_decimal dx +:+ ":" +:+ to_decimal dy |} ]
  end.

(** [groups] is [None] when the optional property is absent. *)
Definition buildGroupOverlays (variables : Z) (groups : option (list (list Z)))
    (mapIndex : Z) : list GroupRect :=
  let dims := getGridDimensions variables in
  let rowCodes := generateGrayCodes (rowBits dims) in
  let colCodes := generateGrayCodes (colBits dims) in
  match groups with
  | None | Some [] => []
  | Some gs =>
      let coordByMinterm := coordTable rowCodes colCodes mapIndex in
      let rects :=
        foldl (fun acc g => acc ++ groupRects rowCodes colCodes coordByMinterm g.1 g.2)
              [] (indexed gs) in
      sort rect_cmp rects
  end.

(** ** The Quine-McCluskey solver ([src/lib/solver.ts]) *)

Module Imp.
Record Implicant := {
  term : string;
  minterms : list Z;
  isPrime : bool
}.
End Imp.
Export Imp.

Global Instance Implicant_eq_dec : EqDecision Implicant.
Proof. solve_decision. Defined.

Record SolverResult := {
  expression : string;
  essentials : list (list Z)
}.

Record QMResult := {
  qm_expression : string;
  qm_groups : list (list Z);
  qm_terms : list string
}.

(** How a call ends: with a value, with a [TypeError] (a method called on
    [undefined]), or without an answer within the allotted loop turns. *)
Inductive outcome (A : Type) : Type :=
| Returned (a : A)
| Thrown
| OutOfFuel.
Arguments Returned {A} a.
Arguments Thrown {A}.
Arguments OutOfFuel {A}.

Global Instance outcome_ret : MRet outcome := fun A a => Returned a.

Global Instance outcome_bind : MBind outcome := fun A B k o =>
  match o with
  | Returned a => k a
  | Thrown => Thrown
  | OutOfFuel => OutOfFuel
  end.

(** [forEach] with a body that may throw. *)
Fixpoint forEachM {A S} (body : S -> A -> outcome S) (l : list A) (s : S) : outcome S :=
  match l with
  | [] => Returned s
  | a :: rest => s' ← body s a; forEachM body rest s'
  end.

(** [xs.includes(v)]. *)
Definition includes {A} `{EqDecision A} (xs : list A) (v : A) : bool :=
  bool_decide (v ∈ xs).

(** [s.split(c).length - 1]: the occurrences of the character. *)
Fixpoint count_char (c : ascii) (s : string) : nat :=
  match s with
  | EmptyString => O
  | String d rest => (if Ascii.eqb d c then 1 else 0)%nat + count_char c rest
  end.

(** [xs.join(sep)]. *)
Fixpoint join (sep : string) (xs : list string) : string :=
  match xs with
  | [] => ""
  | [s] => s
  | s :: rest => s +:+ sep +:+ join sep rest
  end.

(** The loop of [diffIndex] from index [i], with [diff] the index of the
    difference met so far ([-1] for none); [t2[i]] is [undefined] past the
    end of [t2] and differs from every character. *)
Fixpoint diffIndex_from (i diff : Z) (t1 t2 : string) : Z :=
  match t1 with
  | EmptyString => diff
  | String c1 r1 =>
      let '(differs, r2) :=
        match t2 with
        | String c2 r2 => (negb (Ascii.eqb c1 c2), r2)
        | EmptyString => (true, EmptyString)
        end in
      if differs then
        if negb (diff =? -1) then -1 else diffIndex_from (i + 1) i r1 r2
      else diffIndex_from (i + 1) diff r1 r2
  end.

Definition diffIndex (t1 t2 : string) : Z := diffIndex_from 0 (-1) t1 t2.

(** The loop of [formatTerm] from index [i]. *)
Fixpoint formatTerm_from (i : nat) (t : string) (vars : list string)
    (res : string) (isAllDashes : bool) : string * bool :=
  match t with
  | EmptyString => (res, isAllDashes)
  | String c rest =>
      if negb (Ascii.eqb c "-") then
        let res1 := res +:+ default "undefined" (vars !! i) in
        let res2 := if Ascii.eqb c "0" then res1 +:+ "'" else res1 in
        formatTerm_from (S i) rest vars res2 false
      else formatTerm_from (S i) rest vars res isAllDashes
  end.

Definition formatTerm (t : string) (vars : list string) : string :=
  let '(res, isAllDashes) := formatTerm_from 0 t vars "" true in
  if isAllDashes then "1" else res.

(** [Array.from({ length: variables }, (_, i) => `x_${i}`)]. *)
Definition varNames (variables : Z) : list string :=
  (fun i => "x_" +:+ to_decimal i) <$> seqZ 0 variables.

(** The test [/^-+$/]: one dash or more and nothing else. *)
Fixpoint only_dashes (s : string) : bool :=
  match s with
  | EmptyString => true
  | String c rest => Ascii.eqb c "-" && only_dashes rest
  end.

Definition isAllDashTerm (s : string) : bool :=
  match s with
  | EmptyString => false
  | _ => only_dashes s
  end.

(** The literals of one zero-cube, in the loop of [formatPosFromTerms]. *)
Fixpoint posLits_from (i : nat) (t : string) (vars : list string)
    (lits : list string) : list string :=
  match t with
  | EmptyString => lits
  | String b rest =>
      if Ascii.eqb b "-" then posLits_from (S i) rest vars lits
      else if Ascii.eqb b "0" then
        posLits_from (S i) rest vars (lits ++ [default "undefined" (vars !! i)])
      else if Ascii.eqb b "1" then
        posLits_from (S i) rest vars (lits ++ [default "undefined" (vars !! i) +:+ "'"])
      else posLits_from (S i) rest vars lits
  end.

Definition posFactor (vars : list string) (t : string) : string :=
  match posLits_from 0 t vars [] with
  | [] => "(0)"
  | lits => "(" +:+ join " + " lits +:+ ")"
  end.

Definition formatPosFromTerms (terms : list string) (variables : Z) : string :=
  if existsb isAllDashTerm terms then "0"
  else
    let vars := varNames variables in
    join "" (posFactor vars <$> terms).

Definition clearPrime (t : Implicant) : Implicant :=
  {| term := term t; minterms := minterms t; isPrime := false |}.

(** [Array.from({ length: variables + 1 }, () => [])]. *)
Definition emptyGroups (variables : Z) : list (list Implicant) :=
  replicate (Z.to_nat (variables + 1)) [].

(** One seed cube: the position written on [variables] bits, filed under
    its number of ones; [push] on a missing group throws. *)
Definition seedStep (variables : Z) (groups : list (list Implicant)) (m : Z)
    : outcome (list (list Implicant)) :=
  let bin := padStart (toString2 m) (Z.to_nat variables) "0" in
  let ones := count_char "1" bin in
  match groups !! ones with
  | Some g =>
      Returned (<[ones := g ++ [{| term := bin; minterms := [m]; isPrime := true |}]]> groups)
  | None => Thrown
  end.

(** [t1.term.substring(0, diff) + "-" + t1.term.substring(diff + 1)]. *)
Definition dashAt (t : string) (diff : Z) : string :=
  String.substring 0 (Z.to_nat diff) t +:+ "-" +:+ slice_from t (Z.to_nat (diff + 1)).

(** The loop [for (const t2 of g2)] for one [t1]: the cube [t1] and the
    cubes of [g2] with their flags after the loop, and the next-round group
    with the cubes pushed on it. *)
Fixpoint pairLoop (t1 : Implicant) (g2 : list Implicant) (nexti : list Implicant)
    : Implicant * list Implicant * list Implicant :=
  match g2 with
  | [] => (t1, [], nexti)
  | t2 :: rest =>
      let diff := diffIndex (term t1) (term t2) in
      if negb (diff =? -1) then
        let newTerm := dashAt (term t1) diff in
        let nexti' :=
          if existsb (fun t => String.eqb (term t) newTerm) nexti then nexti
          else nexti ++ [{| term := newTerm;
                            minterms := sort num_asc (minterms t1 ++ minterms t2);
                            isPrime := true |}] in
        let '(t1', rest', nexti'') := pairLoop (clearPrime t1) rest nexti' in
        (t1', clearPrime t2 :: rest', nexti'')
      else
        let '(t1', rest', nexti') := pairLoop t1 rest nexti in
        (t1', t2 :: rest', nexti')
  end.

(** The loop [for (const t1 of g1)] around it. *)
Fixpoint groupLoop (g1 g2 nexti : list Implicant)
    : list Implicant * list Implicant * list Implicant :=
  match g1 with
  | [] => ([], g2, nexti)
  | t1 :: rest =>
      let '(t1', g2', nexti') := pairLoop t1 g2 nexti in
      let '(rest', g2'', nexti'') := groupLoop rest g2' nexti' in
      (t1' :: rest', g2'', nexti'')
  end.

(** One turn of the loop over [i]: groups [i] and [i + 1] of the current
    round are scanned and group [i] of the next round is filled. Both
    arrays are created with [variables + 1] groups, so the three reads are
    in range whenever [i + 1] is an index of the current one. *)
Definition scanStep (st : list (list Implicant) * list (list Implicant)) (i : nat)
    : list (list Implicant) * list (list Implicant) :=
  let '(cur, next) := st in
  let '(g1', g2', nexti') :=
    groupLoop (default [] (cur !! i)) (default [] (cur !! S i)) (default [] (next !! i)) in
  (<[S i := g2']> (<[i := g1']> cur), <[i := nexti']> next).

(** One combination round: the current groups with their flags after the
    pass, and the groups of the next round. *)
Definition combineRound (variables : Z) (currentGroups : list (list Implicant))
    : list (list Implicant) * list (list Implicant) :=
  foldl scanStep (currentGroups, emptyGroups variables)
        (seq 0 (length currentGroups - 1)).

(** The [while] loop over the rounds; a cube still flagged prime after its
    round joins [primeImplicants]. *)
Fixpoint primeRounds (fuel : nat) (variables : Z)
    (currentGroups : list (list Implicant)) (primeImplicants : list Implicant)
    : outcome (list Implicant) :=
  match fuel with
  | O => OutOfFuel
  | S fuel' =>
      if existsb (fun g => (0 <? length g)%nat) currentGroups then
        let '(scanned, nextGroups) := combineRound variables currentGroups in
        let primeImplicants' := primeImplicants ++ filter (fun t => isPrime t = true) (mjoin scanned) in
        if forallb (fun g => (length g =? 0)%nat) nextGroups then Returned primeImplicants'
        else primeRounds fuel' variables nextGroups primeImplicants'
      else Returned primeImplicants
  end.

(** The primes with the first occurrence of every term kept. *)
Definition dedupStep (st : list string * list Implicant) (pi : Implicant)
    : list string * list Implicant :=
  let '(seenTerms, uniquePIs) := st in
  if set_has seenTerms (term pi) then (seenTerms, uniquePIs)
  else (set_add seenTerms (term pi), uniquePIs ++ [pi]).

Definition dedupPrimes (primeImplicants : list Implicant) : list Implicant :=
  snd (foldl dedupStep ([], []) primeImplicants).

(** [if (remainingMinterms.includes(m)) coverage[m].push(pi)]. *)
Definition pushCover (remainingMinterms : list Z) (pi : Implicant)
    (coverage : gmap Z (list Implicant)) (m : Z) : gmap Z (list Implicant) :=
  if includes remainingMinterms m then alter (fun l => l ++ [pi]) m coverage
  else coverage.

(** The dictionary from each required position to the primes covering it. *)
Definition buildCoverage (remainingMinterms : list Z) (uniquePIs : list Implicant)
    : gmap Z (list Implicant) :=
  let empty := foldl (fun cov m => <[m := []]> cov) ∅ remainingMinterms in
  foldl (fun cov pi => foldl (pushCover remainingMinterms pi) cov (minterms pi))
        empty uniquePIs.

(** [coverage[m] && coverage[m].length === 1]. *)
Definition coveredOnce (coverage : gmap Z (list Implicant)) (m : Z) : bool :=
  match coverage !! m with
  | Some l => (length l =? 1)%nat
  | None => false
  end.

(** [finalPIs.push(pi)] followed by the removal of the positions of [pi]
    from [remainingMinterms]. *)
Definition takePI (st : list Implicant * list Z) (pi : Implicant)
    : list Implicant * list Z :=
  let '(finalPIs, remainingMinterms) := st in
  (finalPIs ++ [pi], filter (fun m => ¬ (m ∈ minterms pi)) remainingMinterms).

(** [newEssentials.add(coverage[m][0])]. *)
Definition addEssential (coverage : gmap Z (list Implicant))
    (newEssentials : list Implicant) (m : Z) : list Implicant :=
  match coverage !! m with
  | Some (pi :: _) => set_add newEssentials pi
  | _ => newEssentials
  end.

(** The essential-prime loop on the pair of [finalPIs] and
    [remainingMinterms]; [changed] is the flag of the source. *)
Fixpoint essentialLoop (fuel : nat) (coverage : gmap Z (list Implicant))
    (changed : bool) (finalPIs : list Implicant) (remainingMinterms : list Z)
    : outcome (list Implicant * list Z) :=
  match fuel with
  | O => OutOfFuel
  | S fuel' =>
      if changed && (0 <? length remainingMinterms)%nat then
        let essentials :=
          filter (fun m => coveredOnce coverage m = true) remainingMinterms in
        let newEssentials := foldl (addEssential coverage) [] essentials in
        if (0 <? length newEssentials)%nat then
          let '(finalPIs', remaining') :=
            foldl takePI (finalPIs, remainingMinterms) newEssentials in
          essentialLoop fuel' coverage true finalPIs' remaining'
        else essentialLoop fuel' coverage false finalPIs remainingMinterms
      else Returned (finalPIs, remainingMinterms)
  end.

(** The number of positions of [pi] still required. *)
Definition coverCount (remainingMinterms : list Z) (pi : Implicant) : Z :=
  Z.of_nat (length (filter (fun m => m ∈ remainingMinterms) (minterms pi))).

(** One turn of the scan for [bestPI] and [maxCover]. *)
Definition pickStep (finalPIs : list Implicant) (remainingMinterms : list Z)
    (st : option Implicant * Z) (pi : Implicant) : option Implicant * Z :=
  let '(bestPI, maxCover) := st in
  if includes finalPIs pi then (bestPI, maxCover)
  else
    let count := coverCount remainingMinterms pi in
    if maxCover <? count then (Some pi, count) else (bestPI, maxCover).

(** The scan for [bestPI] and [maxCover] of one greedy turn. *)
Definition pickBest (uniquePIs finalPIs : list Implicant) (remainingMinterms : list Z)
    : option Implicant * Z :=
  foldl (pickStep finalPIs remainingMinterms) (None, -1) uniquePIs.

(** The greedy loop; it is left with required positions remaining when no
    prime covers any of them. *)
Fixpoint greedyLoop (fuel : nat) (uniquePIs finalPIs : list Implicant)
    (remainingMinterms : list Z) : outcome (list Implicant * list Z) :=
  match fuel with
  | O => OutOfFuel
  | S fuel' =>
      if (0 <? length remainingMinterms)%nat then
        match pickBest uniquePIs finalPIs remainingMinterms with
        | (Some bestPI, maxCover) =>
            if 0 <? maxCover then
              let '(finalPIs', remaining') := takePI (finalPIs, remainingMinterms) bestPI in
              greedyLoop fuel' uniquePIs finalPIs' remaining'
            else Returned (finalPIs, remainingMinterms)
        | (None, _) => Returned (finalPIs, remainingMinterms)
        end
      else Returned (finalPIs, remainingMinterms)
  end.

(** The seed groups of [runQM]. *)
Definition seedGroups (variables : Z) (minterms dontCares : list Z)
    : outcome (list (list Implicant)) :=
  forEachM (seedStep variables) (minterms ++ dontCares) (emptyGroups variables).

(** The deduplicated primes of [runQM] past its two early returns. *)
Definition primesOf (fuel : nat) (variables : Z) (minterms dontCares : list Z)
    : outcome (list Implicant) :=
  groups ← seedGroups variables minterms dontCares;
  primeImplicants ← primeRounds fuel variables groups [];
  mret (dedupPrimes primeImplicants).

(** The cover of [runQM]: [finalPIs] and the positions left uncovered. *)
Definition coverOf (fuel : nat) (uniquePIs : list Implicant) (minterms : list Z)
    : outcome (list Implicant * list Z) :=
  let coverage := buildCoverage minterms uniquePIs in
  '(finalPIs, remaining) ← essentialLoop fuel coverage true [] minterms;
  greedyLoop fuel uniquePIs finalPIs remaining.

Definition runQM (fuel : nat) (variables : Z) (minterms dontCares : list Z)
    : outcome QMResult :=
  if (length minterms =? 0)%nat then
    Returned {| qm_expression := "0"; qm_groups := []; qm_terms := [] |}
  else
    let total := 2 ^ variables in
    if Z.of_nat (length minterms + length dontCares) =? total then
      Returned {| qm_expression := "1";
                  qm_groups := [minterms ++ dontCares];
                  qm_terms := [repeat_char "-" (Z.to_nat variables)] |}
    else
      uniquePIs ← primesOf fuel variables minterms dontCares;
      '(finalPIs, _) ← coverOf fuel uniquePIs minterms;
      let vars := varNames variables in
      let expression := join " + " ((fun pi => formatTerm (term pi) vars) <$> finalPIs) in
      mret {| qm_expression := if String.eqb expression "" then "0" else expression;
              qm_groups := Imp.minterms <$> finalPIs;
              qm_terms := term <$> finalPIs |}.

(** The positions left in [allIndices] once the minterms and the
    don't-cares are deleted, sorted; [total] is [2 ^ variables] for
    [variables >= 0]. *)
Definition zerosOf (variables : Z) (minterms dontCares : list Z) : list Z :=
  let total := 2 ^ variables in
  let allIndices := foldl set_add [] (seqZ 0 total) in
  let allIndices := foldl set_delete allIndices minterms in
  let allIndices := foldl set_delete allIndices dontCares in
  sort num_asc allIndices.

Definition solveCustom (fuel : nat) (variables : Z) (minterms dontCares : list Z)
    (isSop : bool) : outcome SolverResult :=
  if negb isSop then
    let zeros := zerosOf variables minterms dontCares in
    if (length zeros =? 0)%nat then
      Returned {| expression := "1"; essentials := [] |}
    else
      solution ← runQM fuel variables zeros dontCares;
      mret {| expression := formatPosFromTerms (qm_terms solution) variables;
              essentials := qm_groups solution |}
  else
    solution ← runQM fuel variables minterms dontCares;
    mret {| expression := qm_expression solution;
            essentials := qm_groups solution |}.

(** ** Notions used to state the properties *)

(** The inputs the solver is specified for: between two and five
    variables, and two duplicate-free, disjoint lists of positions below
    [2 ^ variables]. *)
Record validInput (variables : Z) (trueSet dontCareSet : list Z) : Prop := {
  vi_vars : 2 <= variables <= 5;
  vi_true_nodup : NoDup trueSet;
  vi_dc_nodup : NoDup dontCareSet;
  vi_true_range : ∀ m, m ∈ trueSet → 0 <= m < 2 ^ variables;
  vi_dc_range : ∀ m, m ∈ dontCareSet → 0 <= m < 2 ^ variables;
  vi_disjoint : ∀ m, m ∈ trueSet → m ∉ dontCareSet
}.

(** The value of variable [x_i] at a position: bit [i] of the position
    written on [variables] bits, most significant bit first. *)
Definition varAt (variables : Z) (p : Z) (i : nat) : bool :=
  Z.testbit p (variables - 1 - Z.of_nat i).

(** *** Reading an expression

    The expressions are read with juxtaposition as conjunction, [" + "] as
    disjunction, a postfix quote as negation, the constants [0] and [1],
    variables [x_] followed by a decimal index, and one level of
    parentheses. A level is the disjunction gathered so far and the
    conjunction being read ([None] before its first factor). *)

Definition level : Type := bool * option bool.

Record readState := {
  outer : level;
  inner : option level
}.

Definition levelFactor (lv : level) (v : bool) : level :=
  (lv.1, Some (match lv.2 with Some p => p && v | None => v end)).

Definition levelPlus (lv : level) : option level :=
  match lv.2 with
  | Some p => Some (lv.1 || p, None)
  | None => None
  end.

Definition levelValue (lv : level) : option bool :=
  match lv.2 with
  | Some p => Some (lv.1 || p)
  | None => None
  end.

Definition readFactor (st : readState) (v : bool) : readState :=
  match inner st with
  | Some lv => {| outer := outer st; inner := Some (levelFactor lv v) |}
  | None => {| outer := levelFactor (outer st) v; inner := None |}
  end.

Definition readPlus (st : readState) : option readState :=
  match inner st with
  | Some lv => lv' ← levelPlus lv; Some {| outer := outer st; inner := Some lv' |}
  | None => lv' ← levelPlus (outer st); Some {| outer := lv'; inner := None |}
  end.

Definition readOpen (st : readState) : option readState :=
  match inner st with
  | Some _ => None
  | None => Some {| outer := outer st; inner := Some (false, None) |}
  end.

Definition readClose (st : readState) : option readState :=
  lv ← inner st;
  v ← levelValue lv;
  Some {| outer := levelFactor (outer st) v; inner := None |}.

Definition readEnd (st : readState) : option bool :=
  match inner st with
  | Some _ => None
  | None => levelValue (outer st)
  end.

(** A variable whose index is being read is [pending]; it becomes a factor
    at the first character that is neither a digit nor a quote. *)
Definition commitPending (env : nat → bool) (st : readState) (pending : option nat)
    : readState :=
  match pending with
  | Some n => readFactor st (env n)
  | None => st
  end.

Fixpoint readFrom (env : nat → bool) (s : string) (st : readState)
    (pending : option nat) : option bool :=
  match s with
  | EmptyString => readEnd (commitPending env st pending)
  | String c rest =>
      match pending, Ascii.is_nat c with
      | Some n, Some d => readFrom env rest st (Some (10 * n + d)%nat)
      | _, _ =>
          if match pending with Some _ => Ascii.eqb c "'" | None => false end then
            match pending with
            | Some n => readFrom env rest (readFactor st (negb (env n))) None
            | None => None
            end
          else
            let st1 := commitPending env st pending in
            if Ascii.eqb c "0" then readFrom env rest (readFactor st1 false) None
            else if Ascii.eqb c "1" then readFrom env rest (readFactor st1 true) None
            else if Ascii.eqb c "(" then
              match readOpen st1 with
              | Some st2 => readFrom env rest st2 None
              | None => None
              end
            else if Ascii.eqb c ")" then
              match readClose st1 with
              | Some st2 => readFrom env rest st2 None
              | None => None
              end
            else if Ascii.eqb c "x" then
              match rest with
              | String "_" (String dc rest') =>
                  match Ascii.is_nat dc with
                  | Some d => readFrom env rest' st1 (Some d)
                  | None => None
                  end
              | _ => None
              end
            else if Ascii.eqb c " " then
              match rest with
              | String "+" (String " " rest') =>
                  match readPlus st1 with
                  | Some st2 => readFrom env rest' st2 None
                  | None => None
                  end
              | _ => None
              end
            else None
      end
  end.

(** The value of an expression text under an assignment of the variables;
    [None] for a text that is not an expression. *)
Definition evalExpr (env : nat → bool) (s : string) : option bool :=
  readFrom env s {| outer := (false, None); inner := None |} None.

(** The value of the expression at a position. *)
Definition evalAt (variables : Z) (s : string) (p : Z) : option bool :=
  evalExpr (varAt variables p) s.

(** *** Cubes *)

(** A position lies in a cube when each of its bits agrees with the
    character of the cube at that place, a dash agreeing with both. *)
Fixpoint cubeMatches (t : string) (bits : string) : bool :=
  match t, bits with
  | EmptyString, EmptyString => true
  | String c rest, String b rest' =>
      (Ascii.eqb c "-" || Ascii.eqb c b) && cubeMatches rest rest'
  | _, _ => false
  end.

Definition binaryOf (variables : Z) (m : Z) : string :=
  padStart (toString2 m) (Z.to_nat variables) "0".

Definition cubeCovers (variables : Z) (t : string) (m : Z) : bool :=
  cubeMatches t (binaryOf variables m).

(** *** Cyclic windows *)

(** [v] lies in the window of [len] consecutive indices that starts at
    [start] on a cycle of [size] indices. *)
Definition inCyclicWindow (size start len v : Z) : Prop :=
  ∃ k, 0 <= k < len ∧ v = (start + k) mod size.

(** The order in which the overlay rectangles are drawn: a larger area
    first, and among equal areas the lower group index first. *)
Definition drawnBefore (a b : GroupRect) : Prop :=
  area b < area a ∨ (area a = area b ∧ groupId a <= groupId b).

(** Whether every index of [uniq] lies in the window, as the inner loop of
    [minimalCyclicInterval] tests it. *)
Definition feasible (size : Z) (uniq : list Z) (start len : Z) : bool :=
  forallb (fun v => isInCyclicInterval v start len size) uniq.

(** *** Binary texts *)

Abbreviation chars := String.list_ascii_of_string.

Definition bitChar (b : bool) : ascii := if b then "1"%char else "0"%char.

(** The bits of [m] on [n] places, most significant first. *)
Definition bitsOf (n : nat) (m : Z) : list bool :=
  (fun i => Z.testbit m (Z.of_nat (n - 1 - i))) <$> seq 0 n.

(** The number written by a list of bits. *)
Definition bitsValue (bs : list bool) : Z :=
  foldl (fun a (b : bool) => 2 * a + (if b then 1 else 0)) 0 bs.

(** *** Cubes as lists of characters *)

Definition cubeChar (c : ascii) : Prop := c = "0"%char ∨ c = "1"%char ∨ c = "-"%char.

(** A cube is a text over [0], [1] and [-]. *)
Definition isCube (t : string) : Prop := Forall cubeChar (chars t).

(** The occurrences of a character in a list. *)
Definition countL (c : ascii) (l : list ascii) : nat :=
  length (filter (fun d => d = c) l).

(** A cube character agrees with a bit character. *)
Definition charAgrees (c b : ascii) : Prop := c = "-"%char ∨ c = b.

Definition matchesL (t b : list ascii) : Prop := Forall2 charAgrees t b.

(** *** The invariant of the cubes built by [runQM]

    For [variables] variables and the seed positions [seeds], a cube of
    round [r] has a term of [variables] characters over [0], [1] and [-]
    with [r] dashes; its positions are those below [2 ^ variables] that lie
    in the term, all of them seeds, listed in strictly increasing order,
    [2 ^ r] in number. *)
Record cubeInv (variables : Z) (seeds : list Z) (r : nat) (t : Implicant) : Prop := {
  ci_length : String.length (term t) = Z.to_nat variables;
  ci_cube : isCube (term t);
  ci_dashes : count_char "-" (term t) = r;
  ci_member : ∀ m, m ∈ minterms t ↔ 0 <= m < 2 ^ variables ∧ cubeCovers variables (term t) m = true;
  ci_seeds : ∀ m, m ∈ minterms t → m ∈ seeds;
  ci_sorted : StronglySorted Z.lt (minterms t);
  ci_card : length (minterms t) = (2 ^ r)%nat
}.

(** The positions of [t] are among those of [u]. *)
Definition subsumedBy (t u : Implicant) : Prop :=
  ∀ m, m ∈ minterms t → m ∈ minterms u.

(** *** The invariant of a combination round *)

(** A cube of the current round [r] filed in group [i]. *)
Definition curOK (variables : Z) (seeds : list Z) (r i : nat) (t : Implicant) : Prop :=
  cubeInv variables seeds r t ∧ count_char "1" (term t) = i.

(** A cube pushed on group [i] of the next round. *)
Definition nextOK (variables : Z) (seeds : list Z) (r i : nat) (u : Implicant) : Prop :=
  cubeInv variables seeds (S r) u ∧ count_char "1" (term u) = i ∧ isPrime u = true.

Definition absorbedIn (next : list Implicant) (t : Implicant) : Prop :=
  ∃ u, u ∈ next ∧ subsumedBy t u.

(** How a pass may change a cube: the term and the positions stay, and the
    flag changes only for a cube that lies in a cube pushed on [next]. *)
Definition stepRel (next : list Implicant) (t t' : Implicant) : Prop :=
  term t' = term t ∧ minterms t' = minterms t
  ∧ (isPrime t' = isPrime t ∨ absorbedIn next t).

(** The groups of round [r]: one group per number of ones, each holding
    cubes of the round with that many ones. *)
Definition groupsOK (variables : Z) (seeds : list Z) (r : nat)
    (cur : list (list Implicant)) : Prop :=
  length cur = Z.to_nat (variables + 1)
  ∧ ∀ j g, cur !! j = Some g → Forall (curOK variables seeds r j) g.

(** Every cube of the groups is still flagged prime. *)
Definition groupsFresh (cur : list (list Implicant)) : Prop :=
  ∀ t, t ∈ mjoin cur → isPrime t = true.

Definition nextsOK (variables : Z) (seeds : list Z) (r : nat)
    (next : list (list Implicant)) : Prop :=
  length next = Z.to_nat (variables + 1)
  ∧ ∀ j g, next !! j = Some g → Forall (nextOK variables seeds r j) g.

(** The invariant of the pass over the groups of round [r] that started
    from [cur0]: the state is the current groups with their flags and the
    next groups filled so far. *)
Definition scanInv (variables : Z) (seeds : list Z) (r : nat)
    (cur0 : list (list Implicant))
    (st : list (list Implicant) * list (list Implicant)) : Prop :=
  length st.1 = Z.to_nat (variables + 1)
  ∧ nextsOK variables seeds r st.2
  ∧ Forall2 (Forall2 (stepRel (mjoin st.2))) cur0 st.1.

(** *** The invariant of the covering loops

    For the primes [uniquePIs] and the required positions [required], a
    state of the covering loops holds chosen primes and positions still to
    cover: the positions are required ones, the chosen cubes are primes,
    every required position is still to cover or lies in a chosen prime,
    and no position of a chosen prime is still to cover. *)
Record coverInv (uniquePIs : list Implicant) (required : list Z)
    (st : list Implicant * list Z) : Prop := {
  cv_remaining : ∀ m, m ∈ st.2 → m ∈ required;
  cv_chosen : ∀ q, q ∈ st.1 → q ∈ uniquePIs;
  cv_covered : ∀ m, m ∈ required → m ∈ st.2 ∨ ∃ q, q ∈ st.1 ∧ m ∈ minterms q;
  cv_removed : ∀ q m, q ∈ st.1 → m ∈ minterms q → m ∉ st.2
}.

(** The invariant of the scan for the best prime, with [seen] the primes
    scanned so far. *)
Definition pickInv (finalPIs : list Implicant) (remaining : list Z)
    (seen : list Implicant) (st : option Implicant * Z) : Prop :=
  (∀ q, q ∈ seen → q ∉ finalPIs → coverCount remaining q <= snd st)
  ∧ (match fst st with
     | Some b => (b ∈ seen) ∧ (b ∉ finalPIs) ∧ (snd st = coverCount remaining b)
     | None => snd st = -1
     end).

(** *** Literals *)

(** The text [formatTerm] writes for the character [c] at place [i]:
    nothing for a dash, the variable with a quote for [0], the variable
    alone otherwise. *)
Definition sopLitText (vars : list string) (i : nat) (c : ascii) : string :=
  if Ascii.eqb c "-" then ""
  else default "undefined" (vars !! i) +:+ (if Ascii.eqb c "0" then "'" else "").

Fixpoint sopLitsText (vars : list string) (i : nat) (t : string) : string :=
  match t with
  | EmptyString => ""
  | String c rest => sopLitText vars i c +:+ sopLitsText vars (S i) rest
  end.

(** The rendering the specification words describe: the variable alone
    for [0], the variable with a quote for [1], nothing for a dash. *)
Definition sopLitTextAsWorded (vars : list string) (i : nat) (c : ascii) : string :=
  if Ascii.eqb c "0" then default "undefined" (vars !! i)
  else if Ascii.eqb c "1" then default "undefined" (vars !! i) +:+ "'"
  else "".

Fixpoint sopLitsTextAsWorded (vars : list string) (i : nat) (t : string) : string :=
  match t with
  | EmptyString => ""
  | String c rest => sopLitTextAsWorded vars i c +:+ sopLitsTextAsWorded vars (S i) rest
  end.

Definition sopTermAsWorded (t : string) (vars : list string) : string :=
  if only_dashes t then "1" else sopLitsTextAsWorded vars 0 t.

(** The literals of a zero-cube as [formatPosFromTerms] lists them: the
    variable alone for [0], with a quote for [1]. *)
Fixpoint posLits (vars : list string) (i : nat) (t : string) : list string :=
  match t with
  | EmptyString => []
  | String b rest =>
      (if Ascii.eqb b "0" then [default "undefined" (vars !! i)]
       else if Ascii.eqb b "1" then [default "undefined" (vars !! i) +:+ "'"]
       else []) ++ posLits vars (S i) rest
  end.

(** The value of the product a cube stands for, the characters being read
    from place [i]: [1] asks for the variable, [0] for its negation. *)
Fixpoint cubeHolds (env : nat → bool) (i : nat) (t : string) : bool :=
  match t with
  | EmptyString => true
  | String c rest =>
      (if Ascii.eqb c "1" then env i
       else if Ascii.eqb c "0" then negb (env i) else true)
      && cubeHolds env (S i) rest
  end.

(** A text that ends the reading of a variable index: empty, or starting
    with a character that is neither a digit nor a quote. *)
Definition endsIndex (rest : string) : Prop :=
  match rest with
  | EmptyString => True
  | String c _ => Ascii.is_nat c = None ∧ c ≠ "'"%char
  end.

(** The state after the literals of the cube [t], read as factors from
    place [i]; [zero] tells the polarity: for a zero-cube the character
    [0] stands for the variable and [1] for its negation. *)
Fixpoint readLits (env : nat → bool) (zero : bool) (i : nat) (t : string)
    (st : readState) : readState :=
  match t with
  | EmptyString => st
  | String c rest =>
      readLits env zero (S i) rest
        (if Ascii.eqb c "1" then readFactor st (xorb zero (env i))
         else if Ascii.eqb c "0" then readFactor st (xorb zero (negb (env i)))
         else st)
  end.

(** Loop turns that suffice for every loop of the solver on a valid
    input: one more than the number of positions, plus one. *)
Definition enoughFuel (variables : Z) (fuel : nat) : Prop :=
  (Z.to_nat (2 ^ variables) + 1 < fuel)%nat.


(** *** Completeness of the combination *)

(** Two cubes that a comparison combines, and the term it builds. *)
Definition combinable (t1 t2 : Implicant) : Prop :=
  diffIndex (term t1) (term t2) ≠ -1.

Definition mergedTerm (t1 t2 : Implicant) : string :=
  dashAt (term t1) (diffIndex (term t1) (term t2)).

(** The groups hold every cube of [variables] characters with [r]
    dashes. *)
Definition fullRound (variables : Z) (r : nat) (cur : list (list Implicant)) : Prop :=
  ∀ c, isCube c → String.length c = Z.to_nat variables → count_char "-" c = r →
       ∃ t, t ∈ mjoin cur ∧ term t = c.

(** The invariant of the pass for completeness, with [seen] the indices
    scanned so far: the terms of the current groups are those of [cur0],
    and the term of every combinable pair of groups [j] and [j + 1], for
    [j] scanned, is in the next groups. *)
Definition scanComplete (variables : Z) (cur0 : list (list Implicant))
    (seen : list nat)
    (st : list (list Implicant) * list (list Implicant)) : Prop :=
  (fun g : list Implicant => term <$> g) <$> st.1
  = (fun g : list Implicant => term <$> g) <$> cur0
  ∧ length st.2 = Z.to_nat (variables + 1)
  ∧ ∀ j g1 g2 t1 t2,
      j ∈ seen → cur0 !! j = Some g1 → cur0 !! S j = Some g2 →
      t1 ∈ g1 → t2 ∈ g2 → combinable t1 t2 →
      ∃ u, u ∈ mjoin st.2 ∧ term u = mergedTerm t1 t2.

(** * The code around the solver

    The truth-table utilities ([src/lib/truthTableUtils.ts]), the cells the
    grid shows ([renderGrid] of [src/components/KmapGrid.tsx]), the grid
    handlers of the application component ([KMapApp]: toggleCell,
    buildMintermsFromGrid, the [onApply] handler of the truth table, solve,
    buildDecimalFormTex) and the expression parser of the circuit view
    ([src/lib/logic-circuit.ts]). *)

(** ** 32-bit integer operators *)

Module Int32.

(** [ToInt32]: the integer modulo [2 ^ 32], read as a signed value. *)
Definition toInt32 (z : Z) : Z := (z + 2 ^ 31) mod 2 ^ 32 - 2 ^ 31.

(** The shift count: the low five bits of the right operand. *)
Definition shiftCount (n : Z) : Z := n mod 32.

(** [a << n]. *)
Definition shl (a n : Z) : Z := toInt32 (toInt32 a * 2 ^ shiftCount n).

(** [a >> n], the shift that keeps the sign. *)
Definition sar (a n : Z) : Z := Z.shiftr (toInt32 a) (shiftCount n).

(** [a & b] and [a | b]. *)
Definition and (a b : Z) : Z := Z.land (toInt32 a) (toInt32 b).
Definition or (a b : Z) : Z := Z.lor (toInt32 a) (toInt32 b).

End Int32.

(** ** Truth-table utilities ([src/lib/truthTableUtils.ts]) *)

(** [1 << n]. *)
Definition pow2 (n : Z) : Z := Int32.shl 1 n.

(** The bits of [index], from bit [variables - 1] down to bit [0]. *)
Definition indexToBits (index variables : Z) : list Z :=
  (fun i => Int32.and (Int32.sar index i) 1) <$> reverse (seqZ 0 variables).

Definition bitsToIndex (bits : list Z) : Z :=
  foldl (fun v b => Int32.or (Int32.shl v 1) (Int32.and b 1)) 0 bits.

(** [if (m >= 0 && m < size) table[m] = v]. *)
Definition setEntry (size v : Z) (table : list Z) (m : Z) : list Z :=
  if (0 <=? m) && (m <? size) then <[Z.to_nat m := v]> table else table.

(** [Array(size)] throws a [RangeError] for a negative length. The limit
    of the engine on the length of an array that [fill] can build is not
    part of the code and is not modelled: at a length the engine refuses
    (V8 throws a [RangeError] at [2 ^ 27] entries) the code throws where
    this definition returns, so what is proved of a returned table is
    about lengths the engine allocates. *)
Definition buildTableFromSets (variables : Z) (minterms dontCares : list Z)
    : outcome (list Z) :=
  let size := pow2 variables in
  if size <? 0 then Thrown
  else
    let table := replicate (Z.to_nat size) 0 in
    let table := foldl (setEntry size 1) table minterms in
    let table := foldl (setEntry size 2) table dontCares in
    Returned table.

Module TT.
Record Sets := {
  minterms : list Z;
  dontCares : list Z;
  maxterms : list Z
}.
End TT.

(** One turn of the loop of [setsFromTable]; [table[i] ?? 0] is [0] past
    the end of the table. *)
Definition setsStep (table : list Z) (acc : TT.Sets) (i : Z) : TT.Sets :=
  let v := default 0 (table !! Z.to_nat i) in
  if v =? 1 then
    {| TT.minterms := TT.minterms acc ++ [i];
       TT.dontCares := TT.dontCares acc;
       TT.maxterms := TT.maxterms acc |}
  else if v =? 2 then
    {| TT.minterms := TT.minterms acc;
       TT.dontCares := TT.dontCares acc ++ [i];
       TT.maxterms := TT.maxterms acc |}
  else
    {| TT.minterms := TT.minterms acc;
       TT.dontCares := TT.dontCares acc;
       TT.maxterms := TT.maxterms acc ++ [i] |}.

Definition setsFromTable (variables : Z) (table : list Z) : TT.Sets :=
  foldl (setsStep table)
        {| TT.minterms := []; TT.dontCares := []; TT.maxterms := [] |}
        (seqZ 0 (pow2 variables)).

(** ** The cells of the grid ([renderGrid] of [src/components/KmapGrid.tsx]) *)

(** The value shown in a cell: [1] for a minterm, [2] for a don't-care, the
    don't-care winning, [0] otherwise. *)
Definition cellValue (minterms dontCares : list Z) (mintermIndex : num) : Z :=
  let value := 0 in
  let value := if includes (Num <$> minterms) mintermIndex then 1 else value in
  if includes (Num <$> dontCares) mintermIndex then 2 else value.

(** The cells of one map, row by row: the position of each cell and the
    value shown in it. *)
Definition renderGrid (variables : Z) (minterms dontCares : list Z) (mapIndex : Z)
    : list (list (num * Z)) :=
  let dims := getGridDimensions variables in
  let rowCodes := generateGrayCodes (rowBits dims) in
  let colCodes := generateGrayCodes (colBits dims) in
  (fun rowCode =>
     (fun colCode =>
        let mintermIndex := getMintermIndex rowCode colCode (Some (Num mapIndex)) in
        (mintermIndex, cellValue minterms dontCares mintermIndex)) <$> colCodes)
    <$> rowCodes.

(** The maps shown: two for five variables, one otherwise. *)
Definition renderMaps (variables : Z) (minterms dontCares : list Z)
    : list (list (list (num * Z))) :=
  if variables =? 5 then
    [renderGrid variables minterms dontCares 0; renderGrid variables minterms dontCares 1]
  else [renderGrid variables minterms dontCares 0].

(** ** The grid of the application component ([KMapApp]) *)

(** The state [grid] is an object from positions to ["0"], ["1"] or ["-"]. *)
Abbreviation Grid := (gmap Z string).

(** [prev[idx] || "0"]: a missing entry and the empty text read as ["0"]. *)
Definition gridValue (grid : Grid) (idx : Z) : string :=
  match grid !! idx with
  | Some s => if String.eqb s "" then "0" else s
  | None => "0"
  end.

Definition toggleCell (idx : Z) (prev : Grid) : Grid :=
  let current := gridValue prev idx in
  let next :=
    if String.eqb current "0" then "1"
    else if String.eqb current "1" then "-" else "0" in
  <[idx := next]> prev.

(** One turn of the loop over [Object.entries(grid)]. *)
Definition gridStep (acc : list Z * list Z) (e : Z * string) : list Z * list Z :=
  let '(minterms, dontCares) := acc in
  let '(idx, val) := e in
  if String.eqb val "1" then (minterms ++ [idx], dontCares)
  else if String.eqb val "-" then (minterms, dontCares ++ [idx])
  else (minterms, dontCares).

(** [buildMintermsFromGrid], on the entries of the grid in the order in
    which [Object.entries] lists them. *)
Definition buildMintermsFromGrid (entries : list (Z * string)) : list Z * list Z :=
  let '(minterms, dontCares) := foldl gridStep ([], []) entries in
  (sort num_asc minterms, sort num_asc dontCares).

(** The [onApply] handler of the truth table: a fresh grid with ["1"] at
    the minterms, then ["-"] at the don't-cares. *)
Definition onApply (minterms dontCares : list Z) : Grid :=
  let nextGrid := foldl (fun g m => <[m := "1"]> g) (∅ : Grid) minterms in
  foldl (fun g d => <[d := "-"]> g) nextGrid dontCares.

(** The body of the [try] block of [solve]; a [Thrown] outcome is what the
    [catch] block turns into the message [solveFailed]. *)
Definition solve (fuel : nat) (numVars : Z) (entries : list (Z * string)) (isSop : bool)
    : outcome SolverResult :=
  let '(minterms, dontCares) := buildMintermsFromGrid entries in
  solveCustom fuel numVars minterms dontCares isSop.

(** A loop that pushes the values passing a test. *)
Definition pushIf {A} (keep : A -> bool) (l : list A) : list A :=
  foldl (fun acc v => if keep v then acc ++ [v] else acc) [] l.

(** [buildDecimalFormTex], for [variables >= 0], where [Math.pow(2,
    variables)] is [2 ^ variables]. *)
Definition buildDecimalFormTex (variables : Z) (minterms dontCares : list Z)
    (isSop : bool) : string :=
  let total := 2 ^ variables in
  let fmtList := fun xs : list Z => join ", " (to_decimal <$> xs) in
  let hasDC := (0 <? length dontCares)%nat in
  if isSop then
    if (length minterms =? 0)%nat then "0"
    else if Z.of_nat (length minterms + length dontCares) =? total then "1"
    else
      let base := "\Sigma_{1}\left(" +:+ fmtList minterms +:+ "\right)" in
      let dc :=
        if hasDC then " + \Sigma_{d}\left(" +:+ fmtList dontCares +:+ "\right)" else "" in
      base +:+ dc
  else
    let mtSet := foldl set_add [] minterms in
    let dcSet := foldl set_add [] dontCares in
    let zeros := pushIf (fun i => negb (set_has mtSet i) && negb (set_has dcSet i))
                        (seqZ 0 total) in
    if (length zeros =? 0)%nat then "1"
    else if Z.of_nat (length zeros + length dontCares) =? total then "0"
    else
      let base := "\Pi_{0}\left(" +:+ fmtList zeros +:+ "\right)" in
      let dc :=
        if hasDC then "\,\cdot\,\Pi_{d}\left(" +:+ fmtList dontCares +:+ "\right)" else "" in
      base +:+ dc.

(** ** The expression parser of the circuit view ([src/lib/logic-circuit.ts]) *)

Module Circuit.

Record Literal := { variable : Z; negated : bool }.

Record Clause := { literals : list Literal }.

Inductive Mode := SOP | POS.

Record CircuitDefinition := {
  mode : Mode;
  clauses : list Clause;
  constant : option string
}.

End Circuit.

(** White space as [trim] sees it, among the characters below 256: the
    control characters 9 to 13, the space and the no-break space. *)
Definition isWhiteSpace (c : ascii) : bool :=
  Ascii.is_space c || Ascii.eqb c "160".

Fixpoint trimStart (s : string) : string :=
  match s with
  | String c rest => if isWhiteSpace c then trimStart rest else s
  | EmptyString => s
  end.

Fixpoint trimEnd (s : string) : string :=
  match s with
  | String c rest =>
      match trimEnd rest with
      | EmptyString => if isWhiteSpace c then EmptyString else String c EmptyString
      | rest' => String c rest'
      end
  | EmptyString => EmptyString
  end.

(** [s.trim()]. *)
Definition trim (s : string) : string := trimEnd (trimStart s).

(** [\d]: a decimal digit. *)
Definition isDigit (c : ascii) : bool :=
  match Ascii.is_nat c with Some _ => true | None => false end.

(** The longest run of characters passing the test at the head of a text,
    and the rest of the text. *)
Fixpoint takeWhile (test : ascii -> bool) (s : string) : string * string :=
  match s with
  | String c rest =>
      if test c then let '(run, rest') := takeWhile test rest in (String c run, rest')
      else (EmptyString, s)
  | EmptyString => (EmptyString, EmptyString)
  end.

(** A match of the literal pattern, [x_], digits and an optional quote, at
    the head of a text: the digits, whether a
    quote follows them, and the length of the match. The digits and the
    quote are taken greedily, and no shorter choice can match where the
    greedy one does not. *)
Definition literalAt (s : string) : option (string * bool * nat) :=
  match s with
  | String "x"%char (String "_"%char rest) =>
      let '(digits, rest') := takeWhile isDigit rest in
      match digits with
      | EmptyString => None
      | _ =>
          match rest' with
          | String "'"%char _ => Some (digits, true, (3 + String.length digits)%nat)
          | _ => Some (digits, false, (2 + String.length digits)%nat)
          end
      end
  | _ => None
  end.

(** [Number(digits)] for a run of decimal digits. *)
Definition toNumber (digits : string) : Z :=
  default 0 (parse_digits 10 None digits).

Definition parseLiteral (token : string) : option Circuit.Literal :=
  match literalAt (trim token) with
  | Some (digits, quote, _) =>
      Some {| Circuit.variable := toNumber digits; Circuit.negated := quote |}
  | None => None
  end.

(** The global match of the literal pattern: the matches from left to right, the
    search going on after each match and one character further where
    there is none; [skip] counts the characters of a match still to pass. *)
Fixpoint matchLiterals_from (skip : nat) (s : string) : list string :=
  match s with
  | EmptyString => []
  | String _ rest =>
      match skip with
      | S k => matchLiterals_from k rest
      | O =>
          match literalAt s with
          | Some (_, _, len) => String.substring 0 len s :: matchLiterals_from (len - 1) rest
          | None => matchLiterals_from 0 rest
          end
      end
  end.

Definition matchLiterals (term : string) : list string := matchLiterals_from 0 term.

(** [s.split(sep)] for a separator that is not empty: [cur] is the piece
    being read and [skip] counts the characters of a separator still to
    pass. *)
Fixpoint split_from (sep : string) (skip : nat) (cur : string) (s : string)
    : list string :=
  match s with
  | EmptyString => [cur]
  | String c rest =>
      match skip with
      | S k => split_from sep k cur rest
      | O =>
          if String.prefix sep s
          then cur :: split_from sep (String.length sep - 1) EmptyString rest
          else split_from sep 0 (cur +:+ String c EmptyString) rest
      end
  end.

Definition split (sep : string) (s : string) : list string :=
  split_from sep 0 EmptyString s.

Definition clauseOf (tokens : list string) : Circuit.Clause :=
  {| Circuit.literals := omap parseLiteral tokens |}.

Definition hasLiterals (clause : Circuit.Clause) : bool :=
  (0 <? length (Circuit.literals clause))%nat.

Definition parseSopExpression (expression : string) : list Circuit.Clause :=
  List.filter hasLiterals
    ((fun term => clauseOf (matchLiterals term)) <$> split " + " expression).

Definition isParen (c : ascii) : bool := Ascii.eqb c "(" || Ascii.eqb c ")".

(** The matches of [matchAll] for the pattern of one factor, an opening
    parenthesis, characters other than parentheses and a closing
    parenthesis: the texts between an opening parenthesis and the next
    parenthesis when that one is a closing one. *)
Fixpoint matchFactors_from (skip : nat) (s : string) : list string :=
  match s with
  | EmptyString => []
  | String c rest =>
      match skip with
      | S k => matchFactors_from k rest
      | O =>
          if Ascii.eqb c "(" then
            let '(inner, rest') := takeWhile (fun d => negb (isParen d)) rest in
            match rest' with
            | String ")"%char _ =>
                inner :: matchFactors_from (String.length inner + 1) rest
            | _ => matchFactors_from 0 rest
            end
          else matchFactors_from 0 rest
      end
  end.

Definition matchFactors (expression : string) : list string :=
  matchFactors_from 0 expression.

Definition nonEmpty (s : string) : bool := negb (String.eqb s "").

Definition parsePosExpression (expression : string) : list Circuit.Clause :=
  List.filter hasLiterals
    ((fun factor =>
        clauseOf (List.filter nonEmpty (trim <$> split "+" factor)))
       <$> matchFactors expression).

Definition buildCircuitDefinition (expression : string) (isSop : bool)
    : Circuit.CircuitDefinition :=
  let normalized := trim expression in
  let mode := if isSop then Circuit.SOP else Circuit.POS in
  if String.eqb normalized "0" || String.eqb normalized "1" then
    {| Circuit.mode := mode; Circuit.clauses := []; Circuit.constant := Some normalized |}
  else
    let clauses :=
      if isSop then parseSopExpression normalized else parsePosExpression normalized in
    {| Circuit.mode := mode; Circuit.clauses := clauses; Circuit.constant := None |}.

(** ** Notions used to state the further properties *)

(** The number of places at which two texts differ, over their common
    length. *)
Fixpoint differences (a b : string) : nat :=
  match a, b with
  | String c a', String d b' =>
      ((if Ascii.eqb c d then 0 else 1) + differences a' b')%nat
  | _, _ => 0%nat
  end.

(** Neighbours in the list differ at one place. *)
Fixpoint chained (l : list string) : Prop :=
  match l with
  | a :: (b :: _) as rest => differences a b = 1%nat ∧ chained rest
  | _ => True
  end.

(** The literals a cube stands for as a product, from place [i] on: the
    variable for [1], its negation for [0], nothing for a dash. *)
Fixpoint cubeLiterals (i : nat) (t : string) : list Circuit.Literal :=
  match t with
  | EmptyString => []
  | String c rest =>
      (if Ascii.eqb c "1" then [{| Circuit.variable := Z.of_nat i; Circuit.negated := false |}]
       else if Ascii.eqb c "0"
            then [{| Circuit.variable := Z.of_nat i; Circuit.negated := true |}]
            else [])
      ++ cubeLiterals (S i) rest
  end.

(** The literals a zero-cube stands for as a sum: the variable for [0],
    its negation for [1]. *)
Fixpoint cubeSumLiterals (i : nat) (t : string) : list Circuit.Literal :=
  match t with
  | EmptyString => []
  | String c rest =>
      (if Ascii.eqb c "0" then [{| Circuit.variable := Z.of_nat i; Circuit.negated := false |}]
       else if Ascii.eqb c "1"
            then [{| Circuit.variable := Z.of_nat i; Circuit.negated := true |}]
            else [])
      ++ cubeSumLiterals (S i) rest
  end.

(** The output of the circuit a definition stands for, at a position: a
    literal is the bit of its variable, negated or not; a sum of products
    is an OR of ANDs, a product of sums an AND of ORs; a constant is
    itself. *)
Definition literalValue (variables p : Z) (l : Circuit.Literal) : bool :=
  xorb (Z.testbit p (variables - 1 - Circuit.variable l)) (Circuit.negated l).

Definition circuitValue (variables : Z) (def : Circuit.CircuitDefinition) (p : Z) : bool :=
  match Circuit.constant def with
  | Some c => String.eqb c "1"
  | None =>
      match Circuit.mode def with
      | Circuit.SOP =>
          existsb (fun cl => forallb (literalValue variables p) (Circuit.literals cl))
                  (Circuit.clauses def)
      | Circuit.POS =>
          forallb (fun cl => existsb (literalValue variables p) (Circuit.literals cl))
                  (Circuit.clauses def)
      end
  end.

(** The text of a literal with a one-digit index. *)
Definition litText (d : ascii) (q : bool) : string :=
  String "x" (String "_" (String d (if q then "'" else ""))).

(** A character of a literal: no white space, no plus sign and no
    parenthesis. *)
Definition plainChar (c : ascii) : Prop :=
  isWhiteSpace c = false ∧ c ≠ "+"%char ∧ isParen c = false.

Definition plainText (s : string) : Prop := Forall plainChar (chars s).

(** ** Prime implicants

    The notions in which the primes of [runQM] are described. *)

(** The cube [c] is an implicant of a function that is true or free on
    [seeds]: every position it covers is a seed. *)
Definition implicant (variables : Z) (seeds : list Z) (c : string) : Prop :=
  ∀ m, 0 <= m < 2 ^ variables → cubeCovers variables c m = true → m ∈ seeds.

(** A prime implicant: an implicant cube of [variables] characters that
    stops being one as soon as one of its fixed characters is freed. *)
Definition primeImplicant (variables : Z) (seeds : list Z) (c : string) : Prop :=
  isCube c ∧ String.length c = Z.to_nat variables ∧ implicant variables seeds c
  ∧ ∀ (k : nat) (ch : ascii), chars c !! k = Some ch → ch ≠ "-"%char →
      ¬ implicant variables seeds (dashAt c (Z.of_nat k)).

(** The groups hold every implicant cube with [r] dashes. *)
Definition roundComplete (variables : Z) (seeds : list Z) (r : nat)
    (cur : list (list Implicant)) : Prop :=
  ∀ c, isCube c → String.length c = Z.to_nat variables → count_char "-" c = r →
       implicant variables seeds c → ∃ t, t ∈ mjoin cur ∧ term t = c.

(** The text [s] differs at one place from the term of a cube of the
    round. *)
Definition partnerIn (cur0 : list (list Implicant)) (s : string) : Prop :=
  ∃ t, t ∈ mjoin cur0 ∧ (diffIndex s (term t) ≠ -1 ∨ diffIndex (term t) s ≠ -1).

(** How a pass may change the flag of a cube: the term stays, the flag is
    never set again, and it is cleared only for a cube whose term
    satisfies [P]. *)
Definition flagStep (P : string → Prop) (t t' : Implicant) : Prop :=
  term t' = term t ∧ (isPrime t' = true → isPrime t = true)
  ∧ (isPrime t' = isPrime t ∨ P (term t)).

(** The invariant of the pass for the flags, with [seen] the indices
    scanned so far: flags are cleared only for cubes with a partner in the
    round, and the two cubes of every combinable pair of groups [j] and
    [j + 1], for [j] scanned, have their flags cleared. *)
Definition scanFlags (cur0 : list (list Implicant)) (seen : list nat)
    (st : list (list Implicant) * list (list Implicant)) : Prop :=
  Forall2 (Forall2 (flagStep (partnerIn cur0))) cur0 st.1
  ∧ ∀ j g1 g2 t1 t2,
      j ∈ seen → st.1 !! j = Some g1 → st.1 !! S j = Some g2 →
      t1 ∈ g1 → t2 ∈ g2 → combinable t1 t2 →
      isPrime t1 = false ∧ isPrime t2 = false.

(** ** The cells of a cube on the map *)

(** The cubes of [n] characters. *)
Fixpoint cubesOf (n : nat) : list string :=
  match n with
  | O => [EmptyString]
  | S k => c ← ["0"; "1"; "-"]%char; String c <$> cubesOf k
  end.

(** The positions a cube covers, in increasing order. *)
Definition cubePositions (variables : Z) (c : string) : list Z :=
  filter (fun m => cubeCovers variables c m = true) (seqZ 0 (2 ^ variables)).

(** The cell at row [rc.1] and column [rc.2] lies inside the rectangle. *)
Definition inRect (rect : GroupRect) (rc : Z * Z) : bool :=
  (x rect <=? rc.2) && (rc.2 <? x rect + w rect)
  && (y rect <=? rc.1) && (rc.1 <? y rect + h rect).

(** Whether every cell of the map inside a rectangle drawn for the
    positions of the cube [c] holds one of these positions. *)
Definition enclosesCube (variables mapIndex : Z) (c : string) : bool :=
  let dims := getGridDimensions variables in
  let rowCodes := generateGrayCodes (rowBits dims) in
  let colCodes := generateGrayCodes (colBits dims) in
  let table := coordTable rowCodes colCodes mapIndex in
  forallb (fun rect =>
             forallb (fun e : num * (Z * Z) =>
                        implb (inRect rect e.2)
                              (match e.1 with
                               | Num m => bool_decide (m ∈ cubePositions variables c)
                               | NaN => false
                               end))
                     (map_to_list table))
          (groupRects rowCodes colCodes table 0 (cubePositions variables c)).


(** ** Strings as lists of characters *)

Section Chars.

Lemma chars_app (a b : string) : chars (a +:+ b) = chars a ++ chars b.
Proof. induction a as [|c a IH]; simpl; [done|]. by rewrite IH. Qed.

Lemma chars_length (s : string) : length (chars s) = String.length s.
Proof. induction s as [|c s IH]; simpl; [done|]. by rewrite IH. Qed.

Lemma chars_inj (a b : string) : chars a = chars b → a = b.
Proof.
  intros H. rewrite <- (String.string_of_list_ascii_of_string a),
    <- (String.string_of_list_ascii_of_string b). by rewrite H.
Qed.

Lemma chars_repeat (c : ascii) (n : nat) : chars (repeat_char c n) = replicate n c.
Proof. induction n as [|n IH]; simpl; [done|]. by rewrite IH. Qed.

Lemma chars_get (s : string) (i : nat) : String.get i s = chars s !! i.
Proof.
  revert i. induction s as [|c s IH]; intros [|i]; simpl; auto.
Qed.

Lemma chars_substring (s : string) (a n : nat) :
  chars (String.substring a n s) = take n (drop a (chars s)).
Proof.
  revert a n. induction s as [|c s IH]; intros [|a] [|n]; simpl; try done;
    by rewrite IH.
Qed.

Lemma chars_slice_from (s : string) (a : nat) :
  chars (slice_from s a) = drop a (chars s).
Proof.
  unfold slice_from. rewrite chars_substring, <- chars_length.
  apply take_ge. rewrite length_drop. lia.
Qed.

Lemma string_app_assoc (a b c : string) : (a +:+ b) +:+ c = a +:+ (b +:+ c).
Proof. apply chars_inj. rewrite !chars_app. by rewrite <- app_assoc. Qed.

Lemma string_app_cons (c : ascii) (a b : string) :
  String c a +:+ b = String c (a +:+ b).
Proof. done. Qed.

Lemma string_app_nil_l (a : string) : "" +:+ a = a.
Proof. done. Qed.

Lemma string_app_nil_r (a : string) : a +:+ "" = a.
Proof. apply chars_inj. rewrite chars_app. simpl. by rewrite app_nil_r. Qed.

End Chars.

(** ** The binary text of a position *)


Section Binary.

Lemma bitsOf_S (n : nat) (m : Z) :
  bitsOf (S n) m = bitsOf n (Z.div2 m) ++ [Z.odd m].
Proof.
  unfold bitsOf. rewrite seq_S, fmap_app. simpl. f_equal.
  - apply list_fmap_ext. intros i k Hk.
    apply lookup_seq in Hk as [-> Hlt]. simpl.
    rewrite Z.div2_spec, Z.shiftr_spec by lia. f_equal. lia.
  - replace (n - 0 - n)%nat with 0%nat by lia. by rewrite Z.bit0_odd.
Qed.

Lemma bitsOf_zero (n : nat) : bitsOf n 0 = replicate n false.
Proof.
  induction n as [|n IH]; [done|].
  rewrite bitsOf_S. simpl Z.div2. rewrite IH. simpl.
  change [false] with (replicate 1 false). rewrite <- replicate_add.
  by replace (n + 1)%nat with (S n) by lia.
Qed.

Lemma pos_to_bin_bits (p : positive) :
  chars (pos_to_bin p) = bitChar <$> bitsOf (Pos.size_nat p) (Zpos p).
Proof.
  induction p as [p IH|p IH|]; simpl pos_to_bin; simpl Pos.size_nat.
  - rewrite chars_app, IH, bitsOf_S, fmap_app. done.
  - rewrite chars_app, IH, bitsOf_S, fmap_app. done.
  - done.
Qed.

Lemma bitsOf_length (n : nat) (m : Z) : length (bitsOf n m) = n.
Proof. unfold bitsOf. by rewrite length_fmap, length_seq. Qed.

(** Above the size of the number the bits are zero. *)
Lemma bitsOf_pad (k n : nat) (m : Z) :
  0 <= m < 2 ^ Z.of_nat n →
  bitsOf (k + n) m = replicate k false ++ bitsOf n m.
Proof.
  revert m. induction n as [|n IH]; intros m Hm.
  - assert (m = 0) as -> by (simpl in Hm; lia).
    rewrite !bitsOf_zero, Nat.add_0_r. simpl. by rewrite app_nil_r.
  - replace (k + S n)%nat with (S (k + n)) by lia.
    rewrite !bitsOf_S, IH, app_assoc; [done|].
    rewrite Z.div2_div. rewrite Nat2Z.inj_succ, Z.pow_succ_r in Hm by lia.
    split; [apply Z.div_pos; lia|]. apply Z.div_lt_upper_bound; lia.
Qed.

Lemma pos_size_bound (p : positive) : Zpos p < 2 ^ Z.of_nat (Pos.size_nat p).
Proof.
  induction p as [p IH|p IH|]; simpl Pos.size_nat;
    rewrite ?Nat2Z.inj_succ, ?Z.pow_succ_r by lia; lia.
Qed.

Lemma pos_size_le (p : positive) (n : nat) :
  Zpos p < 2 ^ Z.of_nat n → (Pos.size_nat p <= n)%nat.
Proof.
  revert n. induction p as [p IH|p IH|]; intros [|n] H; simpl Pos.size_nat;
    rewrite ?Nat2Z.inj_succ, ?Z.pow_succ_r in H by lia; simpl in H; try lia.
  - specialize (IH n). lia.
  - specialize (IH n). lia.
Qed.

(** The text [m.toString(2).padStart(variables, "0")] of a position in
    range is its [variables] bits, most significant first. *)
Lemma binaryOf_bits (variables m : Z) :
  1 <= variables → 0 <= m < 2 ^ variables →
  chars (binaryOf variables m) = bitChar <$> bitsOf (Z.to_nat variables) m.
Proof.
  intros Hv Hm. unfold binaryOf, padStart.
  set (n := Z.to_nat variables). assert (variables = Z.of_nat n) as Hn by lia.
  rewrite Hn in Hm. rewrite chars_app, chars_repeat.
  destruct m as [|p|p]; [| |lia].
  - simpl. rewrite bitsOf_zero. destruct n as [|n]; [lia|].
    simpl. rewrite Nat.sub_0_r, fmap_replicate. simpl.
    change ("0"%char :: replicate n "0"%char) with (replicate (S n) "0"%char).
    change ["0"%char] with (replicate 1 "0"%char).
    rewrite <- replicate_add. f_equal. lia.
  - simpl toString2. rewrite <- chars_length, pos_to_bin_bits.
    rewrite length_fmap, bitsOf_length.
    pose proof (pos_size_le p n ltac:(lia)) as Hle.
    replace n with ((n - Pos.size_nat p) + Pos.size_nat p)%nat at 2 by lia.
    rewrite bitsOf_pad by (split; [lia|apply pos_size_bound]).
    by rewrite fmap_app, fmap_replicate.
Qed.

End Binary.


Section BinaryValue.

Lemma bitsValue_bitsOf (n : nat) (m : Z) :
  0 <= m < 2 ^ Z.of_nat n → bitsValue (bitsOf n m) = m.
Proof.
  revert m. induction n as [|n IH]; intros m Hm.
  - simpl in Hm. unfold bitsValue. simpl. lia.
  - rewrite bitsOf_S. unfold bitsValue. rewrite foldl_app. simpl.
    fold (bitsValue (bitsOf n (Z.div2 m))). rewrite IH.
    + rewrite (Z.div2_odd m) at 3. by destruct (Z.odd m).
    + rewrite Z.div2_div. rewrite Nat2Z.inj_succ, Z.pow_succ_r in Hm by lia.
      split; [apply Z.div_pos; lia|]. apply Z.div_lt_upper_bound; lia.
Qed.

Lemma binaryOf_text (variables m : Z) :
  1 <= variables → 0 <= m < 2 ^ variables →
  binaryOf variables m
  = String.string_of_list_ascii (bitChar <$> bitsOf (Z.to_nat variables) m).
Proof.
  intros Hv Hm. apply chars_inj.
  rewrite String.list_ascii_of_string_of_list_ascii. by apply binaryOf_bits.
Qed.

End BinaryValue.

Local Ltac roundtrip_case n :=
  match goal with
  | Hm : 0 <= ?m < _ |- _ =>
      unfold getCoordinates; simpl Z.eqb; cbv iota;
      fold (binaryOf n m);
      rewrite (binaryOf_text n m) by lia;
      let Hval := fresh "Hval" in
      let Hlen := fresh "Hlen" in
      assert (Hval : bitsValue (bitsOf (Z.to_nat n) m) = m)
        by (apply bitsValue_bitsOf; rewrite Z2Nat.id; lia);
      pose proof (bitsOf_length (Z.to_nat n) m) as Hlen;
      revert Hval Hlen; generalize (bitsOf (Z.to_nat n) m);
      clear Hm; intros bs Hval Hlen; subst m;
      repeat (destruct bs as [|[] bs]; try discriminate Hlen);
      reflexivity
  end.

(** C10. Splitting a position with [getCoordinates] and handing the row
    bits, the column bits and the map number to [getMintermIndex] gives the
    position back, for two to five variables and every position below
    [2 ^ vars]. *)
Theorem coordinates_roundtrip (vars m : Z) :
  2 <= vars <= 5 → 0 <= m < 2 ^ vars →
  getMintermIndex (rowBin (getCoordinates m vars))
                  (colBin (getCoordinates m vars))
                  (Some (map (getCoordinates m vars))) = Num m.
Proof.
  intros Hv Hm.
  assert (vars = 2 ∨ vars = 3 ∨ vars = 4 ∨ vars = 5) as [->|[->|[->| ->]]] by lia.
  - roundtrip_case 2.
  - roundtrip_case 3.
  - roundtrip_case 4.
  - roundtrip_case 5.
Qed.

Lemma coordinates_roundtrip_witness :
  getMintermIndex (rowBin (getCoordinates 19 5))
                  (colBin (getCoordinates 19 5))
                  (Some (map (getCoordinates 19 5))) = Num 19.
Proof. apply (coordinates_roundtrip 5 19); lia. Defined.

(** ** Sorting *)

Section Sort.
Context {A : Type} (cmp : A → A → Z).

Lemma sort_insert_perm (a : A) (l : list A) : sort_insert cmp a l ≡ₚ a :: l.
Proof.
  induction l as [|b l IH]; simpl; [done|].
  destruct (cmp a b <=? 0); [done|]. rewrite IH. apply Permutation_swap.
Qed.

Lemma sort_perm (l : list A) : sort cmp l ≡ₚ l.
Proof.
  induction l as [|a l IH]; simpl; [done|].
  rewrite sort_insert_perm. by rewrite IH.
Qed.

Lemma sort_length (l : list A) : length (sort cmp l) = length l.
Proof. by rewrite sort_perm. Qed.

Lemma elem_of_sort (a : A) (l : list A) : a ∈ sort cmp l ↔ a ∈ l.
Proof. by rewrite sort_perm. Qed.

Hypothesis cmp_total : ∀ a b, cmp a b <= 0 ∨ cmp b a <= 0.
Hypothesis cmp_trans : ∀ a b c, cmp a b <= 0 → cmp b c <= 0 → cmp a c <= 0.

Lemma sort_insert_sorted (a : A) (l : list A) :
  StronglySorted (fun u v => cmp u v <= 0) l →
  StronglySorted (fun u v => cmp u v <= 0) (sort_insert cmp a l).
Proof.
  induction 1 as [|b l Hs IH Hb]; simpl.
  - repeat constructor.
  - destruct (Z.leb_spec (cmp a b) 0) as [Hab|Hab].
    + constructor; [by constructor|].
      constructor; [done|].
      eapply Forall_impl; [exact Hb|]. intros c Hc. by eapply cmp_trans.
    + constructor; [done|].
      apply Forall_forall. intros c Hc.
      rewrite sort_insert_perm in Hc.
      apply elem_of_cons in Hc as [->|Hc].
      * destruct (cmp_total a b); lia.
      * by eapply Forall_forall in Hb.
Qed.

Lemma sort_sorted (l : list A) : StronglySorted (fun u v => cmp u v <= 0) (sort cmp l).
Proof.
  induction l as [|a l IH]; simpl; [constructor|]. by apply sort_insert_sorted.
Qed.

End Sort.

Lemma StronglySorted_impl {A} (R S : A → A → Prop) (l : list A) :
  (∀ a b, R a b → S a b) → StronglySorted R l → StronglySorted S l.
Proof.
  intros HRS. induction 1 as [|a l Hs IH Ha]; constructor; [done|].
  eapply Forall_impl; [exact Ha|]. auto.
Qed.

Lemma sort_num_asc_sorted (l : list Z) : StronglySorted Z.le (sort num_asc l).
Proof.
  eapply StronglySorted_impl; [|apply (sort_sorted num_asc)].
  - unfold num_asc. intros a b. simpl. lia.
  - unfold num_asc. intros; lia.
  - unfold num_asc. intros; lia.
Qed.

Lemma rect_cmp_drawnBefore (a b : GroupRect) : rect_cmp a b <= 0 ↔ drawnBefore a b.
Proof.
  unfold rect_cmp, drawnBefore.
  destruct (Z.eqb_spec (area b - area a) 0); lia.
Qed.

(** C8. Whatever the groups and the map, the overlay rectangles come out
    ordered by descending area, and rectangles of equal area by ascending
    group index: every rectangle is drawn before all those after it. *)
Theorem overlays_sorted (variables : Z) (groups : option (list (list Z)))
    (mapIndex : Z) :
  StronglySorted drawnBefore (buildGroupOverlays variables groups mapIndex).
Proof.
  unfold buildGroupOverlays.
  destruct groups as [[|g gs]|]; try constructor.
  eapply StronglySorted_impl; [intros a b; apply rect_cmp_drawnBefore|].
  apply sort_sorted.
  - intros a b. unfold rect_cmp.
    destruct (Z.eqb_spec (area b - area a) 0), (Z.eqb_spec (area a - area b) 0); lia.
  - intros a b c. unfold rect_cmp.
    destruct (Z.eqb_spec (area b - area a) 0), (Z.eqb_spec (area c - area b) 0),
      (Z.eqb_spec (area c - area a) 0); lia.
Qed.

(** ** Sets in insertion order *)

Section InsertionSets.
Context {A : Type} `{EqDecision A}.

Lemma elem_of_set_add (s : list A) (a b : A) : b ∈ set_add s a ↔ b ∈ s ∨ b = a.
Proof.
  unfold set_add, set_has. case_bool_decide.
  - split; [auto|]. intros [?| ->]; done.
  - rewrite elem_of_app, list_elem_of_singleton. done.
Qed.

Lemma NoDup_set_add (s : list A) (a : A) : NoDup s → NoDup (set_add s a).
Proof.
  intros Hs. unfold set_add, set_has. case_bool_decide; [done|].
  apply NoDup_app. split_and!; [done| |apply NoDup_singleton].
  intros b Hb ->%list_elem_of_singleton. done.
Qed.

Lemma elem_of_foldl_set_add (xs s : list A) (b : A) :
  b ∈ foldl set_add s xs ↔ b ∈ s ∨ b ∈ xs.
Proof.
  revert s. induction xs as [|a xs IH]; intros s; simpl.
  - rewrite elem_of_nil. tauto.
  - rewrite IH, elem_of_set_add, elem_of_cons. tauto.
Qed.

Lemma NoDup_foldl_set_add (xs s : list A) : NoDup s → NoDup (foldl set_add s xs).
Proof.
  revert s. induction xs as [|a xs IH]; intros s Hs; simpl; [done|].
  by apply IH, NoDup_set_add.
Qed.

End InsertionSets.

Lemma elem_of_uniqueSorted (xs : list Z) (v : Z) : v ∈ uniqueSorted xs ↔ v ∈ xs.
Proof.
  unfold uniqueSorted. rewrite elem_of_sort, elem_of_foldl_set_add, elem_of_nil. tauto.
Qed.

Lemma NoDup_uniqueSorted (xs : list Z) : NoDup (uniqueSorted xs).
Proof.
  unfold uniqueSorted. rewrite sort_perm. apply NoDup_foldl_set_add, NoDup_nil_2.
Qed.

(** ** Cyclic windows *)

Section Cyclic.
Variable size : Z.
Hypothesis size_pos : 1 <= size.

Lemma isInCyclicInterval_window (v start len : Z) :
  0 <= v < size → 0 <= start < size →
  isInCyclicInterval v start len size = true ↔ inCyclicWindow size start len v.
Proof.
  intros Hv Hs. unfold isInCyclicInterval, inCyclicWindow.
  rewrite Z.ltb_lt, Z.rem_mod_nonneg by lia.
  split.
  - intros Hlt. exists ((v - start + size) mod size).
    split; [split; [apply Z.mod_pos_bound; lia|done]|].
    rewrite Zplus_mod_idemp_r.
    replace (start + (v - start + size)) with (v + 1 * size) by lia.
    rewrite Z.mod_add, Z.mod_small; lia.
  - intros (k & Hk & ->).
    rewrite <- Zplus_mod_idemp_l, Zminus_mod_idemp_l.
    replace (start + k - start) with k by lia.
    rewrite Zplus_mod_idemp_l.
    replace (k + size) with (k + 1 * size) by lia. rewrite Z.mod_add by lia.
    pose proof (Z.mod_le k size ltac:(lia) ltac:(lia)). lia.
Qed.

Lemma inCyclicWindow_mod (start len v : Z) :
  inCyclicWindow size start len v ↔ inCyclicWindow size (start mod size) len v.
Proof.
  unfold inCyclicWindow. by setoid_rewrite Zplus_mod_idemp_l.
Qed.

(** A window shorter than the cycle misses the index just past its end. *)
Lemma window_misses (start len : Z) :
  0 <= len < size →
  ¬ inCyclicWindow size start len ((start + len) mod size).
Proof.
  intros Hlen (k & Hk & Heq).
  assert ((len - k) mod size = 0) as Hz.
  { replace (len - k) with ((start + len) - (start + k)) by lia.
    rewrite Zminus_mod, Heq, Z.sub_diag. by apply Z.mod_0_l; lia. }
  rewrite Z.mod_small in Hz; lia.
Qed.

Variable uniq : list Z.

Lemma scan_starts_spec (len : Z) (starts : list Z) (best : Interval) :
  (scan_starts uniq len size starts best = best
     ∧ ∀ s, s ∈ starts → feasible size uniq s len = false)
  ∨ (∃ pre s0 post, starts = pre ++ s0 :: post
       ∧ (∀ s, s ∈ pre → feasible size uniq s len = false)
       ∧ feasible size uniq s0 len = true
       ∧ scan_starts uniq len size starts best
         = if len <? i_len best then {| i_start := s0; i_len := len |} else best).
Proof.
  induction starts as [|s starts IH]; simpl.
  - left. split; [done|]. intros s Hs. by apply elem_of_nil in Hs.
  - fold (feasible size uniq s len). destruct (feasible size uniq s len) eqn:Hf.
    + right. exists [], s, starts. split_and!; try done.
      intros s' Hs'. by apply elem_of_nil in Hs'.
    + destruct IH as [[-> Hall]|(pre & s0 & post & -> & Hpre & Hs0 & ->)].
      * left. split; [done|]. intros s' [->|Hs']%elem_of_cons; auto.
      * right. exists (s :: pre), s0, post. split_and!; try done.
        intros s' [->|Hs']%elem_of_cons; auto.
Qed.

Lemma scan_lens_spec (lens : list Z) (best : Interval) :
  i_len best = size + 1 → (∀ l, l ∈ lens → l < size + 1) →
  (scan_lens uniq size lens best = best
     ∧ ∀ l s, l ∈ lens → s ∈ seqZ 0 size → feasible size uniq s l = false)
  ∨ (∃ lpre l0 lpost spre s0 spost,
       lens = lpre ++ l0 :: lpost ∧ seqZ 0 size = spre ++ s0 :: spost
       ∧ (∀ l s, l ∈ lpre → s ∈ seqZ 0 size → feasible size uniq s l = false)
       ∧ (∀ s, s ∈ spre → feasible size uniq s l0 = false)
       ∧ feasible size uniq s0 l0 = true
       ∧ scan_lens uniq size lens best = {| i_start := s0; i_len := l0 |}).
Proof.
  intros Hbest. induction lens as [|l lens IH]; intros Hlens; simpl.
  - left. split; [done|]. intros l s Hl. by apply elem_of_nil in Hl.
  - assert (l < size + 1) as Hl by (apply Hlens; left).
    destruct (scan_starts_spec l (seqZ 0 size) best)
      as [[-> Hall]|(spre & s0 & spost & Hsplit & Hpre & Hs0 & ->)].
    + rewrite Hbest, Z.eqb_refl. simpl.
      destruct IH as [[-> Hrest]|(lpre & l0 & lpost & spre & s0 & spost
                                    & -> & Hsplit & Hlpre & Hspre & Hs0 & ->)].
      { intros l' Hl'. apply Hlens. by right. }
      * left. split; [done|]. intros l' s [->|Hl']%elem_of_cons Hs; auto.
      * right. exists (l :: lpre), l0, lpost, spre, s0, spost.
        split_and!; try done.
        intros l' s [->|Hl']%elem_of_cons Hs; auto.
    + right. exists [], l, lens, spre, s0, spost.
      destruct (Z.ltb_spec l (i_len best)) as [_|?]; [|lia]. simpl.
      destruct (Z.eqb_spec l (size + 1)) as [?|_]; [lia|]. simpl.
      split_and!; try done.
      intros l' s Hl'. by apply elem_of_nil in Hl'.
Qed.

End Cyclic.

Lemma minimalCyclicInterval_search (indices : list Z) (size : Z) :
  indices ≠ [] →
  minimalCyclicInterval indices size
  = if Z.of_nat (length (uniqueSorted indices)) =? size
    then {| i_start := 0; i_len := size |}
    else
      let best := scan_lens (uniqueSorted indices) size (seqZ 1 size)
                    {| i_start := 0; i_len := size + 1 |} in
      {| i_start := i_start best; i_len := Z.min (i_len best) size |}.
Proof. by destruct indices. Qed.

Lemma nonempty_elem {A} (l : list A) : l ≠ [] → ∃ a, a ∈ l.
Proof. destruct l as [|a l]; [done|]. exists a. left. Qed.

Section MinimalInterval.
Variables (indices : list Z) (size : Z).
Hypothesis size_pos : 1 <= size.
Hypothesis indices_range : ∀ v, v ∈ indices → 0 <= v < size.

Let uniq := uniqueSorted indices.

Lemma uniq_elem (v : Z) : v ∈ uniq → v ∈ indices.
Proof. apply elem_of_uniqueSorted. Qed.

Lemma elem_uniq (v : Z) : v ∈ indices → v ∈ uniq.
Proof. apply elem_of_uniqueSorted. Qed.

Lemma feasible_window (s l : Z) :
  0 <= s < size →
  feasible size uniq s l = true ↔ ∀ v, v ∈ indices → inCyclicWindow size s l v.
Proof.
  intros Hs. unfold feasible. rewrite forallb_forall.
  split.
  - intros H v Hv.
    apply (isInCyclicInterval_window size size_pos v s l (indices_range v Hv) Hs).
    apply H, list_elem_of_In, elem_uniq, Hv.
  - intros H v Hv. apply list_elem_of_In in Hv.
    apply uniq_elem in Hv.
    apply (isInCyclicInterval_window size size_pos v s l (indices_range v Hv) Hs).
    by apply H.
Qed.

Lemma infeasible_any_start (l : Z) :
  (∀ s, s ∈ seqZ 0 size → feasible size uniq s l = false) →
  ∀ start', ¬ ∀ v, v ∈ indices → inCyclicWindow size start' l v.
Proof.
  intros Hall start' Hin.
  assert (0 <= start' mod size < size) as Hm by (apply Z.mod_pos_bound; lia).
  specialize (Hall (start' mod size)).
  rewrite elem_of_seqZ in Hall. specialize (Hall ltac:(lia)).
  apply not_true_iff_false in Hall. apply Hall, feasible_window; [done|].
  intros v Hv. apply (proj1 (inCyclicWindow_mod size start' l v)). by apply Hin.
Qed.

Lemma uniq_submseteq : uniq ⊆+ seqZ 0 size.
Proof.
  apply NoDup_submseteq; [apply NoDup_uniqueSorted|].
  intros v Hv%uniq_elem. apply elem_of_seqZ.
  specialize (indices_range v Hv). lia.
Qed.

Lemma uniq_full_iff :
  Z.of_nat (length uniq) = size ↔ ∀ v, 0 <= v < size → v ∈ indices.
Proof.
  split.
  - intros Hlen v Hv. apply uniq_elem.
    assert (uniq ≡ₚ seqZ 0 size) as ->.
    { apply submseteq_length_Permutation; [apply uniq_submseteq|].
      rewrite length_seqZ. lia. }
    apply elem_of_seqZ. lia.
  - intros Hall.
    assert (seqZ 0 size ⊆+ uniq) as H1.
    { apply NoDup_submseteq; [apply NoDup_seqZ|].
      intros v Hv%elem_of_seqZ. apply elem_uniq, Hall. lia. }
    apply submseteq_length in H1. pose proof (submseteq_length _ _ uniq_submseteq) as H2.
    rewrite length_seqZ in H1, H2. lia.
Qed.

Lemma short_window_incomplete (start' len' : Z) :
  indices ≠ [] → (∀ v, 0 <= v < size → v ∈ indices) → len' < size →
  ¬ ∀ v, v ∈ indices → inCyclicWindow size start' len' v.
Proof.
  intros Hne Hall Hlen Hin.
  destruct (Z.le_gt_cases 0 len') as [Hpos|Hneg].
  - apply (window_misses size size_pos start' len'); [lia|].
    apply Hin, Hall, Z.mod_pos_bound. lia.
  - destruct (nonempty_elem indices Hne) as [v Hv].
    destruct (Hin v Hv) as (k & Hk & _). lia.
Qed.

(** C7. For a non-empty list of indices below the cyclic size, the
    interval returned by [minimalCyclicInterval] is a window that holds
    every index; no shorter window does, wherever it starts; no earlier
    start does for that length; and when every index of the cycle occurs
    the interval is the whole axis from 0. *)
Theorem minimal_interval_correct :
  indices ≠ [] →
  let r := minimalCyclicInterval indices size in
  (0 <= i_start r < size ∧ 1 <= i_len r <= size)
  ∧ (∀ v, v ∈ indices → inCyclicWindow size (i_start r) (i_len r) v)
  ∧ (∀ start' len', len' < i_len r →
       ¬ ∀ v, v ∈ indices → inCyclicWindow size start' len' v)
  ∧ (∀ start', 0 <= start' < i_start r →
       ¬ ∀ v, v ∈ indices → inCyclicWindow size start' (i_len r) v)
  ∧ ((∀ v, 0 <= v < size → v ∈ indices) →
       r = {| i_start := 0; i_len := size |}).
Proof.
  intros Hne r. subst r. rewrite minimalCyclicInterval_search by done.
  fold uniq.
  destruct (Z.eqb_spec (Z.of_nat (length uniq)) size) as [Hfull|Hpart].
  - (* every index of the cycle occurs *)
    pose proof (proj1 uniq_full_iff Hfull) as Hall. simpl.
    split_and!; try lia.
    + intros v Hv. exists v. specialize (indices_range v Hv).
      split; [done|]. rewrite Z.add_0_l, Z.mod_small; lia.
    + intros start' len' Hlen. by apply short_window_incomplete.
    + done.
  - (* the search *)
    assert (feasible size uniq 0 size = true) as Hlast.
    { apply feasible_window; [lia|]. intros v Hv. exists v.
      specialize (indices_range v Hv). split; [done|].
      rewrite Z.add_0_l, Z.mod_small; lia. }
    destruct (scan_lens_spec size uniq (seqZ 1 size)
                {| i_start := 0; i_len := size + 1 |} eq_refl)
      as [[_ Hnone]|(lpre & l0 & lpost & spre & s0 & spost
                      & Hlens & Hstarts & Hlpre & Hspre & Hs0 & ->)].
    { intros l Hl%elem_of_seqZ. lia. }
    { rewrite Hnone in Hlast; [done| |]; apply elem_of_seqZ; lia. }
    simpl.
    assert (s0 ∈ seqZ 0 size) as Hs0in
      by (rewrite Hstarts; apply elem_of_app; right; left).
    assert (l0 ∈ seqZ 1 size) as Hl0in
      by (rewrite Hlens; apply elem_of_app; right; left).
    apply elem_of_seqZ in Hs0in, Hl0in.
    assert (l0 = 1 + Z.of_nat (length lpre)) as Hl0pos.
    { assert (seqZ 1 size !! length lpre = Some l0) as Hlk.
      { rewrite Hlens. by apply list_lookup_middle. }
      apply lookup_seqZ in Hlk. lia. }
    assert (s0 = Z.of_nat (length spre)) as Hs0pos.
    { assert (seqZ 0 size !! length spre = Some s0) as Hlk.
      { rewrite Hstarts. by apply list_lookup_middle. }
      apply lookup_seqZ in Hlk. lia. }
    rewrite Z.min_l by lia.
    split_and!; try lia.
    + by apply feasible_window; [lia|].
    + intros start' len' Hlt.
      destruct (Z.le_gt_cases 1 len') as [Hpos|Hneg].
      * apply infeasible_any_start. intros s Hs. apply Hlpre; [|done].
        assert (seqZ 1 size !! Z.to_nat (len' - 1) = Some len') as Hlk.
        { apply lookup_seqZ. lia. }
        rewrite Hlens, lookup_app_l in Hlk by lia.
        by apply list_elem_of_lookup_2 in Hlk.
      * intros Hin. destruct (nonempty_elem indices Hne) as [v Hv].
        destruct (Hin v Hv) as (k & Hk & _). lia.
    + intros start' Hlt Hin.
      assert (feasible size uniq start' l0 = false) as Hf.
      { apply Hspre.
        assert (seqZ 0 size !! Z.to_nat start' = Some start') as Hlk.
        { apply lookup_seqZ. lia. }
        rewrite Hstarts, lookup_app_l in Hlk by lia.
        by apply list_elem_of_lookup_2 in Hlk. }
      apply not_true_iff_false in Hf. apply Hf, feasible_window; [lia|done].
    + intros Hall. by apply uniq_full_iff in Hall.
Qed.

End MinimalInterval.

Lemma minimal_interval_correct_witness :
  let r := minimalCyclicInterval [0; 3] 4 in
  (0 <= i_start r < 4 ∧ 1 <= i_len r <= 4)
  ∧ (∀ v, v ∈ [0; 3] → inCyclicWindow 4 (i_start r) (i_len r) v)
  ∧ (∀ start' len', len' < i_len r →
       ¬ ∀ v, v ∈ [0; 3] → inCyclicWindow 4 start' len' v)
  ∧ (∀ start', 0 <= start' < i_start r →
       ¬ ∀ v, v ∈ [0; 3] → inCyclicWindow 4 start' (i_len r) v)
  ∧ ((∀ v, 0 <= v < 4 → v ∈ [0; 3]) → r = {| i_start := 0; i_len := 4 |}).
Proof.
  apply (minimal_interval_correct [0; 3] 4); [lia| |done].
  intros v Hv. repeat (apply elem_of_cons in Hv as [->|Hv]; [lia|]).
  by apply elem_of_nil in Hv.
Defined.

(** ** Cubes *)

Global Instance bitChar_inj : Inj (=) (=) bitChar.
Proof. by intros [] []. Qed.

Section CubeChars.

Lemma count_char_countL (c : ascii) (s : string) :
  count_char c s = countL c (chars s).
Proof.
  unfold countL. induction s as [|d s IH]; simpl; [done|].
  rewrite filter_cons. destruct (Ascii.eqb_spec d c) as [->|Hne].
  - rewrite decide_True by done. simpl. by rewrite IH.
  - rewrite decide_False by done. simpl. by rewrite IH.
Qed.

Lemma countL_cons (c d : ascii) (l : list ascii) :
  countL c (d :: l) = ((if decide (d = c) then 1 else 0) + countL c l)%nat.
Proof. unfold countL. rewrite filter_cons. by destruct (decide (d = c)). Qed.

Lemma countL_app (c : ascii) (l k : list ascii) :
  countL c (l ++ k) = (countL c l + countL c k)%nat.
Proof. unfold countL. by rewrite filter_app, length_app. Qed.

Lemma countL_le_length (c : ascii) (l : list ascii) : (countL c l <= length l)%nat.
Proof. apply length_filter. Qed.

Lemma countL_zero (c : ascii) (l : list ascii) :
  Forall (fun d => d ≠ c) l → countL c l = 0%nat.
Proof.
  induction 1 as [|d l Hd _ IH]; [done|].
  rewrite countL_cons, decide_False by done. by rewrite IH.
Qed.

(** Replacing one character moves the counts by that character only. *)
Lemma countL_insert (x c1 c2 : ascii) (l : list ascii) (k : nat) :
  l !! k = Some c1 →
  (countL x (<[k := c2]> l) + (if decide (c1 = x) then 1 else 0)
   = countL x l + (if decide (c2 = x) then 1 else 0))%nat.
Proof.
  revert k. induction l as [|d l IH]; intros [|k] Hk; simplify_eq/=.
  - rewrite !countL_cons. lia.
  - rewrite !countL_cons. specialize (IH k Hk). lia.
Qed.

Lemma cubeMatches_matchesL (t b : string) :
  cubeMatches t b = true ↔ matchesL (chars t) (chars b).
Proof.
  unfold matchesL. revert b. induction t as [|c t IH]; intros [|x b]; simpl.
  - split; [constructor|done].
  - split; [done|]. inversion 1.
  - split; [done|]. inversion 1.
  - rewrite andb_true_iff, orb_true_iff, IH, !Ascii.eqb_eq, Forall2_cons.
    unfold charAgrees. tauto.
Qed.

Lemma bitChar_cases (b : bool) : bitChar b = "0"%char ∨ bitChar b = "1"%char.
Proof. destruct b; auto. Qed.

Lemma bitChar_not_dash (b : bool) : bitChar b ≠ "-"%char.
Proof. by destruct b. Qed.


(** Without a dash a cube holds one text only. *)
Lemma matchesL_no_dash (t b : list ascii) :
  countL "-" t = 0%nat → matchesL t b ↔ t = b.
Proof.
  intros Hnd. split.
  - induction 1 as [|c x t b Hcx _ IH]; [done|].
    rewrite countL_cons in Hnd. destruct (decide (c = "-"%char)); [lia|].
    destruct Hcx as [?| ->]; [done|]. f_equal. apply IH. lia.
  - intros <-. apply Forall2_same_length_lookup. split; [done|].
    intros i c x Hc Hx. right. congruence.
Qed.

Lemma matchesL_length (t b : list ascii) : matchesL t b → length t = length b.
Proof. apply Forall2_length. Qed.

(** The three cubes of a combination: [t1] and [t2] differ at place [k]
    only, where they hold the two bit values, and [t] has a dash there. A
    binary text lies in [t] exactly when it lies in one of [t1] and
    [t2], and never in both. *)
Lemma matchesL_insert_dash (t1 : list ascii) (k : nat) (c1 c2 : ascii)
    (b : list ascii) :
  t1 !! k = Some c1 → c1 ≠ c2 → c1 ≠ "-"%char → c2 ≠ "-"%char →
  cubeChar c1 → cubeChar c2 →
  Forall (fun x => x = "0"%char ∨ x = "1"%char) b →
  (matchesL (<[k := "-"%char]> t1) b
     ↔ matchesL t1 b ∨ matchesL (<[k := c2]> t1) b)
  ∧ ¬ (matchesL t1 b ∧ matchesL (<[k := c2]> t1) b).
Proof.
  intros Hk Hne Hd1 Hd2 Hc1 Hc2 Hb.
  assert ((c1 = "0" ∧ c2 = "1") ∨ (c1 = "1" ∧ c2 = "0"))%char as Hcases.
  { destruct Hc1 as [->|[->| ->]], Hc2 as [->|[->| ->]]; auto; done. }
  clear Hc1 Hc2.
  revert k b Hk Hb. induction t1 as [|d t1 IH]; intros [|k] b Hk Hb; simplify_eq/=.
  - destruct b as [|x b].
    { split; [split|]; [inversion 1|intros [H|H]; inversion H|intros [H _]; inversion H]. }
    apply Forall_cons in Hb as [Hx Hb]. unfold matchesL.
    rewrite !Forall2_cons. unfold charAgrees.
    split; [split|].
    + intros [_ Hrest]. destruct Hcases as [[-> ->]|[-> ->]], Hx as [->| ->]; auto.
    + intros [[_ ?]|[_ ?]]; auto.
    + intros [[[?| <-] _] [[?| ?] _]]; done.
  - destruct b as [|x b].
    { split; [split|]; [inversion 1|intros [H|H]; inversion H|intros [H _]; inversion H]. }
    apply Forall_cons in Hb as [Hx Hb]. unfold matchesL in *.
    rewrite !Forall2_cons. destruct (IH k b Hk Hb) as [IH1 IH2]. tauto.
Qed.

Lemma matchesL_insert_dash_weaken (t1 : list ascii) (k : nat) (b : list ascii) :
  matchesL t1 b → matchesL (<[k := "-"%char]> t1) b.
Proof.
  unfold matchesL. intros H. revert k.
  induction H as [|c x t b Hcx H IH]; intros [|k]; simpl; constructor; auto.
  by left.
Qed.

End CubeChars.

(** ** Binary texts as cubes *)

Section BinaryCubes.
Variable variables : Z.
Hypothesis vars_pos : 1 <= variables.

Let n := Z.to_nat variables.

Lemma binaryOf_length (m : Z) :
  0 <= m < 2 ^ variables → String.length (binaryOf variables m) = n.
Proof.
  intros Hm. rewrite <- chars_length, binaryOf_bits by done.
  by rewrite length_fmap, bitsOf_length.
Qed.

Lemma binaryOf_bit_chars (m : Z) :
  0 <= m < 2 ^ variables →
  Forall (fun x => x = "0"%char ∨ x = "1"%char) (chars (binaryOf variables m)).
Proof.
  intros Hm. rewrite binaryOf_bits by done.
  apply Forall_fmap, Forall_true. intros b. apply bitChar_cases.
Qed.

Lemma binaryOf_isCube (m : Z) :
  0 <= m < 2 ^ variables → isCube (binaryOf variables m).
Proof.
  intros Hm. eapply Forall_impl; [by apply binaryOf_bit_chars|].
  unfold cubeChar. tauto.
Qed.

Lemma binaryOf_no_dash (m : Z) :
  0 <= m < 2 ^ variables → countL "-" (chars (binaryOf variables m)) = 0%nat.
Proof.
  intros Hm. rewrite binaryOf_bits by done.
  apply countL_zero, Forall_fmap, Forall_true.
  intros b. apply bitChar_not_dash.
Qed.

Lemma binaryOf_inj (m m' : Z) :
  0 <= m < 2 ^ variables → 0 <= m' < 2 ^ variables →
  binaryOf variables m = binaryOf variables m' → m = m'.
Proof.
  intros Hm Hm' Heq.
  assert (chars (binaryOf variables m) = chars (binaryOf variables m')) as Hc
    by by rewrite Heq.
  rewrite !binaryOf_bits in Hc by done.
  apply (inj (fmap bitChar)) in Hc.
  assert (0 <= m < 2 ^ Z.of_nat n ∧ 0 <= m' < 2 ^ Z.of_nat n) as [H1 H2]
    by (unfold n; rewrite Z2Nat.id; lia).
  rewrite <- (bitsValue_bitsOf n m H1), <- (bitsValue_bitsOf n m' H2).
  unfold n. by rewrite Hc.
Qed.

Lemma binaryOf_ones_le (m : Z) :
  0 <= m < 2 ^ variables → (count_char "1" (binaryOf variables m) <= n)%nat.
Proof.
  intros Hm. rewrite count_char_countL, <- (binaryOf_length m Hm), <- chars_length.
  apply countL_le_length.
Qed.

End BinaryCubes.

(** ** [diffIndex] and the combined term *)

Section DiffIndex.

(** With a difference already met, a result other than [-1] means that
    the rest of the two texts is the same. *)
Lemma diffIndex_from_pending (i d0 : Z) (t1 t2 : string) :
  d0 ≠ -1 → String.length t1 = String.length t2 →
  diffIndex_from i d0 t1 t2 ≠ -1 →
  t1 = t2 ∧ diffIndex_from i d0 t1 t2 = d0.
Proof.
  intros Hd0. revert i t2. induction t1 as [|c1 r1 IH]; intros i [|c2 r2] Hlen; simpl in *;
    try done.
  destruct (Ascii.eqb_spec c1 c2) as [->|Hne]; simpl.
  - intros H. destruct (IH (i + 1) r2) as [-> ->]; auto.
  - destruct (Z.eqb_spec d0 (-1)); [done|]. simpl. done.
Qed.

(** A result other than [-1] is the one place where two texts of the
    same length differ. *)
Lemma diffIndex_from_found (i : Z) (t1 t2 : string) :
  0 <= i → String.length t1 = String.length t2 →
  diffIndex_from i (-1) t1 t2 ≠ -1 →
  ∃ (k : nat) (c1 c2 : ascii),
    diffIndex_from i (-1) t1 t2 = i + Z.of_nat k
    ∧ chars t1 !! k = Some c1 ∧ c1 ≠ c2
    ∧ chars t2 = <[k := c2]> (chars t1).
Proof.
  revert i t2. induction t1 as [|c1 r1 IH]; intros i [|c2 r2] Hi Hlen; simpl in *;
    try done.
  destruct (Ascii.eqb_spec c1 c2) as [->|Hne]; simpl.
  - intros H. destruct (IH (i + 1) r2) as (k & d1 & d2 & Hres & Hk & Hd & Hins);
      [lia|lia|done|].
    exists (S k), d1, d2. simpl. rewrite Hres, Hins. split_and!; try done. lia.
  - intros H. destruct (diffIndex_from_pending (i + 1) i r1 r2) as [-> ->];
      [lia|lia|done|].
    exists 0%nat, c1, c2. simpl. split_and!; try done. lia.
Qed.

Lemma diffIndex_found (t1 t2 : string) :
  String.length t1 = String.length t2 → diffIndex t1 t2 ≠ -1 →
  ∃ (k : nat) (c1 c2 : ascii),
    diffIndex t1 t2 = Z.of_nat k
    ∧ chars t1 !! k = Some c1 ∧ c1 ≠ c2
    ∧ chars t2 = <[k := c2]> (chars t1).
Proof.
  intros Hlen H. destruct (diffIndex_from_found 0 t1 t2) as (k & c1 & c2 & Hres & ?);
    [lia|done|done|].
  exists k, c1, c2. by rewrite <- (Z.add_0_l (Z.of_nat k)).
Qed.

Lemma chars_dashAt (t : string) (k : nat) :
  (k < String.length t)%nat →
  chars (dashAt t (Z.of_nat k)) = <[k := "-"%char]> (chars t).
Proof.
  intros Hk. unfold dashAt.
  rewrite !chars_app, chars_substring, chars_slice_from. simpl.
  rewrite Nat2Z.id, drop_0.
  replace (Z.to_nat (Z.of_nat k + 1)) with (S k) by lia.
  symmetry. apply insert_take_drop. by rewrite chars_length.
Qed.

End DiffIndex.

(** ** Sorted lists of positions *)

Lemma StronglySorted_le_lt (l : list Z) :
  StronglySorted Z.le l → NoDup l → StronglySorted Z.lt l.
Proof.
  induction 1 as [|a l Hs IH Ha]; intros Hnd; [constructor|].
  apply NoDup_cons in Hnd as [Hnotin Hnd].
  constructor; [auto|].
  apply Forall_forall. intros b Hb.
  assert (a ≠ b) by (intros ->; done).
  eapply Forall_forall in Ha; [|exact Hb]. lia.
Qed.

Lemma StronglySorted_lt_NoDup (l : list Z) : StronglySorted Z.lt l → NoDup l.
Proof.
  induction 1 as [|a l Hs IH Ha]; [constructor|].
  apply NoDup_cons. split; [|done].
  intros Hin. eapply Forall_forall in Ha; [|exact Hin]. lia.
Qed.

(** ** Combining two cubes *)

Section Combine.
Variables (variables : Z) (seeds : list Z).
Hypothesis vars_pos : 1 <= variables.

Lemma cubeInv_flag (r : nat) (t u : Implicant) :
  term t = term u → minterms t = minterms u →
  cubeInv variables seeds r t → cubeInv variables seeds r u.
Proof. intros Ht Hm [? ? ? ? ? ? ?]. split; rewrite <- ?Ht, <- ?Hm; done. Qed.

Lemma cubeInv_clearPrime (r : nat) (t : Implicant) :
  cubeInv variables seeds r t → cubeInv variables seeds r (clearPrime t).
Proof. by apply cubeInv_flag. Qed.

Lemma cubeCovers_chars (t : string) (m : Z) :
  cubeCovers variables t m = true ↔ matchesL (chars t) (chars (binaryOf variables m)).
Proof. apply cubeMatches_matchesL. Qed.

(** Two cubes of one round with the same term have the same positions. *)
Lemma cubeInv_same_term (r r' : nat) (t u : Implicant) :
  cubeInv variables seeds r t → cubeInv variables seeds r' u →
  term t = term u → subsumedBy t u.
Proof.
  intros Ht Hu Heq m Hm. apply (ci_member _ _ _ _ Hu).
  rewrite <- Heq. by apply (ci_member _ _ _ _ Ht).
Qed.

Section Pair.
Variables (r : nat) (t1 t2 : Implicant).
Hypothesis inv1 : cubeInv variables seeds r t1.
Hypothesis inv2 : cubeInv variables seeds r t2.
Hypothesis differ : diffIndex (term t1) (term t2) ≠ -1.

Let combined : Implicant :=
  {| term := dashAt (term t1) (diffIndex (term t1) (term t2));
     minterms := sort num_asc (minterms t1 ++ minterms t2);
     isPrime := true |}.

(** The cube pushed by a successful comparison is a cube of the next
    round, it holds the two cubes compared, and when the second has
    one more [1] than the first it has the ones of the first. *)
Lemma combined_cubeInv :
  cubeInv variables seeds (S r) combined
  ∧ subsumedBy t1 combined ∧ subsumedBy t2 combined
  ∧ (count_char "1" (term t2) = S (count_char "1" (term t1)) →
     count_char "1" (term combined) = count_char "1" (term t1)).
Proof.
  destruct inv1 as [Hlen1 Hcube1 Hd1 Hmem1 Hseed1 Hsort1 Hcard1].
  destruct inv2 as [Hlen2 Hcube2 Hd2 Hmem2 Hseed2 Hsort2 Hcard2].
  destruct (diffIndex_found (term t1) (term t2)) as (k & c1 & c2 & Hres & Hk & Hne & Hins);
    [congruence|done|].
  assert (k < String.length (term t1))%nat as Hklt.
  { rewrite <- chars_length. by eapply lookup_lt_Some. }
  assert (chars (term combined) = <[k := "-"%char]> (chars (term t1))) as Hnew.
  { subst combined. simpl. rewrite Hres. by apply chars_dashAt. }
  (* neither of the two characters is a dash *)
  pose proof (countL_insert "-" c1 c2 _ k Hk) as Hdash.
  rewrite <- Hins, <- !count_char_countL, Hd1, Hd2 in Hdash.
  assert (c1 ≠ "-"%char ∧ c2 ≠ "-"%char) as [Hnd1 Hnd2].
  { destruct (decide (c1 = "-"%char)), (decide (c2 = "-"%char)); try lia;
      [congruence|done]. }
  assert (cubeChar c1) as Hcc1.
  { eapply Forall_forall in Hcube1; [exact Hcube1|]. by eapply list_elem_of_lookup_2. }
  assert (cubeChar c2) as Hcc2.
  { eapply Forall_forall in Hcube2; [exact Hcube2|]. rewrite Hins.
    eapply list_elem_of_lookup_2, list_lookup_insert_eq.
    by rewrite chars_length. }
  assert (∀ m, 0 <= m < 2 ^ variables →
            (cubeCovers variables (term combined) m = true
             ↔ cubeCovers variables (term t1) m = true
               ∨ cubeCovers variables (term t2) m = true)
            ∧ ¬ (cubeCovers variables (term t1) m = true
                 ∧ cubeCovers variables (term t2) m = true)) as Hcov.
  { intros m Hm. rewrite !cubeCovers_chars, Hnew, Hins.
    apply (matchesL_insert_dash _ k c1 c2); try done.
    by apply binaryOf_bit_chars. }
  assert (∀ m, m ∈ minterms combined ↔ m ∈ minterms t1 ∨ m ∈ minterms t2) as Hin.
  { intros m. subst combined. simpl. by rewrite elem_of_sort, elem_of_app. }
  split_and!.
  - split.
    + rewrite <- chars_length, Hnew, length_insert, chars_length. done.
    + unfold isCube. rewrite Hnew. apply Forall_insert; [done|].
      right. by right.
    + rewrite count_char_countL, Hnew.
      pose proof (countL_insert "-" c1 "-" _ k Hk) as H.
      rewrite <- count_char_countL, Hd1 in H.
      rewrite decide_False, decide_True in H by done. lia.
    + intros m. rewrite Hin, Hmem1, Hmem2. split.
      * intros [[Hm H]|[Hm H]]; (split; [done|]); apply (Hcov m Hm); auto.
      * intros [Hm H]. apply (Hcov m Hm) in H. tauto.
    + intros m [H|H]%Hin; auto.
    + subst combined. simpl. apply StronglySorted_le_lt.
      * apply sort_num_asc_sorted.
      * rewrite sort_perm. apply NoDup_app. split_and!.
        -- by apply StronglySorted_lt_NoDup.
        -- intros m H1 H2. apply Hmem1 in H1 as [Hm H1]. apply Hmem2 in H2 as [_ H2].
           by apply (Hcov m Hm).
        -- by apply StronglySorted_lt_NoDup.
    + subst combined. simpl. rewrite sort_length, length_app, Hcard1, Hcard2.
      simpl. lia.
  - intros m H. apply Hin. by left.
  - intros m H. apply Hin. by right.
  - intros Hones.
    pose proof (countL_insert "1" c1 c2 _ k Hk) as H12.
    rewrite <- Hins, <- !count_char_countL, Hones in H12.
    pose proof (countL_insert "1" c1 "-" _ k Hk) as H1n.
    rewrite <- Hnew, <- !count_char_countL in H1n.
    rewrite (decide_False (P := "-"%char = "1"%char)) in H1n by done.
    destruct (decide (c1 = "1"%char)), (decide (c2 = "1"%char)); lia.
Qed.

End Pair.

End Combine.

(** ** One combination round *)

Section Round.
Variables (variables : Z) (seeds : list Z).
Hypothesis vars_pos : 1 <= variables.

Local Abbreviation curOK := (curOK variables seeds).
Local Abbreviation nextOK := (nextOK variables seeds).
Local Abbreviation cubeInv := (cubeInv variables seeds).

Lemma stepRel_refl (N : list Implicant) (t : Implicant) : stepRel N t t.
Proof. split_and!; auto. Qed.

Lemma absorbedIn_mono (N N' : list Implicant) (t : Implicant) :
  (∀ u, u ∈ N → u ∈ N') → absorbedIn N t → absorbedIn N' t.
Proof. intros Hsub (u & Hu & Hs). exists u. auto. Qed.

Lemma stepRel_mono (N N' : list Implicant) (t t' : Implicant) :
  (∀ u, u ∈ N → u ∈ N') → stepRel N t t' → stepRel N' t t'.
Proof.
  intros Hsub (Ht & Hm & [Hf|Ha]); split_and!; auto.
  right. by eapply absorbedIn_mono.
Qed.

Lemma stepRel_trans (N : list Implicant) (t t' t'' : Implicant) :
  stepRel N t t' → stepRel N t' t'' → stepRel N t t''.
Proof.
  intros (Ht & Hm & Hf) (Ht' & Hm' & Hf'). split_and!; try congruence.
  destruct Hf as [Hf|Ha]; [|by right].
  destruct Hf' as [Hf'|(u & Hu & Hs)]; [left; congruence|].
  right. exists u. split; [done|]. unfold subsumedBy in *. by rewrite <- Hm.
Qed.

Lemma stepRel_curOK (N : list Implicant) (r i : nat) (t t' : Implicant) :
  stepRel N t t' → curOK r i t → curOK r i t'.
Proof.
  intros (Ht & Hm & _) [Hinv Hones]. split; [|congruence].
  by eapply cubeInv_flag; [symmetry| symmetry|].
Qed.

Lemma Forall2_stepRel_refl (N : list Implicant) (g : list Implicant) :
  Forall2 (stepRel N) g g.
Proof. apply Forall_Forall2_diag, Forall_true. intros t. apply stepRel_refl. Qed.

Lemma Forall2_stepRel_mono (N N' : list Implicant) (g g' : list Implicant) :
  (∀ u, u ∈ N → u ∈ N') → Forall2 (stepRel N) g g' → Forall2 (stepRel N') g g'.
Proof.
  intros Hsub H. eapply Forall2_impl; [exact H|].
  intros t t'. by apply stepRel_mono.
Qed.

Lemma Forall2_stepRel_trans (N : list Implicant) (g g' g'' : list Implicant) :
  Forall2 (stepRel N) g g' → Forall2 (stepRel N) g' g'' → Forall2 (stepRel N) g g''.
Proof.
  intros H. revert g''. induction H as [|t t' g g' Ht _ IH]; intros g'' H';
    inversion H'; subst; constructor; [by eapply stepRel_trans|auto].
Qed.

Lemma Forall2_stepRel_curOK (N : list Implicant) (r i : nat) (g g' : list Implicant) :
  Forall2 (stepRel N) g g' → Forall (curOK r i) g → Forall (curOK r i) g'.
Proof.
  induction 1 as [|t t' g g' Ht _ IH]; [done|].
  intros [H1 H2]%Forall_cons. constructor; [by eapply stepRel_curOK|auto].
Qed.

Section Groups.
Variables (r i : nat).

Lemma pairLoop_spec (t1 : Implicant) (g2 nexti : list Implicant) :
  curOK r i t1 → Forall (curOK r (S i)) g2 → Forall (nextOK r i) nexti →
  ∃ t1' g2' added,
    pairLoop t1 g2 nexti = (t1', g2', nexti ++ added)
    ∧ Forall (nextOK r i) (nexti ++ added)
    ∧ stepRel (nexti ++ added) t1 t1'
    ∧ Forall2 (stepRel (nexti ++ added)) g2 g2'.
Proof.
  revert t1 nexti. induction g2 as [|t2 g2 IH]; intros t1 nexti Ht1 Hg2 Hnext.
  - exists t1, [], []. rewrite app_nil_r. simpl. split_and!; try done.
    apply stepRel_refl.
  - apply Forall_cons in Hg2 as [Ht2 Hg2]. simpl.
    destruct (Z.eqb_spec (diffIndex (term t1) (term t2)) (-1)) as [Heq|Hne]; simpl.
    + destruct (IH t1 nexti Ht1 Hg2 Hnext) as (t1' & g2' & added & -> & Hn & Hs1 & Hs2).
      exists t1', (t2 :: g2'), added. split_and!; try done.
      constructor; [apply stepRel_refl|done].
    + destruct Ht1 as [Hinv1 Hones1], Ht2 as [Hinv2 Hones2].
      destruct (combined_cubeInv variables seeds vars_pos r t1 t2 Hinv1 Hinv2 Hne)
        as (Hcinv & Hsub1 & Hsub2 & Hcones).
      set (newTerm := dashAt (term t1) (diffIndex (term t1) (term t2))) in *.
      set (combined := {| term := newTerm;
                          minterms := sort num_asc (minterms t1 ++ minterms t2);
                          isPrime := true |}) in *.
      set (nexti' := if existsb (fun t => String.eqb (term t) newTerm) nexti
                     then nexti else nexti ++ [combined]).
      assert (∃ a, nexti' = nexti ++ a ∧ Forall (nextOK r i) nexti'
                   ∧ ∃ u, u ∈ nexti' ∧ subsumedBy t1 u ∧ subsumedBy t2 u)
        as (a & Ha & Hn' & u & Hu & Hu1 & Hu2).
      { subst nexti'.
        destruct (existsb _ nexti) eqn:Hex.
        - exists []. rewrite app_nil_r. split_and!; try done.
          apply existsb_exists in Hex as (u & Hu%list_elem_of_In & Hterm%String.eqb_eq).
          exists u. split; [done|].
          eapply Forall_forall in Hnext as (Huinv & _); [|exact Hu].
          assert (subsumedBy combined u) as Hcu
            by (eapply cubeInv_same_term; [exact Hcinv|exact Huinv|done]).
          split; intros m Hm; apply Hcu; auto.
        - exists [combined]. split_and!; try done.
          + apply Forall_app. split; [done|]. constructor; [|done].
            split_and!; [done| |done]. rewrite Hcones; [done|congruence].
          + exists combined. split; [|done].
            apply elem_of_app. right. left. }
      fold nexti'.
      destruct (IH (clearPrime t1) nexti') as (t1' & g2' & added & Heq & Hn & Hs1 & Hs2);
        [ |done|done|].
      { split; [by apply cubeInv_clearPrime|done]. }
      rewrite Heq, Ha, <- app_assoc in *.
      exists t1', (clearPrime t2 :: g2'), (a ++ added).
      assert (u ∈ nexti ++ a ++ added) as Hu'.
      { rewrite app_assoc. apply elem_of_app. by left. }
      split_and!; try done.
      * destruct Hs1 as (Ht & Hm & _). split_and!; try done.
        right. by exists u.
      * constructor; [|done]. split_and!; try done. right. by exists u.
Qed.

Lemma groupLoop_spec (g1 g2 nexti : list Implicant) :
  Forall (curOK r i) g1 → Forall (curOK r (S i)) g2 → Forall (nextOK r i) nexti →
  ∃ g1' g2' added,
    groupLoop g1 g2 nexti = (g1', g2', nexti ++ added)
    ∧ Forall (nextOK r i) (nexti ++ added)
    ∧ Forall2 (stepRel (nexti ++ added)) g1 g1'
    ∧ Forall2 (stepRel (nexti ++ added)) g2 g2'.
Proof.
  revert g2 nexti. induction g1 as [|t1 g1 IH]; intros g2 nexti Hg1 Hg2 Hnext.
  - exists [], g2, []. rewrite app_nil_r. simpl. split_and!; try done.
    apply Forall2_stepRel_refl.
  - apply Forall_cons in Hg1 as [Ht1 Hg1]. simpl.
    destruct (pairLoop_spec t1 g2 nexti Ht1 Hg2 Hnext)
      as (t1' & g2' & a1 & -> & Hn1 & Hs1 & Hs2).
    destruct (IH g2' (nexti ++ a1) Hg1) as (g1' & g2'' & a2 & -> & Hn2 & Hs1' & Hs2');
      [by eapply Forall2_stepRel_curOK|done|].
    rewrite <- app_assoc in *.
    exists (t1' :: g1'), g2'', (a1 ++ a2).
    assert (∀ u, u ∈ nexti ++ a1 → u ∈ nexti ++ a1 ++ a2) as Hsub.
    { intros u Hu. rewrite app_assoc. apply elem_of_app. by left. }
    split_and!; try done.
    + constructor; [by eapply stepRel_mono|done].
    + eapply Forall2_stepRel_trans; [|exact Hs2'].
      by eapply Forall2_stepRel_mono.
Qed.

End Groups.

End Round.

(** ** Loops as folds *)

Lemma foldl_invariant {A S} (P : S → Prop) (f : S → A → S) (l : list A) (s : S) :
  P s → (∀ s a, a ∈ l → P s → P (f s a)) → P (foldl f s l).
Proof.
  revert s. induction l as [|a l IH]; intros s Hs Hstep; simpl; [done|].
  apply IH.
  - apply Hstep; [left|done].
  - intros s' a' Ha'. apply Hstep. by right.
Qed.

Lemma Forall2_Forall2_join {A} (R : A → A → Prop) (l l' : list (list A)) (a : A) :
  Forall2 (Forall2 R) l l' → a ∈ mjoin l → ∃ a', a' ∈ mjoin l' ∧ R a a'.
Proof.
  induction 1 as [|g g' l l' Hg _ IH]; simpl.
  - by intros ?%elem_of_nil.
  - intros [Ha|Ha]%elem_of_app.
    + apply list_elem_of_lookup in Ha as [i Hi].
      destruct (Forall2_lookup_l _ _ _ _ _ Hg Hi) as (a' & Hi' & HR).
      exists a'. split; [|done]. apply elem_of_app. left.
      by eapply list_elem_of_lookup_2.
    + destruct (IH Ha) as (a' & Ha' & HR). exists a'. split; [|done].
      apply elem_of_app. by right.
Qed.

Lemma Forall2_Forall2_join_r {A} (R : A → A → Prop) (l l' : list (list A)) (a' : A) :
  Forall2 (Forall2 R) l l' → a' ∈ mjoin l' → ∃ a, a ∈ mjoin l ∧ R a a'.
Proof.
  induction 1 as [|g g' l l' Hg _ IH]; simpl.
  - by intros ?%elem_of_nil.
  - intros [Ha|Ha]%elem_of_app.
    + apply list_elem_of_lookup in Ha as [i Hi].
      destruct (Forall2_lookup_r _ _ _ _ _ Hg Hi) as (a & Hi' & HR).
      exists a. split; [|done]. apply elem_of_app. left.
      by eapply list_elem_of_lookup_2.
    + destruct (IH Ha) as (a & Ha' & HR). exists a. split; [|done].
      apply elem_of_app. by right.
Qed.

Lemma elem_of_join_lookup {A} (l : list (list A)) (a : A) :
  a ∈ mjoin l ↔ ∃ j g, l !! j = Some g ∧ a ∈ g.
Proof.
  rewrite list_elem_of_join. split.
  - intros (g & Ha & Hg). apply list_elem_of_lookup in Hg as [j Hj]. eauto.
  - intros (j & g & Hj & Ha). exists g. split; [done|].
    by eapply list_elem_of_lookup_2.
Qed.

(** ** The pass over the groups *)

Section Scan.
Variables (variables : Z) (seeds : list Z).
Hypothesis vars_pos : 1 <= variables.
Variable r : nat.
Variable cur0 : list (list Implicant).
Hypothesis cur0_ok : groupsOK variables seeds r cur0.

Let n := Z.to_nat (variables + 1).

Local Abbreviation scanInv := (scanInv variables seeds r cur0).

Lemma scanStep_inv (st : list (list Implicant) * list (list Implicant)) (k : nat) :
  (S k < n)%nat → scanInv st → scanInv (scanStep st k).
Proof.
  intros Hk. destruct st as [cur next]. intros (Hlen & [Hnlen Hnext] & Hrel). simpl in *.
  destruct cur0_ok as [Hlen0 Hcur0].
  destruct (lookup_lt_is_Some_2 cur k) as [g1 Hg1]; [lia|].
  destruct (lookup_lt_is_Some_2 cur (S k)) as [g2 Hg2]; [lia|].
  destruct (lookup_lt_is_Some_2 next k) as [ni Hni]; [lia|].
  destruct (Forall2_lookup_r _ _ _ _ _ Hrel Hg1) as (g10 & Hg10 & Hr1).
  destruct (Forall2_lookup_r _ _ _ _ _ Hrel Hg2) as (g20 & Hg20 & Hr2).
  destruct (groupLoop_spec variables seeds vars_pos r k g1 g2 ni)
    as (g1' & g2' & added & Heq & Hn' & Hs1 & Hs2).
  { eapply Forall2_stepRel_curOK; [exact Hr1|]. by apply Hcur0. }
  { eapply Forall2_stepRel_curOK; [exact Hr2|]. by apply Hcur0. }
  { by apply Hnext. }
  unfold scanStep. rewrite Hg1, Hg2, Hni. simpl. rewrite Heq.
  set (next' := <[k := ni ++ added]> next).
  assert (∀ u, u ∈ mjoin next → u ∈ mjoin next') as Hsub.
  { intros u (j & g & Hj & Hu)%elem_of_join_lookup. apply elem_of_join_lookup.
    destruct (decide (j = k)) as [->|Hjk].
    - exists k, (ni ++ added). split; [apply list_lookup_insert_eq; lia|].
      apply elem_of_app. left. congruence.
    - exists j, g. split; [|done]. subst next'. by rewrite list_lookup_insert_ne. }
  assert (∀ u, u ∈ ni ++ added → u ∈ mjoin next') as Hsub'.
  { intros u Hu. apply elem_of_join_lookup. exists k, (ni ++ added).
    split; [apply list_lookup_insert_eq; lia|done]. }
  split_and!; simpl.
  - by rewrite !length_insert.
  - split; [by unfold next'; rewrite length_insert|].
    intros j g Hj. destruct (decide (j = k)) as [->|Hjk].
    + unfold next' in Hj. rewrite list_lookup_insert_eq in Hj by lia. by simplify_eq.
    + unfold next' in Hj. rewrite list_lookup_insert_ne in Hj by done. by apply Hnext.
  - apply Forall2_same_length_lookup_2.
    { rewrite !length_insert. lia. }
    intros j a b Ha Hb.
    destruct (decide (j = S k)) as [->|Hj1].
    + rewrite list_lookup_insert_eq in Hb by (rewrite length_insert; lia).
      simplify_eq. eapply Forall2_stepRel_trans.
      * eapply Forall2_stepRel_mono; [exact Hsub|exact Hr2].
      * eapply Forall2_stepRel_mono; [exact Hsub'|exact Hs2].
    + rewrite list_lookup_insert_ne in Hb by done.
      destruct (decide (j = k)) as [->|Hj2].
      * rewrite list_lookup_insert_eq in Hb by lia.
        simplify_eq. eapply Forall2_stepRel_trans.
        -- eapply Forall2_stepRel_mono; [exact Hsub|exact Hr1].
        -- eapply Forall2_stepRel_mono; [exact Hsub'|exact Hs1].
      * rewrite list_lookup_insert_ne in Hb by done.
        eapply Forall2_stepRel_mono; [exact Hsub|].
        by eapply Forall2_lookup_lr.
Qed.

Lemma combineRound_spec :
  ∃ scanned next,
    combineRound variables cur0 = (scanned, next)
    ∧ nextsOK variables seeds r next
    ∧ Forall2 (Forall2 (stepRel (mjoin next))) cur0 scanned.
Proof.
  assert (scanInv (combineRound variables cur0)) as Hinv.
  { unfold combineRound. apply foldl_invariant.
    - destruct cur0_ok as [Hlen0 _]. split_and!; simpl.
      + done.
      + split; [by unfold emptyGroups; rewrite length_replicate|].
        intros j g [-> _]%lookup_replicate. constructor.
      + apply Forall_Forall2_diag, Forall_true. intros g.
        apply Forall2_stepRel_refl.
    - intros st k Hk%elem_of_seq Hst. apply scanStep_inv; [|done].
      destruct cur0_ok as [Hlen0 _]. unfold n. lia. }
  destruct (combineRound variables cur0) as [scanned next].
  destruct Hinv as (_ & ? & ?). by exists scanned, next.
Qed.

End Scan.

(** ** Prime generation *)

Section Primes.
Variables (variables : Z) (seeds : list Z).
Hypothesis vars_pos : 1 <= variables.

Local Abbreviation cubeInv := (cubeInv variables seeds).
Local Abbreviation groupsOK := (groupsOK variables seeds).

Let n := Z.to_nat (variables + 1).

Lemma cubeInv_round_le (r : nat) (t : Implicant) :
  cubeInv r t → (r <= Z.to_nat variables)%nat.
Proof.
  intros [Hlen _ Hd _ _ _ _]. rewrite <- Hd, <- Hlen, count_char_countL, <- chars_length.
  apply countL_le_length.
Qed.

Lemma groupsOK_elem (r : nat) (cur : list (list Implicant)) (t : Implicant) :
  groupsOK r cur → t ∈ mjoin cur → cubeInv r t.
Proof.
  intros [_ Hcur] (j & g & Hj & Ht)%elem_of_join_lookup.
  specialize (Hcur j g Hj). eapply Forall_forall in Hcur as [? _]; done.
Qed.

Lemma nextsOK_groupsOK (r : nat) (next : list (list Implicant)) :
  nextsOK variables seeds r next → groupsOK (S r) next ∧ groupsFresh next.
Proof.
  intros [Hlen Hnext]. split; [split; [done|]|].
  - intros j g Hj. eapply Forall_impl; [by apply Hnext|].
    intros u (? & ? & _). by split.
  - intros u (j & g & Hj & Hu)%elem_of_join_lookup.
    specialize (Hnext j g Hj). eapply Forall_forall in Hnext as (_ & _ & ?); done.
Qed.

Lemma existsb_nonempty_false (cur : list (list Implicant)) :
  existsb (fun g => (0 <? length g)%nat) cur = false → mjoin cur = [].
Proof.
  induction cur as [|g cur IH]; simpl; [done|].
  intros [Hg Hcur]%orb_false_iff. rewrite IH by done.
  destruct g; [done|]. simpl in Hg. done.
Qed.

Lemma forallb_empty_true (next : list (list Implicant)) :
  forallb (fun g => (length g =? 0)%nat) next = true → mjoin next = [].
Proof.
  induction next as [|g next IH]; simpl; [done|].
  intros [Hg Hnext]%andb_true_iff. rewrite IH by done.
  destruct g; [done|]. simpl in Hg. done.
Qed.

Lemma forallb_empty_false (next : list (list Implicant)) :
  forallb (fun g => (length g =? 0)%nat) next = false → ∃ u, u ∈ mjoin next.
Proof.
  induction next as [|g next IH]; simpl; [done|].
  intros [Hg|Hnext]%andb_false_iff.
  - destruct g as [|u g]; [done|]. exists u. left.
  - destruct (IH Hnext) as [u Hu]. exists u. apply elem_of_app. by right.
Qed.

(** The loop over the rounds returns when it has as many turns as there
    are rounds left; every cube it adds to the primes is a cube of its
    round, and each cube of the starting round lies in one of them. *)
Lemma primeRounds_spec (fuel r : nat) (cur : list (list Implicant))
    (primes : list Implicant) :
  groupsOK r cur → groupsFresh cur → (Z.to_nat variables + 1 - r < fuel)%nat →
  ∃ found,
    primeRounds fuel variables cur primes = Returned (primes ++ found)
    ∧ (∀ p, p ∈ found → ∃ r', cubeInv r' p)
    ∧ (∀ t, t ∈ mjoin cur → ∃ p, p ∈ found ∧ subsumedBy t p).
Proof.
  revert r cur primes. induction fuel as [|fuel IH]; intros r cur primes Hok Hfresh Hfuel;
    [lia|].
  simpl. destruct (existsb _ cur) eqn:Hsome.
  - destruct (combineRound_spec variables seeds vars_pos r cur Hok)
      as (scanned & next & -> & Hnext & Hrel).
    set (found1 := filter (fun t => isPrime t = true) (mjoin scanned)).
    assert (∀ p, p ∈ found1 → cubeInv r p) as Hfound1.
    { intros p [_ Hp]%list_elem_of_filter.
      destruct (Forall2_Forall2_join_r _ _ _ _ Hrel Hp) as (t & Ht & Htp).
      pose proof (groupsOK_elem r cur t Hok Ht) as Hinv.
      destruct Htp as (? & ? & _). by eapply cubeInv_flag; [symmetry|symmetry|]. }
    assert (∀ t, t ∈ mjoin cur →
              (∃ p, p ∈ found1 ∧ subsumedBy t p) ∨ absorbedIn (mjoin next) t) as Hstep.
    { intros t Ht.
      destruct (Forall2_Forall2_join _ _ _ _ Hrel Ht) as (t' & Ht' & Hterm & Hms & [Hf|Ha]).
      - left. exists t'. split.
        + apply list_elem_of_filter. split; [|done]. rewrite Hf. by apply Hfresh.
        + intros m Hm. by rewrite Hms.
      - by right. }
    destruct (forallb _ next) eqn:Hnone.
    + exists found1. split_and!; [done|by eauto|].
      intros t Ht. destruct (Hstep t Ht) as [?|(u & Hu & _)]; [done|].
      rewrite (forallb_empty_true next Hnone) in Hu. by apply elem_of_nil in Hu.
    + destruct (nextsOK_groupsOK r next Hnext) as [Hok' Hfresh'].
      destruct (forallb_empty_false next Hnone) as [u0 Hu0].
      pose proof (cubeInv_round_le (S r) u0 (groupsOK_elem _ _ _ Hok' Hu0)) as Hle.
      destruct (IH (S r) next (primes ++ found1) Hok' Hfresh') as (found2 & -> & Hf2 & Hc2);
        [lia|].
      exists (found1 ++ found2). rewrite app_assoc. split_and!; [done| |].
      * intros p [Hp|Hp]%elem_of_app; eauto.
      * intros t Ht. destruct (Hstep t Ht) as [(p & Hp & Hs)|(u & Hu & Hs)].
        -- exists p. split; [apply elem_of_app; by left|done].
        -- destruct (Hc2 u Hu) as (p & Hp & Hs'). exists p.
           split; [apply elem_of_app; by right|]. intros m Hm. auto.
  - exists []. rewrite app_nil_r. split_and!; [done| |].
    + by intros p ?%elem_of_nil.
    + intros t Ht. rewrite (existsb_nonempty_false cur Hsome) in Ht.
      by apply elem_of_nil in Ht.
Qed.

End Primes.

(** ** Keeping the first prime of every term *)

Section Dedup.

Lemma dedupPrimes_fold (primes : list Implicant) (seen : list string)
    (uniq : list Implicant) :
  seen = term <$> uniq → NoDup seen →
  let res := foldl dedupStep (seen, uniq) primes in
  res.1 = term <$> res.2 ∧ NoDup res.1
  ∧ (∀ q, q ∈ res.2 → q ∈ uniq ∨ q ∈ primes)
  ∧ (∀ q, q ∈ uniq → q ∈ res.2)
  ∧ (∀ p, p ∈ primes → ∃ q, q ∈ res.2 ∧ term q = term p).
Proof.
  revert seen uniq. induction primes as [|p primes IH]; intros seen uniq Hseen Hnd;
    cbn [foldl]; cbv zeta.
  - split_and!; auto. by intros p ?%elem_of_nil.
  - replace (dedupStep (seen, uniq) p)
      with (if set_has seen (term p) then (seen, uniq)
            else (set_add seen (term p), uniq ++ [p])) by done.
    destruct (set_has seen (term p)) eqn:Hin; unfold set_has in Hin;
      [apply bool_decide_eq_true in Hin|apply bool_decide_eq_false in Hin].
    + destruct (IH seen uniq Hseen Hnd) as (H1 & H2 & H3 & H4 & H5).
      split_and!; try done.
      * intros q Hq. destruct (H3 q Hq); auto. right. by right.
      * intros p' [->|Hp']%elem_of_cons; [|auto].
        rewrite Hseen in Hin. apply list_elem_of_fmap in Hin as (q & Hq & Hqin).
        exists q. split; [auto|done].
    + assert (set_add seen (term p) = seen ++ [term p]) as Hadd.
      { unfold set_add, set_has. by rewrite bool_decide_eq_false_2. }
      rewrite Hadd.
      destruct (IH (seen ++ [term p]) (uniq ++ [p])) as (H1 & H2 & H3 & H4 & H5).
      { by rewrite fmap_app, Hseen. }
      { apply NoDup_app. split_and!; [done| |apply NoDup_singleton].
        intros x Hx ->%list_elem_of_singleton. done. }
      split_and!; try done.
      * intros q Hq. destruct (H3 q Hq) as [[?| ->%list_elem_of_singleton]%elem_of_app|?];
          auto; right; [left|by right].
      * intros q Hq. apply H4, elem_of_app. by left.
      * intros p' [->|Hp']%elem_of_cons; [|auto].
        exists p. split; [|done]. apply H4, elem_of_app. right. left.
Qed.

Lemma dedupPrimes_spec (primes : list Implicant) :
  NoDup (term <$> dedupPrimes primes)
  ∧ (∀ q, q ∈ dedupPrimes primes → q ∈ primes)
  ∧ (∀ p, p ∈ primes → ∃ q, q ∈ dedupPrimes primes ∧ term q = term p).
Proof.
  unfold dedupPrimes.
  destruct (dedupPrimes_fold primes [] [] eq_refl (NoDup_nil_2))
    as (H1 & H2 & H3 & _ & H5).
  split_and!; try done.
  - by rewrite <- H1.
  - intros q Hq. destruct (H3 q Hq) as [?%elem_of_nil|?]; done.
Qed.

End Dedup.

(** ** Seed cubes *)

Lemma elem_of_join_insert_snoc {A} (l : list (list A)) (k : nat) (g : list A) (x t : A) :
  l !! k = Some g →
  t ∈ mjoin (<[k := g ++ [x]]> l) ↔ t ∈ mjoin l ∨ t = x.
Proof.
  intros Hk. rewrite !elem_of_join_lookup. split.
  - intros (j & g' & Hj & Ht). destruct (decide (j = k)) as [->|Hne].
    + rewrite list_lookup_insert_eq in Hj by by eapply lookup_lt_Some.
      simplify_eq. apply elem_of_app in Ht as [Ht| ->%list_elem_of_singleton]; eauto.
    + rewrite list_lookup_insert_ne in Hj by done. eauto.
  - intros [(j & g' & Hj & Ht)| ->].
    + destruct (decide (j = k)) as [->|Hne].
      * exists k, (g ++ [x]). split; [apply list_lookup_insert_eq; by eapply lookup_lt_Some|].
        simplify_eq. apply elem_of_app. by left.
      * exists j, g'. by rewrite list_lookup_insert_ne.
    + exists k, (g ++ [x]). split; [apply list_lookup_insert_eq; by eapply lookup_lt_Some|].
      apply elem_of_app. right. left.
Qed.

Section Seeds.
Variables (variables : Z) (seeds : list Z).
Hypothesis vars_pos : 1 <= variables.
Hypothesis seeds_range : ∀ m, m ∈ seeds → 0 <= m < 2 ^ variables.

Local Abbreviation cubeInv := (cubeInv variables seeds).
Local Abbreviation groupsOK := (groupsOK variables seeds).

Lemma seed_cubeInv (m : Z) :
  m ∈ seeds →
  cubeInv 0 {| term := binaryOf variables m; minterms := [m]; isPrime := true |}.
Proof.
  intros Hin. pose proof (seeds_range m Hin) as Hm. split; simpl.
  - by apply binaryOf_length.
  - by apply binaryOf_isCube.
  - rewrite count_char_countL. by apply binaryOf_no_dash.
  - intros m'. rewrite list_elem_of_singleton. split.
    + intros ->. split; [done|]. apply cubeCovers_chars, matchesL_no_dash; [|done].
      by apply binaryOf_no_dash.
    + intros [Hm' Hc]. apply cubeCovers_chars, matchesL_no_dash in Hc;
        [|by apply binaryOf_no_dash].
      symmetry. apply (binaryOf_inj variables vars_pos); [done|done|].
      by apply chars_inj.
  - by intros m' ->%list_elem_of_singleton.
  - repeat constructor.
  - done.
Qed.

Lemma seedStep_spec (groups : list (list Implicant)) (m : Z) :
  m ∈ seeds → groupsOK 0 groups → groupsFresh groups →
  ∃ groups',
    seedStep variables groups m = Returned groups'
    ∧ groupsOK 0 groups' ∧ groupsFresh groups'
    ∧ (∀ t, t ∈ mjoin groups → t ∈ mjoin groups')
    ∧ (∃ t, t ∈ mjoin groups' ∧ minterms t = [m]).
Proof.
  intros Hin [Hlen Hok] Hfresh. pose proof (seeds_range m Hin) as Hm.
  unfold seedStep. fold (binaryOf variables m).
  set (ones := count_char "1" (binaryOf variables m)).
  set (seed := {| term := binaryOf variables m; minterms := [m]; isPrime := true |}).
  destruct (lookup_lt_is_Some_2 groups ones) as [g Hg].
  { pose proof (binaryOf_ones_le variables vars_pos m Hm). unfold ones. lia. }
  rewrite Hg. eexists. split; [done|].
  split_and!.
  - split; [by rewrite length_insert|].
    intros j g' Hj. destruct (decide (j = ones)) as [->|Hne].
    + rewrite list_lookup_insert_eq in Hj by by eapply lookup_lt_Some.
      simplify_eq. apply Forall_app. split; [by apply Hok|].
      constructor; [|done]. split; [by apply seed_cubeInv|done].
    + rewrite list_lookup_insert_ne in Hj by done. by apply Hok.
  - intros t [Ht| ->]%(elem_of_join_insert_snoc _ _ _ _ _ Hg); [by apply Hfresh|done].
  - intros t Ht. apply (elem_of_join_insert_snoc _ _ _ _ _ Hg). by left.
  - exists seed. split; [|done]. apply (elem_of_join_insert_snoc _ _ _ _ _ Hg). by right.
Qed.

Lemma seedFold_spec (l : list Z) (groups : list (list Implicant)) :
  (∀ m, m ∈ l → m ∈ seeds) → groupsOK 0 groups → groupsFresh groups →
  ∃ groups',
    forEachM (seedStep variables) l groups = Returned groups'
    ∧ groupsOK 0 groups' ∧ groupsFresh groups'
    ∧ (∀ t, t ∈ mjoin groups → t ∈ mjoin groups')
    ∧ (∀ m, m ∈ l → ∃ t, t ∈ mjoin groups' ∧ minterms t = [m]).
Proof.
  revert groups. induction l as [|m l IH]; intros groups Hl Hok Hfresh; simpl.
  - exists groups. split_and!; try done. by intros m ?%elem_of_nil.
  - destruct (seedStep_spec groups m) as (g1 & -> & Hok1 & Hfresh1 & Hsub1 & t & Ht & Htm);
      [apply Hl; left|done|done|].
    destruct (IH g1) as (g2 & Heq & Hok2 & Hfresh2 & Hsub2 & Hall);
      [intros m' Hm'; apply Hl; by right|done|done|].
    exists g2. split_and!; try done.
    + intros t' Ht'. auto.
    + intros m' [->|Hm']%elem_of_cons; [|auto]. exists t. auto.
Qed.

End Seeds.

(** ** The deduplicated primes *)

Section PrimesOf.
Variables (variables : Z) (minterms dontCares : list Z).
Hypothesis vars_pos : 1 <= variables.
Hypothesis true_range : ∀ m, m ∈ minterms → 0 <= m < 2 ^ variables.
Hypothesis dc_range : ∀ m, m ∈ dontCares → 0 <= m < 2 ^ variables.

Let seeds := minterms ++ dontCares.

(** With enough turns for one round per number of dashes the prime
    generation returns; the primes have pairwise different terms, each is
    a cube of some round, and every seed position lies in one of them. *)
Lemma primesOf_spec (fuel : nat) :
  (Z.to_nat variables + 1 < fuel)%nat →
  ∃ uniquePIs,
    primesOf fuel variables minterms dontCares = Returned uniquePIs
    ∧ NoDup (term <$> uniquePIs)
    ∧ (∀ q, q ∈ uniquePIs → ∃ r, cubeInv variables seeds r q)
    ∧ (∀ m, m ∈ seeds → ∃ q, q ∈ uniquePIs ∧ m ∈ Imp.minterms q).
Proof.
  intros Hfuel.
  assert (∀ m, m ∈ seeds → 0 <= m < 2 ^ variables) as Hrange.
  { intros m [?|?]%elem_of_app; auto. }
  destruct (seedFold_spec variables seeds vars_pos Hrange seeds (emptyGroups variables))
    as (groups & Hseed & Hok & Hfresh & _ & Hall).
  { done. }
  { split; [by unfold emptyGroups; rewrite length_replicate|].
    intros j g [-> _]%lookup_replicate. constructor. }
  { intros t (j & g & [-> _]%lookup_replicate & Ht)%elem_of_join_lookup.
    by apply elem_of_nil in Ht. }
  destruct (primeRounds_spec variables seeds vars_pos fuel 0 groups [] Hok Hfresh)
    as (found & Hrounds & Hinv & Hcover); [lia|].
  unfold primesOf, seedGroups. fold seeds. rewrite Hseed. simpl.
  rewrite Hrounds. simpl.
  destruct (dedupPrimes_spec found) as (Hnd & Hsub & Hrep).
  exists (dedupPrimes found). split_and!; try done.
  - intros q Hq. by apply Hinv, Hsub.
  - intros m Hm. destruct (Hall m Hm) as (t & Ht & Htm).
    destruct (Hcover t Ht) as (p & Hp & Hsp).
    destruct (Hrep p Hp) as (q & Hq & Hterm).
    exists q. split; [done|].
    destruct (Hinv p Hp) as [r Hpinv]. destruct (Hinv q (Hsub q Hq)) as [r' Hqinv].
    eapply (cubeInv_same_term variables seeds r r' p q); [done|done|done|].
    apply Hsp. rewrite Htm. left.
Qed.

End PrimesOf.

(** ** The coverage dictionary *)

Lemma foldl_prefix_invariant {A S} (P : list A → S → Prop) (f : S → A → S)
    (l : list A) (s : S) :
  P [] s → (∀ pre a s, P pre s → P (pre ++ [a]) (f s a)) → P l (foldl f s l).
Proof.
  intros Hs Hstep.
  assert (∀ pre s, P pre s → P (pre ++ l) (foldl f s l)) as H.
  { induction l as [|a l IH]; intros pre s' Hpre; simpl.
    - by rewrite app_nil_r.
    - rewrite cons_middle, app_assoc. apply IH, Hstep, Hpre. }
  apply (H [] s Hs).
Qed.

Lemma filter_unique {A} `{EqDecision A} (P : A → Prop) `{∀ x, Decision (P x)}
    (l : list A) (a : A) :
  NoDup l → a ∈ l → P a → (∀ b, b ∈ l → P b → b = a) → filter P l = [a].
Proof.
  induction 1 as [|b l Hb Hnd IH]; intros Ha HPa Huniq.
  - by apply elem_of_nil in Ha.
  - rewrite filter_cons. apply elem_of_cons in Ha as [<-|Ha].
    + rewrite decide_True by done. f_equal.
      destruct (filter P l) as [|c k] eqn:Hf; [done|].
      assert (c ∈ filter P l) as Hc by (rewrite Hf; left).
      apply list_elem_of_filter in Hc as [HPc Hc].
      assert (c = a) as -> by (apply Huniq; [by right|done]). done.
    + destruct (decide (P b)) as [HPb|HPb].
      * assert (b = a) as -> by (apply Huniq; [left|done]). done.
      * apply IH; [done|done|]. intros c Hc. apply Huniq. by right.
Qed.

Section Coverage.
Variables (required : list Z) (uniquePIs : list Implicant).
Hypothesis positions_nodup : ∀ q, q ∈ uniquePIs → NoDup (minterms q).

Lemma emptyCoverage_lookup (l : list Z) (cov : gmap Z (list Implicant)) (m : Z) :
  foldl (fun cov m => <[m := []]> cov) cov l !! m
  = if decide (m ∈ l) then Some [] else cov !! m.
Proof.
  revert cov. induction l as [|a l IH]; intros cov; simpl; [done|].
  rewrite IH. destruct (decide (m ∈ l)) as [Hin|Hnin].
  - rewrite decide_True by by right. done.
  - destruct (decide (a = m)) as [->|Hne].
    + rewrite decide_True by left. by rewrite lookup_insert_eq.
    + rewrite decide_False by (intros [?|?]%elem_of_cons; done).
      by rewrite lookup_insert_ne.
Qed.

Lemma pushCover_lookup (pi : Implicant) (l : list Z) (cov : gmap Z (list Implicant))
    (m : Z) :
  NoDup l →
  foldl (pushCover required pi) cov l !! m
  = if decide (m ∈ l ∧ m ∈ required) then (fun k => k ++ [pi]) <$> cov !! m
    else cov !! m.
Proof.
  intros Hnd. revert cov. induction Hnd as [|a l Ha Hnd IH]; intros cov; simpl.
  - destruct (decide (m ∈ [] ∧ m ∈ required)) as [[H _]|_]; [|done].
    by apply elem_of_nil in H.
  - rewrite IH. unfold pushCover, includes. case_bool_decide as Hreq.
    + destruct (decide (a = m)) as [->|Hne].
      * rewrite decide_False by tauto. rewrite decide_True by (split; [left|done]).
        by rewrite lookup_alter_eq.
      * rewrite lookup_alter_ne by done.
        destruct (decide (m ∈ l ∧ m ∈ required)) as [[??]|Hn].
        -- rewrite decide_True; [done|]. split; [by right|done].
        -- rewrite decide_False; [done|]. intros [[?|?]%elem_of_cons ?]; [done|tauto].
    + destruct (decide (m ∈ l ∧ m ∈ required)) as [[??]|Hn].
      * rewrite decide_True; [done|]. split; [by right|done].
      * rewrite decide_False; [done|].
        intros [[->|?]%elem_of_cons ?]; [done|tauto].
Qed.

(** The dictionary maps a required position to the primes that hold it,
    in the order of the primes, and nothing else. *)
Lemma buildCoverage_lookup (m : Z) :
  buildCoverage required uniquePIs !! m
  = if decide (m ∈ required)
    then Some (filter (fun q => m ∈ minterms q) uniquePIs) else None.
Proof.
  unfold buildCoverage.
  set (empty := foldl (fun cov m => <[m := []]> cov) ∅ required).
  assert (∀ pre post cov, (∀ q, q ∈ post → q ∈ uniquePIs) →
            cov !! m = (if decide (m ∈ required)
                        then Some (filter (fun q => m ∈ minterms q) pre) else None) →
            foldl (fun cov pi => foldl (pushCover required pi) cov (minterms pi)) cov post !! m
            = if decide (m ∈ required)
              then Some (filter (fun q => m ∈ minterms q) (pre ++ post)) else None) as H.
  { intros pre post. revert pre. induction post as [|pi post IH]; intros pre cov Hpost Hcov;
      simpl.
    - by rewrite app_nil_r.
    - rewrite cons_middle, app_assoc. apply IH; [intros q Hq; apply Hpost; by right|].
      rewrite pushCover_lookup by (apply positions_nodup, Hpost; left).
      rewrite Hcov, filter_app, filter_cons, filter_nil.
      destruct (decide (m ∈ required)) as [Hreq|Hreq].
      + destruct (decide (m ∈ minterms pi)) as [Hin|Hin].
        * rewrite decide_True by done. done.
        * rewrite decide_False by tauto. by rewrite app_nil_r.
      + rewrite decide_False by tauto. done. }
  apply (H [] uniquePIs empty); [done|].
  unfold empty. rewrite emptyCoverage_lookup, lookup_empty, filter_nil. done.
Qed.

Hypothesis primes_nodup : NoDup uniquePIs.

(** A prime is the only one to hold a required position exactly when the
    dictionary lists that prime alone for it. *)
Lemma buildCoverage_single (m : Z) (q : Implicant) :
  m ∈ required →
  buildCoverage required uniquePIs !! m = Some [q]
  ↔ q ∈ uniquePIs ∧ m ∈ minterms q
    ∧ ∀ q', q' ∈ uniquePIs → m ∈ minterms q' → q' = q.
Proof.
  intros Hreq. rewrite buildCoverage_lookup, decide_True by done. split.
  - intros [= Hf].
    assert (∀ q', q' ∈ filter (fun q => m ∈ minterms q) uniquePIs ↔ q' = q) as Hiff.
    { intros q'. rewrite Hf. apply list_elem_of_singleton. }
    pose proof (proj2 (Hiff q) eq_refl) as [Hm Hq]%list_elem_of_filter.
    split_and!; [done|done|].
    intros q' Hq' Hm'. apply Hiff, list_elem_of_filter. done.
  - intros (Hq & Hm & Huniq). f_equal. by apply filter_unique.
Qed.

End Coverage.

(** ** The covering loops *)

Lemma filter_sublist_mono {A} (P : A → Prop) `{∀ x, Decision (P x)} (l k : list A) :
  l `sublist_of` k → filter P l `sublist_of` filter P k.
Proof.
  induction 1 as [|x l k Hs IH|x l k Hs IH]; [done| |].
  - rewrite !filter_cons. destruct (decide (P x)); [by apply sublist_skip|done].
  - rewrite filter_cons. destruct (decide (P x)); [by apply sublist_cons|done].
Qed.

Lemma sublist_missing_length (l k : list Z) (m : Z) :
  l `sublist_of` k → m ∈ k → m ∉ l → (length l < length k)%nat.
Proof.
  intros Hsub Hk Hl.
  assert (filter (fun x => x ≠ m) l = l) as Hfl.
  { clear Hsub. induction l as [|x l IH]; [done|].
    rewrite filter_cons, decide_True by (intros ->; apply Hl; left).
    f_equal. apply IH. intros ?. apply Hl. by right. }
  pose proof (sublist_length _ _ (filter_sublist_mono (fun x => x ≠ m) _ _ Hsub)) as Hle.
  rewrite Hfl in Hle.
  pose proof (length_filter_lt (fun x => x ≠ m) k m Hk ltac:(tauto)). lia.
Qed.

Lemma takeAll_sublist (l : list Implicant) (st : list Implicant * list Z) :
  (foldl takePI st l).2 `sublist_of` st.2.
Proof.
  revert st. induction l as [|pi l IH]; intros st; simpl; [done|].
  etrans; [apply IH|]. destruct st as [f r0]. simpl. apply sublist_filter.
Qed.

Section Cover.
Variables (uniquePIs : list Implicant) (required : list Z).
Hypothesis positions_nodup : ∀ q, q ∈ uniquePIs → NoDup (minterms q).
Hypothesis primes_nodup : NoDup uniquePIs.
Hypothesis coverable : ∀ m, m ∈ required → ∃ q, q ∈ uniquePIs ∧ m ∈ minterms q.

Local Abbreviation coverInv := (coverInv uniquePIs required).
Let coverage := buildCoverage required uniquePIs.

Lemma takePI_spec (st : list Implicant * list Z) (pi : Implicant) :
  coverInv st → pi ∈ uniquePIs →
  coverInv (takePI st pi)
  ∧ (∀ q, q ∈ st.1 → q ∈ (takePI st pi).1)
  ∧ pi ∈ (takePI st pi).1
  ∧ (∀ m, m ∈ (takePI st pi).2 → m ∈ st.2)
  ∧ (∀ m, m ∈ minterms pi → m ∉ (takePI st pi).2).
Proof.
  destruct st as [final rem]. intros [H1 H2 H3 H4] Hpi. simpl in *.
  split_and!.
  - split; simpl.
    + intros m [_ Hm]%list_elem_of_filter. auto.
    + intros q [Hq| ->%list_elem_of_singleton]%elem_of_app; auto.
    + intros m Hm. destruct (decide (m ∈ minterms pi)) as [Hin|Hin].
      * right. exists pi. split; [|done]. apply elem_of_app. right. left.
      * destruct (H3 m Hm) as [Hrem|(q & Hq & Hmq)].
        -- left. by apply list_elem_of_filter.
        -- right. exists q. split; [|done]. apply elem_of_app. by left.
    + intros q m [Hq| ->%list_elem_of_singleton]%elem_of_app Hm
        [Hnin Hrem]%list_elem_of_filter; [|done].
      by apply (H4 q m).
  - intros q Hq. apply elem_of_app. by left.
  - apply elem_of_app. right. left.
  - by intros m [_ Hm]%list_elem_of_filter.
  - by intros m Hm [Hnin _]%list_elem_of_filter.
Qed.

Lemma takeAll_spec (l : list Implicant) (st : list Implicant * list Z) :
  coverInv st → (∀ q, q ∈ l → q ∈ uniquePIs) →
  coverInv (foldl takePI st l)
  ∧ (∀ q, q ∈ st.1 → q ∈ (foldl takePI st l).1)
  ∧ (∀ q, q ∈ l → q ∈ (foldl takePI st l).1)
  ∧ (∀ m, m ∈ (foldl takePI st l).2 → m ∈ st.2)
  ∧ (∀ q m, q ∈ l → m ∈ minterms q → m ∉ (foldl takePI st l).2).
Proof.
  revert st. induction l as [|pi l IH]; intros st Hst Hl; simpl.
  - split_and!; try done;
      first [by intros q ?%elem_of_nil|by intros q m ?%elem_of_nil].
  - destruct (takePI_spec st pi Hst) as (Hst1 & Hsub1 & Hpi1 & Hrem1 & Hgone1);
      [apply Hl; left|].
    destruct (IH (takePI st pi) Hst1) as (Hst2 & Hsub2 & Hl2 & Hrem2 & Hgone2);
      [intros q Hq; apply Hl; by right|].
    split_and!; try done.
    + auto.
    + intros q [->|Hq]%elem_of_cons; auto.
    + auto.
    + intros q m [->|Hq]%elem_of_cons Hm; [|by eapply Hgone2].
      intros Hin. by apply (Hgone1 m Hm), Hrem2.
Qed.

Lemma elem_of_newEssentials (l : list Z) (s : list Implicant) (q : Implicant) :
  q ∈ foldl (addEssential coverage) s l
  ↔ q ∈ s ∨ ∃ m tl, m ∈ l ∧ coverage !! m = Some (q :: tl).
Proof.
  revert s. induction l as [|a l IH]; intros s; simpl.
  - split; [auto|]. intros [?|(m & tl & ?%elem_of_nil & _)]; done.
  - rewrite IH. unfold addEssential.
    destruct (coverage !! a) as [[|pi tl]|] eqn:Ha.
    + split.
      * intros [?|(m & tl & Hm & Hc)]; [auto|]. right. exists m, tl. split; [by right|done].
      * intros [?|(m & tl & [->|Hm]%elem_of_cons & Hc)]; [auto|congruence|].
        right. eauto.
    + rewrite elem_of_set_add. split.
      * intros [[?| ->]|(m & tl' & Hm & Hc)]; [auto| |].
        -- right. exists a, tl. split; [left|done].
        -- right. exists m, tl'. split; [by right|done].
      * intros [?|(m & tl' & [->|Hm]%elem_of_cons & Hc)]; [auto| |].
        -- left. right. congruence.
        -- right. eauto.
    + split.
      * intros [?|(m & tl & Hm & Hc)]; [auto|]. right. exists m, tl. split; [by right|done].
      * intros [?|(m & tl & [->|Hm]%elem_of_cons & Hc)]; [auto|congruence|].
        right. eauto.
Qed.

Lemma coveredOnce_single (m : Z) :
  coveredOnce coverage m = true ↔ ∃ q, coverage !! m = Some [q].
Proof.
  unfold coveredOnce. destruct (coverage !! m) as [[|q [|q' l]]|]; simpl.
  - split; [done|]. by intros [q ?].
  - split; [eauto|done].
  - split; [done|]. by intros [q0 ?].
  - split; [done|]. by intros [q ?].
Qed.

(** The essential-prime loop returns within one turn per required
    position and two more; what it returns satisfies the invariant, it
    keeps the primes already chosen, and, entered with [changed] set, it
    has chosen every prime that alone holds a position to cover. *)
Lemma essentialLoop_spec (fuel : nat) (changed : bool) (st : list Implicant * list Z) :
  coverInv st →
  (length st.2 + 1 < fuel)%nat ∨ (changed = false ∧ 0 < fuel)%nat →
  ∃ st',
    essentialLoop fuel coverage changed st.1 st.2 = Returned st'
    ∧ coverInv st'
    ∧ (∀ q, q ∈ st.1 → q ∈ st'.1)
    ∧ st'.2 `sublist_of` st.2
    ∧ (changed = true →
       ∀ m q, m ∈ st.2 → coverage !! m = Some [q] → q ∈ st'.1).
Proof.
  revert changed st. induction fuel as [|fuel IH]; intros changed [final rem] Hst Hfuel;
    [lia|].
  simpl in *.
  destruct (changed && (0 <? length rem)%nat) eqn:Hgo; simpl.
  - apply andb_true_iff in Hgo as [-> Hne%Nat.ltb_lt].
    destruct Hfuel as [Hfuel|[? _]]; [|done].
    set (essentials := filter (fun m => coveredOnce coverage m = true) rem).
    set (ne := foldl (addEssential coverage) [] essentials).
    assert (∀ q, q ∈ ne ↔ ∃ m, m ∈ rem ∧ coverage !! m = Some [q]) as Hne_iff.
    { intros q. unfold ne. rewrite elem_of_newEssentials. split.
      - intros [?%elem_of_nil|(m & tl & [Hone Hm]%list_elem_of_filter & Hc)]; [done|].
        apply coveredOnce_single in Hone as [q' Hq']. exists m. split; [done|]. congruence.
      - intros (m & Hm & Hc). right. exists m, []. split; [|done].
        apply list_elem_of_filter. split; [|done]. apply coveredOnce_single. eauto. }
    assert (∀ q, q ∈ ne → q ∈ uniquePIs ∧ ∃ m, m ∈ rem ∧ m ∈ minterms q) as Hne_prime.
    { intros q (m & Hm & Hc)%Hne_iff.
      apply buildCoverage_single in Hc as (Hq & Hmq & _);
        [|done|done|by apply (cv_remaining _ _ _ Hst)].
      split; [done|]. eauto. }
    destruct (0 <? length ne)%nat eqn:Hsome.
    + destruct (takeAll_spec ne (final, rem) Hst) as (Hst1 & Hsub1 & Hl1 & Hrem1 & Hgone1).
      { intros q Hq. by apply Hne_prime. }
      destruct (foldl takePI (final, rem) ne) as [final1 rem1] eqn:Hfold. simpl in *.
      assert (length rem1 < length rem)%nat as Hshrink.
      { destruct ne as [|q0 ne'] eqn:Hneq; [done|].
        destruct (Hne_prime q0) as (_ & m & Hm & Hmq); [left|].
        apply (sublist_missing_length rem1 rem m); [|done|].
        - pose proof (takeAll_sublist (q0 :: ne') (final, rem)) as Hsl.
          by rewrite Hfold in Hsl.
        - eapply Hgone1; [left|done]. }
      destruct (IH true (final1, rem1) Hst1) as (st' & Heq & Hst' & Hsub' & Hsl' & Hess');
        [left; simpl; lia|].
      simpl in Heq. exists st'. split_and!; try done.
      * auto.
      * etrans; [exact Hsl'|]. simpl.
        pose proof (takeAll_sublist ne (final, rem)) as Hsl. by rewrite Hfold in Hsl.
      * intros _ m q Hm Hc. apply Hsub', Hl1, Hne_iff. eauto.
    + destruct (IH false (final, rem) Hst) as (st' & Heq & Hst' & Hsub' & Hsl' & _);
        [right; split; [done|lia]|].
      simpl in Heq. exists st'. split_and!; try done.
      intros _ m q Hm Hc.
      assert (q ∈ ne) as Hq by (apply Hne_iff; eauto).
      destruct ne; [by apply elem_of_nil in Hq|done].
  - exists (final, rem). split_and!; try done.
    intros -> m q Hm _. simpl in Hgo. apply Nat.ltb_ge in Hgo.
    destruct rem; [by apply elem_of_nil in Hm|simpl in Hgo; lia].
Qed.

End Cover.

Section Greedy.
Variables (uniquePIs : list Implicant) (required : list Z).
Hypothesis positions_nodup : ∀ q, q ∈ uniquePIs → NoDup (minterms q).
Hypothesis primes_nodup : NoDup uniquePIs.
Hypothesis coverable : ∀ m, m ∈ required → ∃ q, q ∈ uniquePIs ∧ m ∈ minterms q.

Local Abbreviation coverInv := (coverInv uniquePIs required).

Lemma pickStep_inv (final : list Implicant) (rem : list Z) (seen : list Implicant)
    (st : option Implicant * Z) (pi : Implicant) :
  pickInv final rem seen st → pickInv final rem (seen ++ [pi]) (pickStep final rem st pi).
Proof.
  destruct st as [best mx]. intros [Hmax Hbest]. simpl in *.
  unfold pickStep, includes. case_bool_decide as Hin.
  - split; simpl.
    + intros q [Hq| ->%list_elem_of_singleton]%elem_of_app Hnf; [auto|done].
    + destruct best as [b|]; [|done]. destruct Hbest as (? & ? & ?).
      split_and!; try done. apply elem_of_app. by left.
  - destruct (Z.ltb_spec mx (coverCount rem pi)) as [Hlt|Hge]; split; simpl.
    + intros q [Hq| ->%list_elem_of_singleton]%elem_of_app Hnf; [|lia].
      specialize (Hmax q Hq Hnf). lia.
    + split_and!; try done. apply elem_of_app. right. left.
    + intros q [Hq| ->%list_elem_of_singleton]%elem_of_app Hnf; [auto|lia].
    + destruct best as [b|]; [|done]. destruct Hbest as (? & ? & ?).
      split_and!; try done. apply elem_of_app. by left.
Qed.

Lemma pickBest_inv (final : list Implicant) (rem : list Z) :
  pickInv final rem uniquePIs (pickBest uniquePIs final rem).
Proof.
  unfold pickBest. apply (foldl_prefix_invariant (pickInv final rem)).
  - split; simpl; [|done]. by intros q ?%elem_of_nil.
  - intros pre a s. apply pickStep_inv.
Qed.

Lemma coverCount_pos (rem : list Z) (q : Implicant) (m : Z) :
  m ∈ rem → m ∈ minterms q → 0 < coverCount rem q.
Proof.
  intros Hrem Hq. unfold coverCount.
  assert (m ∈ filter (fun m => m ∈ rem) (minterms q)) as Hin
    by by apply list_elem_of_filter.
  destruct (filter _ (minterms q)); [by apply elem_of_nil in Hin|simpl; lia].
Qed.

Lemma coverCount_pos_inv (rem : list Z) (q : Implicant) :
  0 < coverCount rem q → ∃ m, m ∈ rem ∧ m ∈ minterms q.
Proof.
  unfold coverCount. intros Hpos.
  destruct (filter (fun m => m ∈ rem) (minterms q)) as [|m l] eqn:Hf; [simpl in Hpos; lia|].
  assert (m ∈ filter (fun m => m ∈ rem) (minterms q)) as Hin by (rewrite Hf; left).
  apply list_elem_of_filter in Hin as [? ?]. eauto.
Qed.

(** The greedy loop returns within one turn per position to cover and
    one more, with nothing left to cover: its exit with positions left
    is not taken. *)
Lemma greedyLoop_spec (fuel : nat) (st : list Implicant * list Z) :
  coverInv st → (length st.2 < fuel)%nat →
  ∃ final',
    greedyLoop fuel uniquePIs st.1 st.2 = Returned (final', [])
    ∧ coverInv (final', [])
    ∧ (∀ q, q ∈ st.1 → q ∈ final').
Proof.
  revert st. induction fuel as [|fuel IH]; intros [final rem] Hst Hfuel; [lia|].
  simpl in *. destruct rem as [|m0 rem'] eqn:Hrem.
  - simpl. exists final. split_and!; done.
  - rewrite <- Hrem in *. replace (0 <? length rem)%nat with true
      by (rewrite Hrem; done).
    assert (m0 ∈ rem) as Hm0 by (rewrite Hrem; left).
    destruct (coverable m0) as (q0 & Hq0 & Hmq0); [by apply (cv_remaining _ _ _ Hst)|].
    assert (q0 ∉ final) as Hq0f.
    { intros Hin. by apply (cv_removed _ _ _ Hst q0 m0). }
    pose proof (pickBest_inv final rem) as [Hmax Hbest].
    destruct (pickBest uniquePIs final rem) as [[b|] mx] eqn:Hpick; simpl in *.
    + destruct Hbest as (Hb & Hbf & Hmx).
      pose proof (Hmax q0 Hq0 Hq0f) as Hge.
      pose proof (coverCount_pos rem q0 m0 Hm0 Hmq0) as Hpos.
      replace (0 <? mx) with true by (symmetry; apply Z.ltb_lt; lia).
      destruct (takePI_spec uniquePIs required (final, rem) b Hst Hb)
        as (Hst1 & Hsub1 & Hb1 & Hrem1 & Hgone1).
      destruct (coverCount_pos_inv rem b) as (m & Hm & Hmb); [lia|].
      assert (length (takePI (final, rem) b).2 < length rem)%nat as Hshrink.
      { apply (sublist_missing_length _ rem m); [|done|by apply Hgone1].
        apply (takeAll_sublist [b] (final, rem)). }
      destruct (takePI (final, rem) b) as [final1 rem1] eqn:Htake.
      destruct (IH (final1, rem1) Hst1) as (final' & Heq & Hst' & Hsub');
        [simpl in *; lia|].
      simpl in *. unfold takePI in Htake. simplify_eq.
      exists final'. split_and!; try done. auto.
    + specialize (Hmax q0 Hq0 Hq0f).
      pose proof (coverCount_pos rem q0 m0 Hm0 Hmq0). lia.
Qed.

(** The cover: the loops return, every chosen cube is a prime, every
    required position lies in a chosen prime, and a prime that alone
    holds a required position is chosen. *)
Lemma coverOf_spec (fuel : nat) :
  (length required + 1 < fuel)%nat →
  ∃ finalPIs,
    coverOf fuel uniquePIs required = Returned (finalPIs, [])
    ∧ (∀ q, q ∈ finalPIs → q ∈ uniquePIs)
    ∧ (∀ m, m ∈ required → ∃ q, q ∈ finalPIs ∧ m ∈ minterms q)
    ∧ (∀ m q, m ∈ required → q ∈ uniquePIs → m ∈ minterms q →
         (∀ q', q' ∈ uniquePIs → m ∈ minterms q' → q' = q) → q ∈ finalPIs).
Proof.
  intros Hfuel. unfold coverOf.
  assert (coverInv ([], required)) as Hst0.
  { split; simpl; [done| | |]; try (by intros q ?%elem_of_nil); auto.
    by intros q m ?%elem_of_nil. }
  destruct (essentialLoop_spec uniquePIs required positions_nodup primes_nodup
              fuel true ([], required) Hst0)
    as ([final1 rem1] & Hess & Hst1 & _ & Hsl & Hsel);
    [left; simpl; lia|].
  simpl in Hess. rewrite Hess. simpl.
  pose proof (sublist_length _ _ Hsl) as Hle. simpl in Hle.
  destruct (greedyLoop_spec fuel (final1, rem1) Hst1) as (final' & Hgr & Hst' & Hsub');
    [simpl; lia|].
  simpl in Hgr. exists final'. split_and!; try done.
  - apply (cv_chosen _ _ _ Hst').
  - intros m Hm. destruct (cv_covered _ _ _ Hst' m Hm) as [?%elem_of_nil|?]; done.
  - intros m q Hm Hq Hmq Huniq. apply Hsub', (Hsel eq_refl m q Hm).
    by apply buildCoverage_single.
Qed.

End Greedy.

(** ** Reading the expressions back *)

Section Reading.
Variable env : nat → bool.

Lemma read_var (st : readState) (d : ascii) (i : nat) (rest : string) :
  Ascii.is_nat d = Some i →
  readFrom env (String "x" (String "_" (String d rest))) st None
  = readFrom env rest st (Some i).
Proof. intros Hd. simpl. by rewrite Hd. Qed.

Lemma read_quote (st : readState) (i : nat) (rest : string) :
  readFrom env (String "'" rest) st (Some i)
  = readFrom env rest (readFactor st (negb (env i))) None.
Proof. done. Qed.

Lemma read_index_end (st : readState) (i : nat) (rest : string) :
  endsIndex rest →
  readFrom env rest st (Some i) = readFrom env rest (readFactor st (env i)) None.
Proof.
  destruct rest as [|c rest]; [done|]. intros [Hnat Hq]. simpl. rewrite Hnat.
  by rewrite (proj2 (Ascii.eqb_neq c "'") Hq).
Qed.

Lemma read_one (st : readState) (rest : string) :
  readFrom env (String "1" rest) st None = readFrom env rest (readFactor st true) None.
Proof. done. Qed.

Lemma read_zero (st : readState) (rest : string) :
  readFrom env (String "0" rest) st None = readFrom env rest (readFactor st false) None.
Proof. done. Qed.

Lemma read_plus (st : readState) (rest : string) :
  readFrom env (" + " +:+ rest) st None
  = match readPlus st with
    | Some st' => readFrom env rest st' None
    | None => None
    end.
Proof. done. Qed.

Lemma read_open (st : readState) (rest : string) :
  readFrom env (String "(" rest) st None
  = match readOpen st with
    | Some st' => readFrom env rest st' None
    | None => None
    end.
Proof. done. Qed.

Lemma read_close (st : readState) (rest : string) :
  readFrom env (String ")" rest) st None
  = match readClose st with
    | Some st' => readFrom env rest st' None
    | None => None
    end.
Proof. done. Qed.

End Reading.

(** ** The variable names *)

Section VarNames.
Variable variables : Z.
Hypothesis vars_small : 0 <= variables <= 10.

Lemma varNames_lookup (i : nat) :
  (i < Z.to_nat variables)%nat →
  ∃ d, varNames variables !! i = Some (String "x" (String "_" (String d "")))
       ∧ Ascii.is_nat d = Some i.
Proof.
  intros Hi. unfold varNames. rewrite list_lookup_fmap.
  rewrite (proj2 (lookup_seqZ 0 variables i (Z.of_nat i)))
    by (split; lia).
  simpl. assert (i < 10)%nat as Hlt by lia.
  do 10 (destruct i as [|i]; [eexists; split; [reflexivity|reflexivity]|]). lia.
Qed.

End VarNames.

(** ** Formatting a product *)

Section FormatTerm.
Variable vars : list string.

Lemma formatTerm_from_spec (t : string) (i : nat) (res : string) (b : bool) :
  formatTerm_from i t vars res b
  = (res +:+ sopLitsText vars i t, b && only_dashes t).
Proof.
  revert i res b. induction t as [|c t IH]; intros i res b; simpl.
  - by rewrite string_app_nil_r, andb_true_r.
  - unfold sopLitText. destruct (Ascii.eqb c "-") eqn:Hd; simpl.
    + by rewrite IH.
    + rewrite IH, andb_false_r. f_equal.
      destruct (Ascii.eqb c "0"); by rewrite ?string_app_assoc, ?string_app_nil_r.
Qed.

Lemma formatTerm_spec (t : string) :
  formatTerm t vars = if only_dashes t then "1" else sopLitsText vars 0 t.
Proof. unfold formatTerm. by rewrite formatTerm_from_spec. Qed.

Lemma posLits_from_spec (t : string) (i : nat) (lits : list string) :
  posLits_from i t vars lits = lits ++ posLits vars i t.
Proof.
  revert i lits. induction t as [|b t IH]; intros i lits; simpl.
  - by rewrite app_nil_r.
  - destruct (Ascii.eqb b "-") eqn:Hd.
    + rewrite IH. apply Ascii.eqb_eq in Hd as ->. done.
    + destruct (Ascii.eqb b "0"); [by rewrite IH, <- app_assoc|].
      destruct (Ascii.eqb b "1"); [by rewrite IH, <- app_assoc|].
      by rewrite IH.
Qed.

End FormatTerm.

(** ** Reading a product and a sum of products *)

Section ReadSop.
Variables (env : nat → bool) (variables : Z).
Hypothesis vars_small : 0 <= variables <= 10.

Let vars := varNames variables.
Let n := Z.to_nat variables.

Lemma cubeChar_cases (c : ascii) :
  cubeChar c →
  (c = "0" ∨ c = "1" ∨ c = "-")%char.
Proof. done. Qed.

Lemma isCube_cons (c : ascii) (t : string) :
  isCube (String c t) ↔ cubeChar c ∧ isCube t.
Proof. unfold isCube. simpl. apply Forall_cons. Qed.

Lemma endsIndex_sopLits (t : string) (i : nat) (rest : string) :
  isCube t → (i + String.length t <= n)%nat → endsIndex rest →
  endsIndex (sopLitsText vars i t +:+ rest).
Proof.
  revert i. induction t as [|c t IH]; intros i Hcube Hlen Hrest; simpl in *; [done|].
  apply isCube_cons in Hcube as [Hc Hcube].
  destruct (varNames_lookup variables vars_small i) as (d & Hd & _); [unfold n in Hlen; lia|].
  unfold sopLitText. fold vars in Hd. rewrite Hd.
  destruct Hc as [->|[->| ->]]; cbn [Ascii.eqb Bool.eqb default from_option id];
    rewrite ?string_app_assoc, ?string_app_cons, ?string_app_nil_l; try done.
  apply IH; [done|lia|done].
Qed.

Lemma read_sopLits (t : string) (i : nat) (st : readState) (rest : string) :
  isCube t → (i + String.length t <= n)%nat → endsIndex rest →
  readFrom env (sopLitsText vars i t +:+ rest) st None
  = readFrom env rest (readLits env false i t st) None.
Proof.
  revert i st. induction t as [|c t IH]; intros i st Hcube Hlen Hrest; simpl in *; [done|].
  apply isCube_cons in Hcube as [Hc Hcube].
  destruct (varNames_lookup variables vars_small i) as (d & Hd & Hnat);
    [unfold n in Hlen; lia|].
  unfold sopLitText. fold vars in Hd. rewrite Hd.
  destruct Hc as [->|[->| ->]]; cbn [Ascii.eqb Bool.eqb default from_option id];
    rewrite ?string_app_assoc, ?string_app_cons, ?string_app_nil_l.
  - rewrite (read_var env st d i) by done. rewrite read_quote.
    apply IH; [done|lia|done].
  - rewrite (read_var env st d i) by done.
    rewrite read_index_end by (apply endsIndex_sopLits; [done|lia|done]).
    apply IH; [done|lia|done].
  - apply IH; [done|lia|done].
Qed.

(** The state after a product read on the outer level. *)
Lemma readLits_outer (t : string) (i : nat) (s : bool) (p : option bool) :
  isCube t →
  readLits env false i t {| outer := (s, p); inner := None |}
  = {| outer := (s, match p with
                    | Some b => Some (b && cubeHolds env i t)
                    | None => if only_dashes t then None
                              else Some (cubeHolds env i t)
                    end);
       inner := None |}.
Proof.
  revert i p. induction t as [|c t IH]; intros i p Hcube; simpl.
  - destruct p; by rewrite ?andb_true_r.
  - apply isCube_cons in Hcube as [Hc Hcube].
    destruct Hc as [->|[->| ->]]; simpl; unfold readFactor, levelFactor; simpl;
      rewrite IH by done; destruct p; simpl; by rewrite ?andb_assoc.
Qed.

Lemma cubeHolds_only_dashes (t : string) (i : nat) :
  only_dashes t = true → cubeHolds env i t = true.
Proof.
  revert i. induction t as [|c t IH]; intros i; simpl; [done|].
  intros [->%Ascii.eqb_eq Ht]%andb_true_iff. simpl. by apply IH.
Qed.

(** Reading the product written by [formatTerm] adds the value of the
    cube as a conjunction to the sum in progress. *)
Lemma read_formatTerm (t : string) (s : bool) (rest : string) :
  isCube t → (String.length t <= n)%nat → endsIndex rest →
  readFrom env (formatTerm t vars +:+ rest) {| outer := (s, None); inner := None |} None
  = readFrom env rest {| outer := (s, Some (cubeHolds env 0 t)); inner := None |} None.
Proof.
  intros Hcube Hlen Hrest. rewrite formatTerm_spec.
  destruct (only_dashes t) eqn:Hd.
  - rewrite string_app_cons, string_app_nil_l, read_one.
    by rewrite cubeHolds_only_dashes.
  - rewrite read_sopLits by (try done; lia). by rewrite readLits_outer, Hd.
Qed.

Lemma readPlus_outer (s b : bool) :
  readPlus {| outer := (s, Some b); inner := None |}
  = Some {| outer := (s || b, None); inner := None |}.
Proof. done. Qed.

Lemma read_sop (ts : list string) (s : bool) :
  ts ≠ [] → Forall (fun t => isCube t ∧ (String.length t <= n)%nat) ts →
  readFrom env (join " + " ((fun t => formatTerm t vars) <$> ts))
    {| outer := (s, None); inner := None |} None
  = Some (s || existsb (cubeHolds env 0) ts).
Proof.
  intros Hne Hall. revert s. induction Hall as [|t ts [Hcube Hlen] Hall IH]; [done|].
  intros s. destruct ts as [|t' ts'].
  - simpl. rewrite <- (string_app_nil_r (formatTerm t vars)).
    rewrite read_formatTerm by done. simpl. by rewrite orb_false_r.
  - change (join " + " ((fun t => formatTerm t vars) <$> t :: t' :: ts'))
      with (formatTerm t vars +:+ " + " +:+
            join " + " ((fun t => formatTerm t vars) <$> t' :: ts')).
    rewrite read_formatTerm by done.
    rewrite read_plus, readPlus_outer.
    rewrite IH by done. f_equal. simpl.
    by destruct s, (cubeHolds env 0 t), (cubeHolds env 0 t').
Qed.

End ReadSop.

(** ** Reading a product of sums *)

Lemma join_empty_cons (a : string) (l : list string) : join "" (a :: l) = a +:+ join "" l.
Proof. destruct l; simpl; [by rewrite string_app_nil_r|done]. Qed.

Lemma join_plus_cons (a b : string) (l : list string) :
  join " + " (a :: b :: l) = a +:+ " + " +:+ join " + " (b :: l).
Proof. done. Qed.

Section ReadPos.
Variables (env : nat → bool) (variables : Z).
Hypothesis vars_small : 0 <= variables <= 10.

Let vars := varNames variables.
Let n := Z.to_nat variables.

Lemma posLits_nil_holds (t : string) (i : nat) :
  isCube t → posLits vars i t = [] → cubeHolds env i t = true.
Proof.
  revert i. induction t as [|c t IH]; intros i Hcube; simpl; [done|].
  apply isCube_cons in Hcube as [[->|[->| ->]] Hcube]; simpl; try done.
  by apply IH.
Qed.

Lemma posLits_nil_dashes (t : string) (i : nat) :
  isCube t → posLits vars i t = [] ↔ only_dashes t = true.
Proof.
  revert i. induction t as [|c t IH]; intros i Hcube; simpl; [done|].
  apply isCube_cons in Hcube as [[->|[->| ->]] Hcube]; simpl; try done.
  by apply IH.
Qed.

Lemma readPlus_inner (o : level) (s b : bool) :
  readPlus {| outer := o; inner := Some (s, Some b) |}
  = Some {| outer := o; inner := Some (s || b, None) |}.
Proof. done. Qed.

Lemma readClose_inner (o : level) (s b : bool) :
  readClose {| outer := o; inner := Some (s, Some b) |}
  = Some {| outer := levelFactor o (s || b); inner := None |}.
Proof. done. Qed.

Lemma read_posLits (t : string) (i : nat) (isum : bool) (o : level) (rest : string) :
  isCube t → (i + String.length t <= n)%nat → posLits vars i t ≠ [] →
  readFrom env (join " + " (posLits vars i t) +:+ String ")" rest)
    {| outer := o; inner := Some (isum, None) |} None
  = readFrom env rest
      {| outer := levelFactor o (isum || negb (cubeHolds env i t)); inner := None |} None.
Proof.
  revert i isum. induction t as [|c t IH]; intros i isum Hcube Hlen Hne; simpl in *; [done|].
  apply isCube_cons in Hcube as [Hc Hcube].
  destruct (varNames_lookup variables vars_small i) as (d & Hd & Hnat);
    [unfold n in Hlen; lia|].
  fold vars in Hd. rewrite Hd in *.
  destruct Hc as [->|[->| ->]]; cbn [Ascii.eqb Bool.eqb default from_option id app] in *.
  - (* the variable alone *)
    destruct (posLits vars (S i) t) as [|l ls] eqn:Hrest.
    + cbn [join]. rewrite ?string_app_cons, ?string_app_nil_l.
      rewrite (read_var env _ d i) by done.
      rewrite read_index_end by done.
      rewrite read_close. unfold readFactor, levelFactor at 1. simpl inner. cbn iota.
      rewrite readClose_inner.
      rewrite (posLits_nil_holds t (S i)) by done.
      by rewrite andb_true_r, negb_involutive.
    + rewrite join_plus_cons, <- Hrest.
      rewrite ?string_app_assoc, ?string_app_cons, ?string_app_nil_l.
      rewrite (read_var env _ d i) by done.
      rewrite read_index_end by done.
      change (String " " (String "+" (String " " ?r))) with (" + " +:+ r).
      rewrite read_plus. unfold readFactor, levelFactor at 1. simpl inner. cbn iota.
      rewrite readPlus_inner.
      rewrite IH by (first [done|lia|by rewrite Hrest]).
      do 3 f_equal. by destruct isum, (env i), (cubeHolds env (S i) t).
  - (* the variable with a quote *)
    destruct (posLits vars (S i) t) as [|l ls] eqn:Hrest.
    + cbn [join]. rewrite ?string_app_assoc, ?string_app_cons, ?string_app_nil_l.
      rewrite (read_var env _ d i) by done.
      rewrite read_quote.
      rewrite read_close. unfold readFactor, levelFactor at 1. simpl inner. cbn iota.
      rewrite readClose_inner.
      rewrite (posLits_nil_holds t (S i)) by done.
      by rewrite andb_true_r.
    + rewrite join_plus_cons, <- Hrest.
      rewrite ?string_app_assoc, ?string_app_cons, ?string_app_nil_l.
      rewrite (read_var env _ d i) by done.
      rewrite read_quote.
      change (String " " (String "+" (String " " ?r))) with (" + " +:+ r).
      rewrite read_plus. unfold readFactor, levelFactor at 1. simpl inner. cbn iota.
      rewrite readPlus_inner.
      rewrite IH by (first [done|lia|by rewrite Hrest]).
      do 3 f_equal. by destruct isum, (env i), (cubeHolds env (S i) t).
  - apply IH; [done|lia|done].
Qed.

(** Reading a factor written for a zero-cube adds the negation of the
    cube to the product in progress. *)
Lemma read_posFactor (t : string) (o : level) (rest : string) :
  isCube t → (String.length t <= n)%nat → only_dashes t = false →
  readFrom env (posFactor vars t +:+ rest) {| outer := o; inner := None |} None
  = readFrom env rest
      {| outer := levelFactor o (negb (cubeHolds env 0 t)); inner := None |} None.
Proof.
  intros Hcube Hlen Hd. unfold posFactor. rewrite posLits_from_spec. simpl app.
  assert (posLits vars 0 t ≠ []) as Hne.
  { intros H. apply posLits_nil_dashes in H; [congruence|done]. }
  destruct (posLits vars 0 t) as [|l ls] eqn:Hl; [done|]. rewrite <- Hl.
  rewrite ?string_app_assoc, ?string_app_cons, ?string_app_nil_l.
  rewrite read_open.
  change (readOpen {| outer := o; inner := None |})
    with (Some {| outer := o; inner := Some (false, None) |}).
  cbv beta iota.
  by rewrite read_posLits by (first [done|lia|by rewrite Hl]).
Qed.

Lemma read_pos (ts : list string) (p : option bool) :
  Forall (fun t => isCube t ∧ (String.length t <= n)%nat ∧ only_dashes t = false) ts →
  ts ≠ [] ∨ p ≠ None →
  readFrom env (join "" (posFactor vars <$> ts))
    {| outer := (false, p); inner := None |} None
  = Some (match p with
          | Some b => b && forallb (fun t => negb (cubeHolds env 0 t)) ts
          | None => forallb (fun t => negb (cubeHolds env 0 t)) ts
          end).
Proof.
  intros Hall. revert p. induction Hall as [|t ts (Hcube & Hlen & Hd) Hall IH]; intros p Hne.
  - destruct Hne as [?|Hp]; [done|]. destruct p as [b|]; [|done].
    simpl. by rewrite andb_true_r.
  - rewrite fmap_cons, join_empty_cons, read_posFactor by done.
    unfold levelFactor. simpl fst. simpl snd.
    rewrite IH by (by right). f_equal. simpl.
    destruct p; [by rewrite andb_assoc|done].
Qed.

End ReadPos.

(** ** A cube as a product and as a set of positions *)

Section CubeValue.

Lemma cubeHolds_matches (env : nat → bool) (t : string) (i : nat) :
  isCube t →
  cubeHolds env i t
  = cubeMatches t (String.string_of_list_ascii
                     (bitChar <$> (env <$> seq i (String.length t)))).
Proof.
  revert i. induction t as [|c t IH]; intros i Hcube; simpl; [done|].
  apply isCube_cons in Hcube as [Hc Hcube]. rewrite <- IH by done.
  destruct Hc as [->|[->| ->]]; simpl; by destruct (env i).
Qed.

Variable variables : Z.
Hypothesis vars_pos : 1 <= variables.

Lemma bitsOf_varAt (p : Z) :
  bitsOf (Z.to_nat variables) p = varAt variables p <$> seq 0 (Z.to_nat variables).
Proof.
  unfold bitsOf. apply list_fmap_ext. intros i k Hk.
  apply lookup_seq in Hk as [-> Hlt]. unfold varAt. f_equal. lia.
Qed.

(** At a position below [2 ^ variables], the product of a cube holds
    exactly when the position lies in the cube. *)
Lemma cubeHolds_covers (t : string) (p : Z) :
  isCube t → String.length t = Z.to_nat variables → 0 <= p < 2 ^ variables →
  cubeHolds (varAt variables p) 0 t = cubeCovers variables t p.
Proof.
  intros Hcube Hlen Hp. unfold cubeCovers.
  rewrite binaryOf_text, bitsOf_varAt, cubeHolds_matches, Hlen by done. done.
Qed.

End CubeValue.

(** ** Valid inputs *)

Section ValidInputs.

Lemma elem_of_foldl_set_delete (l s : list Z) (x : Z) :
  x ∈ foldl set_delete s l ↔ x ∈ s ∧ x ∉ l.
Proof.
  revert s. induction l as [|a l IH]; intros s; simpl.
  - split; [|tauto]. intros H. split; [done|]. by intros ?%elem_of_nil.
  - rewrite IH. unfold set_delete. rewrite list_elem_of_filter, not_elem_of_cons. tauto.
Qed.

Lemma NoDup_foldl_set_delete (l s : list Z) : NoDup s → NoDup (foldl set_delete s l).
Proof.
  revert s. induction l as [|a l IH]; intros s Hs; simpl; [done|].
  apply IH. by apply NoDup_filter.
Qed.

Lemma elem_of_zerosOf (variables : Z) (ms dcs : list Z) (x : Z) :
  x ∈ zerosOf variables ms dcs ↔ 0 <= x < 2 ^ variables ∧ (x ∉ ms) ∧ (x ∉ dcs).
Proof.
  unfold zerosOf. rewrite elem_of_sort, !elem_of_foldl_set_delete,
    elem_of_foldl_set_add, elem_of_nil, elem_of_seqZ. intuition lia.
Qed.

Lemma NoDup_zerosOf (variables : Z) (ms dcs : list Z) : NoDup (zerosOf variables ms dcs).
Proof.
  unfold zerosOf. rewrite sort_perm.
  do 2 apply NoDup_foldl_set_delete. apply NoDup_foldl_set_add, NoDup_nil_2.
Qed.

Lemma range_length (variables : Z) (l : list Z) :
  0 <= variables → NoDup l → (∀ m, m ∈ l → 0 <= m < 2 ^ variables) →
  (length l <= Z.to_nat (2 ^ variables))%nat.
Proof.
  intros Hv Hnd Hrange.
  assert (l ⊆+ seqZ 0 (2 ^ variables)) as Hsub.
  { apply NoDup_submseteq; [done|]. intros m Hm. apply elem_of_seqZ.
    specialize (Hrange m Hm). lia. }
  apply submseteq_length in Hsub. by rewrite length_seqZ in Hsub.
Qed.

(** Two disjoint duplicate-free lists of positions whose lengths add up
    to [2 ^ variables] hold every position. *)
Lemma full_space (variables : Z) (ms dcs : list Z) :
  0 <= variables → NoDup ms → NoDup dcs →
  (∀ m, m ∈ ms → 0 <= m < 2 ^ variables) →
  (∀ m, m ∈ dcs → 0 <= m < 2 ^ variables) →
  (∀ m, m ∈ ms → m ∉ dcs) →
  Z.of_nat (length ms + length dcs) = 2 ^ variables →
  ∀ p, 0 <= p < 2 ^ variables → p ∈ ms ∨ p ∈ dcs.
Proof.
  intros Hv Hnd1 Hnd2 Hr1 Hr2 Hdis Hlen p Hp.
  assert (ms ++ dcs ≡ₚ seqZ 0 (2 ^ variables)) as Hperm.
  { apply submseteq_length_Permutation.
    - apply NoDup_submseteq; [by apply NoDup_app|].
      intros m [Hm|Hm]%elem_of_app; apply elem_of_seqZ;
        [specialize (Hr1 m Hm)|specialize (Hr2 m Hm)]; lia.
    - rewrite length_seqZ, length_app. lia. }
  apply elem_of_app. rewrite Hperm. apply elem_of_seqZ. lia.
Qed.

Lemma validInput_zeros (variables : Z) (ms dcs : list Z) :
  validInput variables ms dcs → validInput variables (zerosOf variables ms dcs) dcs.
Proof.
  intros [Hv Hnd1 Hnd2 Hr1 Hr2 Hdis]. split; try done.
  - apply NoDup_zerosOf.
  - by intros m (? & _)%elem_of_zerosOf.
  - by intros m (_ & _ & ?)%elem_of_zerosOf.
Qed.

Lemma pow_ge (variables : Z) :
  0 <= variables → (Z.to_nat variables + 1 <= Z.to_nat (2 ^ variables))%nat.
Proof.
  intros Hv. pose proof (Z.pow_gt_lin_r 2 variables ltac:(lia) Hv). lia.
Qed.

End ValidInputs.

(** ** [runQM] past its early returns *)

Section RunQM.
Variables (variables : Z) (ms dcs : list Z).
Hypothesis vars_pos : 1 <= variables.
Hypothesis true_range : ∀ m, m ∈ ms → 0 <= m < 2 ^ variables.
Hypothesis dc_range : ∀ m, m ∈ dcs → 0 <= m < 2 ^ variables.

Lemma cubeInv_NoDup (r : nat) (q : Implicant) :
  cubeInv variables (ms ++ dcs) r q → NoDup (minterms q).
Proof. intros H. apply StronglySorted_lt_NoDup, (ci_sorted _ _ _ _ H). Qed.

(** With enough turns the prime generation and the covering loops
    return; the cover is made of primes, it leaves no required position
    out, and it holds every prime that alone holds a required position. *)
Lemma cover_spec (fuel : nat) :
  (Z.to_nat variables + 1 < fuel)%nat → (length ms + 1 < fuel)%nat →
  ∃ uniquePIs finalPIs,
    primesOf fuel variables ms dcs = Returned uniquePIs
    ∧ coverOf fuel uniquePIs ms = Returned (finalPIs, [])
    ∧ NoDup (term <$> uniquePIs)
    ∧ (∀ q, q ∈ uniquePIs → ∃ r, cubeInv variables (ms ++ dcs) r q)
    ∧ (∀ q, q ∈ finalPIs → q ∈ uniquePIs)
    ∧ (∀ m, m ∈ ms → ∃ q, q ∈ finalPIs ∧ m ∈ minterms q)
    ∧ (∀ m q, m ∈ ms → q ∈ uniquePIs → m ∈ minterms q →
         (∀ q', q' ∈ uniquePIs → m ∈ minterms q' → q' = q) → q ∈ finalPIs).
Proof.
  intros Hf1 Hf2.
  destruct (primesOf_spec variables ms dcs vars_pos true_range dc_range fuel Hf1)
    as (U & HU & Hnd & Hinv & Hcov).
  destruct (coverOf_spec U ms) with (fuel := fuel) as (final & Hfinal & Hsub & Hall & Hess).
  - intros q Hq. destruct (Hinv q Hq) as [r Hr]. by eapply cubeInv_NoDup.
  - by eapply NoDup_fmap_1.
  - intros m Hm. apply Hcov, elem_of_app. by left.
  - done.
  - exists U, final. split_and!; done.
Qed.

End RunQM.

Lemma runQM_main (variables : Z) (ms dcs : list Z) (fuel : nat) :
  ms ≠ [] → Z.of_nat (length ms + length dcs) ≠ 2 ^ variables →
  ∀ uniquePIs finalPIs rem,
    primesOf fuel variables ms dcs = Returned uniquePIs →
    coverOf fuel uniquePIs ms = Returned (finalPIs, rem) →
    runQM fuel variables ms dcs
    = Returned
        {| qm_expression :=
             (let e := join " + " ((fun pi => formatTerm (term pi) (varNames variables))
                                     <$> finalPIs) in
              if String.eqb e "" then "0" else e);
           qm_groups := minterms <$> finalPIs;
           qm_terms := term <$> finalPIs |}.
Proof.
  intros Hne Hnf U final rem HU Hfinal. unfold runQM.
  destruct ms as [|m0 ms']; [done|]. simpl length at 1. cbn [Nat.eqb].
  destruct (Z.eqb_spec (Z.of_nat (length (m0 :: ms') + length dcs)) (2 ^ variables));
    [done|].
  rewrite HU. simpl. rewrite Hfinal. done.
Qed.

(** ** The value of a cover *)

Section CoverValue.
Variables (variables : Z) (seeds : list Z) (finalPIs : list Implicant).
Hypothesis vars_pos : 1 <= variables.
Hypothesis cubes : ∀ q, q ∈ finalPIs → ∃ r, cubeInv variables seeds r q.
Variable p : Z.
Hypothesis p_range : 0 <= p < 2 ^ variables.

Lemma cube_holds_member (q : Implicant) :
  q ∈ finalPIs →
  cubeHolds (varAt variables p) 0 (term q) = true ↔ p ∈ minterms q.
Proof.
  intros Hq. destruct (cubes q Hq) as [r Hr].
  rewrite (cubeHolds_covers variables vars_pos) by (try done; apply Hr).
  rewrite (ci_member _ _ _ _ Hr). tauto.
Qed.

Lemma sum_value :
  existsb (cubeHolds (varAt variables p) 0) (term <$> finalPIs) = true
  ↔ ∃ q, q ∈ finalPIs ∧ p ∈ minterms q.
Proof.
  rewrite existsb_exists. split.
  - intros (t & Ht%list_elem_of_In & Hh).
    apply list_elem_of_fmap in Ht as (q & -> & Hq).
    exists q. split; [done|]. by apply cube_holds_member.
  - intros (q & Hq & Hp). exists (term q). split.
    + apply list_elem_of_In, list_elem_of_fmap. eauto.
    + by apply cube_holds_member.
Qed.

Lemma product_value :
  forallb (fun t => negb (cubeHolds (varAt variables p) 0 t)) (term <$> finalPIs) = true
  ↔ ∀ q, q ∈ finalPIs → p ∉ minterms q.
Proof.
  rewrite forallb_forall. split.
  - intros H q Hq Hp. apply cube_holds_member in Hp; [|done].
    specialize (H (term q)). rewrite Hp in H. simpl in H.
    assert (false = true); [|done]. apply H, list_elem_of_In, list_elem_of_fmap. eauto.
  - intros H t Ht%list_elem_of_In. apply list_elem_of_fmap in Ht as (q & -> & Hq).
    apply negb_true_iff, not_true_iff_false. intros Hh.
    by apply (H q Hq), cube_holds_member.
Qed.

Lemma terms_are_cubes :
  Forall (fun t => isCube t ∧ (String.length t <= Z.to_nat variables)%nat)
         (term <$> finalPIs).
Proof.
  apply Forall_fmap, Forall_forall. intros q Hq. destruct (cubes q Hq) as [r Hr].
  simpl. split; [apply Hr|]. by rewrite (ci_length _ _ _ _ Hr).
Qed.

End CoverValue.

Lemma only_dashes_isAllDashTerm (t : string) :
  t ≠ "" → isAllDashTerm t = only_dashes t.
Proof. by destruct t. Qed.

Lemma count_char_repeat (c : ascii) (k : nat) : count_char c (repeat_char c k) = k.
Proof. induction k as [|k IH]; simpl; [done|]. by rewrite Ascii.eqb_refl, IH. Qed.

Lemma only_dashes_repeat (k : nat) : only_dashes (repeat_char "-" k) = true.
Proof. induction k as [|k IH]; simpl; done. Qed.

Lemma only_dashes_covers (variables : Z) (t : string) (p : Z) :
  1 <= variables → 0 <= p < 2 ^ variables → String.length t = Z.to_nat variables →
  only_dashes t = true → cubeCovers variables t p = true.
Proof.
  intros Hv Hp Hlen Hd. unfold cubeCovers.
  pose proof (binaryOf_length variables Hv p Hp) as Hbl. rewrite <- Hlen in Hbl.
  revert Hbl Hd. generalize (binaryOf variables p). clear.
  induction t as [|c t IH]; intros [|b s] Hlen; simpl in *; try done.
  intros [->%Ascii.eqb_eq Ht]%andb_true_iff. simpl. apply IH; [lia|done].
Qed.

(** ** The outcomes of [runQM] *)

Lemma runQM_empty (fuel : nat) (variables : Z) (dcs : list Z) :
  runQM fuel variables [] dcs
  = Returned {| qm_expression := "0"; qm_groups := []; qm_terms := [] |}.
Proof. done. Qed.

Lemma runQM_full (fuel : nat) (variables : Z) (ms dcs : list Z) :
  ms ≠ [] → Z.of_nat (length ms + length dcs) = 2 ^ variables →
  runQM fuel variables ms dcs
  = Returned {| qm_expression := "1"; qm_groups := [ms ++ dcs];
                qm_terms := [repeat_char "-" (Z.to_nat variables)] |}.
Proof.
  intros Hne Hfull. unfold runQM. destruct ms as [|m0 ms']; [done|].
  simpl length at 1. cbn [Nat.eqb]. by rewrite (proj2 (Z.eqb_eq _ _) Hfull).
Qed.

Section RunQMCases.
Variables (variables : Z) (ms dcs : list Z) (fuel : nat).
Hypothesis valid : validInput variables ms dcs.
Hypothesis fuel_ok : enoughFuel variables fuel.

Lemma valid_vars_pos : 1 <= variables.
Proof. destruct valid. lia. Qed.

Lemma valid_fuel : (Z.to_nat variables + 1 < fuel)%nat ∧ (length ms + 1 < fuel)%nat.
Proof.
  destruct valid as [Hv Hnd1 Hnd2 Hr1 Hr2 Hdis]. unfold enoughFuel in fuel_ok.
  pose proof (pow_ge variables ltac:(lia)).
  pose proof (range_length variables ms ltac:(lia) Hnd1 Hr1). lia.
Qed.

(** The three ways [runQM] returns on a valid input. *)
Lemma runQM_cases :
  (ms = [] ∧ runQM fuel variables ms dcs
             = Returned {| qm_expression := "0"; qm_groups := []; qm_terms := [] |})
  ∨ (ms ≠ [] ∧ Z.of_nat (length ms + length dcs) = 2 ^ variables
     ∧ runQM fuel variables ms dcs
       = Returned {| qm_expression := "1"; qm_groups := [ms ++ dcs];
                     qm_terms := [repeat_char "-" (Z.to_nat variables)] |})
  ∨ (ms ≠ [] ∧ Z.of_nat (length ms + length dcs) ≠ 2 ^ variables
     ∧ ∃ uniquePIs finalPIs,
         primesOf fuel variables ms dcs = Returned uniquePIs
         ∧ coverOf fuel uniquePIs ms = Returned (finalPIs, [])
         ∧ NoDup (term <$> uniquePIs)
         ∧ (∀ q, q ∈ uniquePIs → ∃ r, cubeInv variables (ms ++ dcs) r q)
         ∧ (∀ q, q ∈ finalPIs → q ∈ uniquePIs)
         ∧ (∀ m, m ∈ ms → ∃ q, q ∈ finalPIs ∧ m ∈ minterms q)
         ∧ (∀ m q, m ∈ ms → q ∈ uniquePIs → m ∈ minterms q →
              (∀ q', q' ∈ uniquePIs → m ∈ minterms q' → q' = q) → q ∈ finalPIs)
         ∧ runQM fuel variables ms dcs
           = Returned
               {| qm_expression :=
                    (let e := join " + " ((fun pi => formatTerm (term pi) (varNames variables))
                                            <$> finalPIs) in
                     if String.eqb e "" then "0" else e);
                  qm_groups := minterms <$> finalPIs;
                  qm_terms := term <$> finalPIs |}).
Proof.
  destruct (decide (ms = [])) as [Hnil|Hne].
  { left. split; [done|]. rewrite Hnil. apply runQM_empty. }
  right.
  destruct (Z.eq_dec (Z.of_nat (length ms + length dcs)) (2 ^ variables)) as [Hfull|Hpart].
  - left. split_and!; try done. by apply runQM_full.
  - right. split_and!; try done.
    destruct valid_fuel as [Hf1 Hf2].
    destruct (cover_spec variables ms dcs valid_vars_pos (vi_true_range _ _ _ valid)
                (vi_dc_range _ _ _ valid) fuel Hf1 Hf2)
      as (U & final & HU & Hfinal & ? & ? & ? & ? & ?).
    exists U, final. split_and!; try done.
    apply (runQM_main variables ms dcs fuel Hne Hpart U final [] HU Hfinal).
Qed.

End RunQMCases.

(** ** Soundness of the two forms *)

Section Soundness.
Variables (variables : Z) (fuel : nat).
Hypothesis fuel_ok : enoughFuel variables fuel.

(** What the sum-of-products expression of [runQM] evaluates to. *)
Lemma runQM_sop_value (ms dcs : list Z) :
  validInput variables ms dcs →
  ∃ sol, runQM fuel variables ms dcs = Returned sol
    ∧ ∀ p, 0 <= p < 2 ^ variables →
        (p ∈ ms → evalAt variables (qm_expression sol) p = Some true)
        ∧ (p ∉ ms → p ∉ dcs → evalAt variables (qm_expression sol) p = Some false)
        ∧ ∃ b, evalAt variables (qm_expression sol) p = Some b.
Proof.
  intros valid. pose proof (valid_vars_pos variables ms dcs valid) as Hv.
  destruct (runQM_cases variables ms dcs fuel valid fuel_ok)
    as [[Hnil ->]|[(Hne & Hfull & ->)|(Hne & Hpart & U & final & HU & Hfinal & Hnd
                                        & Hinv & Hsub & Hcov & _ & ->)]].
  - eexists. split; [done|]. intros p Hp. simpl. split_and!; [|done|by eexists].
    rewrite Hnil. by intros ?%elem_of_nil.
  - eexists. split; [done|]. intros p Hp. simpl. split_and!; [done| |by eexists].
    intros H1 H2. destruct valid as [Hvv Hnd1 Hnd2 Hr1 Hr2 Hdis].
    destruct (full_space variables ms dcs ltac:(lia) Hnd1 Hnd2 Hr1 Hr2 Hdis Hfull p Hp); done.
  - eexists. split; [done|]. intros p Hp. simpl.
    set (env := varAt variables p).
    assert (∀ q, q ∈ final → ∃ r, cubeInv variables (ms ++ dcs) r q) as Hcubes by auto.
    assert (final ≠ []) as Hfne.
    { destruct ms as [|m0 ?]; [done|]. destruct (Hcov m0) as (q & Hq & _); [left|].
      intros ->. by apply elem_of_nil in Hq. }
    assert (evalExpr env (join " + " ((fun pi => formatTerm (term pi) (varNames variables))
                                        <$> final))
            = Some (existsb (cubeHolds env 0) (term <$> final))) as Heval.
    { unfold evalExpr.
      rewrite (list_fmap_compose term (fun t => formatTerm t (varNames variables))).
      rewrite (read_sop env variables) with (s := false); [done|destruct valid; lia| |].
      - by destruct final.
      - by eapply terms_are_cubes. }
    assert (String.eqb (join " + " ((fun pi => formatTerm (term pi) (varNames variables))
                                      <$> final)) "" = false) as Hnonempty.
    { apply String.eqb_neq. intros Hempty. by rewrite Hempty in Heval. }
    rewrite Hnonempty. unfold evalAt. fold env. rewrite Heval.
    pose proof (sum_value variables (ms ++ dcs) final Hv Hcubes p Hp) as Hsum.
    fold env in Hsum.
    split_and!; [| |by eexists].
    + intros Hin. f_equal. apply Hsum. by apply Hcov.
    + intros H1 H2. f_equal. apply not_true_iff_false. intros (q & Hq & Hpq)%Hsum.
      destruct (Hcubes q Hq) as [r Hr].
      apply (ci_seeds _ _ _ _ Hr) in Hpq. apply elem_of_app in Hpq as [?|?]; done.
Qed.

(** What the product-of-sums expression written for the cover of the
    zeros evaluates to. *)
Lemma runQM_pos_value (zeros dcs : list Z) :
  validInput variables zeros dcs → zeros ≠ [] →
  ∃ sol, runQM fuel variables zeros dcs = Returned sol
    ∧ ∀ p, 0 <= p < 2 ^ variables →
        (p ∉ zeros → p ∉ dcs →
         evalAt variables (formatPosFromTerms (qm_terms sol) variables) p = Some true)
        ∧ (p ∈ zeros →
           evalAt variables (formatPosFromTerms (qm_terms sol) variables) p = Some false)
        ∧ ∃ b, evalAt variables (formatPosFromTerms (qm_terms sol) variables) p = Some b.
Proof.
  intros valid Hzne. pose proof (valid_vars_pos variables zeros dcs valid) as Hv.
  destruct (runQM_cases variables zeros dcs fuel valid fuel_ok)
    as [[Hnil _]|[(Hne & Hfull & ->)|(Hne & Hpart & U & final & HU & Hfinal & Hnd
                                       & Hinv & Hsub & Hcov & _ & ->)]]; [done| |].
  - eexists. split; [done|]. intros p Hp. simpl.
    assert (isAllDashTerm (repeat_char "-" (Z.to_nat variables)) = true) as Hall.
    { rewrite only_dashes_isAllDashTerm; [apply only_dashes_repeat|].
      destruct (Z.to_nat variables) eqn:Hn; [lia|done]. }
    unfold formatPosFromTerms. simpl existsb. rewrite Hall. simpl.
    split_and!; [|done|by eexists].
    intros H1 H2. destruct valid as [Hvv Hnd1 Hnd2 Hr1 Hr2 Hdis].
    destruct (full_space variables zeros dcs ltac:(lia) Hnd1 Hnd2 Hr1 Hr2 Hdis Hfull p Hp);
      done.
  - eexists. split; [done|]. intros p Hp. simpl.
    set (env := varAt variables p).
    assert (∀ q, q ∈ final → ∃ r, cubeInv variables (zeros ++ dcs) r q) as Hcubes by auto.
    assert (final ≠ []) as Hfne.
    { destruct zeros as [|m0 ?]; [done|]. destruct (Hcov m0) as (q & Hq & _); [left|].
      intros ->. by apply elem_of_nil in Hq. }
    pose proof (product_value variables (zeros ++ dcs) final Hv Hcubes p Hp) as Hprod.
    fold env in Hprod.
    unfold formatPosFromTerms.
    destruct (existsb isAllDashTerm (term <$> final)) eqn:Hdash.
    + (* a cube of dashes holds every position *)
      apply existsb_exists in Hdash as (t & Ht%list_elem_of_In & Hall).
      apply list_elem_of_fmap in Ht as (q & -> & Hq).
      destruct (Hcubes q Hq) as [r Hr].
      assert (p ∈ minterms q) as Hpq.
      { apply (ci_member _ _ _ _ Hr). split; [done|].
        apply only_dashes_covers; [done|done|apply Hr|].
        rewrite <- only_dashes_isAllDashTerm; [done|]. by destruct (term q). }
      apply (ci_seeds _ _ _ _ Hr) in Hpq.
      split_and!; [|done|by eexists].
      intros H1 H2. apply elem_of_app in Hpq as [?|?]; done.
    + assert (evalExpr env (join "" (posFactor (varNames variables) <$> (term <$> final)))
              = Some (forallb (fun t => negb (cubeHolds env 0 t)) (term <$> final)))
        as Heval.
      { unfold evalExpr.
        rewrite (read_pos env variables) with (p := None); [done|destruct valid; lia| |].
        - apply Forall_fmap, Forall_forall. intros q Hq. destruct (Hcubes q Hq) as [r Hr].
          simpl. split_and!; [apply Hr|by rewrite (ci_length _ _ _ _ Hr)|].
          rewrite <- only_dashes_isAllDashTerm.
          + apply not_true_iff_false. intros Hd.
            assert (existsb isAllDashTerm (term <$> final) = true); [|congruence].
            apply existsb_exists. exists (term q). split; [|done].
            apply list_elem_of_In, list_elem_of_fmap. eauto.
          + pose proof (ci_length _ _ _ _ Hr) as Hlen.
            destruct (term q); [simpl in Hlen; lia|done].
        - left. by destruct final. }
      unfold evalAt. fold env. rewrite Heval.
      split_and!; [| |by eexists].
      * intros H1 H2. f_equal. apply Hprod. intros q Hq Hpq.
        destruct (Hcubes q Hq) as [r Hr].
        apply (ci_seeds _ _ _ _ Hr) in Hpq. apply elem_of_app in Hpq as [?|?]; done.
      * intros Hin. f_equal. apply not_true_iff_false. intros Hall.
        destruct (Hcov p Hin) as (q & Hq & Hpq). by apply (proj1 Hprod Hall q Hq).
Qed.

End Soundness.

(** ** The solver on valid inputs *)

Lemma solveCustom_sop (fuel : nat) (variables : Z) (ms dcs : list Z) :
  solveCustom fuel variables ms dcs true
  = sol ← runQM fuel variables ms dcs;
    mret {| expression := qm_expression sol; essentials := qm_groups sol |}.
Proof. done. Qed.

Lemma solveCustom_pos (fuel : nat) (variables : Z) (ms dcs : list Z) :
  solveCustom fuel variables ms dcs false
  = if decide (zerosOf variables ms dcs = [])
    then Returned {| expression := "1"; essentials := [] |}
    else sol ← runQM fuel variables (zerosOf variables ms dcs) dcs;
         mret {| expression := formatPosFromTerms (qm_terms sol) variables;
                 essentials := qm_groups sol |}.
Proof.
  unfold solveCustom. simpl negb. cbv iota.
  destruct (zerosOf variables ms dcs) as [|z zs]; done.
Qed.

(** C1. On a valid input, in both forms, [solveCustom] returns an
    expression that evaluates to TRUE at every position of the true set, to
    FALSE at every position outside the true set and the don't-care set, and
    to one of the two values at every position, the variable [x_i] being
    bit [i] of the position, most significant bit first. *)
Theorem solveCustom_sound (variables : Z) (trueSet dontCareSet : list Z)
    (isSop : bool) (fuel : nat) :
  validInput variables trueSet dontCareSet → enoughFuel variables fuel →
  ∃ res,
    solveCustom fuel variables trueSet dontCareSet isSop = Returned res
    ∧ ∀ p, 0 <= p < 2 ^ variables →
        (p ∈ trueSet → evalAt variables (expression res) p = Some true)
        ∧ (p ∉ trueSet → p ∉ dontCareSet →
           evalAt variables (expression res) p = Some false)
        ∧ ∃ b, evalAt variables (expression res) p = Some b.
Proof.
  intros valid Hfuel. destruct isSop.
  - rewrite solveCustom_sop.
    destruct (runQM_sop_value variables fuel Hfuel trueSet dontCareSet valid)
      as (sol & -> & Hval).
    eexists. split; [done|]. exact Hval.
  - rewrite solveCustom_pos. case_decide as Hz.
    + eexists. split; [done|]. intros p Hp. simpl. split_and!; [done| |by eexists].
      intros H1 H2.
      assert (p ∈ zerosOf variables trueSet dontCareSet) as Hin
        by by apply elem_of_zerosOf.
      rewrite Hz in Hin. by apply elem_of_nil in Hin.
    + destruct (runQM_pos_value variables fuel Hfuel
                  (zerosOf variables trueSet dontCareSet) dontCareSet
                  (validInput_zeros _ _ _ valid) Hz) as (sol & -> & Hval).
      eexists. split; [done|]. intros p Hp. simpl.
      destruct (Hval p Hp) as (Htrue & Hfalse & Hsome).
      split_and!; [| |done].
      * intros Hin. apply Htrue.
        -- intros (_ & ? & _)%elem_of_zerosOf. done.
        -- by apply (vi_disjoint _ _ _ valid).
      * intros H1 H2. apply Hfalse. by apply elem_of_zerosOf.
Qed.

Lemma validInput_example : validInput 4 [4; 8; 10; 11; 12; 15] [9; 14].
Proof.
  split; try lia.
  - by apply (bool_decide_unpack (NoDup _)).
  - by apply (bool_decide_unpack (NoDup _)).
  - intros m Hm. repeat (apply elem_of_cons in Hm as [->|Hm]; [lia|]).
    by apply elem_of_nil in Hm.
  - intros m Hm. repeat (apply elem_of_cons in Hm as [->|Hm]; [lia|]).
    by apply elem_of_nil in Hm.
  - intros m Hm.
    repeat (apply elem_of_cons in Hm as [->|Hm]; [by apply (bool_decide_unpack (_ ∉ _))|]).
    by apply elem_of_nil in Hm.
Defined.

Lemma solveCustom_sound_witness :
  ∃ res,
    solveCustom 40 4 [4; 8; 10; 11; 12; 15] [9; 14] false = Returned res
    ∧ ∀ p, 0 <= p < 2 ^ 4 →
        (p ∈ [4; 8; 10; 11; 12; 15] → evalAt 4 (expression res) p = Some true)
        ∧ (p ∉ [4; 8; 10; 11; 12; 15] → p ∉ [9; 14] →
           evalAt 4 (expression res) p = Some false)
        ∧ ∃ b, evalAt 4 (expression res) p = Some b.
Proof.
  apply (solveCustom_sound 4 [4; 8; 10; 11; 12; 15] [9; 14] false 40).
  - exact validInput_example.
  - unfold enoughFuel. simpl. lia.
Defined.

(** ** The literals of a product *)

(** C2, as amended. [formatTerm] writes, place by place, the variable alone
    for the character [1], the variable followed by a quote for the
    character [0] and nothing for a dash, and it writes the constant [1] for
    a cube made of dashes only. *)
Theorem sop_literal_rendering (t : string) (vars : list string) :
  formatTerm t vars = (if only_dashes t then "1" else sopLitsText vars 0 t)
  ∧ ∀ i, sopLitText vars i "1" = default "undefined" (vars !! i)
         ∧ sopLitText vars i "0" = default "undefined" (vars !! i) +:+ "'"
         ∧ sopLitText vars i "-" = "".
Proof.
  split; [apply formatTerm_spec|]. intros i. unfold sopLitText. simpl.
  split_and!; try done. by rewrite string_app_nil_r.
Qed.

(** C2, as worded, fails: for the cube [01] of two variables the code
    writes [x_0'x_1], not [x_0x_1']. *)
Lemma sop_rendering_not_as_worded :
  formatTerm "01" (varNames 2) = "x_0'x_1"
  ∧ sopTermAsWorded "01" (varNames 2) = "x_0x_1'"
  ∧ formatTerm "01" (varNames 2) ≠ sopTermAsWorded "01" (varNames 2).
Proof. split_and!; [reflexivity|reflexivity|discriminate]. Qed.

(** ** Totality *)

Lemma runQM_returns (variables : Z) (ms dcs : list Z) (fuel : nat) :
  validInput variables ms dcs → enoughFuel variables fuel →
  ∃ sol, runQM fuel variables ms dcs = Returned sol.
Proof.
  intros valid Hfuel.
  destruct (runQM_cases variables ms dcs fuel valid Hfuel)
    as [[_ ->]|[(_ & _ & ->)|(_ & _ & U & final & _ & _ & _ & _ & _ & _ & _ & ->)]];
    by eexists.
Qed.

(** C6. On a valid input [solveCustom] returns a result: no exception is
    raised and no loop runs out of turns. The prime generation and the
    covering loops return, and the greedy loop ends with no required
    position left, so its exit with positions still uncovered is not
    taken: every required position lies in a chosen prime. The required
    positions are the true set for the sum of products and the complement
    for the product of sums. *)
Theorem solveCustom_total (variables : Z) (trueSet dontCareSet : list Z)
    (isSop : bool) (fuel : nat) :
  validInput variables trueSet dontCareSet → enoughFuel variables fuel →
  (∃ res, solveCustom fuel variables trueSet dontCareSet isSop = Returned res)
  ∧ ∃ uniquePIs finalPIs,
      let required :=
        if isSop then trueSet else zerosOf variables trueSet dontCareSet in
      primesOf fuel variables required dontCareSet = Returned uniquePIs
      ∧ coverOf fuel uniquePIs required = Returned (finalPIs, [])
      ∧ ∀ m, m ∈ required → ∃ q, q ∈ finalPIs ∧ m ∈ minterms q.
Proof.
  intros valid Hfuel.
  set (required := if isSop then trueSet else zerosOf variables trueSet dontCareSet).
  assert (validInput variables required dontCareSet) as valid'.
  { unfold required. destruct isSop; [done|by apply validInput_zeros]. }
  split.
  - destruct isSop.
    + rewrite solveCustom_sop.
      destruct (runQM_returns variables trueSet dontCareSet fuel valid Hfuel) as [sol ->].
      by eexists.
    + rewrite solveCustom_pos. case_decide; [by eexists|].
      subst required. cbv iota in valid'.
      destruct (runQM_returns variables _ dontCareSet fuel valid' Hfuel) as [sol ->].
      by eexists.
  - destruct (valid_fuel variables required dontCareSet fuel valid' Hfuel) as [Hf1 Hf2].
    destruct (cover_spec variables required dontCareSet
                (valid_vars_pos _ _ _ valid') (vi_true_range _ _ _ valid')
                (vi_dc_range _ _ _ valid') fuel Hf1 Hf2)
      as (U & final & HU & Hfinal & _ & _ & _ & Hcov & _).
    exists U, final. done.
Qed.

Lemma solveCustom_total_witness :
  (∃ res, solveCustom 40 4 [4; 8; 10; 11; 12; 15] [9; 14] true = Returned res)
  ∧ ∃ uniquePIs finalPIs,
      let required := [4; 8; 10; 11; 12; 15] in
      primesOf 40 4 required [9; 14] = Returned uniquePIs
      ∧ coverOf 40 uniquePIs required = Returned (finalPIs, [])
      ∧ ∀ m, m ∈ required → ∃ q, q ∈ finalPIs ∧ m ∈ minterms q.
Proof.
  apply (solveCustom_total 4 [4; 8; 10; 11; 12; 15] [9; 14] true 40).
  - exact validInput_example.
  - unfold enoughFuel. simpl. lia.
Defined.

(** ** The returned groups *)

(** C3, as amended. For the sum of products on a valid input, every
    position of the true set lies in a returned group, and every position
    of a returned group is in the true set or in the don't-care set. *)
Theorem groups_cover_trueSet (variables : Z) (trueSet dontCareSet : list Z)
    (fuel : nat) :
  validInput variables trueSet dontCareSet → enoughFuel variables fuel →
  ∃ res,
    solveCustom fuel variables trueSet dontCareSet true = Returned res
    ∧ (∀ p, p ∈ trueSet → ∃ g, g ∈ essentials res ∧ p ∈ g)
    ∧ (∀ g p, g ∈ essentials res → p ∈ g → p ∈ trueSet ∨ p ∈ dontCareSet).
Proof.
  intros valid Hfuel. rewrite solveCustom_sop.
  destruct (runQM_cases variables trueSet dontCareSet fuel valid Hfuel)
    as [[Hnil ->]|[(Hne & Hfull & ->)|(Hne & Hpart & U & final & HU & Hfinal & Hnd
                                        & Hinv & Hsub & Hcov & _ & ->)]];
    (eexists; split; [done|]); simpl.
  - split; [rewrite Hnil; by intros p ?%elem_of_nil|]. by intros g p ?%elem_of_nil.
  - split.
    + intros p Hp. exists (trueSet ++ dontCareSet). split; [left|].
      apply elem_of_app. by left.
    + intros g p ->%list_elem_of_singleton Hp. by apply elem_of_app.
  - split.
    + intros p Hp. destruct (Hcov p Hp) as (q & Hq & Hpq).
      exists (minterms q). split; [|done]. apply list_elem_of_fmap. eauto.
    + intros g p (q & -> & Hq)%list_elem_of_fmap Hp.
      destruct (Hinv q (Hsub q Hq)) as [r Hr].
      apply elem_of_app, (ci_seeds _ _ _ _ Hr), Hp.
Qed.

Lemma groups_cover_trueSet_witness :
  ∃ res,
    solveCustom 40 4 [4; 8; 10; 11; 12; 15] [9; 14] true = Returned res
    ∧ (∀ p, p ∈ [4; 8; 10; 11; 12; 15] → ∃ g, g ∈ essentials res ∧ p ∈ g)
    ∧ (∀ g p, g ∈ essentials res → p ∈ g → p ∈ [4; 8; 10; 11; 12; 15] ∨ p ∈ [9; 14]).
Proof.
  apply (groups_cover_trueSet 4 [4; 8; 10; 11; 12; 15] [9; 14] 40).
  - exact validInput_example.
  - unfold enoughFuel. simpl. lia.
Defined.

Lemma validInput_small : validInput 2 [1] [3].
Proof.
  split; try lia.
  - by apply (bool_decide_unpack (NoDup _)).
  - by apply (bool_decide_unpack (NoDup _)).
  - intros m ->%list_elem_of_singleton. lia.
  - intros m ->%list_elem_of_singleton. lia.
  - intros m ->%list_elem_of_singleton. by apply (bool_decide_unpack (_ ∉ _)).
Defined.

(** C3, as worded, fails: with one true position and one don't-care that
    combine, the returned group holds the don't-care position, so the
    union of the groups is not the true set. *)
Lemma groups_not_exactly_trueSet :
  validInput 2 [1] [3]
  ∧ solveCustom 40 2 [1] [3] true
    = Returned {| expression := "x_1"; essentials := [[1; 3]] |}
  ∧ ¬ (∀ p, (∃ g, g ∈ [[1; 3]] ∧ p ∈ g) ↔ p ∈ [1]).
Proof.
  split_and!; [exact validInput_small|reflexivity|].
  intros H. assert (3 ∈ [1]) as Hin.
  { apply H. exists [1; 3]. split; [left|]. right. left. }
  by apply list_elem_of_singleton in Hin.
Qed.

(** ** The cardinality of the cubes *)






(** ** The constant product of sums *)

Lemma covering_length (variables : Z) (zeros dcs : list Z) :
  validInput variables zeros dcs →
  (∀ p, 0 <= p < 2 ^ variables → p ∈ zeros ∨ p ∈ dcs) →
  Z.of_nat (length zeros + length dcs) = 2 ^ variables.
Proof.
  intros [Hv Hnd1 Hnd2 Hr1 Hr2 Hdis] Hall.
  assert (zeros ++ dcs ≡ₚ seqZ 0 (2 ^ variables)) as Hperm.
  { apply NoDup_Permutation; [by apply NoDup_app|apply NoDup_seqZ|].
    intros p. rewrite elem_of_app, elem_of_seqZ. split.
    - intros [Hp|Hp]; [specialize (Hr1 p Hp)|specialize (Hr2 p Hp)]; lia.
    - intros Hp. apply Hall. lia. }
  rewrite <- length_app, Hperm, length_seqZ. lia.
Qed.

Lemma formatPos_all_dashes (terms : list string) (variables : Z) :
  1 <= variables → repeat_char "-" (Z.to_nat variables) ∈ terms →
  formatPosFromTerms terms variables = "0".
Proof.
  intros Hv Hin. unfold formatPosFromTerms.
  assert (existsb isAllDashTerm terms = true) as ->; [|done].
  apply existsb_exists. exists (repeat_char "-" (Z.to_nat variables)).
  split; [by apply list_elem_of_In|].
  rewrite only_dashes_isAllDashTerm; [apply only_dashes_repeat|].
  destruct (Z.to_nat variables) eqn:Hn; [lia|done].
Qed.

(** Two strictly increasing lists with the same elements are equal. *)
Lemma sorted_lt_eq (l1 l2 : list Z) :
  StronglySorted Z.lt l1 → StronglySorted Z.lt l2 → (∀ a, a ∈ l1 ↔ a ∈ l2) → l1 = l2.
Proof.
  intros H1. revert l2. induction H1 as [|a l Hs IH Ha]; intros l2 H2 Hel.
  - destruct l2 as [|b l2]; [done|]. specialize (Hel b).
    rewrite elem_of_nil, elem_of_cons in Hel. tauto.
  - destruct H2 as [|b l2 Hs2 Hb].
    { specialize (Hel a). rewrite elem_of_nil, elem_of_cons in Hel. tauto. }
    rewrite Forall_forall in Ha, Hb.
    assert (a = b) as <-.
    { pose proof (Hel a) as Ha'. pose proof (Hel b) as Hb'.
      rewrite !elem_of_cons in Ha', Hb'.
      destruct (proj1 Ha' ltac:(by left)) as [|Hin]; [done|].
      destruct (proj2 Hb' ltac:(by left)) as [|Hin']; [done|].
      specialize (Ha _ Hin'). specialize (Hb _ Hin). lia. }
    f_equal. apply IH; [done|]. intros c. specialize (Hel c).
    rewrite !elem_of_cons in Hel. split; intros Hc.
    + destruct (proj1 Hel ltac:(by right)) as [->|Hin]; [|done].
      specialize (Ha _ Hc). lia.
    + destruct (proj2 Hel ltac:(by right)) as [->|Hin]; [|done].
      specialize (Hb _ Hc). lia.
Qed.

(** C5. For the product of sums on a valid input, with the complement
    read as the positions below [2 ^ variables] that lie neither in the
    true set nor in the don't-care set: when the complement is empty,
    [solveCustom] returns the expression [1]; when it is not, and the
    minimization of the complement, listed in increasing order, yields the
    cube made of dashes only, [solveCustom] returns the expression [0];
    and that is what the minimization yields when, besides, the complement
    and the don't-cares fill the position space, which is when no position
    is in the true set. *)
Theorem pos_degenerate (variables : Z) (trueSet dontCareSet : list Z) (fuel : nat) :
  validInput variables trueSet dontCareSet →
  ((∀ p, 0 <= p < 2 ^ variables → p ∈ trueSet ∨ p ∈ dontCareSet) →
   solveCustom fuel variables trueSet dontCareSet false
   = Returned {| expression := "1"; essentials := [] |})
  ∧ ((∃ p, 0 <= p < 2 ^ variables ∧ (p ∉ trueSet) ∧ (p ∉ dontCareSet)) →
     ∀ complement sol,
       StronglySorted Z.lt complement →
       (∀ p, p ∈ complement ↔ 0 <= p < 2 ^ variables ∧ (p ∉ trueSet) ∧ (p ∉ dontCareSet)) →
       runQM fuel variables complement dontCareSet = Returned sol →
       repeat_char "-" (Z.to_nat variables) ∈ qm_terms sol →
       solveCustom fuel variables trueSet dontCareSet false
       = Returned {| expression := "0"; essentials := qm_groups sol |})
  ∧ ((∃ p, 0 <= p < 2 ^ variables ∧ (p ∉ trueSet) ∧ (p ∉ dontCareSet)) →
     (∀ p, 0 <= p < 2 ^ variables → p ∉ trueSet) →
     ∃ complement,
       StronglySorted Z.lt complement
       ∧ (∀ p, p ∈ complement ↔ 0 <= p < 2 ^ variables ∧ (p ∉ trueSet) ∧ (p ∉ dontCareSet))
       ∧ runQM fuel variables complement dontCareSet
         = Returned {| qm_expression := "1"; qm_groups := [complement ++ dontCareSet];
                       qm_terms := [repeat_char "-" (Z.to_nat variables)] |}
       ∧ solveCustom fuel variables trueSet dontCareSet false
         = Returned {| expression := "0"; essentials := [complement ++ dontCareSet] |}).
Proof.
  intros valid. pose proof (valid_vars_pos _ _ _ valid) as Hv.
  set (zeros := zerosOf variables trueSet dontCareSet).
  assert (StronglySorted Z.lt zeros) as Hsorted.
  { apply StronglySorted_le_lt; [apply sort_num_asc_sorted|apply NoDup_zerosOf]. }
  assert ((∃ p, 0 <= p < 2 ^ variables ∧ (p ∉ trueSet) ∧ (p ∉ dontCareSet)) → zeros ≠ [])
    as Hsome.
  { intros (p & Hp) Hnil. apply (elem_of_zerosOf variables) in Hp. fold zeros in Hp.
    rewrite Hnil in Hp. by apply elem_of_nil in Hp. }
  split_and!.
  - intros Hall. rewrite solveCustom_pos. rewrite decide_True; [done|].
    destruct (zerosOf variables trueSet dontCareSet) as [|z zs] eqn:Hz; [done|].
    assert (z ∈ zerosOf variables trueSet dontCareSet) as Hin by (rewrite Hz; left).
    apply elem_of_zerosOf in Hin as (Hr & H1 & H2). destruct (Hall z Hr); done.
  - intros Hex complement sol Hs Hel Hrun Hin.
    assert (complement = zeros) as ->.
    { apply sorted_lt_eq; [done|done|]. intros p. rewrite Hel.
      symmetry. apply elem_of_zerosOf. }
    rewrite solveCustom_pos, decide_False by auto.
    fold zeros. rewrite Hrun. simpl. by rewrite formatPos_all_dashes.
  - intros Hex Hout. exists zeros. split; [done|]. split; [apply elem_of_zerosOf|].
    assert (runQM fuel variables zeros dontCareSet
            = Returned {| qm_expression := "1"; qm_groups := [zeros ++ dontCareSet];
                          qm_terms := [repeat_char "-" (Z.to_nat variables)] |}) as Hrun.
    { apply runQM_full; [auto|]. apply covering_length; [by apply validInput_zeros|].
      intros p Hp. destruct (decide (p ∈ dontCareSet)) as [Hd|Hd]; [by right|].
      left. apply elem_of_zerosOf. auto. }
    split; [done|]. rewrite solveCustom_pos, decide_False by auto.
    fold zeros. rewrite Hrun. simpl. rewrite formatPos_all_dashes; [done|done|left].
Qed.

Lemma validInput_dc : validInput 2 [] [3].
Proof.
  split; try lia.
  - by apply (bool_decide_unpack (NoDup _)).
  - by apply (bool_decide_unpack (NoDup _)).
  - by intros m ?%elem_of_nil.
  - intros m ->%list_elem_of_singleton. lia.
  - by intros m ?%elem_of_nil.
Defined.

Lemma validInput_covered : validInput 2 [1; 2] [0; 3].
Proof.
  split; try lia.
  - by apply (bool_decide_unpack (NoDup _)).
  - by apply (bool_decide_unpack (NoDup _)).
  - intros m Hm. repeat (apply elem_of_cons in Hm as [->|Hm]; [lia|]).
    by apply elem_of_nil in Hm.
  - intros m Hm. repeat (apply elem_of_cons in Hm as [->|Hm]; [lia|]).
    by apply elem_of_nil in Hm.
  - intros m Hm. repeat (apply elem_of_cons in Hm as [->|Hm];
                           [by apply (bool_decide_unpack (_ ∉ _))|]).
    by apply elem_of_nil in Hm.
Defined.

Lemma pos_degenerate_witness :
  solveCustom 40 2 [1; 2] [0; 3] false = Returned {| expression := "1"; essentials := [] |}
  ∧ solveCustom 40 2 [] [3] false
    = Returned {| expression := "0"; essentials := [[0; 1; 2; 3]] |}
  ∧ ∃ complement,
      StronglySorted Z.lt complement
      ∧ (∀ p, p ∈ complement ↔ 0 <= p < 2 ^ 2 ∧ (p ∉ []) ∧ (p ∉ [3]))
      ∧ runQM 40 2 complement [3]
        = Returned {| qm_expression := "1"; qm_groups := [complement ++ [3]];
                      qm_terms := [repeat_char "-" (Z.to_nat 2)] |}
      ∧ solveCustom 40 2 [] [3] false
        = Returned {| expression := "0"; essentials := [complement ++ [3]] |}.
Proof.
  assert (∃ p, 0 <= p < 2 ^ 2 ∧ (p ∉ []) ∧ (p ∉ [3])) as Hleft.
  { exists 0. split; [lia|]. split; [apply not_elem_of_nil|].
    by apply (bool_decide_unpack (_ ∉ _)). }
  split_and!.
  - apply (proj1 (pos_degenerate 2 [1; 2] [0; 3] 40 validInput_covered)).
    intros p Hp. assert (p = 0 ∨ p = 1 ∨ p = 2 ∨ p = 3) as [->|[->|[->| ->]]] by lia;
      [right|left|left|right]; by apply (bool_decide_unpack (_ ∈ _)).
  - apply (proj1 (proj2 (pos_degenerate 2 [] [3] 40 validInput_dc)) Hleft [0; 1; 2]
             {| qm_expression := "1"; qm_groups := [[0; 1; 2; 3]]; qm_terms := ["--"] |}).
    + repeat (apply SSorted_cons;
                [|repeat (apply Forall_cons_2; [lia|]); apply Forall_nil_2]).
      apply SSorted_nil.
    + intros p. split.
      * intros Hp. repeat (apply elem_of_cons in Hp as [->|Hp];
                             [split; [lia|]; split; [apply not_elem_of_nil|];
                              by apply (bool_decide_unpack (_ ∉ _))|]).
        by apply elem_of_nil in Hp.
      * intros (Hp & _ & H3).
        assert (p = 0 ∨ p = 1 ∨ p = 2 ∨ p = 3) as [->|[->|[->| ->]]] by lia;
          [by apply (bool_decide_unpack (_ ∈ _))..|].
        destruct H3. left.
    + reflexivity.
    + left.
  - apply (proj2 (proj2 (pos_degenerate 2 [] [3] 40 validInput_dc)) Hleft).
    intros p _. apply not_elem_of_nil.
Defined.

(** The two ends on concrete inputs: a full don't-care set gives [1], an
    empty true set with a position left gives [0]. *)
Example pos_degenerate_one :
  solveCustom 40 2 [1; 2] [0; 3] false = Returned {| expression := "1"; essentials := [] |}.
Proof. reflexivity. Qed.

Example pos_degenerate_zero :
  solveCustom 40 2 [] [3] false
  = Returned {| expression := "0"; essentials := [[0; 1; 2; 3]] |}.
Proof. reflexivity. Qed.

(** ** Every combinable pair is combined *)

Section DiffIndexComplete.

Lemma diffIndex_from_same (i d0 : Z) (t : string) : diffIndex_from i d0 t t = d0.
Proof.
  revert i. induction t as [|c t IH]; intros i; simpl; [done|].
  rewrite Ascii.eqb_refl. simpl. apply IH.
Qed.

(** Two texts that differ at one place only give that place. *)
Lemma diffIndex_from_single (i : Z) (t1 t2 : string) (k : nat) (c1 c2 : ascii) :
  chars t1 !! k = Some c1 → c1 ≠ c2 → chars t2 = <[k := c2]> (chars t1) →
  diffIndex_from i (-1) t1 t2 = i + Z.of_nat k.
Proof.
  revert i k t2. induction t1 as [|a r1 IH]; intros i k t2 Hk Hne Hins; [done|].
  destruct t2 as [|b r2]; [by destruct k|].
  destruct k as [|k]; simpl in *.
  - simplify_eq. rewrite (proj2 (Ascii.eqb_neq _ _) Hne). simpl.
    assert (r2 = r1) as -> by by apply chars_inj.
    rewrite diffIndex_from_same. lia.
  - simplify_eq. rewrite Ascii.eqb_refl. simpl.
    rewrite (IH (i + 1) k r2 Hk Hne) by done. lia.
Qed.

Lemma diffIndex_single (t1 t2 : string) (k : nat) (c1 c2 : ascii) :
  chars t1 !! k = Some c1 → c1 ≠ c2 → chars t2 = <[k := c2]> (chars t1) →
  diffIndex t1 t2 = Z.of_nat k.
Proof.
  intros. unfold diffIndex. by erewrite diffIndex_from_single.
Qed.

End DiffIndexComplete.

Lemma same_terms_elem (g g' : list Implicant) (t : Implicant) :
  term <$> g' = term <$> g → t ∈ g → ∃ t', t' ∈ g' ∧ term t' = term t.
Proof.
  intros Heq Ht.
  assert (term t ∈ term <$> g') as Hin by (rewrite Heq; by apply list_elem_of_fmap_2).
  apply list_elem_of_fmap in Hin as (t' & ? & ?). eauto.
Qed.

Lemma combinable_terms (t1 t2 u1 u2 : Implicant) :
  term u1 = term t1 → term u2 = term t2 →
  combinable t1 t2 → combinable u1 u2 ∧ mergedTerm u1 u2 = mergedTerm t1 t2.
Proof. unfold combinable, mergedTerm. by intros -> ->. Qed.

Section LoopsComplete.

Lemma pairLoop_complete (t1 : Implicant) (g2 nexti : list Implicant) :
  ∃ t1' g2' nexti',
    pairLoop t1 g2 nexti = (t1', g2', nexti')
    ∧ term t1' = term t1
    ∧ term <$> g2' = term <$> g2
    ∧ (∀ u, u ∈ nexti → u ∈ nexti')
    ∧ ∀ t2, t2 ∈ g2 → combinable t1 t2 → ∃ u, u ∈ nexti' ∧ term u = mergedTerm t1 t2.
Proof.
  revert t1 nexti. induction g2 as [|t2 g2 IH]; intros t1 nexti.
  - exists t1, [], nexti. simpl. split_and!; try done. by intros t2 ?%elem_of_nil.
  - simpl. destruct (Z.eqb_spec (diffIndex (term t1) (term t2)) (-1)) as [Heq|Hne]; simpl.
    + destruct (IH t1 nexti) as (t1' & g2' & nexti' & -> & Ht & Hg & Hsub & Hall).
      exists t1', (t2 :: g2'), nexti'. split_and!; try done.
      * rewrite !fmap_cons. simpl. by f_equal.
      * intros t [->|Ht2]%elem_of_cons Hc; [done|auto].
    + set (newTerm := dashAt (term t1) (diffIndex (term t1) (term t2))).
      set (combined := {| term := newTerm;
                          minterms := sort num_asc (minterms t1 ++ minterms t2);
                          isPrime := true |}).
      set (nexti0 := if existsb (fun t => String.eqb (term t) newTerm) nexti
                     then nexti else nexti ++ [combined]).
      assert ((∀ u, u ∈ nexti → u ∈ nexti0) ∧ ∃ u, u ∈ nexti0 ∧ term u = newTerm)
        as [Hsub0 (u0 & Hu0 & Hterm0)].
      { unfold nexti0. destruct (existsb _ nexti) eqn:Hex.
        - split; [done|].
          apply existsb_exists in Hex as (u & Hu%list_elem_of_In & Hterm%String.eqb_eq).
          eauto.
        - split; [intros u Hu; apply elem_of_app; by left|].
          exists combined. split; [|done]. apply elem_of_app. right. left. }
      destruct (IH (clearPrime t1) nexti0) as (t1' & g2' & nexti' & -> & Ht & Hg & Hsub & Hall).
      exists t1', (clearPrime t2 :: g2'), nexti'. split_and!; try done.
      * rewrite !fmap_cons. simpl. by f_equal.
      * auto.
      * intros t [->|Ht2]%elem_of_cons Hc.
        -- exists u0. split; [auto|done].
        -- destruct (Hall t Ht2) as (u & Hu & Hterm); [done|]. eauto.
Qed.

Lemma groupLoop_complete (g1 g2 nexti : list Implicant) :
  ∃ g1' g2' nexti',
    groupLoop g1 g2 nexti = (g1', g2', nexti')
    ∧ term <$> g1' = term <$> g1
    ∧ term <$> g2' = term <$> g2
    ∧ (∀ u, u ∈ nexti → u ∈ nexti')
    ∧ ∀ t1 t2, t1 ∈ g1 → t2 ∈ g2 → combinable t1 t2 →
               ∃ u, u ∈ nexti' ∧ term u = mergedTerm t1 t2.
Proof.
  revert g2 nexti. induction g1 as [|t1 g1 IH]; intros g2 nexti.
  - exists [], g2, nexti. simpl. split_and!; try done. by intros t1 t2 ?%elem_of_nil.
  - simpl.
    destruct (pairLoop_complete t1 g2 nexti) as (t1' & g2' & n1 & -> & Ht & Hg & Hsub & Hall).
    destruct (IH g2' n1) as (g1' & g2'' & n2 & -> & Hg1 & Hg2 & Hsub' & Hall').
    exists (t1' :: g1'), g2'', n2. split_and!.
    + done.
    + rewrite !fmap_cons. by f_equal.
    + by rewrite Hg2.
    + auto.
    + intros u1 u2 [->|Hu1]%elem_of_cons Hu2 Hc.
      * destruct (Hall u2 Hu2 Hc) as (u & Hu & Hterm). eauto.
      * destruct (same_terms_elem g2 g2' u2 Hg Hu2) as (u2' & Hu2' & Hterm2).
        destruct (combinable_terms u1 u2 u1 u2' eq_refl Hterm2 Hc) as [Hc' Hm'].
        destruct (Hall' u1 u2' Hu1 Hu2' Hc') as (u & Hu & Hterm).
        exists u. split; [done|]. by rewrite Hterm.
Qed.

End LoopsComplete.

Lemma foldl_prefix_invariant_elem {A S} (P : list A → S → Prop) (f : S → A → S)
    (l : list A) (s : S) :
  P [] s → (∀ pre a s, a ∈ l → P pre s → P (pre ++ [a]) (f s a)) → P l (foldl f s l).
Proof.
  intros Hs Hstep.
  assert (∀ post pre s, (∀ a, a ∈ post → a ∈ l) →
                        P pre s → P (pre ++ post) (foldl f s post)) as H.
  { induction post as [|a post IH]; intros pre s' Hin Hpre; simpl.
    - by rewrite app_nil_r.
    - rewrite cons_middle, app_assoc. apply IH.
      + intros b Hb. apply Hin. by right.
      + apply Hstep; [apply Hin; left|done]. }
  apply (H l [] s); done.
Qed.

Lemma join_insert_mono {A} (next : list (list A)) (a : nat) (ni ni' : list A) :
  next !! a = Some ni → (∀ u, u ∈ ni → u ∈ ni') →
  (∀ u, u ∈ mjoin next → u ∈ mjoin (<[a := ni']> next))
  ∧ (∀ u, u ∈ ni' → u ∈ mjoin (<[a := ni']> next)).
Proof.
  intros Ha Hsub. pose proof (lookup_lt_Some _ _ _ Ha) as Hlt. split.
  - intros u (j & g & Hj & Hu)%elem_of_join_lookup. apply elem_of_join_lookup.
    destruct (decide (j = a)) as [->|Hne].
    + exists a, ni'. split; [by apply list_lookup_insert_eq|]. apply Hsub. congruence.
    + exists j, g. by rewrite list_lookup_insert_ne.
  - intros u Hu. apply elem_of_join_lookup. exists a, ni'.
    split; [by apply list_lookup_insert_eq|done].
Qed.

Section ScanComplete.
Variables (variables : Z) (cur0 : list (list Implicant)).
Hypothesis cur0_length : length cur0 = Z.to_nat (variables + 1).

Local Abbreviation terms := (fun g : list Implicant => term <$> g).

Lemma scanStep_complete (seen : list nat)
    (st : list (list Implicant) * list (list Implicant)) (a : nat) :
  (S a < length cur0)%nat →
  scanComplete variables cur0 seen st →
  scanComplete variables cur0 (seen ++ [a]) (scanStep st a).
Proof.
  intros Ha. destruct st as [cur next]. intros (Hterms & Hnlen & Hdone). simpl in *.
  assert (length cur = length cur0) as Hclen.
  { by rewrite <- (length_fmap terms cur), Hterms, length_fmap. }
  destruct (lookup_lt_is_Some_2 cur a) as [g1 Hg1]; [lia|].
  destruct (lookup_lt_is_Some_2 cur (S a)) as [g2 Hg2]; [lia|].
  destruct (lookup_lt_is_Some_2 next a) as [ni Hni]; [lia|].
  destruct (groupLoop_complete g1 g2 ni) as (g1' & g2' & ni' & Heq & Ht1 & Ht2 & Hsub & Hall).
  unfold scanStep. rewrite Hg1, Hg2, Hni. simpl. rewrite Heq.
  destruct (join_insert_mono next a ni ni' Hni Hsub) as [Hmono Hnew].
  split_and!; simpl.
  - rewrite !list_fmap_insert, <- Hterms.
    rewrite (list_insert_id (terms <$> cur) a).
    + apply list_insert_id. rewrite list_lookup_fmap, Hg2. simpl. by rewrite Ht2.
    + rewrite list_lookup_fmap, Hg1. simpl. by rewrite Ht1.
  - by rewrite length_insert.
  - intros j h1 h2 t1 t2 [Hj| ->%list_elem_of_singleton]%elem_of_app Hh1 Hh2 H1 H2 Hc.
    + destruct (Hdone j h1 h2 t1 t2 Hj Hh1 Hh2 H1 H2 Hc) as (u & Hu & Hterm). eauto.
    + assert (terms <$> cur !! a = Some (terms h1)) as Hl1
        by by rewrite <- list_lookup_fmap, Hterms, list_lookup_fmap, Hh1.
      assert (terms <$> cur !! S a = Some (terms h2)) as Hl2
        by by rewrite <- list_lookup_fmap, Hterms, list_lookup_fmap, Hh2.
      rewrite Hg1 in Hl1. rewrite Hg2 in Hl2. simpl in Hl1, Hl2. simplify_eq.
      destruct (same_terms_elem h1 g1 t1) as (t1' & Ht1' & Hterm1); [done|done|].
      destruct (same_terms_elem h2 g2 t2) as (t2' & Ht2' & Hterm2); [done|done|].
      destruct (combinable_terms t1 t2 t1' t2' Hterm1 Hterm2 Hc) as [Hc' Hm'].
      destruct (Hall t1' t2' Ht1' Ht2' Hc') as (u & Hu & Hterm).
      exists u. split; [auto|]. by rewrite Hterm.
Qed.

(** After the pass, the term of every combinable pair of cubes from two
    neighbouring groups is the term of a cube of the next round. *)
Lemma combineRound_complete (j : nat) (g1 g2 : list Implicant) (t1 t2 : Implicant) :
  cur0 !! j = Some g1 → cur0 !! S j = Some g2 →
  t1 ∈ g1 → t2 ∈ g2 → combinable t1 t2 →
  ∃ u, u ∈ mjoin (combineRound variables cur0).2 ∧ term u = mergedTerm t1 t2.
Proof.
  intros Hg1 Hg2 H1 H2 Hc.
  assert (scanComplete variables cur0 (seq 0 (length cur0 - 1))
            (combineRound variables cur0)) as (_ & _ & Hdone).
  { unfold combineRound.
    apply (foldl_prefix_invariant_elem (scanComplete variables cur0)).
    - split_and!; simpl; [done|by unfold emptyGroups; rewrite length_replicate|].
      by intros ? ? ? ? ? ?%elem_of_nil.
    - intros pre a st Ha%elem_of_seq. apply scanStep_complete. lia. }
  apply (Hdone j g1 g2 t1 t2); try done.
  apply elem_of_seq. pose proof (lookup_lt_Some _ _ _ Hg2). lia.
Qed.

End ScanComplete.

(** ** A full round gives a full next round *)

Lemma countL_pos_lookup (c : ascii) (l : list ascii) :
  (0 < countL c l)%nat → ∃ k, l !! k = Some c.
Proof.
  unfold countL. intros Hpos.
  destruct (filter (fun d => d = c) l) as [|d ds] eqn:Hf; [simpl in Hpos; lia|].
  assert (d ∈ filter (fun d => d = c) l) as Hin by (rewrite Hf; left).
  apply list_elem_of_filter in Hin as [-> Hin].
  by apply list_elem_of_lookup in Hin.
Qed.

Lemma chars_of_list (l : list ascii) : chars (String.string_of_list_ascii l) = l.
Proof. apply String.list_ascii_of_string_of_list_ascii. Qed.

Section FullStep.
Variables (variables : Z) (seeds : list Z).
Hypothesis vars_pos : 1 <= variables.

Lemma groupsOK_group (r : nat) (cur : list (list Implicant)) (t : Implicant) :
  groupsOK variables seeds r cur → t ∈ mjoin cur →
  ∃ g, cur !! count_char "1" (term t) = Some g ∧ t ∈ g.
Proof.
  intros [_ Hcur] (j & g & Hj & Ht)%elem_of_join_lookup.
  specialize (Hcur j g Hj). eapply Forall_forall in Hcur as [_ Hones]; [|done].
  exists g. by rewrite Hones.
Qed.

Lemma fullRound_step (r : nat) (cur : list (list Implicant)) :
  groupsOK variables seeds r cur → fullRound variables r cur →
  fullRound variables (S r) (combineRound variables cur).2.
Proof.
  intros Hok Hfull c Hcube Hlen Hdash.
  set (l := chars c).
  destruct (countL_pos_lookup "-" l) as [k Hk].
  { unfold l. rewrite <- count_char_countL. lia. }
  assert (k < length l)%nat as Hklt by by eapply lookup_lt_Some.
  set (c0 := String.string_of_list_ascii (<[k := "0"%char]> l)).
  set (c1 := String.string_of_list_ascii (<[k := "1"%char]> l)).
  assert (chars c0 = <[k := "0"%char]> l) as Hc0 by apply chars_of_list.
  assert (chars c1 = <[k := "1"%char]> l) as Hc1 by apply chars_of_list.
  assert (∀ x s, chars s = <[k := x]> l → x ≠ "-"%char → cubeChar x →
                 isCube s ∧ String.length s = Z.to_nat variables
                 ∧ count_char "-" s = r
                 ∧ count_char "1" s
                   = ((if decide (x = "1"%char) then 1 else 0) + count_char "1" c)%nat)
    as Hside.
  { intros x s Hs Hx Hcx. split_and!.
    - unfold isCube. rewrite Hs. by apply Forall_insert.
    - rewrite <- chars_length, Hs, length_insert. unfold l. by rewrite chars_length.
    - rewrite count_char_countL, Hs.
      pose proof (countL_insert "-" "-" x l k Hk) as H.
      rewrite decide_True, decide_False in H by done.
      unfold l in H at 2. rewrite <- count_char_countL, Hdash in H. lia.
    - rewrite !count_char_countL, Hs.
      pose proof (countL_insert "1" "-" x l k Hk) as H.
      rewrite (decide_False (P := "-"%char = "1"%char)) in H by done.
      fold l. destruct (decide (x = "1"%char)); lia. }
  destruct (Hside "0"%char c0 Hc0) as (Hcube0 & Hlen0 & Hd0 & Hones0);
    [done|by left|].
  destruct (Hside "1"%char c1 Hc1) as (Hcube1 & Hlen1 & Hd1 & Hones1);
    [done|by right; left|].
  rewrite decide_False in Hones0 by done. rewrite decide_True in Hones1 by done.
  destruct (Hfull c0 Hcube0 Hlen0 Hd0) as (t1 & Ht1 & Hterm1).
  destruct (Hfull c1 Hcube1 Hlen1 Hd1) as (t2 & Ht2 & Hterm2).
  destruct (groupsOK_group r cur t1 Hok Ht1) as (g1 & Hg1 & Hin1).
  destruct (groupsOK_group r cur t2 Hok Ht2) as (g2 & Hg2 & Hin2).
  rewrite Hterm1, Hones0 in Hg1. rewrite Hterm2, Hones1 in Hg2. simpl in Hg1, Hg2.
  assert (diffIndex (term t1) (term t2) = Z.of_nat k) as Hdiff.
  { rewrite Hterm1, Hterm2. apply (diffIndex_single c0 c1 k "0" "1").
    - rewrite Hc0. by apply list_lookup_insert_eq.
    - done.
    - by rewrite Hc0, Hc1, list_insert_insert_eq. }
  destruct (combineRound_complete variables cur (proj1 Hok) _ g1 g2 t1 t2 Hg1 Hg2 Hin1 Hin2)
    as (u & Hu & Hterm).
  { unfold combinable. rewrite Hdiff. lia. }
  exists u. split; [done|]. rewrite Hterm. unfold mergedTerm. rewrite Hdiff, Hterm1.
  apply chars_inj. rewrite chars_dashAt by (rewrite Hlen0, <- Hlen, <- chars_length; done).
  rewrite Hc0, list_insert_insert_eq. by apply list_insert_id.
Qed.

End FullStep.

(** ** The seeds of a full position space *)

Section FullSeeds.

Lemma bitsValue_snoc (l : list bool) (b : bool) :
  bitsValue (l ++ [b]) = 2 * bitsValue l + (if b then 1 else 0).
Proof. unfold bitsValue. by rewrite foldl_app. Qed.

Lemma bitsOf_bitsValue (l : list bool) :
  0 <= bitsValue l < 2 ^ Z.of_nat (length l) ∧ bitsOf (length l) (bitsValue l) = l.
Proof.
  induction l as [|b l [IHr IHb]] using rev_ind; [done|].
  rewrite bitsValue_snoc, length_app. simpl length.
  replace (length l + 1)%nat with (S (length l)) by lia.
  rewrite Nat2Z.inj_succ, Z.pow_succ_r by lia. split; [destruct b; lia|].
  rewrite bitsOf_S. f_equal.
  - rewrite Z.div2_div. replace (2 * bitsValue l + (if b then 1 else 0))
      with ((if b then 1 else 0) + bitsValue l * 2) by lia.
    rewrite Z.div_add by lia. destruct b; simpl; by rewrite ?Z.add_0_l.
  - f_equal. rewrite Z.odd_add, Z.odd_mul. simpl. by destruct b.
Qed.

Lemma bitChar_decode (cs : list ascii) :
  Forall cubeChar cs → countL "-" cs = 0%nat →
  bitChar <$> ((fun ch => bool_decide (ch = "1"%char)) <$> cs) = cs.
Proof.
  induction 1 as [|ch cs Hch Hcs IH]; intros Hdash; [done|].
  rewrite countL_cons in Hdash. destruct (decide (ch = "-"%char)); [lia|].
  rewrite !fmap_cons, IH by lia. f_equal.
  destruct Hch as [->|[->|?]]; done.
Qed.

Variable variables : Z.
Hypothesis vars_pos : 1 <= variables.

(** Every text of [variables] bits is the binary text of a position. *)
Lemma binaryOf_surj (c : string) :
  isCube c → String.length c = Z.to_nat variables → count_char "-" c = 0%nat →
  ∃ m, 0 <= m < 2 ^ variables ∧ binaryOf variables m = c.
Proof.
  intros Hcube Hlen Hdash.
  set (l := (fun ch => bool_decide (ch = "1"%char)) <$> chars c).
  assert (length l = Z.to_nat variables) as Hl
    by (unfold l; by rewrite length_fmap, chars_length).
  assert (bitChar <$> l = chars c) as Hchars.
  { unfold l. apply bitChar_decode; [done|]. by rewrite <- count_char_countL. }
  destruct (bitsOf_bitsValue l) as [Hrange Hbits]. rewrite Hl in Hrange, Hbits.
  rewrite Z2Nat.id in Hrange by lia.
  exists (bitsValue l). split; [done|]. apply chars_inj.
  by rewrite binaryOf_bits, Hbits.
Qed.

Variable seeds : list Z.
Hypothesis seeds_full : ∀ p, 0 <= p < 2 ^ variables → p ∈ seeds.

Lemma seeds_fullRound (groups : list (list Implicant)) :
  groupsOK variables seeds 0 groups →
  (∀ m, m ∈ seeds → ∃ t, t ∈ mjoin groups ∧ minterms t = [m]) →
  fullRound variables 0 groups.
Proof.
  intros Hok Hall c Hcube Hlen Hdash.
  destruct (binaryOf_surj c Hcube Hlen Hdash) as (m & Hm & Hbin).
  destruct (Hall m (seeds_full m Hm)) as (t & Ht & Hms).
  exists t. split; [done|].
  pose proof (groupsOK_elem variables seeds 0 groups t Hok Ht) as Hinv.
  assert (m ∈ minterms t) as Hin by (rewrite Hms; left).
  apply (ci_member _ _ _ _ Hinv) in Hin as [_ Hcov].
  apply cubeCovers_chars, matchesL_no_dash in Hcov.
  - rewrite <- Hbin. by apply chars_inj.
  - rewrite <- count_char_countL. apply Hinv.
Qed.

End FullSeeds.

(** ** The primes of a full position space *)

Lemma countL_replicate (c d : ascii) (k : nat) :
  countL c (replicate k d) = if decide (d = c) then k else 0%nat.
Proof.
  induction k as [|k IH]; simpl; [by destruct (decide (d = c))|].
  rewrite countL_cons, IH. destruct (decide (d = c)); lia.
Qed.

Section FullPrimes.
Variables (variables : Z) (seeds : list Z).
Hypothesis vars_pos : 1 <= variables.

Let n := Z.to_nat variables.

(** A cube of every round: [r] dashes, then zeros. *)
Let dashCube (r : nat) : string := repeat_char "-" r +:+ repeat_char "0" (n - r).

Lemma dashCube_cube (r : nat) :
  (r <= n)%nat →
  isCube (dashCube r) ∧ String.length (dashCube r) = n ∧ count_char "-" (dashCube r) = r.
Proof.
  intros Hr. unfold dashCube, isCube.
  rewrite count_char_countL, <- chars_length, chars_app, !chars_repeat. split_and!.
  - apply Forall_app. split; apply Forall_replicate; [by right; right|by left].
  - rewrite length_app, !length_replicate. lia.
  - rewrite countL_app, !countL_replicate.
    rewrite decide_True, decide_False by done. lia.
Qed.

Lemma dashCube_top : dashCube n = repeat_char "-" n.
Proof.
  apply chars_inj. unfold dashCube.
  by rewrite chars_app, !chars_repeat, Nat.sub_diag, app_nil_r.
Qed.

Lemma fullRound_nonempty (r : nat) (cur : list (list Implicant)) :
  (r <= n)%nat → fullRound variables r cur → ∃ t, t ∈ mjoin cur.
Proof.
  intros Hr Hfull. destruct (dashCube_cube r Hr) as (H1 & H2 & H3).
  destruct (Hfull (dashCube r) H1 H2 H3) as (t & Ht & _). by exists t.
Qed.

(** From a full round on, the loop over the rounds reaches the round of
    the cube made of dashes only and keeps that cube as a prime. *)
Lemma primeRounds_full (fuel r : nat) (cur : list (list Implicant))
    (primes : list Implicant) :
  groupsOK variables seeds r cur → groupsFresh cur → fullRound variables r cur →
  (r <= n)%nat → (n + 1 - r < fuel)%nat →
  ∃ found,
    primeRounds fuel variables cur primes = Returned (primes ++ found)
    ∧ ∃ q, q ∈ found ∧ term q = repeat_char "-" n.
Proof.
  revert r cur primes.
  induction fuel as [|fuel IH]; intros r cur primes Hok Hfresh Hfull Hr Hfuel; [lia|].
  simpl. destruct (existsb _ cur) eqn:Hsome.
  2:{ destruct (fullRound_nonempty r cur Hr Hfull) as [t Ht].
      rewrite (existsb_nonempty_false cur Hsome) in Ht. by apply elem_of_nil in Ht. }
  pose proof (fullRound_step variables seeds vars_pos r cur Hok Hfull) as Hfull'.
  destruct (combineRound_spec variables seeds vars_pos r cur Hok)
    as (scanned & next & Hc & Hnext & Hrel).
  rewrite Hc in *. simpl in Hfull'.
  set (found1 := filter (fun t => isPrime t = true) (mjoin scanned)).
  destruct (nextsOK_groupsOK variables seeds r next Hnext) as [Hok' Hfresh'].
  destruct (forallb _ next) eqn:Hnone.
  - destruct (decide (r = n)) as [->|Hne].
    + destruct (dashCube_cube n Hr) as (H1 & H2 & H3).
      destruct (Hfull (dashCube n) H1 H2 H3) as (t & Ht & Hterm).
      destruct (Forall2_Forall2_join _ _ _ _ Hrel Ht)
        as (t' & Ht' & Hterm' & Hms & [Hf|(u & Hu & _)]).
      * exists found1. split; [done|]. exists t'. split.
        -- apply list_elem_of_filter. split; [|done]. rewrite Hf. by apply Hfresh.
        -- by rewrite Hterm', Hterm, dashCube_top.
      * rewrite (forallb_empty_true next Hnone) in Hu. by apply elem_of_nil in Hu.
    + destruct (fullRound_nonempty (S r) next) as [u Hu]; [lia|done|].
      rewrite (forallb_empty_true next Hnone) in Hu. by apply elem_of_nil in Hu.
  - destruct (forallb_empty_false next Hnone) as [u0 Hu0].
    pose proof (cubeInv_round_le variables seeds (S r) u0
                  (groupsOK_elem _ _ _ _ _ Hok' Hu0)) as Hle.
    destruct (IH (S r) next (primes ++ found1) Hok' Hfresh' Hfull')
      as (found2 & -> & q & Hq & Hterm); [done|lia|].
    exists (found1 ++ found2). rewrite app_assoc. split; [done|].
    exists q. split; [|done]. apply elem_of_app. by right.
Qed.

End FullPrimes.

Section FullPrimesOf.
Variables (variables : Z) (ms dcs : list Z).
Hypothesis valid : validInput variables ms dcs.
Hypothesis full : Z.of_nat (length ms + length dcs) = 2 ^ variables.

(** When the two input sets fill the position space, the deduplicated
    primes hold a cube made of dashes only. *)
Lemma primesOf_full (fuel : nat) (uniquePIs : list Implicant) :
  (Z.to_nat variables + 1 < fuel)%nat →
  primesOf fuel variables ms dcs = Returned uniquePIs →
  ∃ q, q ∈ uniquePIs ∧ term q = repeat_char "-" (Z.to_nat variables).
Proof.
  intros Hfuel. destruct valid as [Hv Hnd1 Hnd2 Hr1 Hr2 Hdis].
  assert (1 <= variables) as vars_pos by lia.
  set (seeds := ms ++ dcs).
  assert (∀ m, m ∈ seeds → 0 <= m < 2 ^ variables) as Hrange.
  { intros m [?|?]%elem_of_app; auto. }
  assert (∀ p, 0 <= p < 2 ^ variables → p ∈ seeds) as Hall.
  { intros p Hp. apply elem_of_app.
    apply (full_space variables ms dcs); try done. lia. }
  destruct (seedFold_spec variables seeds vars_pos Hrange seeds (emptyGroups variables))
    as (groups & Hseed & Hok & Hfresh & _ & Hone).
  { done. }
  { split; [by unfold emptyGroups; rewrite length_replicate|].
    intros j g [-> _]%lookup_replicate. constructor. }
  { intros t (j & g & [-> _]%lookup_replicate & Ht)%elem_of_join_lookup.
    by apply elem_of_nil in Ht. }
  pose proof (seeds_fullRound variables vars_pos seeds Hall groups Hok Hone) as Hfull.
  destruct (primeRounds_full variables seeds vars_pos fuel 0 groups [] Hok Hfresh Hfull)
    as (found & Hrounds & q & Hq & Hterm); [lia|lia|].
  unfold primesOf, seedGroups. fold seeds. rewrite Hseed. simpl.
  rewrite Hrounds. simpl. intros [= <-].
  destruct (dedupPrimes_spec found) as (_ & _ & Hrep).
  destruct (Hrep q Hq) as (q' & Hq' & Hterm'). exists q'. split; [done|].
  by rewrite Hterm'.
Qed.

End FullPrimesOf.

(** ** Essential primes *)

(** In a full position space the cube made of dashes only holds the seeds,
    each once. *)
Lemma all_dash_minterms (variables : Z) (ms dcs : list Z) (r : nat) (q : Implicant) :
  validInput variables ms dcs →
  cubeInv variables (ms ++ dcs) r q → term q = repeat_char "-" (Z.to_nat variables) →
  ms ++ dcs ≡ₚ minterms q.
Proof.
  intros valid Hinv Hterm. destruct valid as [Hv Hnd1 Hnd2 Hr1 Hr2 Hdis].
  apply NoDup_Permutation.
  - apply NoDup_app. split_and!; [done| |done]. intros x Hx. by apply Hdis.
  - by eapply cubeInv_NoDup.
  - intros x. split; [|apply (ci_seeds _ _ _ _ Hinv)].
    intros Hx. assert (0 <= x < 2 ^ variables) as Hrange
      by (apply elem_of_app in Hx as [?|?]; auto).
    apply (ci_member _ _ _ _ Hinv x). split; [done|]. apply only_dashes_covers.
    + lia.
    + done.
    + apply Hinv.
    + rewrite Hterm. apply only_dashes_repeat.
Qed.

(** C4. For the sum of products on a valid input, with [uniquePIs] the
    deduplicated primes of the input: every prime of [uniquePIs] that is the
    only one to hold some position of the true set is in the returned
    cover, that is, one of the returned groups lists exactly its
    positions. *)
Theorem essential_primes_selected (variables : Z) (trueSet dontCareSet : list Z)
    (fuel : nat) :
  validInput variables trueSet dontCareSet → enoughFuel variables fuel →
  ∃ uniquePIs res,
    primesOf fuel variables trueSet dontCareSet = Returned uniquePIs
    ∧ solveCustom fuel variables trueSet dontCareSet true = Returned res
    ∧ ∀ q m, q ∈ uniquePIs → m ∈ trueSet → m ∈ minterms q →
        (∀ q', q' ∈ uniquePIs → m ∈ minterms q' → q' = q) →
        ∃ g, g ∈ essentials res ∧ g ≡ₚ minterms q.
Proof.
  intros valid Hfuel. rewrite solveCustom_sop.
  pose proof (valid_vars_pos variables trueSet dontCareSet valid) as vars_pos.
  destruct (valid_fuel variables trueSet dontCareSet fuel valid Hfuel) as [Hf1 _].
  destruct (primesOf_spec variables trueSet dontCareSet vars_pos
              (vi_true_range _ _ _ valid) (vi_dc_range _ _ _ valid) fuel Hf1)
    as (uniquePIs & HU & _ & Hcubes & _).
  exists uniquePIs.
  destruct (runQM_cases variables trueSet dontCareSet fuel valid Hfuel)
    as [[Hnil ->]|[(Hne & Hfull & ->)|(Hne & Hpart & U & final & HU' & Hfinal & _
                                        & _ & _ & _ & Hess & ->)]];
    (eexists; split; [done|split; [done|]]); simpl.
  - rewrite Hnil. by intros q m _ ?%elem_of_nil.
  - intros q m Hq Hm Hmq Honly.
    destruct (primesOf_full variables trueSet dontCareSet valid Hfull fuel uniquePIs Hf1 HU)
      as (q0 & Hq0 & Hterm).
    destruct (Hcubes q0 Hq0) as [r0 Hinv0].
    pose proof (all_dash_minterms variables trueSet dontCareSet r0 q0 valid Hinv0 Hterm)
      as Hperm.
    assert (q0 = q) as <-.
    { apply Honly; [done|]. rewrite <- Hperm. apply elem_of_app. by left. }
    exists (trueSet ++ dontCareSet). split; [left|done].
  - rewrite HU in HU'. injection HU' as <-.
    intros q m Hq Hm Hmq Honly. exists (minterms q). split; [|done].
    apply list_elem_of_fmap. exists q. split; [done|]. by apply (Hess m q).
Qed.

Lemma essential_primes_selected_witness :
  ∃ uniquePIs res,
    primesOf 40 4 [4; 8; 10; 11; 12; 15] [9; 14] = Returned uniquePIs
    ∧ solveCustom 40 4 [4; 8; 10; 11; 12; 15] [9; 14] true = Returned res
    ∧ ∀ q m, q ∈ uniquePIs → m ∈ [4; 8; 10; 11; 12; 15] → m ∈ minterms q →
        (∀ q', q' ∈ uniquePIs → m ∈ minterms q' → q' = q) →
        ∃ g, g ∈ essentials res ∧ g ≡ₚ minterms q.
Proof.
  apply (essential_primes_selected 4 [4; 8; 10; 11; 12; 15] [9; 14] 40).
  - exact validInput_example.
  - unfold enoughFuel. simpl. lia.
Defined.

(** On a full position space the one prime is the cube of dashes, and the
    returned group lists its positions in the order of the input. *)
Example essential_full_space :
  primesOf 40 2 [3; 1] [0; 2]
  = Returned [{| term := "--"; minterms := [0; 1; 2; 3]; isPrime := true |}]
  ∧ solveCustom 40 2 [3; 1] [0; 2] true
    = Returned {| expression := "1"; essentials := [[3; 1; 0; 2]] |}.
Proof. split; vm_compute; reflexivity. Qed.

(** The prime [-100] is the only one to hold position 4, and its positions
    are a returned group. *)
Example essential_prime_kept :
  primesOf 40 4 [4; 8; 10; 11; 12; 15] [9; 14]
  = Returned [{| term := "-100"; minterms := [4; 12]; isPrime := true |};
              {| term := "1--0"; minterms := [8; 10; 12; 14]; isPrime := true |};
              {| term := "10--"; minterms := [8; 9; 10; 11]; isPrime := true |};
              {| term := "1-1-"; minterms := [10; 11; 14; 15]; isPrime := true |}]
  ∧ solveCustom 40 4 [4; 8; 10; 11; 12; 15] [9; 14] true
    = Returned {| expression := "x_1x_2'x_3' + x_0x_2 + x_0x_3'";
                  essentials := [[4; 12]; [10; 11; 14; 15]; [8; 10; 12; 14]] |}.
Proof. split; vm_compute; reflexivity. Qed.

(** * Further properties of the code *)

(** ** Gray codes *)

Section Gray.

Lemma map_fmap {A B} (f : A → B) (l : list A) : List.map f l = f <$> l.
Proof. induction l as [|a l IH]; simpl; [done|]. by rewrite IH. Qed.

(** The mirror construction also gives the codes of one bit. *)
Lemma generateGrayCodes_S (k : nat) :
  generateGrayCodes (S k)
  = (String "0"%char <$> generateGrayCodes k)
    ++ (String "1"%char <$> reverse (generateGrayCodes k)).
Proof. unfold reverse. rewrite <- rev_alt, <- !map_fmap. by destruct k. Qed.

Lemma differences_refl (a : string) : differences a a = 0%nat.
Proof. induction a as [|c a IH]; simpl; [done|]. by rewrite Ascii.eqb_refl, IH. Qed.

Lemma differences_sym (a b : string) : differences a b = differences b a.
Proof.
  revert b. induction a as [|c a IH]; intros [|d b]; simpl; try done.
  by rewrite IH, Ascii.eqb_sym.
Qed.

Lemma chained_app (l k : list string) (a b : string) :
  chained (l ++ [a]) → chained (b :: k) → differences a b = 1%nat →
  chained ((l ++ [a]) ++ b :: k).
Proof.
  intros Hl Hk Hab. induction l as [|x l IH]; [by split|].
  destruct l as [|y l]; destruct Hl as [? Hl]; (split; [done|]); by apply IH.
Qed.

Lemma chained_reverse (l : list string) : chained l → chained (reverse l).
Proof.
  induction l as [|a l IH]; [done|]. intros Hl.
  destruct l as [|b l]; [done|]. destruct Hl as [Hab Hl].
  rewrite reverse_cons. specialize (IH Hl). rewrite reverse_cons in IH |- *.
  apply (chained_app _ [] b a); [done|done|]. by rewrite differences_sym.
Qed.

Lemma chained_fmap (c : ascii) (l : list string) :
  chained l → chained (String c <$> l).
Proof.
  induction l as [|a l IH]; [done|]. destruct l as [|b l]; [done|].
  intros [Hab Hl]. split; [|by apply IH]. simpl. by rewrite Ascii.eqb_refl.
Qed.

Lemma chained_lookup (l : list string) (i : nat) (a b : string) :
  chained l → l !! i = Some a → l !! S i = Some b → differences a b = 1%nat.
Proof.
  revert i. induction l as [|x l IH]; intros i Hl Ha Hb; [done|].
  destruct l as [|y l]; [done|]. destruct Hl as [Hxy Hl].
  destruct i as [|i]; simpl in *; [by simplify_eq|]. by eapply IH.
Qed.

Lemma gray_nonempty (n : nat) : generateGrayCodes n ≠ [].
Proof.
  induction n as [|n IH]; [done|]. rewrite generateGrayCodes_S.
  destruct (generateGrayCodes n); done.
Qed.

Lemma gray_chained (n : nat) : chained (generateGrayCodes n).
Proof.
  induction n as [|n IH]; [done|]. rewrite generateGrayCodes_S.
  pose proof (gray_nonempty n) as Hne.
  destruct (generateGrayCodes n) as [|a l _] using rev_ind; [done|].
  rewrite reverse_app, fmap_app. simpl.
  apply chained_app.
  - pose proof (chained_fmap "0" _ IH) as H. by rewrite fmap_app in H.
  - pose proof (chained_fmap "1" _ (chained_reverse _ IH)) as H.
    by rewrite reverse_app in H.
  - simpl. by rewrite differences_refl.
Qed.

Lemma gray_length (n : nat) : length (generateGrayCodes n) = (2 ^ n)%nat.
Proof.
  induction n as [|n IH]; [done|]. rewrite generateGrayCodes_S.
  rewrite length_app, !length_fmap, length_reverse, IH. simpl. lia.
Qed.

Lemma gray_code_bits (n : nat) (s : string) :
  s ∈ generateGrayCodes n ↔
  String.length s = n ∧ Forall (fun c => c = "0"%char ∨ c = "1"%char) (chars s).
Proof.
  revert s. induction n as [|n IH]; intros s.
  - simpl. rewrite list_elem_of_singleton. split; [by intros ->|].
    intros [Hlen _]. by destruct s.
  - rewrite generateGrayCodes_S, elem_of_app, !list_elem_of_fmap. split.
    + intros [(t & -> & Ht)|(t & -> & Ht)]; [|rewrite elem_of_reverse in Ht];
        apply IH in Ht as [Hlen Hbits]; (split; [simpl; by rewrite Hlen|constructor; auto]).
    + intros [Hlen Hbits]. destruct s as [|c s]; [done|].
      simpl in Hlen. apply Forall_cons in Hbits as [Hc Hbits].
      assert (s ∈ generateGrayCodes n) as Hs by (apply IH; split; [lia|done]).
      destruct Hc as [->| ->]; [left|right]; exists s; split; try done.
      by rewrite elem_of_reverse.
Qed.

Lemma gray_NoDup (n : nat) : NoDup (generateGrayCodes n).
Proof.
  induction n as [|n IH]; [apply NoDup_singleton|]. rewrite generateGrayCodes_S.
  apply NoDup_app. split_and!.
  - apply (NoDup_fmap_2_strong (String "0"%char)); [|done]. by intros ?? _ _ [=].
  - intros s (t & -> & _)%list_elem_of_fmap (u & [=] & _)%list_elem_of_fmap.
  - apply (NoDup_fmap_2_strong (String "1"%char)); [by intros ?? _ _ [=]|].
    by rewrite reverse_Permutation.
Qed.

End Gray.

(** [generateGrayCodes n] lists [2 ^ n] texts, and a text is in the list
    exactly when it is made of [n] characters [0] or [1]; no text comes
    twice. *)
Theorem gray_codes_enumerate (n : nat) :
  length (generateGrayCodes n) = (2 ^ n)%nat
  ∧ NoDup (generateGrayCodes n)
  ∧ ∀ s, s ∈ generateGrayCodes n ↔
         String.length s = n ∧ Forall (fun c => c = "0"%char ∨ c = "1"%char) (chars s).
Proof. split_and!; [apply gray_length|apply gray_NoDup|apply gray_code_bits]. Qed.

(** Two codes next to each other in [generateGrayCodes n] differ at
    exactly one place, and so do the last code and the first one when
    [n >= 1]: the order is cyclic. *)
Theorem gray_codes_adjacent (n : nat) :
  (∀ i a b, generateGrayCodes n !! i = Some a → generateGrayCodes n !! S i = Some b →
            differences a b = 1%nat)
  ∧ ((1 <= n)%nat →
     ∃ a b, head (generateGrayCodes n) = Some a ∧ last (generateGrayCodes n) = Some b
            ∧ differences b a = 1%nat).
Proof.
  split.
  - intros i a b. apply chained_lookup, gray_chained.
  - intros Hn. destruct n as [|n]; [lia|]. rewrite generateGrayCodes_S.
    pose proof (gray_nonempty n) as Hne.
    destruct (generateGrayCodes n) as [|a l]; [done|].
    exists (String "0"%char a), (String "1"%char a). split_and!.
    + done.
    + rewrite reverse_cons, fmap_app, app_assoc. apply last_snoc.
    + simpl. by rewrite differences_refl.
Qed.

Lemma gray_codes_adjacent_witness :
  ∃ a b, head (generateGrayCodes 2) = Some a ∧ last (generateGrayCodes 2) = Some b
         ∧ differences b a = 1%nat.
Proof. apply (proj2 (gray_codes_adjacent 2)). lia. Defined.

(** ** The place where two terms differ *)

Section Differences.

Lemma differences_zero (t1 t2 : string) :
  String.length t1 = String.length t2 → differences t1 t2 = 0%nat → t1 = t2.
Proof.
  revert t2. induction t1 as [|a r1 IH]; intros [|b r2] Hlen Hd; simpl in *; try done.
  destruct (Ascii.eqb_spec a b) as [->|]; [|done]. f_equal. apply IH; lia.
Qed.

Lemma differences_insert (t1 t2 : string) (k : nat) (c1 c2 : ascii) :
  chars t1 !! k = Some c1 → c1 ≠ c2 → chars t2 = <[k := c2]> (chars t1) →
  differences t1 t2 = 1%nat.
Proof.
  revert k t2. induction t1 as [|a r1 IH]; intros k t2 Hk Hne Hins; [done|].
  destruct t2 as [|b r2]; [by destruct k|]. destruct k as [|k]; simpl in *.
  - simplify_eq. rewrite (proj2 (Ascii.eqb_neq _ _) Hne).
    assert (r2 = r1) as -> by by apply chars_inj. by rewrite differences_refl.
  - injection Hins as -> Hins. rewrite Ascii.eqb_refl. simpl. by eapply IH.
Qed.

Lemma differences_one (t1 t2 : string) :
  String.length t1 = String.length t2 → differences t1 t2 = 1%nat →
  ∃ (k : nat) (c1 c2 : ascii),
    chars t1 !! k = Some c1 ∧ c1 ≠ c2 ∧ chars t2 = <[k := c2]> (chars t1).
Proof.
  revert t2. induction t1 as [|a r1 IH]; intros [|b r2] Hlen Hd; simpl in *; try done.
  destruct (Ascii.eqb_spec a b) as [->|Hne].
  - destruct (IH r2) as (k & c1 & c2 & Hk & Hc & Hins); [lia|done|].
    exists (S k), c1, c2. simpl. by rewrite Hins.
  - exists 0%nat, a, b. split_and!; [done|done|]. simpl. f_equal.
    f_equal. symmetry. apply differences_zero; lia.
Qed.

End Differences.

(** [diffIndex] on two terms of one length: the answer is not [-1] exactly
    when the terms differ at one place and no more, and it is then that
    place. Equal terms, and terms that differ at two places or more, give
    [-1]. *)
Theorem diffIndex_one_difference (t1 t2 : string) :
  String.length t1 = String.length t2 →
  (diffIndex t1 t2 ≠ -1 ↔ differences t1 t2 = 1%nat)
  ∧ (diffIndex t1 t2 ≠ -1 →
     ∃ (k : nat) (c1 c2 : ascii),
       diffIndex t1 t2 = Z.of_nat k
       ∧ chars t1 !! k = Some c1 ∧ chars t2 !! k = Some c2 ∧ c1 ≠ c2
       ∧ ∀ j, j ≠ k → chars t1 !! j = chars t2 !! j).
Proof.
  intros Hlen. split; [split|].
  - intros H. destruct (diffIndex_found t1 t2 Hlen H) as (k & c1 & c2 & _ & Hk & Hne & Hins).
    by eapply differences_insert.
  - intros H. destruct (differences_one t1 t2 Hlen H) as (k & c1 & c2 & Hk & Hne & Hins).
    rewrite (diffIndex_single t1 t2 k c1 c2 Hk Hne Hins). lia.
  - intros H. destruct (diffIndex_found t1 t2 Hlen H) as (k & c1 & c2 & Hres & Hk & Hne & Hins).
    exists k, c1, c2. split_and!; try done.
    + rewrite Hins. apply list_lookup_insert_eq. by eapply lookup_lt_Some.
    + intros j Hj. rewrite Hins. by rewrite list_lookup_insert_ne.
Qed.

Lemma diffIndex_one_difference_witness :
  (diffIndex "0-10" "0-11" ≠ -1 ↔ differences "0-10" "0-11" = 1%nat)
  ∧ (diffIndex "0-10" "0-11" ≠ -1 →
     ∃ (k : nat) (c1 c2 : ascii),
       diffIndex "0-10" "0-11" = Z.of_nat k
       ∧ chars "0-10" !! k = Some c1 ∧ chars "0-11" !! k = Some c2 ∧ c1 ≠ c2
       ∧ ∀ j, j ≠ k → chars "0-10" !! j = chars "0-11" !! j).
Proof. apply (diffIndex_one_difference "0-10" "0-11"). reflexivity. Defined.

(** ** Bits of a truth-table row *)

Section Int32.
Import Int32.

Lemma toInt32_id (z : Z) : - 2 ^ 31 <= z < 2 ^ 31 → toInt32 z = z.
Proof. intros Hz. unfold toInt32. rewrite Z.mod_small; lia. Qed.

Lemma shiftCount_range (n : Z) : 0 <= shiftCount n < 32.
Proof. unfold shiftCount. apply Z.mod_pos_bound. lia. Qed.

Lemma shiftCount_small (n : Z) : 0 <= n < 32 → shiftCount n = n.
Proof. intros Hn. unfold shiftCount. by apply Z.mod_small. Qed.

Lemma pow2_below (k : Z) : 0 <= k <= 30 → 0 < 2 ^ k < 2 ^ 31.
Proof.
  intros Hk. split; [apply Z.pow_pos_nonneg; lia|].
  apply Z.pow_lt_mono_r; lia.
Qed.

Lemma shl_one (v : Z) : 0 <= v < 2 ^ 30 → shl v 1 = 2 * v.
Proof.
  intros Hv. unfold shl. rewrite shiftCount_small by lia.
  rewrite (toInt32_id v) by lia. rewrite toInt32_id; lia.
Qed.

Lemma and_one (z : Z) : - 2 ^ 31 <= z < 2 ^ 31 → and z 1 = Z.b2z (Z.testbit z 0).
Proof.
  intros Hz. unfold and. rewrite (toInt32_id z) by done. rewrite (toInt32_id 1) by lia.
  change 1 with (Z.ones 1). rewrite Z.land_ones by lia. symmetry. apply Z.bit0_mod.
Qed.

Lemma sar_bit (index i : Z) :
  - 2 ^ 31 <= index < 2 ^ 31 → 0 <= i < 32 →
  and (sar index i) 1 = Z.b2z (Z.testbit index i).
Proof.
  intros Hidx Hi. unfold sar. rewrite shiftCount_small, toInt32_id by done.
  rewrite and_one.
  - by rewrite Z.shiftr_spec, Z.add_0_l by lia.
  - rewrite Z.shiftr_div_pow2 by lia.
    assert (0 < 2 ^ i) by (apply Z.pow_pos_nonneg; lia).
    split.
    + apply Z.div_le_lower_bound; [done|]. nia.
    + apply Z.div_lt_upper_bound; [done|]. nia.
Qed.

Lemma or_bit (v : Z) (b : bool) :
  0 <= v < 2 ^ 30 → or (2 * v) (Z.b2z b) = 2 * v + Z.b2z b.
Proof.
  intros Hv. unfold or. rewrite !toInt32_id by (destruct b; simpl; lia).
  pose proof (Z.add_lor_land (2 * v) (Z.b2z b)) as Hsum.
  assert (Z.land (2 * v) (Z.b2z b) = 0) as Hland.
  { destruct b; simpl; [|apply Z.land_0_r].
    change 1 with (Z.ones 1). rewrite Z.land_ones by lia.
    change (2 ^ 1) with 2. rewrite Z.mul_comm. apply Z.mod_mul. lia. }
  lia.
Qed.

End Int32.

Lemma pow2_cases (n : Z) :
  pow2 n = (if n mod 32 =? 31 then - 2 ^ 31 else 2 ^ (n mod 32)).
Proof.
  unfold pow2, Int32.shl. pose proof (shiftCount_range n) as Hk.
  unfold Int32.shiftCount in *. rewrite (toInt32_id 1) by lia. rewrite Z.mul_1_l.
  destruct (Z.eqb_spec (n mod 32) 31) as [->|Hne]; [done|].
  apply toInt32_id. pose proof (pow2_below (n mod 32)). lia.
Qed.

(** [pow2] is a power of two only on the low five bits of its argument:
    [1 << n] shifts by [n] modulo 32, and a shift by 31 gives the negative
    number [- 2 ^ 31]. So [pow2 n = 2 ^ n] exactly for [0 <= n <= 30]
    among the arguments below 32. *)
Theorem pow2_wraps (n : Z) :
  pow2 n = (if n mod 32 =? 31 then - 2 ^ 31 else 2 ^ (n mod 32)).
Proof. apply pow2_cases. Qed.

Lemma pow2_small (n : Z) : 0 <= n <= 30 → pow2 n = 2 ^ n.
Proof.
  intros Hn. rewrite pow2_cases, Z.mod_small by lia.
  destruct (Z.eqb_spec n 31); [lia|done].
Qed.

Section Bits.

Lemma reverse_seqZ_lookup (len : Z) (k : nat) :
  Z.of_nat k < len → reverse (seqZ 0 len) !! k = Some (len - 1 - Z.of_nat k).
Proof.
  intros Hk. rewrite reverse_lookup by (rewrite length_seqZ; lia).
  rewrite length_seqZ. rewrite lookup_seqZ_lt by lia. f_equal. lia.
Qed.

(** The bits of the row are the bits the solver reads. *)
Lemma indexToBits_bitsOf (index variables : Z) :
  0 <= variables <= 32 → - 2 ^ 31 <= index < 2 ^ 31 →
  indexToBits index variables = Z.b2z <$> bitsOf (Z.to_nat variables) index.
Proof.
  intros Hv Hidx. unfold indexToBits, bitsOf. apply list_eq. intros k.
  rewrite !list_lookup_fmap.
  destruct (decide (Z.of_nat k < variables)) as [Hk|Hk].
  - rewrite reverse_seqZ_lookup by done. rewrite lookup_seq_lt by lia. simpl.
    rewrite sar_bit by lia. do 3 f_equal. lia.
  - rewrite lookup_ge_None_2 by (rewrite length_reverse, length_seqZ; lia).
    by rewrite lookup_ge_None_2 by (rewrite length_seq; lia).
Qed.

Lemma bitsToIndex_snoc (bits : list Z) (b : Z) :
  bitsToIndex (bits ++ [b])
  = Int32.or (Int32.shl (bitsToIndex bits) 1) (Int32.and b 1).
Proof. unfold bitsToIndex. by rewrite foldl_app. Qed.

Lemma bitsValue_bound (bs : list bool) : 0 <= bitsValue bs < 2 ^ Z.of_nat (length bs).
Proof. apply bitsOf_bitsValue. Qed.

Lemma bitsToIndex_bitsValue (bs : list bool) :
  (length bs <= 31)%nat → bitsToIndex (Z.b2z <$> bs) = bitsValue bs.
Proof.
  induction bs as [|b bs IH] using rev_ind; intros Hlen; [done|].
  rewrite length_app in Hlen. simpl in Hlen.
  rewrite fmap_app. simpl. rewrite bitsToIndex_snoc, IH by lia.
  pose proof (bitsValue_bound bs) as Hb.
  assert (2 ^ Z.of_nat (length bs) <= 2 ^ 30) by (apply Z.pow_le_mono_r; lia).
  rewrite shl_one by lia.
  rewrite (and_one (Z.b2z b)) by (destruct b; simpl; lia).
  replace (Z.b2z (Z.testbit (Z.b2z b) 0)) with (Z.b2z b) by by destruct b.
  rewrite or_bit by lia. rewrite bitsValue_snoc. by destruct b.
Qed.

End Bits.

(** Column [x_k] of the truth-table row of a position holds the bit the
    solver's expressions read for [x_k]: [indexToBits] lists, most
    significant first, the [variables] bits of the position. *)
Theorem indexToBits_reads_variables (index variables : Z) :
  0 <= variables <= 32 → - 2 ^ 31 <= index < 2 ^ 31 →
  length (indexToBits index variables) = Z.to_nat variables
  ∧ ∀ k : nat, Z.of_nat k < variables →
      indexToBits index variables !! k = Some (Z.b2z (varAt variables index k)).
Proof.
  intros Hv Hidx. rewrite indexToBits_bitsOf by done. split.
  - by rewrite length_fmap, bitsOf_length.
  - intros k Hk. rewrite bitsOf_varAt, !list_lookup_fmap, lookup_seq_lt by lia. done.
Qed.

Lemma indexToBits_reads_variables_witness :
  length (indexToBits 11 4) = Z.to_nat 4
  ∧ ∀ k : nat, Z.of_nat k < 4 →
      indexToBits 11 4 !! k = Some (Z.b2z (varAt 4 11 k)).
Proof. apply (indexToBits_reads_variables 11 4); lia. Defined.

(** Writing a position on its bits and reading the bits back gives the
    position, for up to 31 variables. *)
Theorem bitsToIndex_indexToBits (index variables : Z) :
  0 <= variables <= 31 → 0 <= index < 2 ^ variables →
  bitsToIndex (indexToBits index variables) = index.
Proof.
  intros Hv Hidx.
  assert (2 ^ variables <= 2 ^ 31) by (apply Z.pow_le_mono_r; lia).
  rewrite indexToBits_bitsOf by lia.
  rewrite bitsToIndex_bitsValue by (rewrite bitsOf_length; lia).
  apply bitsValue_bitsOf. by rewrite Z2Nat.id by lia.
Qed.

Lemma bitsToIndex_indexToBits_witness : bitsToIndex (indexToBits 19 5) = 19.
Proof. apply (bitsToIndex_indexToBits 19 5); lia. Defined.

(** Reading a list of at most 31 bits and writing the number back on as
    many places gives the list. *)
Theorem indexToBits_bitsToIndex (bits : list Z) :
  (length bits <= 31)%nat → Forall (fun b => b = 0 ∨ b = 1) bits →
  indexToBits (bitsToIndex bits) (Z.of_nat (length bits)) = bits.
Proof.
  intros Hlen Hbits.
  assert (∃ bs : list bool, bits = Z.b2z <$> bs) as [bs ->].
  { clear Hlen. induction Hbits as [|b bits Hb _ [bs ->]]; [by exists []|].
    destruct Hb as [-> | ->]; [by exists (false :: bs)|by exists (true :: bs)]. }
  rewrite length_fmap in *. rewrite bitsToIndex_bitsValue by done.
  pose proof (bitsValue_bound bs) as Hb.
  assert (2 ^ Z.of_nat (length bs) <= 2 ^ 31) by (apply Z.pow_le_mono_r; lia).
  rewrite indexToBits_bitsOf by lia. rewrite Nat2Z.id.
  f_equal. apply bitsOf_bitsValue.
Qed.

Lemma indexToBits_bitsToIndex_witness :
  indexToBits (bitsToIndex [1; 0; 1]) (Z.of_nat (length [1; 0; 1])) = [1; 0; 1].
Proof.
  apply (indexToBits_bitsToIndex [1; 0; 1]); [simpl; lia|].
  repeat (apply Forall_cons_2; [lia|]). apply Forall_nil_2.
Defined.

(** ** The truth table and its three sets *)

Section SortedLists.

Lemma StronglySorted_filter {A} (R : A → A → Prop) (P : A → Prop)
    `{∀ a, Decision (P a)} (l : list A) :
  StronglySorted R l → StronglySorted R (filter P l).
Proof.
  induction 1 as [|a l Hs IH Ha]; [constructor|].
  rewrite filter_cons. destruct (decide (P a)); [|done].
  constructor; [done|]. apply Forall_forall. intros b [_ Hb]%list_elem_of_filter.
  by eapply Forall_forall in Ha.
Qed.

Lemma seqZ_sorted (m n : Z) : StronglySorted Z.lt (seqZ m n).
Proof.
  destruct (Z.le_gt_cases n 0) as [Hn|Hn].
  { rewrite seqZ_nil by lia. constructor. }
  rewrite <- (Z2Nat.id n) by lia. generalize (Z.to_nat n) as k. clear.
  intros k. revert m. induction k as [|k IH]; intros m; [constructor|].
  rewrite seqZ_cons by lia. constructor.
  - replace (Z.pred (Z.of_nat (S k))) with (Z.of_nat k) by lia. apply IH.
  - apply Forall_forall. intros b Hb%elem_of_seqZ. lia.
Qed.

Lemma sort_sorted_lt (l : list Z) : NoDup l → StronglySorted Z.lt (sort num_asc l).
Proof.
  intros Hnd. apply StronglySorted_le_lt; [apply sort_num_asc_sorted|].
  by rewrite sort_perm.
Qed.

(** Sorting leaves a strictly increasing list as it is. *)
Lemma sort_sorted_id (l : list Z) : StronglySorted Z.lt l → sort num_asc l = l.
Proof.
  intros Hs. apply sorted_lt_eq; [|done|].
  - apply sort_sorted_lt. by apply StronglySorted_lt_NoDup.
  - intros a. apply elem_of_sort.
Qed.

End SortedLists.

Section Table.

Lemma setEntry_length (size v : Z) (table : list Z) (m : Z) :
  length (setEntry size v table m) = length table.
Proof. unfold setEntry. destruct (_ && _); [apply length_insert|done]. Qed.

Lemma setEntries_length (size v : Z) (l : list Z) (table : list Z) :
  length (foldl (setEntry size v) table l) = length table.
Proof.
  revert table. induction l as [|m l IH]; intros table; simpl; [done|].
  by rewrite IH, setEntry_length.
Qed.

(** After the loop an entry holds the value when its index is in the
    list, and what it held before otherwise. *)
Lemma setEntries_lookup (size v : Z) (l : list Z) (table : list Z) (j : Z) :
  size = Z.of_nat (length table) → 0 <= j < size →
  foldl (setEntry size v) table l !! Z.to_nat j
  = if decide (j ∈ l) then Some v else table !! Z.to_nat j.
Proof.
  revert table. induction l as [|m l IH]; intros table Hsize Hj; simpl.
  - destruct (decide (j ∈ [])) as [?%elem_of_nil|]; done.
  - rewrite IH by (by rewrite ?setEntry_length).
    destruct (decide (j ∈ l)) as [Hin|Hnotin].
    + rewrite decide_True; [done|by right].
    + unfold setEntry. destruct (decide (j = m)) as [->|Hne].
      * rewrite decide_True by left.
        rewrite (proj2 (andb_true_iff _ _)) by (split; lia).
        apply list_lookup_insert_eq. lia.
      * rewrite decide_False by (intros [?|?]%elem_of_cons; done).
        destruct (_ && _) eqn:Hin; [|done].
        apply andb_true_iff in Hin as [??].
        rewrite list_lookup_insert_ne; [done|]. lia.
Qed.

(** The three lists after the loop of [setsFromTable] over [l]. *)
Lemma setsFromTable_fold (table : list Z) (l : list Z) (acc : TT.Sets) :
  foldl (setsStep table) acc l
  = {| TT.minterms :=
         TT.minterms acc ++ filter (fun i => default 0 (table !! Z.to_nat i) = 1) l;
       TT.dontCares :=
         TT.dontCares acc ++ filter (fun i => default 0 (table !! Z.to_nat i) = 2) l;
       TT.maxterms :=
         TT.maxterms acc
         ++ filter (fun i => default 0 (table !! Z.to_nat i) ≠ 1
                             ∧ default 0 (table !! Z.to_nat i) ≠ 2) l |}.
Proof.
  revert acc. induction l as [|i l IH]; intros acc; simpl.
  - rewrite !app_nil_r. by destruct acc.
  - rewrite IH. unfold setsStep. rewrite !filter_cons.
    destruct (Z.eqb_spec (default 0 (table !! Z.to_nat i)) 1) as [H1|H1];
      [|destruct (Z.eqb_spec (default 0 (table !! Z.to_nat i)) 2) as [H2|H2]]; simpl.
    + rewrite decide_True, decide_False, decide_False by (try done; lia).
      by rewrite <- app_assoc.
    + rewrite decide_False, decide_True, decide_False by (try done; lia).
      by rewrite <- app_assoc.
    + rewrite decide_False, decide_False, decide_True by done.
      by rewrite <- app_assoc.
Qed.

End Table.

Lemma buildTable_spec (variables : Z) (minterms dontCares : list Z) :
  (variables mod 32 = 31 → buildTableFromSets variables minterms dontCares = Thrown)
  ∧ (variables mod 32 ≠ 31 →
     ∃ table,
       buildTableFromSets variables minterms dontCares = Returned table
       ∧ Z.of_nat (length table) = pow2 variables
       ∧ ∀ m, 0 <= m < pow2 variables →
           table !! Z.to_nat m
           = Some (if decide (m ∈ dontCares) then 2
                   else if decide (m ∈ minterms) then 1 else 0)).
Proof.
  unfold buildTableFromSets. pose proof (pow2_cases variables) as Hp.
  split; intros Hv.
  - rewrite Hv in Hp. simpl in Hp. by rewrite Hp.
  - destruct (Z.eqb_spec (variables mod 32) 31); [done|].
    assert (0 < pow2 variables) as Hpos.
    { rewrite Hp. apply Z.pow_pos_nonneg; [lia|]. apply Z.mod_pos_bound. lia. }
    destruct (Z.ltb_spec (pow2 variables) 0); [lia|].
    eexists. split; [done|].
    assert (Z.of_nat (length (replicate (Z.to_nat (pow2 variables)) 0)) = pow2 variables)
      as Hlen0 by (rewrite length_replicate; lia).
    split; [by rewrite !setEntries_length|].
    intros m Hm. rewrite setEntries_lookup; [|by rewrite setEntries_length|done].
    destruct (decide (m ∈ dontCares)); [done|].
    rewrite setEntries_lookup by done.
    destruct (decide (m ∈ minterms)); [done|].
    apply lookup_replicate_2. lia.
Qed.


(** [buildTableFromSets] throws when [1 << variables] is negative, which
    is for [variables] equal to 31 modulo 32. For [variables] between 0
    and 20 modulo 32, lengths that an engine allocates, the table has
    [pow2 variables] entries, and the entry of a position is [2] when the
    position is a don't-care, else [1] when it is a minterm, else [0];
    positions out of range in the two lists are ignored. Nothing is said
    of the lengths in between, where the limit of the engine on the length
    of an array decides whether the table is built. *)
Theorem buildTableFromSets_entries (variables : Z) (minterms dontCares : list Z) :
  (variables mod 32 = 31 → buildTableFromSets variables minterms dontCares = Thrown)
  ∧ (0 <= variables mod 32 <= 20 →
     ∃ table,
       buildTableFromSets variables minterms dontCares = Returned table
       ∧ Z.of_nat (length table) = pow2 variables
       ∧ ∀ m, 0 <= m < pow2 variables →
           table !! Z.to_nat m
           = Some (if decide (m ∈ dontCares) then 2
                   else if decide (m ∈ minterms) then 1 else 0)).
Proof.
  destruct (buildTable_spec variables minterms dontCares) as [Hthrow Hbuild].
  split; [done|]. intros Hv. apply Hbuild. lia.
Qed.

Lemma buildTableFromSets_entries_witness :
  buildTableFromSets 31 [1] [2] = Thrown
  ∧ ∃ table,
      buildTableFromSets 2 [1; 3] [3] = Returned table
      ∧ Z.of_nat (length table) = pow2 2
      ∧ ∀ m, 0 <= m < pow2 2 →
          table !! Z.to_nat m
          = Some (if decide (m ∈ [3]) then 2 else if decide (m ∈ [1; 3]) then 1 else 0).
Proof.
  split.
  - apply (proj1 (buildTableFromSets_entries 31 [1] [2])). reflexivity.
  - apply (proj2 (buildTableFromSets_entries 2 [1; 3] [3])). by vm_compute.
Defined.

Lemma setsFromTable_spec (variables : Z) (table : list Z) :
  let sets := setsFromTable variables table in
  let entry := fun i => default 0 (table !! Z.to_nat i) in
  StronglySorted Z.lt (TT.minterms sets)
  ∧ StronglySorted Z.lt (TT.dontCares sets)
  ∧ StronglySorted Z.lt (TT.maxterms sets)
  ∧ ∀ i,
      (i ∈ TT.minterms sets ↔ 0 <= i < pow2 variables ∧ entry i = 1)
      ∧ (i ∈ TT.dontCares sets ↔ 0 <= i < pow2 variables ∧ entry i = 2)
      ∧ (i ∈ TT.maxterms sets ↔ 0 <= i < pow2 variables ∧ entry i ≠ 1 ∧ entry i ≠ 2).
Proof.
  intros sets entry. unfold sets, setsFromTable. rewrite setsFromTable_fold. simpl.
  split_and!; try (apply StronglySorted_filter, seqZ_sorted).
  intros i. rewrite !list_elem_of_filter, elem_of_seqZ. unfold entry. intuition lia.
Qed.

(** [setsFromTable] sorts the positions below [pow2 variables] into three
    strictly increasing lists by the entry of the table: [1] for a minterm,
    [2] for a don't-care, anything else, a missing entry included, for a
    maxterm. Every position is in exactly one list. *)
Theorem setsFromTable_partition (variables : Z) (table : list Z) :
  let sets := setsFromTable variables table in
  let entry := fun i => default 0 (table !! Z.to_nat i) in
  StronglySorted Z.lt (TT.minterms sets)
  ∧ StronglySorted Z.lt (TT.dontCares sets)
  ∧ StronglySorted Z.lt (TT.maxterms sets)
  ∧ ∀ i,
      (i ∈ TT.minterms sets ↔ 0 <= i < pow2 variables ∧ entry i = 1)
      ∧ (i ∈ TT.dontCares sets ↔ 0 <= i < pow2 variables ∧ entry i = 2)
      ∧ (i ∈ TT.maxterms sets ↔ 0 <= i < pow2 variables ∧ entry i ≠ 1 ∧ entry i ≠ 2).
Proof. apply setsFromTable_spec. Qed.

(** ** From the sets to the table and back *)

Section TableRoundTrip.

Lemma valid_pow2 (variables : Z) (ms dcs : list Z) :
  validInput variables ms dcs → pow2 variables = 2 ^ variables ∧ variables mod 32 ≠ 31.
Proof.
  intros [Hv _ _ _ _ _]. split; [apply pow2_small; lia|].
  rewrite Z.mod_small; lia.
Qed.

Lemma zerosOf_sorted (variables : Z) (ms dcs : list Z) :
  StronglySorted Z.lt (zerosOf variables ms dcs).
Proof.
  apply StronglySorted_le_lt; [apply sort_num_asc_sorted|apply NoDup_zerosOf].
Qed.

Lemma sets_of_built_table (variables : Z) (ms dcs : list Z) :
  validInput variables ms dcs →
  ∃ table,
    buildTableFromSets variables ms dcs = Returned table
    ∧ setsFromTable variables table
      = {| TT.minterms := sort num_asc ms;
           TT.dontCares := sort num_asc dcs;
           TT.maxterms := zerosOf variables ms dcs |}.
Proof.
  intros valid. destruct (valid_pow2 _ _ _ valid) as [Hp Hv].
  destruct (proj2 (buildTable_spec variables ms dcs) Hv) as (table & Hrun & Hlen & Hlook).
  exists table. split; [done|].
  destruct (setsFromTable_spec variables table) as (Hs1 & Hs2 & Hs3 & Hmem).
  destruct valid as [_ Hnd1 Hnd2 Hr1 Hr2 Hdis]. rewrite Hp in *.
  assert (∀ i, 0 <= i < 2 ^ variables →
            default 0 (table !! Z.to_nat i)
            = if decide (i ∈ dcs) then 2 else if decide (i ∈ ms) then 1 else 0) as Hentry.
  { intros i Hi. by rewrite Hlook. }
  destruct (setsFromTable variables table) as [s1 s2 s3]. simpl in *. f_equal.
  - apply sorted_lt_eq; [done|by apply sort_sorted_lt|].
    intros i. rewrite elem_of_sort. rewrite (proj1 (Hmem i)). split.
    + intros [Hi Hv1]. rewrite Hentry in Hv1 by done.
      destruct (decide (i ∈ dcs)); [lia|]. destruct (decide (i ∈ ms)); [done|lia].
    + intros Hi. split; [auto|]. rewrite Hentry by auto.
      rewrite decide_False by auto. by rewrite decide_True.
  - apply sorted_lt_eq; [done|by apply sort_sorted_lt|].
    intros i. rewrite elem_of_sort. rewrite (proj1 (proj2 (Hmem i))). split.
    + intros [Hi Hv2]. rewrite Hentry in Hv2 by done.
      destruct (decide (i ∈ dcs)); [done|]. destruct (decide (i ∈ ms)); lia.
    + intros Hi. split; [auto|]. rewrite Hentry by auto. by rewrite decide_True.
  - apply sorted_lt_eq; [done|apply zerosOf_sorted|].
    intros i. rewrite elem_of_zerosOf. rewrite (proj2 (proj2 (Hmem i))). split.
    + intros (Hi & Hv1 & Hv2). rewrite Hentry in Hv1, Hv2 by done.
      destruct (decide (i ∈ dcs)); [lia|]. destruct (decide (i ∈ ms)); [lia|done].
    + intros (Hi & H1 & H2). split; [done|]. rewrite Hentry by done.
      rewrite !decide_False by done. lia.
Qed.

Lemma built_table_of_sets (variables : Z) (table : list Z) :
  variables mod 32 ≠ 31 → Z.of_nat (length table) = pow2 variables →
  Forall (fun v => v = 0 ∨ v = 1 ∨ v = 2) table →
  buildTableFromSets variables
    (TT.minterms (setsFromTable variables table))
    (TT.dontCares (setsFromTable variables table))
  = Returned table.
Proof.
  intros Hv Hlen Hvals.
  destruct (setsFromTable_spec variables table) as (_ & _ & _ & Hmem).
  cbv zeta in Hmem.
  destruct (proj2 (buildTable_spec variables
                     (TT.minterms (setsFromTable variables table))
                     (TT.dontCares (setsFromTable variables table))) Hv)
    as (table' & -> & Hlen' & Hlook).
  f_equal. apply list_eq. intros j.
  destruct (decide (Z.of_nat j < pow2 variables)) as [Hj|Hj].
  - specialize (Hlook (Z.of_nat j) ltac:(lia)). rewrite Nat2Z.id in Hlook.
    rewrite Hlook. destruct (lookup_lt_is_Some_2 table j ltac:(lia)) as [v Hjv].
    rewrite Hjv. f_equal.
    pose proof (proj1 (Forall_lookup _ _) Hvals j v Hjv) as Hval.
    destruct (Hmem (Z.of_nat j)) as (H1 & H2 & _).
    rewrite Nat2Z.id, Hjv in H1, H2. simpl in H1, H2.
    destruct (decide (_ ∈ TT.dontCares _)) as [Hd|Hd].
    { apply H2 in Hd. lia. }
    destruct (decide (_ ∈ TT.minterms _)) as [Hm|Hm].
    { apply H1 in Hm. lia. }
    destruct Hval as [->|[->| ->]]; [done| |].
    + destruct Hm. apply H1. lia.
    + destruct Hd. apply H2. lia.
  - rewrite !lookup_ge_None_2 by lia. done.
Qed.

Lemma cell_table_agree (variables : Z) (ms dcs : list Z) (table : list Z) (m : Z) :
  buildTableFromSets variables ms dcs = Returned table →
  0 <= m < pow2 variables →
  table !! Z.to_nat m = Some (cellValue ms dcs (Num m)).
Proof.
  intros Hrun Hm.
  destruct (decide (variables mod 32 = 31)) as [Hv|Hv].
  { by rewrite (proj1 (buildTable_spec variables ms dcs) Hv) in Hrun. }
  destruct (proj2 (buildTable_spec variables ms dcs) Hv) as (table' & Hrun' & _ & Hlook).
  rewrite Hrun in Hrun'. injection Hrun' as <-. rewrite Hlook by done.
  unfold cellValue, includes. f_equal.
  assert (∀ l : list Z, Num m ∈ Num <$> l ↔ m ∈ l) as Hin.
  { intros l. rewrite list_elem_of_fmap. split; [by intros (? & [= <-] & ?)|eauto]. }
  destruct (decide (m ∈ dcs)) as [Hd|Hd].
  - by rewrite bool_decide_eq_true_2 by by apply Hin.
  - rewrite (bool_decide_eq_false_2 (Num m ∈ Num <$> dcs)) by by rewrite Hin.
    destruct (decide (m ∈ ms)) as [Hm'|Hm'].
    + by rewrite bool_decide_eq_true_2 by by apply Hin.
    + by rewrite bool_decide_eq_false_2 by by rewrite Hin.
Qed.

End TableRoundTrip.

(** On a valid input, building the truth table from the two sets and
    reading the sets back gives the two sets in increasing order, and the
    maxterms read are the complement that [solveCustom] minimizes for the
    product of sums. *)
Theorem setsFromTable_buildTable (variables : Z) (trueSet dontCareSet : list Z) :
  validInput variables trueSet dontCareSet →
  ∃ table,
    buildTableFromSets variables trueSet dontCareSet = Returned table
    ∧ setsFromTable variables table
      = {| TT.minterms := sort num_asc trueSet;
           TT.dontCares := sort num_asc dontCareSet;
           TT.maxterms := zerosOf variables trueSet dontCareSet |}.
Proof. apply sets_of_built_table. Qed.

Lemma setsFromTable_buildTable_witness :
  ∃ table,
    buildTableFromSets 4 [4; 8; 10; 11; 12; 15] [9; 14] = Returned table
    ∧ setsFromTable 4 table
      = {| TT.minterms := sort num_asc [4; 8; 10; 11; 12; 15];
           TT.dontCares := sort num_asc [9; 14];
           TT.maxterms := zerosOf 4 [4; 8; 10; 11; 12; 15] [9; 14] |}.
Proof.
  apply (setsFromTable_buildTable 4 [4; 8; 10; 11; 12; 15] [9; 14]).
  exact validInput_example.
Defined.

(** A table of [pow2 variables] entries among 0, 1 and 2 is built back
    from the sets read from it. *)
Theorem buildTable_setsFromTable (variables : Z) (table : list Z) :
  variables mod 32 ≠ 31 → Z.of_nat (length table) = pow2 variables →
  Forall (fun v => v = 0 ∨ v = 1 ∨ v = 2) table →
  buildTableFromSets variables
    (TT.minterms (setsFromTable variables table))
    (TT.dontCares (setsFromTable variables table))
  = Returned table.
Proof. apply built_table_of_sets. Qed.

Lemma buildTable_setsFromTable_witness :
  buildTableFromSets 2
    (TT.minterms (setsFromTable 2 [1; 0; 2; 1]))
    (TT.dontCares (setsFromTable 2 [1; 0; 2; 1]))
  = Returned [1; 0; 2; 1].
Proof.
  apply (buildTable_setsFromTable 2 [1; 0; 2; 1]).
  - vm_compute. discriminate.
  - reflexivity.
  - repeat (apply Forall_cons_2; [lia|]). apply Forall_nil_2.
Defined.

(** The truth table and the map show the same value for every position:
    the entry of the table built from the two sets is the value the grid
    computes for the cell of that position. *)
Theorem table_entry_is_cell_value (variables : Z) (minterms dontCares : list Z)
    (table : list Z) (m : Z) :
  buildTableFromSets variables minterms dontCares = Returned table →
  0 <= m < pow2 variables →
  table !! Z.to_nat m = Some (cellValue minterms dontCares (Num m)).
Proof. apply cell_table_agree. Qed.

Lemma table_entry_is_cell_value_witness :
  [0; 1; 0; 2] !! Z.to_nat 3 = Some (cellValue [1; 3] [3] (Num 3)).
Proof.
  apply (table_entry_is_cell_value 2 [1; 3] [3] [0; 1; 0; 2] 3).
  - reflexivity.
  - vm_compute. split; [discriminate|reflexivity].
Defined.

(** ** The cells of the grid *)

Section GridCells.

Lemma renderGrid_positions (variables : Z) (ms dcs : list Z) (mapIndex : Z) :
  fst <$> mjoin (renderGrid variables ms dcs mapIndex)
  = rowCode ← generateGrayCodes (rowBits (getGridDimensions variables));
    colCode ← generateGrayCodes (colBits (getGridDimensions variables));
    [getMintermIndex rowCode colCode (Some (Num mapIndex))].
Proof.
  unfold renderGrid.
  generalize (generateGrayCodes (rowBits (getGridDimensions variables))) as rows.
  generalize (generateGrayCodes (colBits (getGridDimensions variables))) as cols.
  intros cols rows. induction rows as [|r rows IH]; [done|].
  rewrite fmap_cons. simpl. rewrite fmap_app. f_equal; [|exact IH].
  clear. induction cols as [|c cols IH]; [done|].
  rewrite !fmap_cons. simpl. f_equal. exact IH.
Qed.

Lemma renderMaps_positions (variables : Z) (ms dcs : list Z) :
  fst <$> mjoin (mjoin (renderMaps variables ms dcs))
  = if variables =? 5
    then (fst <$> mjoin (renderGrid variables ms dcs 0))
         ++ (fst <$> mjoin (renderGrid variables ms dcs 1))
    else fst <$> mjoin (renderGrid variables ms dcs 0).
Proof.
  unfold renderMaps. destruct (variables =? 5).
  - change (mjoin [?a; ?b]) with (a ++ b ++ []).
    by rewrite app_nil_r, join_app, fmap_app.
  - change (mjoin [?a]) with (a ++ []). by rewrite app_nil_r.
Qed.

Lemma valid_vars_cases (variables : Z) :
  2 <= variables <= 5 → variables = 2 ∨ variables = 3 ∨ variables = 4 ∨ variables = 5.
Proof. lia. Qed.

Lemma grid_positions_perm (variables : Z) (ms dcs : list Z) :
  2 <= variables <= 5 →
  fst <$> mjoin (mjoin (renderMaps variables ms dcs)) ≡ₚ Num <$> seqZ 0 (2 ^ variables).
Proof.
  intros Hv. rewrite renderMaps_positions, !renderGrid_positions.
  destruct (valid_vars_cases variables Hv) as [->|[->|[->| ->]]];
    apply NoDup_Permutation;
    try (by apply (bool_decide_unpack (NoDup _)));
    intros p; split; intros Hp;
    repeat (apply elem_of_cons in Hp as [->|Hp];
            [by apply (bool_decide_unpack (_ ∈ _))|]);
    by apply elem_of_nil in Hp.
Qed.

Lemma cell_coordinates (variables : Z) (rowCode colCode : string) (mapIndex : Z) :
  2 <= variables <= 5 →
  rowCode ∈ generateGrayCodes (rowBits (getGridDimensions variables)) →
  colCode ∈ generateGrayCodes (colBits (getGridDimensions variables)) →
  mapIndex = 0 ∨ (variables = 5 ∧ mapIndex = 1) →
  ∃ m, getMintermIndex rowCode colCode (Some (Num mapIndex)) = Num m
       ∧ 0 <= m < 2 ^ variables
       ∧ getCoordinates m variables
         = {| rowBin := rowCode; colBin := colCode; map := Num mapIndex |}.
Proof.
  intros Hv Hr Hc Hk.
  destruct (valid_vars_cases variables Hv) as [->|[->|[->| ->]]];
    (destruct Hk as [->|[? ->]]; [|try lia]);
    repeat (apply elem_of_cons in Hr as [->|Hr]); try (by apply elem_of_nil in Hr);
    repeat (apply elem_of_cons in Hc as [->|Hc]); try (by apply elem_of_nil in Hc);
    (eexists; split; [reflexivity|split; [lia|reflexivity]]).
Qed.

End GridCells.

(** The maps of the grid show every position below [2 ^ variables] in
    exactly one cell: one map for two to four variables, two maps for
    five. *)
Theorem grid_shows_each_position (variables : Z) (minterms dontCares : list Z) :
  2 <= variables <= 5 →
  fst <$> mjoin (mjoin (renderMaps variables minterms dontCares))
  ≡ₚ Num <$> seqZ 0 (2 ^ variables).
Proof. apply grid_positions_perm. Qed.

Lemma grid_shows_each_position_witness :
  fst <$> mjoin (mjoin (renderMaps 3 [1; 2] [7])) ≡ₚ Num <$> seqZ 0 (2 ^ 3).
Proof. apply (grid_shows_each_position 3 [1; 2] [7]). lia. Defined.

(** The position of a cell decomposes into the cell: for the row code, the
    column code and the map of a cell of the grid, [getMintermIndex] gives
    a position below [2 ^ variables], and [getCoordinates] gives back the
    row code, the column code and the map. *)
Theorem cell_position_roundtrip (variables : Z) (rowCode colCode : string)
    (mapIndex : Z) :
  2 <= variables <= 5 →
  rowCode ∈ generateGrayCodes (rowBits (getGridDimensions variables)) →
  colCode ∈ generateGrayCodes (colBits (getGridDimensions variables)) →
  mapIndex = 0 ∨ (variables = 5 ∧ mapIndex = 1) →
  ∃ m, getMintermIndex rowCode colCode (Some (Num mapIndex)) = Num m
       ∧ 0 <= m < 2 ^ variables
       ∧ getCoordinates m variables
         = {| rowBin := rowCode; colBin := colCode; map := Num mapIndex |}.
Proof. apply cell_coordinates. Qed.

Lemma cell_position_roundtrip_witness :
  ∃ m, getMintermIndex "11" "10" (Some (Num 1)) = Num m
       ∧ 0 <= m < 2 ^ 5
       ∧ getCoordinates m 5 = {| rowBin := "11"; colBin := "10"; map := Num 1 |}.
Proof.
  apply (cell_position_roundtrip 5 "11" "10" 1).
  - lia.
  - by apply (bool_decide_unpack (_ ∈ _)).
  - by apply (bool_decide_unpack (_ ∈ _)).
  - right. split; reflexivity.
Defined.

(** ** The grid of the application *)

Section GridSets.

Lemma gridStep_fold (es : list (Z * string)) (a b : list Z) :
  foldl gridStep (a, b) es
  = (a ++ (fst <$> filter (fun e : Z * string => e.2 = "1") es),
     b ++ (fst <$> filter (fun e : Z * string => e.2 = "-") es)).
Proof.
  revert a b. induction es as [|[idx val] es IH]; intros a b; simpl.
  - by rewrite !app_nil_r.
  - rewrite !filter_cons. simpl.
    destruct (String.eqb_spec val "1") as [->|H1];
      [|destruct (String.eqb_spec val "-") as [->|H2]]; rewrite IH.
    + rewrite decide_True, decide_False by done. simpl. by rewrite <- app_assoc.
    + rewrite decide_False, decide_True by done. simpl. by rewrite <- app_assoc.
    + by rewrite !decide_False by done.
Qed.

Variable grid : Grid.
Variable entries : list (Z * string).
Hypothesis entries_of_grid : entries ≡ₚ map_to_list grid.

Lemma elem_of_marked (v : string) (m : Z) :
  m ∈ fst <$> filter (fun e : Z * string => e.2 = v) entries ↔ grid !! m = Some v.
Proof.
  rewrite list_elem_of_fmap. split.
  - intros ([m' v'] & -> & [Hv Hin]%list_elem_of_filter). simpl in *. subst v'.
    rewrite entries_of_grid in Hin. by apply elem_of_map_to_list in Hin.
  - intros Hm. exists (m, v). split; [done|]. apply list_elem_of_filter. split; [done|].
    rewrite entries_of_grid. by apply elem_of_map_to_list.
Qed.

Lemma NoDup_marked (v : string) :
  NoDup (fst <$> filter (fun e : Z * string => e.2 = v) entries).
Proof.
  eapply sublist_NoDup; [|apply fmap_sublist, sublist_filter].
  rewrite entries_of_grid. apply NoDup_fst_map_to_list.
Qed.

Lemma grid_sets_spec :
  let sets := buildMintermsFromGrid entries in
  StronglySorted Z.lt sets.1 ∧ StronglySorted Z.lt sets.2
  ∧ (∀ m, m ∈ sets.1 ↔ grid !! m = Some "1")
  ∧ (∀ m, m ∈ sets.2 ↔ grid !! m = Some "-").
Proof.
  unfold buildMintermsFromGrid. rewrite gridStep_fold. simpl.
  split_and!; try (apply sort_sorted_lt, NoDup_marked);
    intros m; by rewrite elem_of_sort, elem_of_marked.
Qed.

End GridSets.

Lemma grid_sets_order (grid : Grid) (es1 es2 : list (Z * string)) :
  es1 ≡ₚ map_to_list grid → es2 ≡ₚ map_to_list grid →
  buildMintermsFromGrid es1 = buildMintermsFromGrid es2.
Proof.
  intros H1 H2.
  destruct (grid_sets_spec grid es1 H1) as (Ha1 & Hb1 & Hc1 & Hd1).
  destruct (grid_sets_spec grid es2 H2) as (Ha2 & Hb2 & Hc2 & Hd2).
  destruct (buildMintermsFromGrid es1) as [m1 d1], (buildMintermsFromGrid es2) as [m2 d2].
  simpl in *. f_equal; apply sorted_lt_eq; try done; intros a.
  - by rewrite Hc1, Hc2.
  - by rewrite Hd1, Hd2.
Qed.

Lemma grid_sets_valid (grid : Grid) (entries : list (Z * string)) (variables : Z) :
  entries ≡ₚ map_to_list grid → 2 <= variables <= 5 →
  (∀ m, grid !! m = Some "1" ∨ grid !! m = Some "-" → 0 <= m < 2 ^ variables) →
  validInput variables (buildMintermsFromGrid entries).1 (buildMintermsFromGrid entries).2.
Proof.
  intros Hes Hv Hrange. destruct (grid_sets_spec grid entries Hes) as (Ha & Hb & Hc & Hd).
  cbv zeta in *. split; try done.
  - by apply StronglySorted_lt_NoDup.
  - by apply StronglySorted_lt_NoDup.
  - intros m Hm%Hc. auto.
  - intros m Hm%Hd. auto.
  - intros m Hm%Hc Hm'%Hd. congruence.
Qed.

(** [buildMintermsFromGrid] returns the positions marked ["1"] and the
    positions marked ["-"], each list in strictly increasing order; the two
    lists share no position, and they are the same whatever the order in
    which the entries of the grid are listed. *)
Theorem buildMintermsFromGrid_sets (grid : Grid) (entries : list (Z * string)) :
  entries ≡ₚ map_to_list grid →
  let sets := buildMintermsFromGrid entries in
  StronglySorted Z.lt sets.1 ∧ StronglySorted Z.lt sets.2
  ∧ (∀ m, m ∈ sets.1 ↔ grid !! m = Some "1")
  ∧ (∀ m, m ∈ sets.2 ↔ grid !! m = Some "-")
  ∧ ∀ entries', entries' ≡ₚ map_to_list grid → buildMintermsFromGrid entries' = sets.
Proof.
  intros Hes sets. destruct (grid_sets_spec grid entries Hes) as (Ha & Hb & Hc & Hd).
  split_and!; try done. intros es' Hes'. by apply (grid_sets_order grid).
Qed.

Lemma buildMintermsFromGrid_sets_witness :
  let grid : Grid := {[ 3 := "1"; 1 := "-"; 2 := "0" ]} in
  let sets := buildMintermsFromGrid (map_to_list grid) in
  StronglySorted Z.lt sets.1 ∧ StronglySorted Z.lt sets.2
  ∧ (∀ m, m ∈ sets.1 ↔ grid !! m = Some "1")
  ∧ (∀ m, m ∈ sets.2 ↔ grid !! m = Some "-")
  ∧ ∀ entries', entries' ≡ₚ map_to_list grid → buildMintermsFromGrid entries' = sets.
Proof.
  apply (buildMintermsFromGrid_sets {[ 3 := "1"; 1 := "-"; 2 := "0" ]}). reflexivity.
Defined.

(** ** Clicking a cell *)

Section Toggle.

Lemma gridValue_insert (grid : Grid) (idx : Z) (v : string) :
  v ≠ "" → gridValue (<[idx := v]> grid) idx = v.
Proof.
  intros Hv. unfold gridValue. rewrite lookup_insert_eq.
  by destruct (String.eqb_spec v "").
Qed.

Lemma gridValue_insert_ne (grid : Grid) (idx j : Z) (v : string) :
  j ≠ idx → gridValue (<[idx := v]> grid) j = gridValue grid j.
Proof. intros Hj. unfold gridValue. by rewrite lookup_insert_ne. Qed.

Lemma toggleCell_value (grid : Grid) (idx : Z) :
  gridValue (toggleCell idx grid) idx
  = if String.eqb (gridValue grid idx) "0" then "1"
    else if String.eqb (gridValue grid idx) "1" then "-" else "0".
Proof.
  unfold toggleCell. rewrite gridValue_insert; [done|].
  by repeat destruct (String.eqb _ _).
Qed.

Lemma toggleCell_other (grid : Grid) (idx j : Z) :
  j ≠ idx → gridValue (toggleCell idx grid) j = gridValue grid j.
Proof. intros Hj. unfold toggleCell. by rewrite gridValue_insert_ne. Qed.

Lemma toggleCell_thrice (grid : Grid) (idx : Z) :
  gridValue grid idx = "0" ∨ gridValue grid idx = "1" ∨ gridValue grid idx = "-" →
  ∀ j, gridValue (toggleCell idx (toggleCell idx (toggleCell idx grid))) j
       = gridValue grid j.
Proof.
  intros Hv j. destruct (decide (j = idx)) as [->|Hj].
  - rewrite !toggleCell_value. by destruct Hv as [->|[->| ->]].
  - by rewrite !toggleCell_other.
Qed.

End Toggle.

(** A click moves a cell one step along the cycle ["0"], ["1"], ["-"] and
    leaves the other cells as they are; a cell that holds none of the
    three, or nothing, reads as ["0"] or goes to ["0"]. Three clicks on a
    cell of the cycle give back the grid as it reads. *)
Theorem toggleCell_cycle (grid : Grid) (idx : Z) :
  gridValue grid idx = "0" ∨ gridValue grid idx = "1" ∨ gridValue grid idx = "-" →
  (gridValue grid idx = "0" → toggleCell idx grid !! idx = Some "1")
  ∧ (gridValue grid idx = "1" → toggleCell idx grid !! idx = Some "-")
  ∧ (gridValue grid idx = "-" → toggleCell idx grid !! idx = Some "0")
  ∧ (∀ j, j ≠ idx → toggleCell idx grid !! j = grid !! j)
  ∧ ∀ j, gridValue (toggleCell idx (toggleCell idx (toggleCell idx grid))) j
         = gridValue grid j.
Proof.
  intros Hv. split_and!.
  - intros H. unfold toggleCell. by rewrite H, lookup_insert_eq.
  - intros H. unfold toggleCell. by rewrite H, lookup_insert_eq.
  - intros H. unfold toggleCell. by rewrite H, lookup_insert_eq.
  - intros j Hj. unfold toggleCell. by rewrite lookup_insert_ne.
  - by apply toggleCell_thrice.
Qed.

Lemma toggleCell_cycle_witness :
  let grid : Grid := {[ 5 := "1" ]} in
  (gridValue grid 5 = "0" → toggleCell 5 grid !! 5 = Some "1")
  ∧ (gridValue grid 5 = "1" → toggleCell 5 grid !! 5 = Some "-")
  ∧ (gridValue grid 5 = "-" → toggleCell 5 grid !! 5 = Some "0")
  ∧ (∀ j, j ≠ 5 → toggleCell 5 grid !! j = grid !! j)
  ∧ ∀ j, gridValue (toggleCell 5 (toggleCell 5 (toggleCell 5 grid))) j
         = gridValue grid j.
Proof. apply (toggleCell_cycle {[ 5 := "1" ]} 5). right. left. reflexivity. Defined.

(** ** Applying the truth table *)

Section Apply.

Lemma insertAll_lookup (v : string) (l : list Z) (g : Grid) (m : Z) :
  foldl (fun g' k => <[k := v]> g') g l !! m
  = if decide (m ∈ l) then Some v else g !! m.
Proof.
  revert g. induction l as [|k l IH]; intros g; simpl.
  - destruct (decide (m ∈ [])) as [?%elem_of_nil|]; done.
  - rewrite IH. destruct (decide (m ∈ l)) as [Hin|Hnotin].
    + rewrite decide_True; [done|by right].
    + destruct (decide (m = k)) as [->|Hne].
      * rewrite decide_True by left. apply lookup_insert_eq.
      * rewrite decide_False by (intros [?|?]%elem_of_cons; done).
        by apply lookup_insert_ne.
Qed.

Lemma onApply_lookup (ms dcs : list Z) (m : Z) :
  onApply ms dcs !! m
  = if decide (m ∈ dcs) then Some "-" else if decide (m ∈ ms) then Some "1" else None.
Proof. unfold onApply. rewrite !insertAll_lookup. by rewrite lookup_empty. Qed.

Lemma onApply_sets (ms dcs : list Z) (entries : list (Z * string)) :
  StronglySorted Z.lt ms → StronglySorted Z.lt dcs → (∀ m, m ∈ ms → m ∉ dcs) →
  entries ≡ₚ map_to_list (onApply ms dcs) →
  buildMintermsFromGrid entries = (ms, dcs).
Proof.
  intros Hs1 Hs2 Hdis Hes.
  destruct (grid_sets_spec (onApply ms dcs) entries Hes) as (Ha & Hb & Hc & Hd).
  destruct (buildMintermsFromGrid entries) as [ms' dcs']. simpl in *.
  f_equal; apply sorted_lt_eq; try done; intros m.
  - rewrite Hc, onApply_lookup. split.
    + destruct (decide (m ∈ dcs)); [done|]. by destruct (decide (m ∈ ms)).
    + intros Hm. rewrite decide_False by auto. by rewrite decide_True.
  - rewrite Hd, onApply_lookup. split.
    + destruct (decide (m ∈ dcs)); [done|]. by destruct (decide (m ∈ ms)).
    + intros Hm. by rewrite decide_True.
Qed.

Lemma modal_roundtrip (variables : Z) (table : list Z) (entries : list (Z * string)) :
  variables mod 32 ≠ 31 → Z.of_nat (length table) = pow2 variables →
  Forall (fun v => v = 0 ∨ v = 1 ∨ v = 2) table →
  entries ≡ₚ map_to_list (onApply (TT.minterms (setsFromTable variables table))
                                   (TT.dontCares (setsFromTable variables table))) →
  buildTableFromSets variables (buildMintermsFromGrid entries).1
                     (buildMintermsFromGrid entries).2
  = Returned table.
Proof.
  intros Hv Hlen Hvals Hes.
  destruct (setsFromTable_spec variables table) as (Hs1 & Hs2 & _ & Hmem).
  cbv zeta in *. rewrite (onApply_sets _ _ entries Hs1 Hs2).
  - by apply built_table_of_sets.
  - intros m [_ H1]%Hmem [_ H2]%Hmem. lia.
  - done.
Qed.

End Apply.

(** The grid written by [onApply] from two strictly increasing lists with
    no common position reads back, through [buildMintermsFromGrid], as the
    two lists. *)
Theorem buildMintermsFromGrid_onApply (minterms dontCares : list Z)
    (entries : list (Z * string)) :
  StronglySorted Z.lt minterms → StronglySorted Z.lt dontCares →
  (∀ m, m ∈ minterms → m ∉ dontCares) →
  entries ≡ₚ map_to_list (onApply minterms dontCares) →
  buildMintermsFromGrid entries = (minterms, dontCares).
Proof. apply onApply_sets. Qed.

Lemma buildMintermsFromGrid_onApply_witness :
  buildMintermsFromGrid (map_to_list (onApply [1; 4; 6] [2; 7])) = ([1; 4; 6], [2; 7]).
Proof.
  apply (buildMintermsFromGrid_onApply [1; 4; 6] [2; 7]).
  - repeat (apply SSorted_cons; [|repeat (apply Forall_cons_2; [lia|]); apply Forall_nil_2]).
    apply SSorted_nil.
  - repeat (apply SSorted_cons; [|repeat (apply Forall_cons_2; [lia|]); apply Forall_nil_2]).
    apply SSorted_nil.
  - intros m Hm. repeat (apply elem_of_cons in Hm as [->|Hm];
                         [by apply (bool_decide_unpack (_ ∉ _))|]).
    by apply elem_of_nil in Hm.
  - reflexivity.
Defined.

(** Pressing OK in the truth table and opening it again shows the same
    table: the grid written from the sets of a table of [pow2 variables]
    entries among 0, 1 and 2 gives, through [buildMintermsFromGrid] and
    [buildTableFromSets], that table. *)
Theorem truth_table_reopens (variables : Z) (table : list Z)
    (entries : list (Z * string)) :
  variables mod 32 ≠ 31 → Z.of_nat (length table) = pow2 variables →
  Forall (fun v => v = 0 ∨ v = 1 ∨ v = 2) table →
  entries ≡ₚ map_to_list (onApply (TT.minterms (setsFromTable variables table))
                                   (TT.dontCares (setsFromTable variables table))) →
  buildTableFromSets variables (buildMintermsFromGrid entries).1
                     (buildMintermsFromGrid entries).2
  = Returned table.
Proof. apply modal_roundtrip. Qed.

Lemma truth_table_reopens_witness :
  buildTableFromSets 2
    (buildMintermsFromGrid
       (map_to_list (onApply (TT.minterms (setsFromTable 2 [1; 0; 2; 1]))
                             (TT.dontCares (setsFromTable 2 [1; 0; 2; 1]))))).1
    (buildMintermsFromGrid
       (map_to_list (onApply (TT.minterms (setsFromTable 2 [1; 0; 2; 1]))
                             (TT.dontCares (setsFromTable 2 [1; 0; 2; 1]))))).2
  = Returned [1; 0; 2; 1].
Proof.
  apply (truth_table_reopens 2 [1; 0; 2; 1]).
  - vm_compute. discriminate.
  - reflexivity.
  - repeat (apply Forall_cons_2; [lia|]). apply Forall_nil_2.
  - reflexivity.
Defined.

(** ** Solving the grid *)

Section SolveGrid.

Lemma solveCustom_value (variables : Z) (ms dcs : list Z) (isSop : bool) (fuel : nat) :
  validInput variables ms dcs → enoughFuel variables fuel →
  ∃ res,
    solveCustom fuel variables ms dcs isSop = Returned res
    ∧ ∀ p, 0 <= p < 2 ^ variables →
        (p ∈ ms → evalAt variables (expression res) p = Some true)
        ∧ (p ∉ ms → p ∉ dcs → evalAt variables (expression res) p = Some false).
Proof.
  intros valid Hfuel. destruct isSop.
  - rewrite solveCustom_sop.
    destruct (runQM_sop_value variables fuel Hfuel ms dcs valid) as (sol & -> & Hval).
    eexists. split; [done|]. intros p Hp. destruct (Hval p Hp) as (? & ? & _). by split.
  - rewrite solveCustom_pos. case_decide as Hz.
    + eexists. split; [done|]. intros p Hp. simpl. split; [done|].
      intros H1 H2.
      assert (p ∈ zerosOf variables ms dcs) as Hin by by apply elem_of_zerosOf.
      rewrite Hz in Hin. by apply elem_of_nil in Hin.
    + destruct (runQM_pos_value variables fuel Hfuel (zerosOf variables ms dcs) dcs
                  (validInput_zeros _ _ _ valid) Hz) as (sol & -> & Hval).
      eexists. split; [done|]. intros p Hp. simpl.
      destruct (Hval p Hp) as (Htrue & Hfalse & _). split.
      * intros Hin. apply Htrue.
        -- intros (_ & ? & _)%elem_of_zerosOf. done.
        -- by apply (vi_disjoint _ _ _ valid).
      * intros H1 H2. apply Hfalse. by apply elem_of_zerosOf.
Qed.

Lemma solve_grid_value (grid : Grid) (entries : list (Z * string)) (variables : Z)
    (isSop : bool) (fuel : nat) :
  entries ≡ₚ map_to_list grid → 2 <= variables <= 5 →
  (∀ m, grid !! m = Some "1" ∨ grid !! m = Some "-" → 0 <= m < 2 ^ variables) →
  enoughFuel variables fuel →
  ∃ res,
    solve fuel variables entries isSop = Returned res
    ∧ ∀ p, 0 <= p < 2 ^ variables →
        (grid !! p = Some "1" → evalAt variables (expression res) p = Some true)
        ∧ (grid !! p ≠ Some "1" → grid !! p ≠ Some "-" →
           evalAt variables (expression res) p = Some false).
Proof.
  intros Hes Hv Hrange Hfuel.
  pose proof (grid_sets_valid grid entries variables Hes Hv Hrange) as valid.
  destruct (grid_sets_spec grid entries Hes) as (_ & _ & Hc & Hd). cbv zeta in *.
  unfold solve. destruct (buildMintermsFromGrid entries) as [ms dcs]. simpl in *.
  destruct (solveCustom_value variables ms dcs isSop fuel valid Hfuel) as (res & -> & Hval).
  exists res. split; [done|]. intros p Hp. destruct (Hval p Hp) as [Ht Hf]. split.
  - intros H1. by apply Ht, Hc.
  - intros H1 H2. apply Hf; by rewrite ?Hc, ?Hd.
Qed.

End SolveGrid.

(** The handler [solve] on a grid whose marked cells are all below
    [2 ^ numVars]: the solver returns, so the failure message is not
    shown, and the expression returned is TRUE at every cell marked ["1"]
    and FALSE at every cell marked neither ["1"] nor ["-"], in both
    forms. *)
Theorem solve_agrees_with_grid (grid : Grid) (entries : list (Z * string))
    (numVars : Z) (isSop : bool) (fuel : nat) :
  entries ≡ₚ map_to_list grid → 2 <= numVars <= 5 →
  (∀ m, grid !! m = Some "1" ∨ grid !! m = Some "-" → 0 <= m < 2 ^ numVars) →
  enoughFuel numVars fuel →
  ∃ res,
    solve fuel numVars entries isSop = Returned res
    ∧ ∀ p, 0 <= p < 2 ^ numVars →
        (grid !! p = Some "1" → evalAt numVars (expression res) p = Some true)
        ∧ (grid !! p ≠ Some "1" → grid !! p ≠ Some "-" →
           evalAt numVars (expression res) p = Some false).
Proof. apply solve_grid_value. Qed.

Lemma solve_agrees_with_grid_witness :
  let grid : Grid := {[ 1 := "1"; 3 := "-"; 2 := "0" ]} in
  ∃ res,
    solve 40 2 (map_to_list grid) false = Returned res
    ∧ ∀ p, 0 <= p < 2 ^ 2 →
        (grid !! p = Some "1" → evalAt 2 (expression res) p = Some true)
        ∧ (grid !! p ≠ Some "1" → grid !! p ≠ Some "-" →
           evalAt 2 (expression res) p = Some false).
Proof.
  apply (solve_agrees_with_grid {[ 1 := "1"; 3 := "-"; 2 := "0" ]}).
  - reflexivity.
  - lia.
  - intros m Hm.
    destruct (decide (m = 1)) as [->|?]; [lia|].
    destruct (decide (m = 3)) as [->|?]; [lia|].
    destruct (decide (m = 2)) as [->|?]; [lia|].
    rewrite !lookup_insert_ne, lookup_singleton_ne in Hm by done. by destruct Hm.
  - unfold enoughFuel. simpl. lia.
Defined.

(** ** Positions with too many ones *)

Section SeedErrors.
Variable variables : Z.







End SeedErrors.



(** ** The tiles of a group *)

Section Tiles.

Lemma interval_window (indices : list Z) (size : Z) :
  1 <= size → (∀ v, v ∈ indices → 0 <= v < size) → indices ≠ [] →
  let r := minimalCyclicInterval indices size in
  (0 <= i_start r < size ∧ 1 <= i_len r <= size)
  ∧ ∀ v, v ∈ indices → inCyclicWindow size (i_start r) (i_len r) v.
Proof.
  intros size_pos indices_range Hne r. subst r.
  rewrite minimalCyclicInterval_search by done.
  set (uniq := uniqueSorted indices).
  assert (∀ v, v ∈ indices → inCyclicWindow size 0 size v) as Hwhole.
  { intros v Hv. exists v. specialize (indices_range v Hv).
    split; [done|]. rewrite Z.add_0_l, Z.mod_small; lia. }
  destruct (Z.eqb_spec (Z.of_nat (length uniq)) size) as [Hfull|Hpart].
  - simpl. split; [lia|done].
  - assert (feasible size uniq 0 size = true) as Hlast.
    { apply (feasible_window indices size size_pos indices_range); [lia|done]. }
    destruct (scan_lens_spec size uniq (seqZ 1 size)
                {| i_start := 0; i_len := size + 1 |} eq_refl)
      as [[_ Hnone]|(lpre & l0 & lpost & spre & s0 & spost
                      & Hlens & Hstarts & Hlpre & Hspre & Hs0 & ->)].
    { intros l Hl%elem_of_seqZ. lia. }
    { rewrite Hnone in Hlast; [done| |]; apply elem_of_seqZ; lia. }
    simpl.
    assert (s0 ∈ seqZ 0 size) as Hs0in
      by (rewrite Hstarts; apply elem_of_app; right; left).
    assert (l0 ∈ seqZ 1 size) as Hl0in
      by (rewrite Hlens; apply elem_of_app; right; left).
    apply elem_of_seqZ in Hs0in, Hl0in.
    rewrite Z.min_l by lia. split; [lia|].
    by apply (feasible_window indices size size_pos indices_range); [lia|].
Qed.

(** An index of a cyclic window lies in the window as it starts, or in
    the window moved back by one turn when the window passes the end. *)
Lemma window_tile (size start len v : Z) :
  0 <= start < size → 1 <= len <= size → 0 <= v < size →
  inCyclicWindow size start len v →
  (start <= v < start + len)
  ∨ (size < start + len ∧ start - size <= v < start - size + len).
Proof.
  intros Hs Hl Hv (j & Hj & Hmod).
  destruct (Z.lt_ge_cases (start + j) size) as [Hlt|Hge].
  - rewrite Z.mod_small in Hmod by lia. left. lia.
  - assert ((start + j) mod size = start + j - size) as Heq.
    { symmetry. apply (Z.mod_unique_pos _ _ 1); lia. }
    right. lia.
Qed.

Lemma elem_of_indexed {A} (l : list A) (i : Z) (a : A) :
  (i, a) ∈ indexed l ↔ 0 <= i ∧ l !! Z.to_nat i = Some a.
Proof.
  unfold indexed. rewrite list_elem_of_lookup. split.
  - intros (k & Hk). apply lookup_zip_with_Some in Hk as (i' & a' & [= <- <-] & Hi & Ha).
    apply lookup_seqZ in Hi as [-> _]. rewrite Z.add_0_l, Nat2Z.id. split; [lia|done].
  - intros [Hi Ha]. exists (Z.to_nat i). apply lookup_zip_with_Some.
    exists i, a. split_and!; [done| |done].
    apply lookup_seqZ. apply lookup_lt_Some in Ha. lia.
Qed.

Variables (rowCodes colCodes : list string) (mapIndex : Z).

Let nrows := Z.of_nat (length rowCodes).
Let ncols := Z.of_nat (length colCodes).

Lemma coordTable_range (p : num) (r c : Z) :
  coordTable rowCodes colCodes mapIndex !! p = Some (r, c) →
  0 <= r < nrows ∧ 0 <= c < ncols.
Proof.
  revert p r c. unfold coordTable.
  apply (foldl_invariant
           (fun acc : gmap num (Z * Z) =>
              ∀ p r c, acc !! p = Some (r, c) → 0 <= r < nrows ∧ 0 <= c < ncols)).
  - intros p r c. by rewrite lookup_empty.
  - intros acc [i rw] [Hi Hrw]%elem_of_indexed Hacc.
    apply foldl_invariant; [done|].
    intros acc' [j cl] [Hj Hcl]%elem_of_indexed Hacc' p r c. simpl.
    destruct (decide (p = getMintermIndex rw cl (Some (Num mapIndex)))) as [->|Hne].
    + rewrite lookup_insert_eq. intros [= <- <-].
      apply lookup_lt_Some in Hrw, Hcl. unfold nrows, ncols. lia.
    + rewrite lookup_insert_ne by done. apply Hacc'.
Qed.

Variable table : gmap num (Z * Z).
Hypothesis table_range :
  ∀ p r c, table !! p = Some (r, c) → 0 <= r < nrows ∧ 0 <= c < ncols.

Variables (gid : Z) (group : list Z).

Let coords := omap (fun m => table !! Num m) group.

Lemma coords_range (r c : Z) : (r, c) ∈ coords → 0 <= r < nrows ∧ 0 <= c < ncols.
Proof. intros (m & _ & Hm)%list_elem_of_omap. by eapply table_range. Qed.

Lemma groupRects_unfold :
  coords ≠ [] →
  groupRects rowCodes colCodes table gid group
  = (let ri := minimalCyclicInterval (fst <$> coords) nrows in
     let ci := minimalCyclicInterval (snd <$> coords) ncols in
     dy ← (if nrows <? i_start ri + i_len ri then [0; - nrows] else [0]);
     dx ← (if ncols <? i_start ci + i_len ci then [0; - ncols] else [0]);
     [ {| groupId := gid;
          x := i_start ci + dx; y := i_start ri + dy;
          w := i_len ci; h := i_len ri;
          area := i_len ci * i_len ri;
          tileId := to_decimal gid +:+ ":" +:+ to_decimal dx
                    +:+ ":" +:+ to_decimal dy |} ]).
Proof.
  unfold groupRects, coords, nrows, ncols.
  destruct (omap (fun m => table !! Num m) group); done.
Qed.

Lemma groupRects_tiles :
  coords ≠ [] →
  let ri := minimalCyclicInterval (fst <$> coords) nrows in
  let ci := minimalCyclicInterval (snd <$> coords) ncols in
  ∀ rect, rect ∈ groupRects rowCodes colCodes table gid group ↔
    ∃ dy dx,
      (dy = 0 ∨ (nrows < i_start ri + i_len ri ∧ dy = - nrows))
      ∧ (dx = 0 ∨ (ncols < i_start ci + i_len ci ∧ dx = - ncols))
      ∧ rect = {| groupId := gid;
                  x := i_start ci + dx; y := i_start ri + dy;
                  w := i_len ci; h := i_len ri;
                  area := i_len ci * i_len ri;
                  tileId := to_decimal gid +:+ ":" +:+ to_decimal dx
                            +:+ ":" +:+ to_decimal dy |}.
Proof.
  intros Hne ri ci rect. rewrite groupRects_unfold by done. cbv zeta. fold ri ci.
  rewrite list_elem_of_bind. setoid_rewrite list_elem_of_bind.
  setoid_rewrite list_elem_of_singleton. split.
  - intros (dy & (dx & -> & Hdx) & Hdy). exists dy, dx. split_and!; [| |done].
    + destruct (Z.ltb_spec nrows (i_start ri + i_len ri));
        repeat (apply elem_of_cons in Hdy as [->|Hdy]; auto);
        by apply elem_of_nil in Hdy.
    + destruct (Z.ltb_spec ncols (i_start ci + i_len ci));
        repeat (apply elem_of_cons in Hdx as [->|Hdx]; auto);
        by apply elem_of_nil in Hdx.
  - intros (dy & dx & Hdy & Hdx & ->). exists dy. split; [exists dx; split; [done|]|].
    + destruct Hdx as [->|[Hw ->]]; [destruct (_ <? _); left|].
      rewrite (proj2 (Z.ltb_lt _ _) Hw). right; left.
    + destruct Hdy as [->|[Hw ->]]; [destruct (_ <? _); left|].
      rewrite (proj2 (Z.ltb_lt _ _) Hw). right; left.
Qed.

Lemma groupRects_none : coords = [] → groupRects rowCodes colCodes table gid group = [].
Proof. intros Hco. unfold groupRects. fold coords. by rewrite Hco. Qed.

Lemma groupRects_cover (m r c : Z) :
  m ∈ group → table !! Num m = Some (r, c) →
  ∃ rect, rect ∈ groupRects rowCodes colCodes table gid group
          ∧ groupId rect = gid
          ∧ x rect <= c < x rect + w rect ∧ y rect <= r < y rect + h rect.
Proof.
  intros Hm Htab.
  assert ((r, c) ∈ coords) as Hin by (apply list_elem_of_omap; eauto).
  assert (coords ≠ []) as Hne by (intros Heq; rewrite Heq in Hin; by apply elem_of_nil in Hin).
  destruct (coords_range r c Hin) as [Hr Hc].
  destruct (interval_window (fst <$> coords) nrows) as [Hrb Hrw]; [lia| |by destruct coords|].
  { intros v ([r' c'] & -> & Hv)%list_elem_of_fmap. by apply (coords_range r' c'). }
  destruct (interval_window (snd <$> coords) ncols) as [Hcb Hcw]; [lia| |by destruct coords|].
  { intros v ([r' c'] & -> & Hv)%list_elem_of_fmap. by apply (coords_range r' c'). }
  cbv zeta in *.
  specialize (Hrw r ltac:(apply list_elem_of_fmap; by exists (r, c))).
  specialize (Hcw c ltac:(apply list_elem_of_fmap; by exists (r, c))).
  apply window_tile in Hrw; [|lia..]. apply window_tile in Hcw; [|lia..].
  pose proof (groupRects_tiles Hne) as Htiles. cbv zeta in Htiles.
  assert (∃ dy, (dy = 0 ∨ (nrows < i_start (minimalCyclicInterval (fst <$> coords) nrows)
                                   + i_len (minimalCyclicInterval (fst <$> coords) nrows)
                           ∧ dy = - nrows))
                ∧ i_start (minimalCyclicInterval (fst <$> coords) nrows) + dy <= r
                  < i_start (minimalCyclicInterval (fst <$> coords) nrows) + dy
                    + i_len (minimalCyclicInterval (fst <$> coords) nrows)) as (dy & Hdy & Hyr).
  { destruct Hrw as [?|[??]]; [exists 0|exists (- nrows)]; split; auto; lia. }
  assert (∃ dx, (dx = 0 ∨ (ncols < i_start (minimalCyclicInterval (snd <$> coords) ncols)
                                   + i_len (minimalCyclicInterval (snd <$> coords) ncols)
                           ∧ dx = - ncols))
                ∧ i_start (minimalCyclicInterval (snd <$> coords) ncols) + dx <= c
                  < i_start (minimalCyclicInterval (snd <$> coords) ncols) + dx
                    + i_len (minimalCyclicInterval (snd <$> coords) ncols)) as (dx & Hdx & Hxc).
  { destruct Hcw as [?|[??]]; [exists 0|exists (- ncols)]; split; auto; lia. }
  eexists. split; [apply Htiles; exists dy, dx; split_and!; [done|done|reflexivity]|].
  simpl. split_and!; lia.
Qed.

Lemma groupRects_shape (rect : GroupRect) :
  rect ∈ groupRects rowCodes colCodes table gid group →
  groupId rect = gid
  ∧ (∃ m, m ∈ group ∧ is_Some (table !! Num m))
  ∧ 1 <= w rect <= ncols ∧ 1 <= h rect <= nrows ∧ area rect = w rect * h rect
  ∧ x rect < ncols ∧ 0 < x rect + w rect ∧ y rect < nrows ∧ 0 < y rect + h rect.
Proof.
  intros Hrect. destruct (decide (coords = [])) as [Hco|Hne].
  { rewrite groupRects_none in Hrect by done. by apply elem_of_nil in Hrect. }
  assert (∃ rc, rc ∈ coords) as [[r c] Hin] by (destruct coords as [|p ?]; [done|exists p; left]).
  destruct (coords_range r c Hin) as [Hr Hc].
  destruct (interval_window (fst <$> coords) nrows) as [Hrb _]; [lia| |by destruct coords|].
  { intros v ([r' c'] & -> & Hv)%list_elem_of_fmap. by apply (coords_range r' c'). }
  destruct (interval_window (snd <$> coords) ncols) as [Hcb _]; [lia| |by destruct coords|].
  { intros v ([r' c'] & -> & Hv)%list_elem_of_fmap. by apply (coords_range r' c'). }
  cbv zeta in *.
  apply (groupRects_tiles Hne) in Hrect as (dy & dx & Hdy & Hdx & ->). simpl.
  split; [done|]. split.
  { apply list_elem_of_omap in Hin as (m & Hm & Htab). exists m. by rewrite Htab. }
  destruct Hdy as [->|[? ->]], Hdx as [->|[? ->]]; lia.
Qed.

End Tiles.

Section Overlays.

Lemma foldl_app_bind {A B} (f : A → list B) (l : list A) (init : list B) :
  foldl (fun acc a => acc ++ f a) init l = init ++ (l ≫= f).
Proof.
  revert init. induction l as [|a l IH]; intros init; simpl.
  - by rewrite app_nil_r.
  - rewrite IH. by rewrite <- app_assoc.
Qed.

Variables (variables : Z) (gs : list (list Z)) (mapIndex : Z).

Let rowCodes := generateGrayCodes (rowBits (getGridDimensions variables)).
Let colCodes := generateGrayCodes (colBits (getGridDimensions variables)).
Let table := coordTable rowCodes colCodes mapIndex.

Lemma elem_of_overlays (rect : GroupRect) :
  rect ∈ buildGroupOverlays variables (Some gs) mapIndex ↔
  ∃ (i : nat) (g : list Z),
    gs !! i = Some g ∧ rect ∈ groupRects rowCodes colCodes table (Z.of_nat i) g.
Proof.
  unfold buildGroupOverlays. fold rowCodes colCodes. fold table.
  destruct gs as [|g0 gs'] eqn:Hgs.
  { split; [by intros ?%elem_of_nil|]. by intros (i & g & ? & _). }
  rewrite <- Hgs. clear Hgs.
  rewrite elem_of_sort, foldl_app_bind, app_nil_l, list_elem_of_bind. split.
  - intros ([i g] & Hrect & [Hi Hg]%elem_of_indexed). exists (Z.to_nat i), g.
    split; [done|]. by rewrite Z2Nat.id.
  - intros (i & g & Hg & Hrect). exists (Z.of_nat i, g). split; [done|].
    apply elem_of_indexed. split; [lia|]. by rewrite Nat2Z.id.
Qed.

Lemma overlays_cover (i : nat) (g : list Z) (m r c : Z) :
  gs !! i = Some g → m ∈ g → table !! Num m = Some (r, c) →
  ∃ rect, rect ∈ buildGroupOverlays variables (Some gs) mapIndex
          ∧ groupId rect = Z.of_nat i
          ∧ x rect <= c < x rect + w rect ∧ y rect <= r < y rect + h rect.
Proof.
  intros Hg Hm Htab.
  destruct (groupRects_cover rowCodes colCodes table
              (coordTable_range rowCodes colCodes mapIndex) (Z.of_nat i) g m r c Hm Htab)
    as (rect & Hrect & Hrest).
  exists rect. split; [|done]. apply elem_of_overlays. eauto.
Qed.

Lemma overlays_shape (rect : GroupRect) :
  rect ∈ buildGroupOverlays variables (Some gs) mapIndex →
  ∃ (i : nat) (g : list Z),
    gs !! i = Some g ∧ groupId rect = Z.of_nat i
    ∧ (∃ m, m ∈ g ∧ is_Some (table !! Num m))
    ∧ 1 <= w rect <= Z.of_nat (length colCodes)
    ∧ 1 <= h rect <= Z.of_nat (length rowCodes)
    ∧ area rect = w rect * h rect
    ∧ x rect < Z.of_nat (length colCodes) ∧ 0 < x rect + w rect
    ∧ y rect < Z.of_nat (length rowCodes) ∧ 0 < y rect + h rect.
Proof.
  intros (i & g & Hg & Hrect)%elem_of_overlays. exists i, g. split; [done|].
  by apply (groupRects_shape rowCodes colCodes table
              (coordTable_range rowCodes colCodes mapIndex)).
Qed.

End Overlays.

(** Every cell of a group that is on the map lies inside a tile drawn for
    that group: with [(r, c)] the row and column that [coordByMinterm]
    gives to a position of group [i], some rectangle of
    [buildGroupOverlays] with [groupId] equal to [i] spans row [r] and
    column [c]. *)
Theorem overlay_covers_group (variables : Z) (groups : list (list Z)) (mapIndex : Z)
    (i : nat) (g : list Z) (m r c : Z) :
  let rowCodes := generateGrayCodes (rowBits (getGridDimensions variables)) in
  let colCodes := generateGrayCodes (colBits (getGridDimensions variables)) in
  groups !! i = Some g → m ∈ g →
  coordTable rowCodes colCodes mapIndex !! Num m = Some (r, c) →
  ∃ rect, rect ∈ buildGroupOverlays variables (Some groups) mapIndex
          ∧ groupId rect = Z.of_nat i
          ∧ x rect <= c < x rect + w rect ∧ y rect <= r < y rect + h rect.
Proof. apply overlays_cover. Qed.

Lemma overlay_covers_group_witness :
  ∃ rect, rect ∈ buildGroupOverlays 4 (Some [[4; 12]; [8; 10; 12; 14]]) 0
          ∧ groupId rect = Z.of_nat 1
          ∧ x rect <= 3 < x rect + w rect ∧ y rect <= 3 < y rect + h rect.
Proof.
  apply (overlay_covers_group 4 [[4; 12]; [8; 10; 12; 14]] 0 1 [8; 10; 12; 14] 10 3 3).
  - reflexivity.
  - by apply (bool_decide_unpack (_ ∈ _)).
  - vm_compute. reflexivity.
Defined.

(** Every rectangle of [buildGroupOverlays] belongs to a group with a
    position on the map; it is between one cell and the whole grid in
    width and in height, its area is their product, and it overlaps the
    grid: a tile moved back by one turn of the cycle is only drawn when
    the window passes the end of the grid. *)
Theorem overlay_tiles_shape (variables : Z) (groups : list (list Z)) (mapIndex : Z)
    (rect : GroupRect) :
  let rowCodes := generateGrayCodes (rowBits (getGridDimensions variables)) in
  let colCodes := generateGrayCodes (colBits (getGridDimensions variables)) in
  rect ∈ buildGroupOverlays variables (Some groups) mapIndex →
  ∃ (i : nat) (g : list Z),
    groups !! i = Some g ∧ groupId rect = Z.of_nat i
    ∧ (∃ m, m ∈ g ∧ is_Some (coordTable rowCodes colCodes mapIndex !! Num m))
    ∧ 1 <= w rect <= Z.of_nat (length colCodes)
    ∧ 1 <= h rect <= Z.of_nat (length rowCodes)
    ∧ area rect = w rect * h rect
    ∧ x rect < Z.of_nat (length colCodes) ∧ 0 < x rect + w rect
    ∧ y rect < Z.of_nat (length rowCodes) ∧ 0 < y rect + h rect.
Proof. apply overlays_shape. Qed.

Lemma overlay_tiles_shape_witness :
  let rect := {| groupId := 0; x := 3; y := 0; w := 2; h := 1; area := 2;
                 tileId := "0:0:0" |} in
  ∃ (i : nat) (g : list Z),
    [[0; 2]] !! i = Some g ∧ groupId rect = Z.of_nat i
    ∧ (∃ m, m ∈ g ∧ is_Some (coordTable (generateGrayCodes 1) (generateGrayCodes 2) 0
                               !! Num m))
    ∧ 1 <= w rect <= Z.of_nat (length (generateGrayCodes 2))
    ∧ 1 <= h rect <= Z.of_nat (length (generateGrayCodes 1))
    ∧ area rect = w rect * h rect
    ∧ x rect < Z.of_nat (length (generateGrayCodes 2)) ∧ 0 < x rect + w rect
    ∧ y rect < Z.of_nat (length (generateGrayCodes 1)) ∧ 0 < y rect + h rect.
Proof.
  apply (overlay_tiles_shape 3 [[0; 2]] 0).
  vm_compute. left.
Defined.

(** ** Reading the literals of an expression *)

Section ParseText.

Lemma digit_facts (d : ascii) (i : nat) :
  Ascii.is_nat d = Some i →
  isDigit d = true ∧ isWhiteSpace d = false ∧ d ≠ " "%char ∧ d ≠ "+"%char
  ∧ d ≠ "("%char ∧ d ≠ ")"%char ∧ (i < 10)%nat
  ∧ toNumber (String d "") = Z.of_nat i.
Proof.
  destruct d as [[] [] [] [] [] [] [] []]; simpl; intros [= <-];
    (split_and!; [done|done|done|done|done|done|lia|done]).
Qed.

Lemma takeWhile_one_digit (d : ascii) (rest : string) :
  isDigit d = true →
  match rest with String c _ => isDigit c = false | EmptyString => True end →
  takeWhile isDigit (String d rest) = (String d "", rest).
Proof.
  intros Hd Hrest. simpl. rewrite Hd. destruct rest as [|c rest]; [done|].
  simpl. by rewrite Hrest.
Qed.

Lemma endsIndex_not_digit (rest : string) :
  endsIndex rest →
  match rest with String c _ => isDigit c = false | EmptyString => True end.
Proof. destruct rest as [|c rest]; [done|]. intros [Hc _]. unfold isDigit. by rewrite Hc. Qed.

Lemma literalAt_lit (d : ascii) (q : bool) (rest : string) :
  isDigit d = true → (if q then True else endsIndex rest) →
  literalAt (litText d q +:+ rest)
  = Some (String d "", q, if q then 4%nat else 3%nat).
Proof.
  intros Hd Hrest. unfold litText, literalAt.
  rewrite !string_app_cons. destruct q.
  - rewrite string_app_cons, string_app_nil_l.
    rewrite (takeWhile_one_digit d (String "'" rest)) by done. done.
  - rewrite string_app_nil_l.
    rewrite (takeWhile_one_digit d rest) by (try done; by apply endsIndex_not_digit).
    destruct rest as [|c rest]; [done|]. destruct Hrest as [_ Hc].
    destruct (Ascii.eqb_spec c "'") as [->|?]; [done|].
    destruct c as [[] [] [] [] [] [] [] []]; done.
Qed.

Lemma matchLiterals_skip (a b : string) :
  matchLiterals_from (String.length a) (a +:+ b) = matchLiterals_from 0 b.
Proof. induction a as [|c a IH]; [done|]. simpl. exact IH. Qed.

Lemma matchLiterals_lit (d : ascii) (q : bool) (rest : string) :
  isDigit d = true → (if q then True else endsIndex rest) →
  matchLiterals_from 0 (litText d q +:+ rest)
  = litText d q :: matchLiterals_from 0 rest.
Proof.
  intros Hd Hrest.
  pose proof (literalAt_lit d q rest Hd Hrest) as Hlit.
  unfold litText in *. rewrite string_app_cons in *.
  cbn [matchLiterals_from]. rewrite Hlit. destruct q.
  - f_equal. rewrite ?string_app_cons, ?string_app_nil_l. simpl. by destruct rest.
  - f_equal. rewrite ?string_app_cons, ?string_app_nil_l. simpl. by destruct rest.
Qed.

Lemma trimEnd_nospace (s : string) :
  Forall (fun c => isWhiteSpace c = false) (chars s) → trimEnd s = s.
Proof.
  induction s as [|c s IH]; [done|]. intros [Hc Hs]%Forall_cons. simpl.
  rewrite IH by done. rewrite Hc. by destruct s.
Qed.

Lemma trimEnd_app (a b : string) :
  b ≠ "" → trimEnd b = b → trimEnd (a +:+ b) = a +:+ b.
Proof.
  intros Hb Hid. induction a as [|c a IH]; [done|].
  rewrite string_app_cons. simpl. rewrite IH.
  destruct (a +:+ b) eqn:Hab; [|done]. by destruct a, b.
Qed.

Lemma parseLiteral_lit (d : ascii) (q : bool) (i : nat) :
  Ascii.is_nat d = Some i →
  parseLiteral (litText d q)
  = Some {| Circuit.variable := Z.of_nat i; Circuit.negated := q |}.
Proof.
  intros Hd. destruct (digit_facts d i Hd) as (Hdig & Hsp & _ & _ & _ & _ & _ & Hnum).
  unfold parseLiteral, trim.
  assert (trimStart (litText d q) = litText d q) as -> by done.
  rewrite trimEnd_nospace.
  - pose proof (literalAt_lit d q "" Hdig) as Hlit. rewrite string_app_nil_r in Hlit.
    rewrite Hlit by by destruct q. by rewrite Hnum.
  - unfold litText. simpl. repeat (constructor; [done|]).
    destruct q; repeat constructor; done.
Qed.

End ParseText.

(** ** The clauses of a sum of products *)

Section SplitJoin.

Lemma plainChar_not_space (c : ascii) : plainChar c → c ≠ " "%char.
Proof. intros [Hc _] ->. done. Qed.

Lemma split_plus_piece (piece cur rest : string) :
  plainText piece →
  split_from " + " 0 cur (piece +:+ rest) = split_from " + " 0 (cur +:+ piece) rest.
Proof.
  revert cur. induction piece as [|c p IH]; intros cur Hp.
  - by rewrite string_app_nil_l, string_app_nil_r.
  - apply Forall_cons in Hp as [Hc Hp]. rewrite string_app_cons.
    cbn [split_from String.prefix].
    destruct (Ascii.ascii_dec " " c) as [<-|_]; [by destruct (plainChar_not_space " " Hc)|].
    rewrite IH by done. by rewrite string_app_assoc.
Qed.

Lemma split_plus_sep (cur rest : string) :
  split_from " + " 0 cur (" + " +:+ rest) = cur :: split_from " + " 0 "" rest.
Proof. rewrite !string_app_cons, string_app_nil_l. by destruct rest. Qed.

Lemma split_plus_join (p : string) (ps : list string) (cur : string) :
  Forall plainText (p :: ps) →
  split_from " + " 0 cur (join " + " (p :: ps)) = (cur +:+ p) :: ps.
Proof.
  revert p cur. induction ps as [|q l IH]; intros p cur [Hp Hps]%Forall_cons.
  - simpl. rewrite <- (string_app_nil_r p) at 1. by rewrite split_plus_piece.
  - rewrite join_plus_cons, split_plus_piece, split_plus_sep by done.
    rewrite IH by done. by rewrite string_app_nil_l.
Qed.

Lemma plainText_trimEnd (s : string) : plainText s → trimEnd s = s.
Proof.
  intros Hs. apply trimEnd_nospace. eapply Forall_impl; [exact Hs|]. by intros c [? _].
Qed.

Lemma trimEnd_join (sep p : string) (ps : list string) :
  Forall (fun s => plainText s ∧ s ≠ "") (p :: ps) →
  trimEnd (join sep (p :: ps)) = join sep (p :: ps) ∧ join sep (p :: ps) ≠ "".
Proof.
  revert p. induction ps as [|q l IH]; intros p [[Hp Hne] Hps]%Forall_cons.
  - simpl. split; [by apply plainText_trimEnd|done].
  - destruct (IH q Hps) as [IH1 IH2].
    change (join sep (p :: q :: l)) with (p +:+ sep +:+ join sep (q :: l)).
    rewrite <- string_app_assoc. split.
    + by apply trimEnd_app.
    + destruct p; [done|]. done.
Qed.

End SplitJoin.

Section SopClauses.
Variable variables : Z.
Hypothesis vars_small : 0 <= variables <= 10.

Let vars := varNames variables.
Let n := Z.to_nat variables.

Lemma sopLitText_lit (i : nat) (c : ascii) :
  (i < n)%nat → c ≠ "-"%char →
  ∃ d, Ascii.is_nat d = Some i ∧ sopLitText vars i c = litText d (Ascii.eqb c "0").
Proof.
  intros Hi Hc. destruct (varNames_lookup variables vars_small i Hi) as (d & Hd & Hnat).
  exists d. split; [done|]. unfold sopLitText. fold vars in Hd. rewrite Hd.
  rewrite (proj2 (Ascii.eqb_neq _ _) Hc). simpl.
  destruct (Ascii.eqb c "0"); by rewrite ?string_app_cons, ?string_app_nil_l.
Qed.

Lemma litText_plain (d : ascii) (q : bool) (i : nat) :
  Ascii.is_nat d = Some i → plainText (litText d q).
Proof.
  intros Hd. destruct (digit_facts d i Hd) as (_ & Hsp & _ & Hplus & Hl & Hr & _).
  assert (plainChar d) as Hpd.
  { split_and!; [done|done|]. unfold isParen.
    rewrite (proj2 (Ascii.eqb_neq _ _) Hl), (proj2 (Ascii.eqb_neq _ _) Hr). done. }
  unfold plainText, litText. simpl.
  repeat (apply Forall_cons_2; [by split_and!|]). apply Forall_cons_2; [done|].
  destruct q; simpl; [apply Forall_cons_2; [by split_and!|]|]; apply Forall_nil_2.
Qed.

(** The literals read from the text of a product are the literals of
    the cube. *)
Lemma parse_sopLits (t : string) (i : nat) (rest : string) :
  isCube t → (i + String.length t <= n)%nat → endsIndex rest →
  omap parseLiteral (matchLiterals_from 0 (sopLitsText vars i t +:+ rest))
  = cubeLiterals i t ++ omap parseLiteral (matchLiterals_from 0 rest).
Proof.
  revert i. induction t as [|c t IH]; intros i Hcube Hlen Hrest; [done|].
  apply isCube_cons in Hcube as [Hc Hcube]. simpl in Hlen.
  cbn [sopLitsText cubeLiterals]. rewrite string_app_assoc.
  pose proof (endsIndex_sopLits variables vars_small t (S i) rest Hcube
                ltac:(unfold n in Hlen; lia) Hrest) as Hends.
  fold vars in Hends.
  destruct Hc as [->|[->| ->]].
  - destruct (sopLitText_lit i "0") as (d & Hd & ->); [lia|done|].
    destruct (digit_facts d i Hd) as (Hdig & _).
    rewrite matchLiterals_lit by done. simpl omap.
    rewrite (parseLiteral_lit d _ i Hd). rewrite IH by (try done; lia). done.
  - destruct (sopLitText_lit i "1") as (d & Hd & ->); [lia|done|].
    destruct (digit_facts d i Hd) as (Hdig & _).
    rewrite matchLiterals_lit by done. simpl omap.
    rewrite (parseLiteral_lit d _ i Hd). rewrite IH by (try done; lia). done.
  - unfold sopLitText. simpl. rewrite string_app_nil_l. apply IH; [done|lia|done].
Qed.

Lemma sopLits_plain (t : string) (i : nat) :
  isCube t → (i + String.length t <= n)%nat → plainText (sopLitsText vars i t).
Proof.
  revert i. induction t as [|c t IH]; intros i Hcube Hlen; [constructor|].
  apply isCube_cons in Hcube as [Hc Hcube]. simpl in Hlen.
  cbn [sopLitsText]. unfold plainText. rewrite chars_app. apply Forall_app. split.
  - destruct (decide (c = "-"%char)) as [->|Hne]; [constructor|].
    destruct (sopLitText_lit i c) as (d & Hd & ->); [lia|done|].
    by eapply litText_plain.
  - apply IH; [done|lia].
Qed.

Lemma sopLits_head (t : string) (i : nat) :
  isCube t → (i + String.length t <= n)%nat → only_dashes t = false →
  ∃ rest, sopLitsText vars i t = String "x" rest.
Proof.
  revert i. induction t as [|c t IH]; intros i Hcube Hlen Hnd; [done|].
  apply isCube_cons in Hcube as [Hc Hcube]. simpl in Hlen, Hnd.
  cbn [sopLitsText].
  destruct (decide (c = "-"%char)) as [->|Hne].
  - simpl in Hnd. destruct (IH (S i)) as [rest Hrest]; [done|lia|done|].
    exists rest. unfold sopLitText. simpl. by rewrite string_app_nil_l.
  - destruct (sopLitText_lit i c) as (d & Hd & ->); [lia|done|].
    eexists. unfold litText. by rewrite string_app_cons.
Qed.

Lemma cubeLiterals_nonempty (t : string) (i : nat) :
  isCube t → only_dashes t = false → cubeLiterals i t ≠ [].
Proof.
  revert i. induction t as [|c t IH]; intros i Hcube Hnd; [done|].
  apply isCube_cons in Hcube as [[->|[->| ->]] Hcube]; simpl in *; try done.
  by apply IH.
Qed.

Lemma clause_of_term (t : string) :
  isCube t → (String.length t <= n)%nat → only_dashes t = false →
  clauseOf (matchLiterals (formatTerm t vars)) = {| Circuit.literals := cubeLiterals 0 t |}.
Proof.
  intros Hcube Hlen Hnd. unfold clauseOf, matchLiterals. f_equal.
  rewrite formatTerm_spec, Hnd. rewrite <- (string_app_nil_r (sopLitsText vars 0 t)).
  rewrite parse_sopLits by done. simpl. by rewrite app_nil_r.
Qed.

Lemma formatted_plain (terms : list string) :
  Forall (fun t => isCube t ∧ (String.length t <= n)%nat ∧ only_dashes t = false) terms →
  Forall (fun s => plainText s ∧ s ≠ "") ((fun t => formatTerm t vars) <$> terms).
Proof.
  intros Hterms. apply Forall_fmap. eapply Forall_impl; [exact Hterms|].
  intros t (Hcube & Hlen & Hnd). simpl. rewrite formatTerm_spec, Hnd.
  split; [by apply sopLits_plain|].
  destruct (sopLits_head t 0 Hcube Hlen Hnd) as [rest ->]. done.
Qed.

Lemma parseSop_formatted (terms : list string) :
  Forall (fun t => isCube t ∧ (String.length t <= n)%nat ∧ only_dashes t = false) terms →
  terms ≠ [] →
  parseSopExpression (join " + " ((fun t => formatTerm t vars) <$> terms))
  = (fun t => {| Circuit.literals := cubeLiterals 0 t |}) <$> terms.
Proof.
  intros Hterms Hne. unfold parseSopExpression.
  pose proof (formatted_plain terms Hterms) as Hplain.
  assert (split " + " (join " + " ((fun t => formatTerm t vars) <$> terms))
          = (fun t => formatTerm t vars) <$> terms) as ->.
  { unfold split. destruct terms as [|t0 ts]; [done|]. rewrite fmap_cons in *.
    rewrite split_plus_join; [by rewrite string_app_nil_l|].
    eapply Forall_impl; [exact Hplain|]. by intros s [? _]. }
  clear Hne Hplain. induction Hterms as [|t l (Hcube & Hlen & Hnd) _ IH]; [done|].
  rewrite !fmap_cons. simpl. rewrite clause_of_term by done.
  unfold hasLiterals at 1. simpl.
  pose proof (cubeLiterals_nonempty t 0 Hcube Hnd) as Hlits.
  destruct (cubeLiterals 0 t) eqn:Hcl; [done|]. simpl. f_equal. exact IH.
Qed.

Lemma formatted_head (terms : list string) :
  Forall (fun t => isCube t ∧ (String.length t <= n)%nat ∧ only_dashes t = false) terms →
  terms ≠ [] →
  ∃ rest, join " + " ((fun t => formatTerm t vars) <$> terms) = String "x" rest.
Proof.
  intros Hterms Hne. destruct terms as [|t0 ts]; [done|]. rewrite fmap_cons.
  apply Forall_cons in Hterms as [(Hcube & Hlen & Hnd) _].
  rewrite formatTerm_spec, Hnd.
  destruct (sopLits_head t0 0 Hcube Hlen Hnd) as [r ->].
  destruct ts; simpl; eauto.
Qed.

Lemma circuit_of_formatted (terms : list string) :
  Forall (fun t => isCube t ∧ (String.length t <= n)%nat ∧ only_dashes t = false) terms →
  terms ≠ [] →
  buildCircuitDefinition (join " + " ((fun t => formatTerm t vars) <$> terms)) true
  = {| Circuit.mode := Circuit.SOP;
       Circuit.clauses := (fun t => {| Circuit.literals := cubeLiterals 0 t |}) <$> terms;
       Circuit.constant := None |}.
Proof.
  intros Hterms Hne. unfold buildCircuitDefinition.
  pose proof (formatted_plain terms Hterms) as Hplain.
  destruct (formatted_head terms Hterms Hne) as [rest Hhead].
  assert (trim (join " + " ((fun t => formatTerm t vars) <$> terms))
          = join " + " ((fun t => formatTerm t vars) <$> terms)) as ->.
  { unfold trim.
    assert (trimStart (join " + " ((fun t => formatTerm t vars) <$> terms))
            = join " + " ((fun t => formatTerm t vars) <$> terms)) as ->
      by (by rewrite Hhead).
    destruct terms as [|t0 ts]; [done|]. rewrite fmap_cons in *. by apply trimEnd_join. }
  rewrite Hhead at 1 2. simpl. f_equal. by apply parseSop_formatted.
Qed.

End SopClauses.

(** ** The clauses of a product of sums *)

Section SplitFactor.

Lemma plainChar_not_plus (c : ascii) : plainChar c → c ≠ "+"%char.
Proof. by intros (_ & ? & _). Qed.

Lemma split_char_piece (piece cur rest : string) :
  plainText piece →
  split_from "+" 0 cur (piece +:+ rest) = split_from "+" 0 (cur +:+ piece) rest.
Proof.
  revert cur. induction piece as [|c p IH]; intros cur Hp.
  - by rewrite string_app_nil_l, string_app_nil_r.
  - apply Forall_cons in Hp as [Hc Hp]. rewrite string_app_cons.
    cbn [split_from String.prefix].
    destruct (Ascii.ascii_dec "+" c) as [<-|_]; [by destruct (plainChar_not_plus "+" Hc)|].
    rewrite IH by done. by rewrite string_app_assoc.
Qed.

Lemma split_char_sep (cur rest : string) :
  split_from "+" 0 cur (" + " +:+ rest) = (cur +:+ " ") :: split_from "+" 0 " " rest.
Proof. rewrite !string_app_cons, string_app_nil_l. by destruct rest. Qed.

Lemma trimEnd_space (p : string) : plainText p → trimEnd (p +:+ " ") = p.
Proof.
  induction p as [|c p IH]; [done|]. intros [Hc Hp]%Forall_cons.
  rewrite string_app_cons. simpl. rewrite IH by done.
  destruct Hc as [-> _]. by destruct p.
Qed.

Lemma trim_padded (ws ws' p : string) :
  plainText p → p ≠ "" → ws = "" ∨ ws = " " → ws' = "" ∨ ws' = " " →
  trim ((ws +:+ p) +:+ ws') = p.
Proof.
  intros Hp Hne Hws Hws'. unfold trim.
  assert (trimStart ((ws +:+ p) +:+ ws') = p +:+ ws') as ->.
  { destruct p as [|c p]; [done|]. apply Forall_cons in Hp as [[Hc _] _].
    destruct Hws as [-> | ->]; rewrite ?string_app_cons, ?string_app_nil_l;
      simpl; by rewrite Hc. }
  destruct Hws' as [-> | ->].
  - rewrite string_app_nil_r. by apply plainText_trimEnd.
  - by apply trimEnd_space.
Qed.

Lemma split_trim_join (p : string) (ps : list string) (ws : string) :
  Forall (fun s => plainText s ∧ s ≠ "") (p :: ps) → ws = "" ∨ ws = " " →
  List.filter nonEmpty (trim <$> split_from "+" 0 ws (join " + " (p :: ps))) = p :: ps.
Proof.
  revert p ws. induction ps as [|q l IH]; intros p ws [[Hp Hne] Hps]%Forall_cons Hws.
  - simpl join. rewrite <- (string_app_nil_r p) at 1. rewrite split_char_piece by done.
    simpl. rewrite <- (string_app_nil_r (ws +:+ p)), trim_padded by auto.
    unfold nonEmpty. by destruct p.
  - rewrite join_plus_cons, split_char_piece, split_char_sep by done.
    rewrite fmap_cons. cbn [List.filter]. rewrite trim_padded by auto.
    rewrite IH by auto. unfold nonEmpty. by destruct p.
Qed.

Lemma takeWhile_inner (inner rest : string) :
  Forall (fun c => isParen c = false) (chars inner) →
  takeWhile (fun d => negb (isParen d)) (inner +:+ String ")" rest)
  = (inner, String ")" rest).
Proof.
  induction inner as [|c inner IH]; intros Hin.
  - by rewrite string_app_nil_l.
  - apply Forall_cons in Hin as [Hc Hin]. rewrite string_app_cons. simpl.
    rewrite Hc. simpl. by rewrite IH.
Qed.

Lemma matchFactors_skip (a b : string) :
  matchFactors_from (String.length a) (a +:+ b) = matchFactors_from 0 b.
Proof. induction a as [|c a IH]; [done|]. simpl. exact IH. Qed.

Lemma matchFactors_factor (inner rest : string) :
  Forall (fun c => isParen c = false) (chars inner) →
  matchFactors_from 0 (("(" +:+ inner +:+ ")") +:+ rest)
  = inner :: matchFactors_from 0 rest.
Proof.
  intros Hin. rewrite !string_app_cons, string_app_nil_l, string_app_assoc.
  rewrite string_app_cons, string_app_nil_l.
  cbn [matchFactors_from Ascii.eqb Bool.eqb]. rewrite takeWhile_inner by done.
  f_equal. replace (String.length inner + 1)%nat with (String.length (inner +:+ ")")).
  - rewrite <- (matchFactors_skip (inner +:+ ")") rest).
    by rewrite string_app_assoc, string_app_cons, string_app_nil_l.
  - rewrite <- !chars_length, chars_app, length_app. done.
Qed.

End SplitFactor.

Section PosClauses.
Variable variables : Z.
Hypothesis vars_small : 0 <= variables <= 10.

Let vars := varNames variables.
Let n := Z.to_nat variables.

Lemma posLits_parse (t : string) (i : nat) :
  isCube t → (i + String.length t <= n)%nat →
  omap parseLiteral (posLits vars i t) = cubeSumLiterals i t
  ∧ Forall (fun s => plainText s ∧ s ≠ "") (posLits vars i t).
Proof.
  revert i. induction t as [|c t IH]; intros i Hcube Hlen; [by split|].
  apply isCube_cons in Hcube as [Hc Hcube]. simpl in Hlen.
  destruct (IH (S i) Hcube ltac:(lia)) as [IH1 IH2].
  destruct (varNames_lookup variables vars_small i ltac:(unfold n in Hlen; lia))
    as (d & Hd & Hnat).
  fold vars in Hd. cbn [posLits cubeSumLiterals].
  destruct Hc as [->|[->| ->]]; cbn [Ascii.eqb Bool.eqb]; rewrite ?Hd; simpl default.
  - change (String "x" (String "_" (String d ""))) with (litText d false).
    split.
    + cbn [app omap list_omap]. by rewrite (parseLiteral_lit d false i Hnat), IH1.
    + simpl. apply Forall_cons_2; [|done]. split; [by eapply litText_plain|done].
  - assert (String "x" (String "_" (String d "")) +:+ "'" = litText d true) as ->
      by (by rewrite !string_app_cons, string_app_nil_l).
    split.
    + cbn [app omap list_omap]. by rewrite (parseLiteral_lit d true i Hnat), IH1.
    + simpl. apply Forall_cons_2; [|done]. split; [by eapply litText_plain|done].
  - by split.
Qed.

Lemma cubeSumLiterals_nonempty (t : string) (i : nat) :
  isCube t → only_dashes t = false → cubeSumLiterals i t ≠ [].
Proof.
  revert i. induction t as [|c t IH]; intros i Hcube Hnd; [done|].
  apply isCube_cons in Hcube as [[->|[->| ->]] Hcube]; simpl in *; try done.
  by apply IH.
Qed.

Lemma join_no_paren (lits : list string) :
  Forall (fun s => plainText s ∧ s ≠ "") lits →
  Forall (fun c => isParen c = false) (chars (join " + " lits)).
Proof.
  induction 1 as [|p ps [Hp _] Hps IH]; [constructor|].
  assert (Forall (fun c => isParen c = false) (chars p)) as Hpp.
  { eapply Forall_impl; [exact Hp|]. by intros c (_ & _ & ?). }
  destruct ps as [|q l]; [done|].
  rewrite join_plus_cons, !chars_app. apply Forall_app. split; [done|].
  apply Forall_app. split; [|done]. simpl. repeat constructor.
Qed.

(** The factor written for a zero-cube, and what is read from it. *)
Lemma posFactor_text (t : string) :
  isCube t → (String.length t <= n)%nat → only_dashes t = false →
  ∃ inner,
    posFactor vars t = "(" +:+ inner +:+ ")"
    ∧ Forall (fun c => isParen c = false) (chars inner)
    ∧ clauseOf (List.filter nonEmpty (trim <$> split "+" inner))
      = {| Circuit.literals := cubeSumLiterals 0 t |}.
Proof.
  intros Hcube Hlen Hnd. unfold posFactor. rewrite posLits_from_spec, app_nil_l.
  destruct (posLits_parse t 0 Hcube ltac:(lia)) as [Hparse Hplain].
  pose proof (cubeSumLiterals_nonempty t 0 Hcube Hnd) as Hne.
  destruct (posLits vars 0 t) as [|p ps] eqn:Hlits.
  { simpl in Hparse. by rewrite <- Hparse in Hne. }
  exists (join " + " (p :: ps)). split_and!; [done|by apply join_no_paren|].
  unfold split. rewrite split_trim_join by auto. unfold clauseOf. by rewrite Hparse.
Qed.

Lemma parsePos_factors (terms : list string) :
  Forall (fun t => isCube t ∧ (String.length t <= n)%nat ∧ only_dashes t = false) terms →
  parsePosExpression (join "" (posFactor vars <$> terms))
  = (fun t => {| Circuit.literals := cubeSumLiterals 0 t |}) <$> terms.
Proof.
  intros Hterms. unfold parsePosExpression, matchFactors.
  induction Hterms as [|t l (Hcube & Hlen & Hnd) _ IH]; [done|].
  rewrite fmap_cons, join_empty_cons.
  destruct (posFactor_text t Hcube Hlen Hnd) as (inner & -> & Hin & Hclause).
  rewrite matchFactors_factor by done. rewrite !fmap_cons. cbn [List.filter].
  rewrite Hclause. unfold hasLiterals at 1. simpl.
  pose proof (cubeSumLiterals_nonempty t 0 Hcube Hnd) as Hne.
  destruct (cubeSumLiterals 0 t) eqn:Hcl; [done|]. simpl. f_equal. exact IH.
Qed.

Lemma factors_trim (terms : list string) :
  Forall (fun t => isCube t ∧ (String.length t <= n)%nat ∧ only_dashes t = false) terms →
  terms ≠ [] →
  trimEnd (join "" (posFactor vars <$> terms)) = join "" (posFactor vars <$> terms)
  ∧ ∃ rest, join "" (posFactor vars <$> terms) = String "(" rest.
Proof.
  intros Hterms Hne. induction Hterms as [|t l (Hcube & Hlen & Hnd) Hl IH]; [done|].
  rewrite fmap_cons, join_empty_cons.
  destruct (posFactor_text t Hcube Hlen Hnd) as (inner & -> & _ & _).
  split; [|rewrite !string_app_cons; eauto].
  destruct l as [|t' l'].
  - simpl join. rewrite string_app_nil_r.
    rewrite string_app_cons, string_app_nil_l.
    change (String "(" (inner +:+ ")")) with (String "(" inner +:+ ")").
    by apply trimEnd_app.
  - destruct (IH ltac:(done)) as [IH1 [rest IH2]].
    apply trimEnd_app; [by rewrite IH2|done].
Qed.

Lemma circuit_of_factors (terms : list string) :
  Forall (fun t => isCube t ∧ (String.length t <= n)%nat ∧ only_dashes t = false) terms →
  terms ≠ [] →
  buildCircuitDefinition (join "" (posFactor vars <$> terms)) false
  = {| Circuit.mode := Circuit.POS;
       Circuit.clauses :=
         (fun t => {| Circuit.literals := cubeSumLiterals 0 t |}) <$> terms;
       Circuit.constant := None |}.
Proof.
  intros Hterms Hne. unfold buildCircuitDefinition.
  destruct (factors_trim terms Hterms Hne) as [Htrim [rest Hhead]].
  assert (trim (join "" (posFactor vars <$> terms)) = join "" (posFactor vars <$> terms))
    as ->.
  { unfold trim.
    assert (trimStart (join "" (posFactor vars <$> terms))
            = join "" (posFactor vars <$> terms)) as -> by (by rewrite Hhead).
    done. }
  rewrite Hhead at 1 2. simpl. f_equal. by apply parsePos_factors.
Qed.

End PosClauses.

(** ** The circuit of a solution *)

Section CircuitValue.
Variables (variables p : Z).

Lemma product_literals_value (t : string) (i : nat) :
  forallb (literalValue variables p) (cubeLiterals i t)
  = cubeHolds (varAt variables p) i t.
Proof.
  revert i. induction t as [|c t IH]; intros i; [done|].
  cbn [cubeLiterals cubeHolds]. rewrite forallb_app, IH. f_equal.
  destruct (Ascii.eqb c "1"); [|destruct (Ascii.eqb c "0")]; simpl; unfold literalValue, varAt;
    simpl; by rewrite ?xorb_false_r, ?xorb_true_r, ?andb_true_r.
Qed.

Lemma sum_literals_value (t : string) (i : nat) :
  existsb (literalValue variables p) (cubeSumLiterals i t)
  = negb (cubeHolds (varAt variables p) i t).
Proof.
  revert i. induction t as [|c t IH]; intros i; [done|].
  cbn [cubeSumLiterals cubeHolds]. rewrite existsb_app, IH, negb_andb. f_equal.
  destruct (Ascii.eqb_spec c "0") as [->|H0]; [|destruct (Ascii.eqb_spec c "1") as [->|H1]];
    simpl; unfold literalValue, varAt; simpl;
    by rewrite ?xorb_false_r, ?xorb_true_r, ?orb_false_r, ?negb_involutive.
Qed.

Lemma sop_clauses_value (terms : list string) :
  existsb (fun cl => forallb (literalValue variables p) (Circuit.literals cl))
          ((fun t => {| Circuit.literals := cubeLiterals 0 t |}) <$> terms)
  = existsb (cubeHolds (varAt variables p) 0) terms.
Proof.
  induction terms as [|t l IH]; [done|]. rewrite fmap_cons. simpl.
  by rewrite product_literals_value, IH.
Qed.

Lemma pos_clauses_value (terms : list string) :
  forallb (fun cl => existsb (literalValue variables p) (Circuit.literals cl))
          ((fun t => {| Circuit.literals := cubeSumLiterals 0 t |}) <$> terms)
  = forallb (fun t => negb (cubeHolds (varAt variables p) 0 t)) terms.
Proof.
  induction terms as [|t l IH]; [done|]. rewrite fmap_cons. simpl.
  by rewrite sum_literals_value, IH.
Qed.

End CircuitValue.

Section CoverTerms.

Lemma only_dashes_text (t : string) :
  only_dashes t = true → t = repeat_char "-" (String.length t).
Proof.
  induction t as [|c t IH]; [done|]. simpl.
  intros [->%Ascii.eqb_eq Ht]%andb_true_iff. f_equal. by apply IH.
Qed.

Variables (variables : Z) (ms dcs : list Z).
Hypothesis valid : validInput variables ms dcs.

(** A cube made of dashes only asks for a full position space. *)
Lemma all_dash_full (r : nat) (q : Implicant) :
  cubeInv variables (ms ++ dcs) r q → only_dashes (term q) = true →
  Z.of_nat (length ms + length dcs) = 2 ^ variables.
Proof.
  intros Hinv Hd. pose proof (only_dashes_text _ Hd) as Hterm.
  rewrite (ci_length _ _ _ _ Hinv) in Hterm.
  pose proof (all_dash_minterms variables ms dcs r q valid Hinv Hterm) as Hperm.
  rewrite <- length_app, Hperm, (ci_card _ _ _ _ Hinv).
  rewrite <- (ci_dashes _ _ _ _ Hinv), Hterm, count_char_repeat.
  destruct valid as [Hv _ _ _ _ _].
  rewrite Nat2Z.inj_pow, Z2Nat.id by lia. done.
Qed.

Variable finalPIs : list Implicant.
Hypothesis cubes : ∀ q, q ∈ finalPIs → ∃ r, cubeInv variables (ms ++ dcs) r q.
Hypothesis not_full : Z.of_nat (length ms + length dcs) ≠ 2 ^ variables.

Lemma cover_terms :
  Forall (fun t => isCube t ∧ (String.length t <= Z.to_nat variables)%nat
                   ∧ only_dashes t = false) (term <$> finalPIs).
Proof.
  apply Forall_fmap, Forall_forall. intros q Hq. destruct (cubes q Hq) as [r Hr]. simpl.
  split_and!; [apply Hr|by rewrite (ci_length _ _ _ _ Hr)|].
  destruct (only_dashes (term q)) eqn:Hd; [|done].
  destruct not_full. by eapply all_dash_full.
Qed.

Lemma cover_no_all_dash : existsb isAllDashTerm (term <$> finalPIs) = false.
Proof.
  apply not_true_iff_false. intros (t & Ht%list_elem_of_In & Hd)%existsb_exists.
  pose proof cover_terms as Hterms. rewrite Forall_forall in Hterms.
  destruct (Hterms t Ht) as (_ & _ & Hnd). destruct t; [done|]. simpl in Hd.
  simpl in Hnd. congruence.
Qed.

End CoverTerms.

Section CircuitOfSolution.
Variables (variables : Z) (fuel : nat).
Hypothesis fuel_ok : enoughFuel variables fuel.

Lemma fmap_format (vars : list string) (finalPIs : list Implicant) :
  (fun pi => formatTerm (term pi) vars) <$> finalPIs
  = (fun t => formatTerm t vars) <$> (term <$> finalPIs).
Proof. by rewrite <- list_fmap_compose. Qed.

(** Past the early returns, the circuit read from the sum of products
    has the literals of each term as a clause, and so has, with the
    literals negated, the circuit read from the product of sums written
    for the same terms. *)
Lemma circuit_clauses (ms dcs : list Z) :
  validInput variables ms dcs →
  ms ≠ [] → Z.of_nat (length ms + length dcs) ≠ 2 ^ variables →
  ∃ sol,
    runQM fuel variables ms dcs = Returned sol
    ∧ qm_terms sol ≠ []
    ∧ buildCircuitDefinition (qm_expression sol) true
      = {| Circuit.mode := Circuit.SOP;
           Circuit.clauses :=
             (fun t => {| Circuit.literals := cubeLiterals 0 t |}) <$> qm_terms sol;
           Circuit.constant := None |}
    ∧ buildCircuitDefinition (formatPosFromTerms (qm_terms sol) variables) false
      = {| Circuit.mode := Circuit.POS;
           Circuit.clauses :=
             (fun t => {| Circuit.literals := cubeSumLiterals 0 t |}) <$> qm_terms sol;
           Circuit.constant := None |}.
Proof.
  intros valid Hne Hpart.
  assert (0 <= variables <= 10) as Hsmall by (destruct valid; lia).
  destruct (runQM_cases variables ms dcs fuel valid fuel_ok)
    as [[Hnil _]|[(_ & Hfull & _)|(_ & _ & U & final & HU & Hfinal & Hnd
                                    & Hinv & Hsub & Hcov & _ & ->)]]; [done..|].
  eexists. split; [done|]. simpl.
  assert (∀ q, q ∈ final → ∃ r, cubeInv variables (ms ++ dcs) r q) as Hcubes by auto.
  pose proof (cover_terms variables ms dcs valid final Hcubes Hpart) as Hterms.
  assert (term <$> final ≠ []) as Hfne.
  { destruct ms as [|m0 ms']; [done|].
    destruct (Hcov m0 ltac:(left)) as (q & Hq & _). destruct final; [|done].
    by apply elem_of_nil in Hq. }
  split; [done|]. split.
  - rewrite fmap_format.
    destruct (formatted_head variables Hsmall (term <$> final) Hterms Hfne) as [rest Hhead].
    rewrite Hhead at 1. cbn [String.eqb].
    by apply circuit_of_formatted.
  - unfold formatPosFromTerms.
    rewrite (cover_no_all_dash variables ms dcs valid final Hcubes Hpart).
    by apply circuit_of_factors.
Qed.

Lemma circuit_value (ms dcs : list Z) (isSop : bool) :
  validInput variables ms dcs →
  ∃ res,
    solveCustom fuel variables ms dcs isSop = Returned res
    ∧ ∀ p, 0 <= p < 2 ^ variables →
        (p ∈ ms →
         circuitValue variables (buildCircuitDefinition (expression res) isSop) p = true)
        ∧ (p ∉ ms → p ∉ dcs →
           circuitValue variables (buildCircuitDefinition (expression res) isSop) p
           = false).
Proof.
  intros valid. pose proof (valid_vars_pos _ _ _ valid) as Hv. destruct isSop.
  - rewrite solveCustom_sop.
    destruct (decide (ms = [])) as [->|Hne].
    { rewrite runQM_empty. eexists. split; [done|]. intros p Hp. simpl.
      split; [by intros ?%elem_of_nil|done]. }
    destruct (Z.eq_dec (Z.of_nat (length ms + length dcs)) (2 ^ variables)) as [Hfull|Hpart].
    { rewrite runQM_full by done. eexists. split; [done|]. intros p Hp. simpl.
      split; [done|]. intros H1 H2.
      destruct (full_space variables ms dcs ltac:(lia) (vi_true_nodup _ _ _ valid)
                  (vi_dc_nodup _ _ _ valid) (vi_true_range _ _ _ valid)
                  (vi_dc_range _ _ _ valid) (vi_disjoint _ _ _ valid) Hfull p Hp); done. }
    destruct (runQM_cases variables ms dcs fuel valid fuel_ok)
      as [[Hnil _]|[(_ & Hfull & _)|(_ & _ & U & final & HU & Hfinal & Hnd
                                      & Hinv & Hsub & Hcov & _ & Hrun)]]; [done..|].
    destruct (circuit_clauses ms dcs valid Hne Hpart) as (sol & Hsol & _ & Hdef & _).
    rewrite Hsol in Hrun.
    assert (qm_terms sol = term <$> final) as Hterms by (by injection Hrun as ->).
    rewrite Hsol. eexists. split; [done|]. intros p Hp. cbn [expression].
    rewrite Hdef, Hterms.
    unfold circuitValue. cbn [Circuit.constant Circuit.mode Circuit.clauses].
    rewrite sop_clauses_value.
    assert (∀ q, q ∈ final → ∃ r, cubeInv variables (ms ++ dcs) r q) as Hcubes by auto.
    pose proof (sum_value variables (ms ++ dcs) final Hv Hcubes p Hp) as Hsum.
    split.
    + intros Hin. apply Hsum. by apply Hcov.
    + intros H1 H2. apply not_true_iff_false. intros (q & Hq & Hpq)%Hsum.
      destruct (Hcubes q Hq) as [r Hr].
      apply (ci_seeds _ _ _ _ Hr), elem_of_app in Hpq as [?|?]; done.
  - rewrite solveCustom_pos. case_decide as Hz.
    { eexists. split; [done|]. intros p Hp. simpl. split; [done|]. intros H1 H2.
      assert (p ∈ zerosOf variables ms dcs) as Hin by by apply elem_of_zerosOf.
      rewrite Hz in Hin. by apply elem_of_nil in Hin. }
    set (zeros := zerosOf variables ms dcs) in *.
    pose proof (validInput_zeros _ _ _ valid) as validz. fold zeros in validz.
    destruct (Z.eq_dec (Z.of_nat (length zeros + length dcs)) (2 ^ variables))
      as [Hfull|Hpart].
    { rewrite runQM_full by done. eexists. split; [done|]. intros p Hp. cbn [mbind mret].
      simpl expression. rewrite formatPos_all_dashes; [|done|left].
      simpl. split; [|done]. intros Hin.
      destruct (full_space variables zeros dcs ltac:(lia) (vi_true_nodup _ _ _ validz)
                  (vi_dc_nodup _ _ _ validz) (vi_true_range _ _ _ validz)
                  (vi_dc_range _ _ _ validz) (vi_disjoint _ _ _ validz) Hfull p Hp)
        as [Hpz|Hpd].
      - apply elem_of_zerosOf in Hpz as (_ & ? & _). done.
      - by destruct (vi_disjoint _ _ _ valid p Hin). }
    destruct (runQM_cases variables zeros dcs fuel validz fuel_ok)
      as [[Hnil _]|[(_ & Hfull & _)|(_ & _ & U & final & HU & Hfinal & Hnd
                                      & Hinv & Hsub & Hcov & _ & Hrun)]]; [done..|].
    destruct (circuit_clauses zeros dcs validz Hz Hpart) as (sol & Hsol & _ & _ & Hdef).
    rewrite Hsol in Hrun.
    assert (qm_terms sol = term <$> final) as Hterms by (by injection Hrun as ->).
    rewrite Hsol. eexists. split; [done|]. intros p Hp. cbn [expression].
    rewrite Hdef, Hterms.
    unfold circuitValue. cbn [Circuit.constant Circuit.mode Circuit.clauses].
    rewrite pos_clauses_value.
    assert (∀ q, q ∈ final → ∃ r, cubeInv variables (zeros ++ dcs) r q) as Hcubes by auto.
    pose proof (product_value variables (zeros ++ dcs) final Hv Hcubes p Hp) as Hprod.
    split.
    + intros Hin. apply Hprod. intros q Hq Hpq. destruct (Hcubes q Hq) as [r Hr].
      apply (ci_seeds _ _ _ _ Hr), elem_of_app in Hpq as [Hpz|Hpd].
      * apply elem_of_zerosOf in Hpz as (_ & ? & _). done.
      * by destruct (vi_disjoint _ _ _ valid p Hin).
    + intros H1 H2. apply not_true_iff_false. intros Hall.
      assert (p ∈ zeros) as Hpz by by apply elem_of_zerosOf.
      destruct (Hcov p Hpz) as (q & Hq & Hpq). by destruct (proj1 Hprod Hall q Hq).
Qed.

End CircuitOfSolution.

(** The circuit drawn for a solution computes the function: on a valid
    input, in both forms, the definition that [buildCircuitDefinition]
    reads from the expression of [solveCustom] is TRUE at every position
    of the true set and FALSE at every position outside the true set and
    the don't-care set, a sum of products being an OR of ANDs of its
    literals and a product of sums an AND of ORs. *)
Theorem circuit_computes_function (variables : Z) (trueSet dontCareSet : list Z)
    (isSop : bool) (fuel : nat) :
  validInput variables trueSet dontCareSet → enoughFuel variables fuel →
  ∃ res,
    solveCustom fuel variables trueSet dontCareSet isSop = Returned res
    ∧ ∀ p, 0 <= p < 2 ^ variables →
        (p ∈ trueSet →
         circuitValue variables (buildCircuitDefinition (expression res) isSop) p = true)
        ∧ (p ∉ trueSet → p ∉ dontCareSet →
           circuitValue variables (buildCircuitDefinition (expression res) isSop) p
           = false).
Proof. intros valid Hfuel. by apply circuit_value. Qed.

Lemma circuit_computes_function_witness :
  ∃ res,
    solveCustom 40 4 [4; 8; 10; 11; 12; 15] [9; 14] false = Returned res
    ∧ ∀ p, 0 <= p < 2 ^ 4 →
        (p ∈ [4; 8; 10; 11; 12; 15] →
         circuitValue 4 (buildCircuitDefinition (expression res) false) p = true)
        ∧ (p ∉ [4; 8; 10; 11; 12; 15] → p ∉ [9; 14] →
           circuitValue 4 (buildCircuitDefinition (expression res) false) p = false).
Proof.
  apply (circuit_computes_function 4 [4; 8; 10; 11; 12; 15] [9; 14] false 40).
  - exact validInput_example.
  - unfold enoughFuel. simpl. lia.
Defined.

(** Past the two early returns of [runQM], the circuit has one clause per
    term of the cover, in the order of the cover: for the sum of products
    the clause holds the variable of every place with [1] and the negated
    variable of every place with [0]; for the product of sums written for
    the same terms it is the other way round. *)
Theorem circuit_clauses_are_cubes (variables : Z) (minterms dontCares : list Z)
    (fuel : nat) :
  validInput variables minterms dontCares → enoughFuel variables fuel →
  minterms ≠ [] → Z.of_nat (length minterms + length dontCares) ≠ 2 ^ variables →
  ∃ sol,
    runQM fuel variables minterms dontCares = Returned sol
    ∧ qm_terms sol ≠ []
    ∧ buildCircuitDefinition (qm_expression sol) true
      = {| Circuit.mode := Circuit.SOP;
           Circuit.clauses :=
             (fun t => {| Circuit.literals := cubeLiterals 0 t |}) <$> qm_terms sol;
           Circuit.constant := None |}
    ∧ buildCircuitDefinition (formatPosFromTerms (qm_terms sol) variables) false
      = {| Circuit.mode := Circuit.POS;
           Circuit.clauses :=
             (fun t => {| Circuit.literals := cubeSumLiterals 0 t |}) <$> qm_terms sol;
           Circuit.constant := None |}.
Proof. intros valid Hfuel. by apply circuit_clauses. Qed.

Lemma circuit_clauses_are_cubes_witness :
  ∃ sol,
    runQM 40 4 [4; 8; 10; 11; 12; 15] [9; 14] = Returned sol
    ∧ qm_terms sol ≠ []
    ∧ buildCircuitDefinition (qm_expression sol) true
      = {| Circuit.mode := Circuit.SOP;
           Circuit.clauses :=
             (fun t => {| Circuit.literals := cubeLiterals 0 t |}) <$> qm_terms sol;
           Circuit.constant := None |}
    ∧ buildCircuitDefinition (formatPosFromTerms (qm_terms sol) 4) false
      = {| Circuit.mode := Circuit.POS;
           Circuit.clauses :=
             (fun t => {| Circuit.literals := cubeSumLiterals 0 t |}) <$> qm_terms sol;
           Circuit.constant := None |}.
Proof.
  apply (circuit_clauses_are_cubes 4 [4; 8; 10; 11; 12; 15] [9; 14] 40).
  - exact validInput_example.
  - unfold enoughFuel. simpl. lia.
  - discriminate.
  - vm_compute. discriminate.
Defined.


(** * The decimal form beside the minimized expression *)

Section DecimalForm.
Variables (variables : Z) (fuel : nat).
Hypothesis fuel_ok : enoughFuel variables fuel.

(** The loop that pushes the values passing a test keeps them in order. *)
Lemma pushIf_filter {A} (keep : A → bool) (l : list A) :
  pushIf keep l = filter (fun v => keep v = true) l.
Proof.
  unfold pushIf.
  assert (∀ acc, foldl (fun acc v => if keep v then acc ++ [v] else acc) acc l
                 = acc ++ filter (fun v => keep v = true) l) as H.
  { induction l as [|a l IH]; intros acc; simpl; [by rewrite app_nil_r|].
    rewrite IH, filter_cons. destruct (keep a) eqn:Hk.
    - rewrite decide_True by done. by rewrite <- app_assoc.
    - rewrite decide_False by congruence. done. }
  apply H.
Qed.

(** The positions that [buildDecimalFormTex] lists for the product of
    sums are the ones that [solveCustom] minimizes. *)
Lemma decimal_zeros (ms dcs : list Z) :
  pushIf (fun i => negb (set_has (foldl set_add [] ms) i)
                   && negb (set_has (foldl set_add [] dcs) i))
         (seqZ 0 (2 ^ variables))
  = zerosOf variables ms dcs.
Proof.
  rewrite pushIf_filter. apply sorted_lt_eq.
  - apply StronglySorted_filter, seqZ_sorted.
  - apply zerosOf_sorted.
  - intros a. rewrite list_elem_of_filter, elem_of_zerosOf, elem_of_seqZ.
    rewrite andb_true_iff, !negb_true_iff. unfold set_has.
    rewrite !bool_decide_eq_false, !elem_of_foldl_set_add, !elem_of_nil.
    intuition lia.
Qed.

(** Past the early returns the sum of products starts with a variable
    and the product of sums with a parenthesis. *)
Lemma expression_heads (ms dcs : list Z) :
  validInput variables ms dcs →
  ms ≠ [] → Z.of_nat (length ms + length dcs) ≠ 2 ^ variables →
  ∃ sol,
    runQM fuel variables ms dcs = Returned sol
    ∧ (∃ rest, qm_expression sol = String "x" rest)
    ∧ (∃ rest, formatPosFromTerms (qm_terms sol) variables = String "(" rest).
Proof.
  intros valid Hne Hpart.
  assert (0 <= variables <= 10) as Hsmall by (destruct valid; lia).
  destruct (runQM_cases variables ms dcs fuel valid fuel_ok)
    as [[Hnil _]|[(_ & Hfull & _)|(_ & _ & U & final & HU & Hfinal & Hnd
                                    & Hinv & Hsub & Hcov & _ & ->)]]; [done..|].
  eexists. split; [done|]. simpl.
  assert (∀ q, q ∈ final → ∃ r, cubeInv variables (ms ++ dcs) r q) as Hcubes by auto.
  pose proof (cover_terms variables ms dcs valid final Hcubes Hpart) as Hterms.
  assert (term <$> final ≠ []) as Hfne.
  { destruct ms as [|m0 ms']; [done|].
    destruct (Hcov m0 ltac:(left)) as (q & Hq & _). destruct final; [|done].
    by apply elem_of_nil in Hq. }
  split.
  - rewrite fmap_format.
    destruct (formatted_head variables Hsmall (term <$> final) Hterms Hfne) as [rest Hhead].
    rewrite Hhead. cbn [String.eqb]. eauto.
  - unfold formatPosFromTerms.
    rewrite (cover_no_all_dash variables ms dcs valid final Hcubes Hpart).
    by apply factors_trim.
Qed.

Lemma decimal_constants (ms dcs : list Z) (isSop : bool) :
  validInput variables ms dcs →
  ∃ res,
    solveCustom fuel variables ms dcs isSop = Returned res
    ∧ (buildDecimalFormTex variables ms dcs isSop = "0" ↔ expression res = "0")
    ∧ (buildDecimalFormTex variables ms dcs isSop = "1" ↔ expression res = "1").
Proof.
  intros valid. unfold buildDecimalFormTex. cbv zeta. destruct isSop.
  - rewrite solveCustom_sop.
    destruct (decide (ms = [])) as [->|Hne].
    { rewrite runQM_empty. eexists. split; [done|]. simpl. done. }
    destruct (Z.eq_dec (Z.of_nat (length ms + length dcs)) (2 ^ variables)) as [Hfull|Hpart].
    { rewrite runQM_full by done. eexists. split; [done|]. simpl.
      rewrite (proj2 (Z.eqb_eq _ _) Hfull). by destruct ms. }
    destruct (expression_heads ms dcs valid Hne Hpart) as (sol & -> & [rest Hx] & _).
    eexists. split; [done|]. cbn [expression]. rewrite Hx.
    rewrite (proj2 (Z.eqb_neq _ _) Hpart), !string_app_cons. by destruct ms.
  - rewrite decimal_zeros, solveCustom_pos. case_decide as Hz.
    { rewrite Hz. eexists. split; [done|]. simpl. done. }
    set (zeros := zerosOf variables ms dcs) in *.
    pose proof (validInput_zeros _ _ _ valid) as validz. fold zeros in validz.
    pose proof (valid_vars_pos _ _ _ valid) as Hv.
    destruct (Z.eq_dec (Z.of_nat (length zeros + length dcs)) (2 ^ variables))
      as [Hfull|Hpart].
    { rewrite runQM_full by done. eexists. split; [done|]. cbn [mbind mret].
      simpl expression. rewrite formatPos_all_dashes; [|done|left].
      rewrite (proj2 (Z.eqb_eq _ _) Hfull). by destruct zeros. }
    destruct (expression_heads zeros dcs validz Hz Hpart) as (sol & -> & _ & [rest Hx]).
    eexists. split; [done|]. cbn [expression]. rewrite Hx.
    rewrite (proj2 (Z.eqb_neq _ _) Hpart), !string_app_cons. by destruct zeros.
Qed.

End DecimalForm.

(** The decimal form shown beside a solution is a constant exactly when
    the minimized expression is that constant: on a valid input, in both
    forms, [buildDecimalFormTex] returns [0] if and only if the expression
    of [solveCustom] is [0], and [1] if and only if that expression is
    [1]. *)
Theorem decimal_form_constants (variables : Z) (trueSet dontCareSet : list Z)
    (isSop : bool) (fuel : nat) :
  validInput variables trueSet dontCareSet → enoughFuel variables fuel →
  ∃ res,
    solveCustom fuel variables trueSet dontCareSet isSop = Returned res
    ∧ (buildDecimalFormTex variables trueSet dontCareSet isSop = "0"
       ↔ expression res = "0")
    ∧ (buildDecimalFormTex variables trueSet dontCareSet isSop = "1"
       ↔ expression res = "1").
Proof. intros valid Hfuel. by apply decimal_constants. Qed.

Lemma decimal_form_constants_witness :
  ∃ res,
    solveCustom 40 2 [] [3] false = Returned res
    ∧ (buildDecimalFormTex 2 [] [3] false = "0" ↔ expression res = "0")
    ∧ (buildDecimalFormTex 2 [] [3] false = "1" ↔ expression res = "1").
Proof.
  apply (decimal_form_constants 2 [] [3] false 40).
  - exact validInput_dc.
  - unfold enoughFuel. simpl. lia.
Defined.

(** * The primes of the solver are the prime implicants *)

(** ** Implicant cubes *)

Section Implicants.
Variables (variables : Z) (seeds : list Z).
Hypothesis vars_pos : 1 <= variables.

(** Fixing a free character of an implicant gives an implicant. *)
Lemma implicant_sub (c s : string) (k : nat) (x : ascii) :
  implicant variables seeds c → chars c !! k = Some "-"%char →
  chars s = <[k := x]> (chars c) → implicant variables seeds s.
Proof.
  intros Himp Hk Hs m Hm Hcov. apply (Himp m Hm).
  apply cubeCovers_chars. apply cubeCovers_chars in Hcov.
  apply (matchesL_insert_dash_weaken _ k) in Hcov.
  rewrite Hs, list_insert_insert_eq, list_insert_id in Hcov; done.
Qed.

Lemma cubeInv_implicant (r : nat) (t : Implicant) :
  cubeInv variables seeds r t → implicant variables seeds (term t).
Proof.
  intros Hinv m Hm Hcov. apply (ci_seeds _ _ _ _ Hinv), (ci_member _ _ _ _ Hinv). done.
Qed.

(** The cubes got from a cube by fixing the character at [k]. *)
Lemma fixed_cube (c s : string) (k : nat) (y x : ascii) (r : nat) :
  isCube c → String.length c = Z.to_nat variables →
  chars c !! k = Some y → chars s = <[k := x]> (chars c) → cubeChar x →
  isCube s ∧ String.length s = Z.to_nat variables
  ∧ (count_char "-" s + (if decide (y = "-"%char) then 1 else 0)
     = count_char "-" c + (if decide (x = "-"%char) then 1 else 0))%nat
  ∧ (count_char "1" s + (if decide (y = "1"%char) then 1 else 0)
     = count_char "1" c + (if decide (x = "1"%char) then 1 else 0))%nat.
Proof.
  intros Hcube Hlen Hk Hs Hx. split_and!.
  - unfold isCube. rewrite Hs. by apply Forall_insert.
  - by rewrite <- chars_length, Hs, length_insert, chars_length.
  - rewrite !count_char_countL, Hs. by apply countL_insert.
  - rewrite !count_char_countL, Hs. by apply countL_insert.
Qed.

(** The seed groups hold every implicant without a dash. *)
Lemma seeds_roundComplete (groups : list (list Implicant)) :
  groupsOK variables seeds 0 groups →
  (∀ m, m ∈ seeds → ∃ t, t ∈ mjoin groups ∧ minterms t = [m]) →
  roundComplete variables seeds 0 groups.
Proof.
  intros Hok Hall c Hcube Hlen Hdash Himp.
  destruct (binaryOf_surj variables vars_pos c Hcube Hlen Hdash) as (m & Hm & Hbin).
  assert (m ∈ seeds) as Hseed.
  { apply (Himp m Hm), cubeCovers_chars. rewrite Hbin.
    apply matchesL_no_dash; [|done]. by rewrite <- count_char_countL. }
  destruct (Hall m Hseed) as (t & Ht & Hms).
  exists t. split; [done|].
  pose proof (groupsOK_elem variables seeds 0 groups t Hok Ht) as Hinv.
  assert (m ∈ minterms t) as Hin by (rewrite Hms; left).
  apply (ci_member _ _ _ _ Hinv) in Hin as [_ Hcov].
  apply cubeCovers_chars, matchesL_no_dash in Hcov.
  - rewrite <- Hbin. by apply chars_inj.
  - rewrite <- count_char_countL. apply Hinv.
Qed.

(** A pass over a complete round gives a complete round. *)
Lemma roundComplete_step (r : nat) (cur : list (list Implicant)) :
  groupsOK variables seeds r cur → roundComplete variables seeds r cur →
  roundComplete variables seeds (S r) (combineRound variables cur).2.
Proof.
  intros Hok Hfull c Hcube Hlen Hdash Himp.
  set (l := chars c).
  destruct (countL_pos_lookup "-" l) as [k Hk].
  { unfold l. rewrite <- count_char_countL. lia. }
  assert (k < length l)%nat as Hklt by by eapply lookup_lt_Some.
  set (c0 := String.string_of_list_ascii (<[k := "0"%char]> l)).
  set (c1 := String.string_of_list_ascii (<[k := "1"%char]> l)).
  assert (chars c0 = <[k := "0"%char]> l) as Hc0 by apply chars_of_list.
  assert (chars c1 = <[k := "1"%char]> l) as Hc1 by apply chars_of_list.
  destruct (fixed_cube c c0 k "-" "0" (S r) Hcube Hlen Hk Hc0)
    as (Hcube0 & Hlen0 & Hd0 & Hones0); [by left|].
  destruct (fixed_cube c c1 k "-" "1" (S r) Hcube Hlen Hk Hc1)
    as (Hcube1 & Hlen1 & Hd1 & Hones1); [by right; left|].
  rewrite decide_True, decide_False in Hd0 by done.
  rewrite decide_True, decide_False in Hd1 by done.
  rewrite !decide_False in Hones0 by done.
  rewrite decide_False, decide_True in Hones1 by done.
  destruct (Hfull c0 Hcube0 Hlen0) as (t1 & Ht1 & Hterm1);
    [lia|by eapply implicant_sub|].
  destruct (Hfull c1 Hcube1 Hlen1) as (t2 & Ht2 & Hterm2);
    [lia|by eapply implicant_sub|].
  destruct (groupsOK_group variables seeds r cur t1 Hok Ht1) as (g1 & Hg1 & Hin1).
  destruct (groupsOK_group variables seeds r cur t2 Hok Ht2) as (g2 & Hg2 & Hin2).
  rewrite Hterm1 in Hg1. rewrite Hterm2 in Hg2.
  replace (count_char "1" c0) with (count_char "1" c) in Hg1 by lia.
  replace (count_char "1" c1) with (S (count_char "1" c)) in Hg2 by lia.
  assert (diffIndex (term t1) (term t2) = Z.of_nat k) as Hdiff.
  { rewrite Hterm1, Hterm2. apply (diffIndex_single c0 c1 k "0" "1").
    - rewrite Hc0. by apply list_lookup_insert_eq.
    - done.
    - by rewrite Hc0, Hc1, list_insert_insert_eq. }
  destruct (combineRound_complete variables cur (proj1 Hok) _ g1 g2 t1 t2 Hg1 Hg2 Hin1 Hin2)
    as (u & Hu & Hterm).
  { unfold combinable. rewrite Hdiff. lia. }
  exists u. split; [done|]. rewrite Hterm. unfold mergedTerm. rewrite Hdiff, Hterm1.
  apply chars_inj. rewrite chars_dashAt by (rewrite Hlen0, <- Hlen, <- chars_length; done).
  rewrite Hc0, list_insert_insert_eq. by apply list_insert_id.
Qed.

End Implicants.

(** ** The flags after a pass *)

Section Flags.

Lemma Forall2_elem_r {A B} (R : A → B → Prop) (l : list A) (l' : list B) (b : B) :
  Forall2 R l l' → b ∈ l' → ∃ a, a ∈ l ∧ R a b.
Proof.
  intros HR [i Hi]%list_elem_of_lookup.
  destruct (Forall2_lookup_r _ _ _ _ _ HR Hi) as (a & Ha & Hab).
  exists a. split; [by eapply list_elem_of_lookup_2|done].
Qed.

Lemma Forall2_elem_l {A B} (R : A → B → Prop) (l : list A) (l' : list B) (a : A) :
  Forall2 R l l' → a ∈ l → ∃ b, b ∈ l' ∧ R a b.
Proof.
  intros HR [i Hi]%list_elem_of_lookup.
  destruct (Forall2_lookup_l _ _ _ _ _ HR Hi) as (b & Hb & Hab).
  exists b. split; [by eapply list_elem_of_lookup_2|done].
Qed.

Lemma flagStep_refl (P : string → Prop) (t : Implicant) : flagStep P t t.
Proof. split_and!; auto. Qed.

Lemma flagStep_mono (P Q : string → Prop) (t t' : Implicant) :
  (∀ s, P s → Q s) → flagStep P t t' → flagStep Q t t'.
Proof. intros HPQ (? & ? & [?|?]); split_and!; auto. Qed.

Lemma flagStep_trans (P : string → Prop) (t t' t'' : Implicant) :
  flagStep P t t' → flagStep P t' t'' → flagStep P t t''.
Proof.
  intros (Ht & Hm & Hc) (Ht' & Hm' & Hc'). split_and!.
  - congruence.
  - auto.
  - destruct Hc' as [Hc'|Hc']; [|right; by rewrite <- Ht].
    destruct Hc as [Hc|Hc]; [left; congruence|by right].
Qed.

Lemma flagStep_false (P : string → Prop) (t t' : Implicant) :
  flagStep P t t' → isPrime t = false → isPrime t' = false.
Proof. intros (_ & Hm & _) Hf. destruct (isPrime t'); [|done]. rewrite Hm in Hf; done. Qed.

Lemma Forall2_flagStep_refl (P : string → Prop) (g : list Implicant) :
  Forall2 (flagStep P) g g.
Proof. apply Forall_Forall2_diag, Forall_true. intros t. apply flagStep_refl. Qed.

Lemma Forall2_flagStep_mono (P Q : string → Prop) (g g' : list Implicant) :
  (∀ s, P s → Q s) → Forall2 (flagStep P) g g' → Forall2 (flagStep Q) g g'.
Proof.
  intros HPQ H. eapply Forall2_impl; [exact H|]. intros t t'. by apply flagStep_mono.
Qed.

Lemma Forall2_flagStep_trans (P : string → Prop) (g g' g'' : list Implicant) :
  Forall2 (flagStep P) g g' → Forall2 (flagStep P) g' g'' → Forall2 (flagStep P) g g''.
Proof.
  intros H. revert g''. induction H as [|t t' g g' Ht _ IH]; intros g'' H'.
  - by apply Forall2_nil_inv_l in H' as ->.
  - apply Forall2_cons_inv_l in H' as (t'' & l'' & Ht' & Hl & ->).
    constructor; [by eapply flagStep_trans|by apply IH].
Qed.

Lemma pairLoop_flags (t1 : Implicant) (g2 nexti : list Implicant) :
  ∃ t1' g2' nexti',
    pairLoop t1 g2 nexti = (t1', g2', nexti')
    ∧ flagStep (fun s => ∃ t2, t2 ∈ g2 ∧ diffIndex s (term t2) ≠ -1) t1 t1'
    ∧ Forall2 (flagStep (fun s2 => diffIndex (term t1) s2 ≠ -1)) g2 g2'
    ∧ ∀ t2', t2' ∈ g2' → combinable t1 t2' →
             isPrime t1' = false ∧ isPrime t2' = false.
Proof.
  revert t1 nexti. induction g2 as [|t2 g2 IH]; intros t1 nexti.
  - exists t1, [], nexti. simpl. split_and!; try done.
    + apply flagStep_refl.
    + by intros t2 ?%elem_of_nil.
  - simpl. destruct (Z.eqb_spec (diffIndex (term t1) (term t2)) (-1)) as [Heq|Hne]; simpl.
    + destruct (IH t1 nexti) as (t1' & g2' & nexti' & -> & Ht & Hg & Hall).
      exists t1', (t2 :: g2'), nexti'. split_and!; try done.
      * eapply flagStep_mono; [|exact Ht]. intros s (u & Hu & Hd). exists u.
        split; [by right|done].
      * constructor; [apply flagStep_refl|done].
      * intros t [->|Ht2]%elem_of_cons Hc; [done|auto].
    + match goal with
      | |- context [pairLoop (clearPrime t1) g2 ?n] =>
          destruct (IH (clearPrime t1) n) as (t1' & g2' & nexti' & -> & Ht & Hg & Hall)
      end.
      assert (isPrime t1' = false) as Hf by (by eapply flagStep_false).
      exists t1', (clearPrime t2 :: g2'), nexti'. split_and!; try done.
      * destruct Ht as (Hterm & _ & _). split_and!; [done|congruence|].
        right. exists t2. split; [left|done].
      * constructor; [|done]. split_and!; [done|done|by right].
      * intros t [->|Ht2]%elem_of_cons Hc; [done|]. split; [done|].
        by apply (Hall t Ht2).
Qed.

Lemma groupLoop_flags (g1 g2 nexti : list Implicant) :
  ∃ g1' g2' nexti',
    groupLoop g1 g2 nexti = (g1', g2', nexti')
    ∧ Forall2 (flagStep (fun s => ∃ t2, t2 ∈ g2 ∧ diffIndex s (term t2) ≠ -1)) g1 g1'
    ∧ Forall2 (flagStep (fun s2 => ∃ t1, t1 ∈ g1 ∧ diffIndex (term t1) s2 ≠ -1)) g2 g2'
    ∧ ∀ t1' t2', t1' ∈ g1' → t2' ∈ g2' → combinable t1' t2' →
                 isPrime t1' = false ∧ isPrime t2' = false.
Proof.
  revert g2 nexti. induction g1 as [|t1 g1 IH]; intros g2 nexti.
  - exists [], g2, nexti. simpl. split_and!; try done.
    + apply Forall2_flagStep_refl.
    + by intros t1 t2 ?%elem_of_nil.
  - simpl.
    destruct (pairLoop_flags t1 g2 nexti) as (t1' & g2a & n1 & -> & A1 & A2 & A3).
    destruct (IH g2a n1) as (g1' & g2b & n2 & -> & B1 & B2 & B3).
    exists (t1' :: g1'), g2b, n2. split_and!.
    + done.
    + constructor; [done|]. eapply Forall2_flagStep_mono; [|exact B1].
      intros s (ta & Hta & Hd).
      destruct (Forall2_elem_r _ _ _ _ A2 Hta) as (t2 & Ht2 & Hterm & _).
      exists t2. split; [done|]. by rewrite <- Hterm.
    + eapply Forall2_flagStep_trans.
      * eapply Forall2_flagStep_mono; [|exact A2]. intros s Hd. exists t1.
        split; [left|done].
      * eapply Forall2_flagStep_mono; [|exact B2]. intros s (u & Hu & Hd). exists u.
        split; [by right|done].
    + intros u1 u2 [->|Hu1]%elem_of_cons Hu2 Hc; [|by apply B3].
      destruct (Forall2_elem_r _ _ _ _ B2 Hu2) as (ta & Hta & Hstep).
      destruct (A3 ta Hta) as [Hf1 Hf2].
      { destruct Hstep as (Hterm & _). destruct A1 as (Hterm1 & _).
        unfold combinable in *. by rewrite <- Hterm, <- Hterm1. }
      split; [done|]. by eapply flagStep_false.
Qed.

End Flags.

(** ** The flags after the pass over the groups *)

Section ScanFlags.
Variable cur0 : list (list Implicant).

Lemma scanStep_flags (seen : list nat)
    (st : list (list Implicant) * list (list Implicant)) (a : nat) :
  (S a < length cur0)%nat →
  scanFlags cur0 seen st → scanFlags cur0 (seen ++ [a]) (scanStep st a).
Proof.
  intros Ha. destruct st as [cur next]. intros [F1 F2]. simpl in *.
  pose proof (Forall2_length _ _ _ F1) as Hclen.
  destruct (lookup_lt_is_Some_2 cur a) as [g1 Hg1]; [lia|].
  destruct (lookup_lt_is_Some_2 cur (S a)) as [g2 Hg2]; [lia|].
  destruct (Forall2_lookup_r _ _ _ _ _ F1 Hg1) as (g10 & Hg10 & Hr1).
  destruct (Forall2_lookup_r _ _ _ _ _ F1 Hg2) as (g20 & Hg20 & Hr2).
  destruct (groupLoop_flags g1 g2 (default [] (next !! a)))
    as (g1' & g2' & ni' & Heq & C1 & C2 & C3).
  unfold scanStep. rewrite Hg1, Hg2. simpl. rewrite Heq.
  set (cur' := <[S a := g2']> (<[a := g1']> cur)).
  assert (cur' !! a = Some g1') as Hl1.
  { unfold cur'. rewrite list_lookup_insert_ne by lia.
    apply list_lookup_insert_eq. lia. }
  assert (cur' !! S a = Some g2') as Hl2.
  { unfold cur'. apply list_lookup_insert_eq. rewrite length_insert. lia. }
  assert (Forall2 (flagStep (partnerIn cur0)) g1 g1') as D1.
  { eapply Forall2_flagStep_mono; [|exact C1]. intros s (t2 & Ht2 & Hd).
    destruct (Forall2_elem_r _ _ _ _ Hr2 Ht2) as (t20 & Ht20 & Hterm & _).
    exists t20. split; [apply elem_of_join_lookup; eauto|].
    left. by rewrite <- Hterm. }
  assert (Forall2 (flagStep (partnerIn cur0)) g2 g2') as D2.
  { eapply Forall2_flagStep_mono; [|exact C2]. intros s (t1 & Ht1 & Hd).
    destruct (Forall2_elem_r _ _ _ _ Hr1 Ht1) as (t10 & Ht10 & Hterm & _).
    exists t10. split; [apply elem_of_join_lookup; eauto|].
    right. by rewrite <- Hterm. }
  assert (∀ j g', cur' !! j = Some g' →
                  ∃ g, cur !! j = Some g ∧ Forall2 (flagStep (partnerIn cur0)) g g')
    as Hstep.
  { intros j g' Hj. destruct (decide (j = S a)) as [->|Hj1].
    { exists g2. split; [done|]. congruence. }
    destruct (decide (j = a)) as [->|Hj2].
    { exists g1. split; [done|]. congruence. }
    unfold cur' in Hj. rewrite !list_lookup_insert_ne in Hj by done.
    exists g'. split; [done|]. apply Forall2_flagStep_refl. }
  split; simpl; fold cur'.
  - apply Forall2_same_length_lookup_2.
    { unfold cur'. rewrite !length_insert. lia. }
    intros j g0 g' Hg0 Hg'. destruct (Hstep j g' Hg') as (g & Hg & Hrel).
    eapply Forall2_flagStep_trans; [|exact Hrel]. by eapply Forall2_lookup_lr.
  - intros j h1 h2 t1 t2 [Hj| ->%list_elem_of_singleton]%elem_of_app Hh1 Hh2 H1 H2 Hc.
    + destruct (Hstep j h1 Hh1) as (o1 & Ho1 & Hrel1).
      destruct (Hstep (S j) h2 Hh2) as (o2 & Ho2 & Hrel2).
      destruct (Forall2_elem_r _ _ _ _ Hrel1 H1) as (u1 & Hu1 & Hs1).
      destruct (Forall2_elem_r _ _ _ _ Hrel2 H2) as (u2 & Hu2 & Hs2).
      destruct (F2 j o1 o2 u1 u2 Hj Ho1 Ho2 Hu1 Hu2) as [Hf1 Hf2].
      { destruct Hs1 as (Ht1 & _). destruct Hs2 as (Ht2 & _).
        unfold combinable in *. by rewrite <- Ht1, <- Ht2. }
      split; by eapply flagStep_false.
    + rewrite Hl1 in Hh1. rewrite Hl2 in Hh2. simplify_eq. by apply C3.
Qed.

(** After the pass, the flag of a cube is cleared only if the round
    holds a cube it combines with, and the two cubes of every
    combinable pair from two neighbouring groups have their flags
    cleared. *)
Lemma combineRound_flags (variables : Z) :
  Forall2 (Forall2 (flagStep (partnerIn cur0))) cur0 (combineRound variables cur0).1
  ∧ ∀ j g1 g2 t1 t2,
      (combineRound variables cur0).1 !! j = Some g1 →
      (combineRound variables cur0).1 !! S j = Some g2 →
      t1 ∈ g1 → t2 ∈ g2 → combinable t1 t2 →
      isPrime t1 = false ∧ isPrime t2 = false.
Proof.
  assert (scanFlags cur0 (seq 0 (length cur0 - 1)) (combineRound variables cur0))
    as [F1 F2].
  { unfold combineRound.
    apply (foldl_prefix_invariant_elem (scanFlags cur0)).
    - split; simpl.
      + apply Forall_Forall2_diag, Forall_true. intros g. apply Forall2_flagStep_refl.
      + by intros ? ? ? ? ? ?%elem_of_nil.
    - intros pre a st Ha%elem_of_seq. apply scanStep_flags. lia. }
  split; [done|]. intros j g1 g2 t1 t2 Hg1 Hg2. apply (F2 j g1 g2 t1 t2); [|done..].
  apply elem_of_seq. pose proof (lookup_lt_Some _ _ _ Hg2) as Hlt.
  rewrite <- (Forall2_length _ _ _ F1) in Hlt. lia.
Qed.

End ScanFlags.

(** ** The primes of one round *)

Section RoundPrimes.
Variables (variables : Z) (seeds : list Z).
Hypothesis vars_pos : 1 <= variables.
Variables (r : nat) (cur0 : list (list Implicant)).
Hypothesis cur0_ok : groupsOK variables seeds r cur0.
Hypothesis cur0_complete : roundComplete variables seeds r cur0.

Let scanned := (combineRound variables cur0).1.
Let next := (combineRound variables cur0).2.

Lemma scanned_ok : groupsOK variables seeds r scanned ∧ nextsOK variables seeds r next.
Proof.
  destruct (combineRound_spec variables seeds vars_pos r cur0 cur0_ok)
    as (sc & nx & Hc & Hnext & Hrel).
  unfold scanned, next. rewrite Hc. simpl. split; [|done].
  destruct cur0_ok as [Hlen Hcur]. split.
  - by rewrite <- (Forall2_length _ _ _ Hrel).
  - intros j g Hg. destruct (Forall2_lookup_r _ _ _ _ _ Hrel Hg) as (g0 & Hg0 & Hr).
    eapply Forall2_stepRel_curOK; [exact Hr|]. by apply Hcur.
Qed.

(** Two cubes of the round that differ at one place: the place is fixed
    in both, and the cube with that place freed is an implicant. *)
Lemma merged_implicant (t1 t2 : Implicant) :
  t1 ∈ mjoin cur0 → t2 ∈ mjoin cur0 → diffIndex (term t1) (term t2) ≠ -1 →
  ∃ (k : nat) (c1 c2 : ascii),
    chars (term t1) !! k = Some c1 ∧ chars (term t2) !! k = Some c2
    ∧ c1 ≠ "-"%char ∧ c2 ≠ "-"%char
    ∧ implicant variables seeds (dashAt (term t1) (Z.of_nat k))
    ∧ dashAt (term t2) (Z.of_nat k) = dashAt (term t1) (Z.of_nat k).
Proof.
  intros Ht1 Ht2 Hd.
  pose proof (groupsOK_elem _ _ _ _ _ cur0_ok Ht1) as Hinv1.
  pose proof (groupsOK_elem _ _ _ _ _ cur0_ok Ht2) as Hinv2.
  destruct (diffIndex_found (term t1) (term t2)) as (k & c1 & c2 & Hdiff & Hk & Hne & Hins).
  { by rewrite (ci_length _ _ _ _ Hinv1), (ci_length _ _ _ _ Hinv2). }
  { done. }
  assert (k < length (chars (term t1)))%nat as Hklt by by eapply lookup_lt_Some.
  destruct (fixed_cube variables (term t1) (term t2) k c1 c2 r) as (_ & _ & Hdash & Hones).
  { apply Hinv1. } { apply Hinv1. } { done. } { done. }
  { pose proof (ci_cube _ _ _ _ Hinv2) as Hc. unfold isCube in Hc. rewrite Hins in Hc.
    eapply Forall_lookup_1 in Hc; [exact Hc|]. by apply list_lookup_insert_eq. }
  rewrite (ci_dashes _ _ _ _ Hinv1), (ci_dashes _ _ _ _ Hinv2) in Hdash.
  assert (c1 ≠ "-"%char ∧ c2 ≠ "-"%char) as [Hc1 Hc2].
  { destruct (decide (c1 = "-"%char)), (decide (c2 = "-"%char)); try lia; [congruence|done]. }
  assert (chars (term t2) !! k = Some c2) as Hk2.
  { rewrite Hins. by apply list_lookup_insert_eq. }
  assert (dashAt (term t2) (Z.of_nat k) = dashAt (term t1) (Z.of_nat k)) as Hsame.
  { apply chars_inj. rewrite !chars_dashAt.
    - by rewrite Hins, list_insert_insert_eq.
    - by rewrite <- chars_length.
    - rewrite <- chars_length, Hins, length_insert. done. }
  exists k, c1, c2. split_and!; try done.
  destruct (groupsOK_group variables seeds r cur0 t1 cur0_ok Ht1) as (g1 & Hg1 & Hin1).
  destruct (groupsOK_group variables seeds r cur0 t2 cur0_ok Ht2) as (g2 & Hg2 & Hin2).
  destruct scanned_ok as [_ Hnext]. apply nextsOK_groupsOK in Hnext as [Hnext _].
  assert (cubeChar c1) as Hcc1.
  { pose proof (ci_cube _ _ _ _ Hinv1) as Hc. unfold isCube in Hc.
    by eapply Forall_lookup_1 in Hc. }
  assert (cubeChar c2) as Hcc2.
  { pose proof (ci_cube _ _ _ _ Hinv2) as Hc. unfold isCube in Hc.
    by eapply Forall_lookup_1 in Hc. }
  destruct Hcc1 as [->|[->|?]]; [| |done]; destruct Hcc2 as [->|[->|?]]; try done.
  - rewrite decide_False, decide_True in Hones by done.
    replace (count_char "1" (term t2)) with (S (count_char "1" (term t1))) in Hg2 by lia.
    destruct (combineRound_complete variables cur0 (proj1 cur0_ok) _ g1 g2 t1 t2
                Hg1 Hg2 Hin1 Hin2 Hd) as (u & Hu & Hterm).
    unfold mergedTerm in Hterm. rewrite Hdiff in Hterm. rewrite <- Hterm.
    eapply cubeInv_implicant, groupsOK_elem; [exact Hnext|exact Hu].
  - rewrite decide_True, decide_False in Hones by done.
    replace (count_char "1" (term t1)) with (S (count_char "1" (term t2))) in Hg1 by lia.
    assert (diffIndex (term t2) (term t1) = Z.of_nat k) as Hdiff'.
    { apply (diffIndex_single _ _ k "0" "1"); [done|done|].
      rewrite Hins, list_insert_insert_eq. symmetry. by apply list_insert_id. }
    destruct (combineRound_complete variables cur0 (proj1 cur0_ok) _ g2 g1 t2 t1
                Hg2 Hg1 Hin2 Hin1) as (u & Hu & Hterm).
    { unfold combinable. rewrite Hdiff'. lia. }
    unfold mergedTerm in Hterm. rewrite Hdiff', Hsame in Hterm. rewrite <- Hterm.
    eapply cubeInv_implicant, groupsOK_elem; [exact Hnext|exact Hu].
Qed.

(** A cube whose flag is kept is a prime implicant. *)
Lemma kept_prime (q : Implicant) :
  q ∈ mjoin scanned → isPrime q = true → primeImplicant variables seeds (term q).
Proof.
  intros Hq Hflag. destruct scanned_ok as [Hsc _].
  pose proof (groupsOK_elem _ _ _ _ _ Hsc Hq) as Hinv.
  destruct (combineRound_flags cur0 variables) as [F1 F2]. fold scanned in F1, F2.
  split_and!; [apply Hinv|apply Hinv|by eapply cubeInv_implicant|].
  intros k ch Hk Hch Himp.
  set (c := term q) in *. set (l := chars c) in *.
  assert (k < length l)%nat as Hklt by by eapply lookup_lt_Some.
  assert (cubeChar ch) as Hcc.
  { pose proof (ci_cube _ _ _ _ Hinv) as Hc. unfold isCube in Hc.
    by eapply Forall_lookup_1 in Hc. }
  set (x := if decide (ch = "0"%char) then "1"%char else "0"%char).
  set (s := String.string_of_list_ascii (<[k := x]> l)).
  assert (chars s = <[k := x]> l) as Hs by apply chars_of_list.
  assert (cubeChar x) as Hcx.
  { unfold x. destruct (decide (ch = "0"%char)); [by right; left|by left]. }
  destruct (fixed_cube variables c s k ch x r) as (Hcube & Hlen & Hdash & Hones);
    [apply Hinv|apply Hinv|done|done|done|].
  assert (implicant variables seeds s) as Himps.
  { apply (implicant_sub variables seeds (dashAt c (Z.of_nat k)) s k x Himp).
    - rewrite chars_dashAt by (by rewrite <- chars_length).
      by apply list_lookup_insert_eq.
    - rewrite chars_dashAt by (by rewrite <- chars_length).
      by rewrite list_insert_insert_eq. }
  assert (x ≠ "-"%char) as Hx.
  { unfold x. destruct (decide (ch = "0"%char)); discriminate. }
  rewrite (decide_False (P := ch = "-"%char)), (decide_False (P := x = "-"%char))
    in Hdash by done.
  destruct (cur0_complete s Hcube Hlen) as (ts & Hts & Hterm);
    [rewrite <- (ci_dashes _ _ _ _ Hinv); fold c; lia|done|].
  destruct (Forall2_Forall2_join _ _ _ _ F1 Hts) as (ts' & Hts' & Hterm' & _).
  rewrite Hterm in Hterm'.
  destruct (groupsOK_group variables seeds r scanned q Hsc Hq) as (gq & Hgq & Hinq).
  destruct (groupsOK_group variables seeds r scanned ts' Hsc Hts') as (gs & Hgs & Hins).
  fold c in Hgq. rewrite Hterm' in Hgs.
  destruct Hcc as [->|[->|?]]; [| |done].
  - unfold x in *. rewrite decide_True in * by done.
    rewrite decide_False, decide_True in Hones by done.
    replace (count_char "1" s) with (S (count_char "1" c)) in Hgs by lia.
    destruct (F2 _ gq gs q ts' Hgq Hgs Hinq Hins) as [Hf _]; [|congruence].
    unfold combinable. fold c. rewrite Hterm'.
    rewrite (diffIndex_single c s k "0" "1"); [lia|done|done|done].
  - unfold x in *. rewrite decide_False in * by done.
    rewrite decide_True, decide_False in Hones by done.
    replace (count_char "1" c) with (S (count_char "1" s)) in Hgq by lia.
    destruct (F2 _ gs gq ts' q Hgs Hgq Hins Hinq) as [_ Hf]; [|congruence].
    unfold combinable. fold c. rewrite Hterm'.
    rewrite (diffIndex_single s c k "0" "1"); [lia| |done|].
    + rewrite Hs. by apply list_lookup_insert_eq.
    + rewrite Hs, list_insert_insert_eq. symmetry. by apply list_insert_id.
Qed.

(** A prime implicant with as many dashes as the round keeps its flag. *)
Lemma prime_kept (c : string) :
  groupsFresh cur0 → primeImplicant variables seeds c → count_char "-" c = r →
  ∃ q, q ∈ mjoin scanned ∧ isPrime q = true ∧ term q = c.
Proof.
  intros Hfresh (Hcube & Hlen & Himp & Hprime) Hdash.
  destruct (cur0_complete c Hcube Hlen Hdash Himp) as (t & Ht & Hterm).
  destruct (combineRound_flags cur0 variables) as [F1 _]. fold scanned in F1.
  destruct (Forall2_Forall2_join _ _ _ _ F1 Ht) as (t' & Ht' & Hterm' & _ & Hflag).
  exists t'. split; [done|]. split; [|congruence].
  destruct Hflag as [->|(tp & Htp & Hd)]; [by apply Hfresh|].
  rewrite Hterm in Hd. destruct Hd as [Hd|Hd].
  - rewrite <- Hterm in Hd.
    destruct (merged_implicant t tp Ht Htp Hd) as (k & c1 & c2 & Hk1 & _ & Hc1 & _ & Hm & _).
    rewrite Hterm in Hk1, Hm. by destruct (Hprime k c1 Hk1 Hc1).
  - rewrite <- Hterm in Hd.
    destruct (merged_implicant tp t Htp Ht Hd) as (k & c1 & c2 & _ & Hk2 & _ & Hc2 & Hm & Hsame).
    rewrite <- Hsame, Hterm in Hm. rewrite Hterm in Hk2. by destruct (Hprime k c2 Hk2 Hc2).
Qed.

End RoundPrimes.

(** ** The primes of all rounds *)

Section AllPrimes.
Variables (variables : Z) (seeds : list Z).
Hypothesis vars_pos : 1 <= variables.

(** An implicant holds implicants with fewer dashes. *)
Lemma implicant_fewer_dashes (d : nat) (c : string) (r : nat) :
  isCube c → String.length c = Z.to_nat variables → implicant variables seeds c →
  count_char "-" c = (r + d)%nat →
  ∃ c', isCube c' ∧ String.length c' = Z.to_nat variables
        ∧ count_char "-" c' = r ∧ implicant variables seeds c'.
Proof.
  revert c. induction d as [|d IH]; intros c Hcube Hlen Himp Hdash.
  - exists c. split_and!; try done. lia.
  - destruct (countL_pos_lookup "-" (chars c)) as [k Hk].
    { rewrite <- count_char_countL. lia. }
    set (s := String.string_of_list_ascii (<[k := "0"%char]> (chars c))).
    assert (chars s = <[k := "0"%char]> (chars c)) as Hs by apply chars_of_list.
    destruct (fixed_cube variables c s k "-" "0" r Hcube Hlen Hk Hs)
      as (Hcube' & Hlen' & Hdash' & _); [by left|].
    rewrite decide_True, decide_False in Hdash' by done.
    apply (IH s); try done; [by eapply implicant_sub|lia].
Qed.

Lemma primeRounds_primes (fuel r : nat) (cur : list (list Implicant))
    (primes : list Implicant) :
  groupsOK variables seeds r cur → groupsFresh cur →
  roundComplete variables seeds r cur →
  (Z.to_nat variables + 1 - r < fuel)%nat →
  ∃ found,
    primeRounds fuel variables cur primes = Returned (primes ++ found)
    ∧ (∀ q, q ∈ found → primeImplicant variables seeds (term q))
    ∧ (∀ c, primeImplicant variables seeds c → (r <= count_char "-" c)%nat →
            ∃ q, q ∈ found ∧ term q = c).
Proof.
  revert r cur primes.
  induction fuel as [|fuel IH]; intros r cur primes Hok Hfresh Hfull Hfuel; [lia|].
  assert (∀ c r', primeImplicant variables seeds c → (r' <= count_char "-" c)%nat →
                  ∃ c', isCube c' ∧ String.length c' = Z.to_nat variables
                        ∧ count_char "-" c' = r' ∧ implicant variables seeds c') as Hsub.
  { intros c r' (Hcube & Hlen & Himp & _) Hle.
    apply (implicant_fewer_dashes (count_char "-" c - r') c r'); try done. lia. }
  simpl. destruct (existsb _ cur) eqn:Hsome.
  2:{ exists []. rewrite app_nil_r. split_and!; [done|by intros q ?%elem_of_nil|].
      intros c Hc Hle. destruct (Hsub c r Hc Hle) as (c' & H1 & H2 & H3 & H4).
      destruct (Hfull c' H1 H2 H3 H4) as (t & Ht & _).
      rewrite (existsb_nonempty_false cur Hsome) in Ht. by apply elem_of_nil in Ht. }
  pose proof (roundComplete_step variables seeds vars_pos r cur Hok Hfull) as Hfull'.
  pose proof (scanned_ok variables seeds vars_pos r cur Hok) as [_ Hnext].
  pose proof (kept_prime variables seeds vars_pos r cur Hok Hfull) as Hkept.
  pose proof (prime_kept variables seeds vars_pos r cur Hok Hfull) as Hprime.
  destruct (combineRound variables cur) as [scanned next]. simpl in *.
  set (found1 := filter (fun t => isPrime t = true) (mjoin scanned)).
  destruct (nextsOK_groupsOK variables seeds r next Hnext) as [Hok' Hfresh'].
  assert (∀ q, q ∈ found1 → primeImplicant variables seeds (term q)) as Hfound1.
  { intros q [Hq1 Hq2]%list_elem_of_filter. by apply Hkept. }
  assert (∀ c, primeImplicant variables seeds c → count_char "-" c = r →
               ∃ q, q ∈ found1 ∧ term q = c) as Hround.
  { intros c Hc Hd. destruct (Hprime c Hfresh Hc Hd) as (q & Hq & Hflag & Hterm).
    exists q. split; [|done]. by apply list_elem_of_filter. }
  destruct (forallb _ next) eqn:Hnone.
  - exists found1. split_and!; [done|done|].
    intros c Hc Hle. destruct (decide (count_char "-" c = r)) as [Hd|Hd]; [auto|].
    destruct (Hsub c (S r) Hc) as (c' & H1 & H2 & H3 & H4); [lia|].
    destruct (Hfull' c' H1 H2 H3 H4) as (t & Ht & _).
    rewrite (forallb_empty_true next Hnone) in Ht. by apply elem_of_nil in Ht.
  - destruct (forallb_empty_false next Hnone) as [u0 Hu0].
    pose proof (cubeInv_round_le variables seeds (S r) u0
                  (groupsOK_elem _ _ _ _ _ Hok' Hu0)) as Hle.
    destruct (IH (S r) next (primes ++ found1) Hok' Hfresh' Hfull')
      as (found2 & -> & Hf2 & Hc2); [lia|].
    exists (found1 ++ found2). rewrite app_assoc. split_and!; [done| |].
    + intros q [Hq|Hq]%elem_of_app; auto.
    + intros c Hc Hle'. destruct (decide (count_char "-" c = r)) as [Hd|Hd].
      * destruct (Hround c Hc Hd) as (q & Hq & Hterm). exists q.
        split; [apply elem_of_app; by left|done].
      * destruct (Hc2 c Hc) as (q & Hq & Hterm); [lia|]. exists q.
        split; [apply elem_of_app; by right|done].
Qed.

End AllPrimes.

Section PrimesOfPrime.
Variables (variables : Z) (minterms dontCares : list Z).
Hypothesis vars_pos : 1 <= variables.
Hypothesis true_range : ∀ m, m ∈ minterms → 0 <= m < 2 ^ variables.
Hypothesis dc_range : ∀ m, m ∈ dontCares → 0 <= m < 2 ^ variables.

Let seeds := minterms ++ dontCares.

Lemma primesOf_primes (fuel : nat) :
  (Z.to_nat variables + 1 < fuel)%nat →
  ∃ uniquePIs,
    primesOf fuel variables minterms dontCares = Returned uniquePIs
    ∧ NoDup (term <$> uniquePIs)
    ∧ ∀ c, c ∈ term <$> uniquePIs ↔ primeImplicant variables seeds c.
Proof.
  intros Hfuel.
  assert (∀ m, m ∈ seeds → 0 <= m < 2 ^ variables) as Hrange.
  { intros m [?|?]%elem_of_app; auto. }
  destruct (seedFold_spec variables seeds vars_pos Hrange seeds (emptyGroups variables))
    as (groups & Hseed & Hok & Hfresh & _ & Hall).
  { done. }
  { split; [by unfold emptyGroups; rewrite length_replicate|].
    intros j g [-> _]%lookup_replicate. constructor. }
  { intros t (j & g & [-> _]%lookup_replicate & Ht)%elem_of_join_lookup.
    by apply elem_of_nil in Ht. }
  pose proof (seeds_roundComplete variables seeds vars_pos groups Hok Hall) as Hfull.
  destruct (primeRounds_primes variables seeds vars_pos fuel 0 groups [] Hok Hfresh Hfull)
    as (found & Hrounds & Hprime & Hcomplete); [lia|].
  unfold primesOf, seedGroups. fold seeds. rewrite Hseed. simpl.
  rewrite Hrounds. simpl.
  destruct (dedupPrimes_spec found) as (Hnd & Hsub & Hrep).
  exists (dedupPrimes found). split_and!; try done.
  intros c. split.
  - intros (q & -> & Hq)%list_elem_of_fmap. by apply Hprime, Hsub.
  - intros Hc. destruct (Hcomplete c Hc) as (p & Hp & Hterm); [lia|].
    destruct (Hrep p Hp) as (q & Hq & Hterm'). apply list_elem_of_fmap.
    exists q. split; [congruence|done].
Qed.

End PrimesOfPrime.

Section RunQMPrimes.
Variables (variables : Z) (ms dcs : list Z) (fuel : nat).
Hypothesis valid : validInput variables ms dcs.
Hypothesis fuel_ok : enoughFuel variables fuel.

(** The cube made of dashes only is a prime implicant of a full
    position space. *)
Lemma all_dash_prime :
  Z.of_nat (length ms + length dcs) = 2 ^ variables →
  primeImplicant variables (ms ++ dcs) (repeat_char "-" (Z.to_nat variables)).
Proof.
  intros Hfull. destruct valid as [Hv Hnd1 Hnd2 Hr1 Hr2 Hdis]. split_and!.
  - unfold isCube. rewrite chars_repeat. apply Forall_replicate. by right; right.
  - by rewrite <- chars_length, chars_repeat, length_replicate.
  - intros m Hm _. apply elem_of_app.
    apply (full_space variables ms dcs); try done. lia.
  - intros k ch Hk Hch. rewrite chars_repeat in Hk.
    apply lookup_replicate in Hk as [-> _]. done.
Qed.

Lemma runQM_terms_prime :
  ∃ sol,
    runQM fuel variables ms dcs = Returned sol
    ∧ ∀ t, t ∈ qm_terms sol → primeImplicant variables (ms ++ dcs) t.
Proof.
  destruct (runQM_cases variables ms dcs fuel valid fuel_ok)
    as [[_ ->]|[(_ & Hfull & ->)|(_ & _ & U & final & HU & _ & _ & _ & Hsub & _ & _ & ->)]].
  - eexists. split; [done|]. by intros t ?%elem_of_nil.
  - eexists. split; [done|]. intros t ->%list_elem_of_singleton. by apply all_dash_prime.
  - eexists. split; [done|]. simpl. intros t (q & -> & Hq)%list_elem_of_fmap.
    destruct (primesOf_primes variables ms dcs) with (fuel := fuel)
      as (U' & HU' & _ & Hiff).
    + pose proof (valid_vars_pos _ _ _ valid). lia.
    + apply valid.
    + apply valid.
    + apply (valid_fuel variables ms dcs fuel valid fuel_ok).
    + rewrite HU in HU'. injection HU' as <-.
      apply Hiff, list_elem_of_fmap. exists q. split; [done|]. by apply Hsub.
Qed.

End RunQMPrimes.



(** Every term of a solution is a prime implicant: on a valid input
    [runQM] returns, and each term of its result, the cube made of dashes
    only of the early return included, is a prime implicant of the
    function that is true or free on the two input sets. *)
Theorem solution_terms_are_prime (variables : Z) (trueSet dontCareSet : list Z)
    (fuel : nat) :
  validInput variables trueSet dontCareSet → enoughFuel variables fuel →
  ∃ sol,
    runQM fuel variables trueSet dontCareSet = Returned sol
    ∧ ∀ t, t ∈ qm_terms sol → primeImplicant variables (trueSet ++ dontCareSet) t.
Proof. intros valid Hfuel. by apply runQM_terms_prime. Qed.

Lemma solution_terms_are_prime_witness :
  ∃ sol,
    runQM 40 4 [4; 8; 10; 11; 12; 15] [9; 14] = Returned sol
    ∧ ∀ t, t ∈ qm_terms sol
           → primeImplicant 4 ([4; 8; 10; 11; 12; 15] ++ [9; 14]) t.
Proof.
  apply (solution_terms_are_prime 4 [4; 8; 10; 11; 12; 15] [9; 14] 40).
  - exact validInput_example.
  - unfold enoughFuel. simpl. lia.
Defined.

(** * The rectangles of a cube enclose its cells only *)

Section CubeRects.

Lemma elem_of_cubesOf (c : string) : isCube c → c ∈ cubesOf (String.length c).
Proof.
  unfold isCube. induction c as [|a c IH]; simpl; [by left|].
  intros [Ha Hc]%Forall_cons. rewrite !elem_of_app, !list_elem_of_fmap.
  destruct Ha as [Ha|[Ha|Ha]]; subst a; [left|right; left|right; right; left];
    (exists c; split; [done|by apply IH]).
Qed.

Lemma uniqueSorted_ext (l l' : list Z) :
  (∀ v, v ∈ l ↔ v ∈ l') → uniqueSorted l = uniqueSorted l'.
Proof.
  intros Hel. apply sorted_lt_eq.
  - apply StronglySorted_le_lt; [apply sort_num_asc_sorted|apply NoDup_uniqueSorted].
  - apply StronglySorted_le_lt; [apply sort_num_asc_sorted|apply NoDup_uniqueSorted].
  - intros a. by rewrite !elem_of_uniqueSorted.
Qed.

(** The window depends on the indices listed, not on their order or
    number of occurrences. *)
Lemma minimalCyclicInterval_ext (l l' : list Z) (size : Z) :
  (∀ v, v ∈ l ↔ v ∈ l') →
  minimalCyclicInterval l size = minimalCyclicInterval l' size.
Proof.
  intros Hel. pose proof (uniqueSorted_ext l l' Hel) as Huniq.
  destruct l as [|a l], l' as [|a' l'].
  - done.
  - exfalso. apply (elem_of_nil a'), Hel. left.
  - exfalso. apply (elem_of_nil a), Hel. left.
  - unfold minimalCyclicInterval. by rewrite Huniq.
Qed.

Variables (rowCodes colCodes : list string) (table : gmap num (Z * Z)).

(** The place and size of the rectangles of a group depend on its
    positions only. *)
Lemma groupRects_geometry (gid gid' : Z) (g g' : list Z) (rect : GroupRect) :
  (∀ m, m ∈ g ↔ m ∈ g') → rect ∈ groupRects rowCodes colCodes table gid g →
  ∃ rect', rect' ∈ groupRects rowCodes colCodes table gid' g'
           ∧ x rect' = x rect ∧ y rect' = y rect ∧ w rect' = w rect ∧ h rect' = h rect.
Proof.
  intros Hel Hrect.
  assert (∀ rc, rc ∈ omap (fun m => table !! Num m) g
                ↔ rc ∈ omap (fun m => table !! Num m) g') as Hco.
  { intros rc. rewrite !list_elem_of_omap. by setoid_rewrite Hel. }
  destruct (decide (omap (fun m => table !! Num m) g = [])) as [Hnil|Hne].
  { rewrite groupRects_none in Hrect by done. by apply elem_of_nil in Hrect. }
  assert (omap (fun m => table !! Num m) g' ≠ []) as Hne'.
  { intros Hnil. destruct (omap (fun m => table !! Num m) g) as [|rc l] eqn:Hg; [done|].
    apply (elem_of_nil rc). rewrite <- Hnil. apply Hco. left. }
  apply (groupRects_tiles _ _ _ _ _ Hne) in Hrect as (dy & dx & Hdy & Hdx & ->).
  assert (∀ size, minimalCyclicInterval (omap (fun m => table !! Num m) g).*1 size
                  = minimalCyclicInterval (omap (fun m => table !! Num m) g').*1 size)
    as E1.
  { intros size. apply minimalCyclicInterval_ext. intros v.
    rewrite !list_elem_of_fmap. by setoid_rewrite Hco. }
  assert (∀ size, minimalCyclicInterval (omap (fun m => table !! Num m) g).*2 size
                  = minimalCyclicInterval (omap (fun m => table !! Num m) g').*2 size)
    as E2.
  { intros size. apply minimalCyclicInterval_ext. intros v.
    rewrite !list_elem_of_fmap. by setoid_rewrite Hco. }
  rewrite E1 in Hdy. rewrite E2 in Hdx. rewrite E1, E2.
  eexists. split.
  - apply (groupRects_tiles _ _ _ _ _ Hne'). exists dy, dx. split_and!; [done|done|].
    reflexivity.
  - done.
Qed.

End CubeRects.

Section EnclosedCells.

Lemma encloses_all (variables mapIndex : Z) :
  2 <= variables <= 5 → 0 <= mapIndex <= 1 →
  forallb (enclosesCube variables mapIndex) (cubesOf (Z.to_nat variables)) = true.
Proof.
  intros Hv Hm.
  assert (variables = 2 ∨ variables = 3 ∨ variables = 4 ∨ variables = 5)
    as [->|[->|[->| ->]]] by lia;
    (assert (mapIndex = 0 ∨ mapIndex = 1) as [->| ->] by lia); by vm_compute.
Qed.

Lemma elem_of_cubePositions (variables : Z) (c : string) (m : Z) :
  m ∈ cubePositions variables c ↔ 0 <= m < 2 ^ variables ∧ cubeCovers variables c m = true.
Proof.
  unfold cubePositions. rewrite list_elem_of_filter, elem_of_seqZ. intuition lia.
Qed.

Lemma overlays_enclose (variables mapIndex : Z) (groups : list (list Z)) (i : nat)
    (g : list Z) (c : string) (rect : GroupRect) (m r col : Z) :
  2 <= variables <= 5 → 0 <= mapIndex <= 1 →
  isCube c → String.length c = Z.to_nat variables →
  groups !! i = Some g →
  (∀ p, p ∈ g ↔ 0 <= p < 2 ^ variables ∧ cubeCovers variables c p = true) →
  rect ∈ buildGroupOverlays variables (Some groups) mapIndex →
  groupId rect = Z.of_nat i →
  coordTable (generateGrayCodes (rowBits (getGridDimensions variables)))
             (generateGrayCodes (colBits (getGridDimensions variables)))
             mapIndex !! Num m = Some (r, col) →
  x rect <= col < x rect + w rect → y rect <= r < y rect + h rect →
  m ∈ g.
Proof.
  intros Hv Hmap Hcube Hlen Hg Hel Hrect Hid Htab Hx Hy.
  apply elem_of_overlays in Hrect as (i' & g' & Hg' & Hrect).
  pose proof (groupRects_shape _ _ _ (coordTable_range _ _ mapIndex) _ _ _ Hrect)
    as (Hid' & _).
  assert (i' = i) as -> by lia. simplify_eq.
  destruct (groupRects_geometry _ _ _ (Z.of_nat i) 0 g (cubePositions variables c) rect
              ltac:(intros p; by rewrite Hel, elem_of_cubePositions) Hrect)
    as (rect0 & Hrect0 & Hx0 & Hy0 & Hw0 & Hh0).
  pose proof (encloses_all variables mapIndex Hv Hmap) as Hall.
  rewrite forallb_forall in Hall.
  specialize (Hall c). rewrite <- Hlen in Hall.
  specialize (Hall (proj1 (list_elem_of_In _ _) (elem_of_cubesOf c Hcube))).
  unfold enclosesCube in Hall. cbv zeta in Hall. rewrite forallb_forall in Hall.
  specialize (Hall rect0 (proj1 (list_elem_of_In _ _) Hrect0)).
  rewrite forallb_forall in Hall.
  assert (inRect rect0 (r, col) = true) as Hin.
  { unfold inRect. cbn [fst snd]. rewrite Hx0, Hy0, Hw0, Hh0.
    rewrite !andb_true_iff, !Z.leb_le, !Z.ltb_lt. lia. }
  assert (In (Num m, (r, col))
             (map_to_list
                (coordTable (generateGrayCodes (rowBits (getGridDimensions variables)))
                            (generateGrayCodes (colBits (getGridDimensions variables)))
                            mapIndex))) as Hmem.
  { apply list_elem_of_In, elem_of_map_to_list. done. }
  pose proof (Hall (Num m, (r, col)) Hmem) as Hfin. cbn [fst snd] in Hfin.
  rewrite Hin in Hfin. cbn [implb] in Hfin.
  apply bool_decide_eq_true in Hfin. by apply Hel, elem_of_cubePositions.
Qed.

End EnclosedCells.

(** ** The groups of a solution are cubes *)

Section SolutionGroups.
Variables (variables : Z) (fuel : nat).
Hypothesis fuel_ok : enoughFuel variables fuel.

Lemma runQM_groups_cubes (ms dcs : list Z) :
  validInput variables ms dcs →
  ∃ sol,
    runQM fuel variables ms dcs = Returned sol
    ∧ ∀ g, g ∈ qm_groups sol →
        ∃ c, isCube c ∧ String.length c = Z.to_nat variables
             ∧ ∀ p, p ∈ g ↔ 0 <= p < 2 ^ variables ∧ cubeCovers variables c p = true.
Proof.
  intros valid. pose proof (valid_vars_pos _ _ _ valid) as Hv.
  destruct (runQM_cases variables ms dcs fuel valid fuel_ok)
    as [[_ ->]|[(_ & Hfull & ->)|(_ & _ & U & final & _ & _ & _ & Hinv & Hsub & _ & _ & ->)]].
  - eexists. split; [done|]. by intros g ?%elem_of_nil.
  - eexists. split; [done|]. intros g ->%list_elem_of_singleton.
    destruct (all_dash_prime variables ms dcs valid Hfull) as (Hcube & Hlen & _).
    exists (repeat_char "-" (Z.to_nat variables)). split_and!; [done|done|].
    intros p. split.
    + intros Hp. assert (0 <= p < 2 ^ variables) as Hr.
      { apply elem_of_app in Hp as [Hp|Hp];
          [by apply (vi_true_range _ _ _ valid)|by apply (vi_dc_range _ _ _ valid)]. }
      split; [done|]. apply only_dashes_covers; [done|done|done|apply only_dashes_repeat].
    + intros [Hr _]. apply elem_of_app.
      apply (full_space variables ms dcs ltac:(lia) (vi_true_nodup _ _ _ valid)
               (vi_dc_nodup _ _ _ valid) (vi_true_range _ _ _ valid)
               (vi_dc_range _ _ _ valid) (vi_disjoint _ _ _ valid) Hfull p Hr).
  - eexists. split; [done|]. simpl. intros g (q & -> & Hq)%list_elem_of_fmap.
    destruct (Hinv q (Hsub q Hq)) as [r Hr]. exists (term q).
    split_and!; [apply Hr|apply Hr|apply Hr].
Qed.

Lemma solveCustom_groups_cubes (ms dcs : list Z) (isSop : bool) :
  validInput variables ms dcs →
  ∃ res,
    solveCustom fuel variables ms dcs isSop = Returned res
    ∧ ∀ g, g ∈ essentials res →
        ∃ c, isCube c ∧ String.length c = Z.to_nat variables
             ∧ ∀ p, p ∈ g ↔ 0 <= p < 2 ^ variables ∧ cubeCovers variables c p = true.
Proof.
  intros valid. destruct isSop.
  - rewrite solveCustom_sop.
    destruct (runQM_groups_cubes ms dcs valid) as (sol & -> & Hsol).
    eexists. split; [done|]. done.
  - rewrite solveCustom_pos. case_decide as Hz.
    { eexists. split; [done|]. by intros g ?%elem_of_nil. }
    destruct (runQM_groups_cubes (zerosOf variables ms dcs) dcs
                (validInput_zeros _ _ _ valid)) as (sol & -> & Hsol).
    eexists. split; [done|]. done.
Qed.

Lemma solution_overlays (ms dcs : list Z) (isSop : bool) :
  validInput variables ms dcs →
  ∃ res,
    solveCustom fuel variables ms dcs isSop = Returned res
    ∧ ∀ (mapIndex : Z) (i : nat) (g : list Z) (rect : GroupRect) (m r col : Z),
        0 <= mapIndex <= 1 → essentials res !! i = Some g →
        rect ∈ buildGroupOverlays variables (Some (essentials res)) mapIndex →
        groupId rect = Z.of_nat i →
        coordTable (generateGrayCodes (rowBits (getGridDimensions variables)))
                   (generateGrayCodes (colBits (getGridDimensions variables)))
                   mapIndex !! Num m = Some (r, col) →
        x rect <= col < x rect + w rect → y rect <= r < y rect + h rect →
        m ∈ g.
Proof.
  intros valid. destruct (solveCustom_groups_cubes ms dcs isSop valid) as (res & Hres & Hg).
  exists res. split; [done|]. intros mapIndex i g rect m r col Hmap Hi Hrect Hid Htab Hx Hy.
  destruct (Hg g) as (c & Hcube & Hlen & Hel); [by eapply list_elem_of_lookup_2|].
  eapply (overlays_enclose variables mapIndex (essentials res) i g c rect m r col);
    try done. apply valid.
Qed.

End SolutionGroups.

(** A rectangle drawn for a cube encloses cells of the cube only: for two
    to five variables and a map index 0 or 1, when group [i] lists the
    positions that a cube of [variables] characters covers, in any order,
    every cell of the map that lies inside a rectangle of
    [buildGroupOverlays] with [groupId] equal to [i] holds a position of
    the group. *)
Theorem overlay_encloses_cube (variables mapIndex : Z) (groups : list (list Z)) (i : nat)
    (g : list Z) (c : string) (rect : GroupRect) (m r col : Z) :
  2 <= variables <= 5 → 0 <= mapIndex <= 1 →
  isCube c → String.length c = Z.to_nat variables →
  groups !! i = Some g →
  (∀ p, p ∈ g ↔ 0 <= p < 2 ^ variables ∧ cubeCovers variables c p = true) →
  rect ∈ buildGroupOverlays variables (Some groups) mapIndex →
  groupId rect = Z.of_nat i →
  coordTable (generateGrayCodes (rowBits (getGridDimensions variables)))
             (generateGrayCodes (colBits (getGridDimensions variables)))
             mapIndex !! Num m = Some (r, col) →
  x rect <= col < x rect + w rect → y rect <= r < y rect + h rect →
  m ∈ g.
Proof. apply overlays_enclose. Qed.

Lemma overlay_encloses_cube_witness : 10 ∈ [8; 10; 12; 14].
Proof.
  apply (overlay_encloses_cube 4 0 [[8; 10; 12; 14]] 0 [8; 10; 12; 14] "1--0"
           {| groupId := 0; x := 3; y := 2; w := 2; h := 2; area := 4;
              tileId := "0:0:0" |} 10 3 3).
  - lia.
  - lia.
  - unfold isCube. simpl. repeat (apply Forall_cons_2; [unfold cubeChar; auto|]).
    apply Forall_nil_2.
  - reflexivity.
  - reflexivity.
  - intros p. rewrite <- elem_of_cubePositions.
    by replace (cubePositions 4 "1--0") with [8; 10; 12; 14] by (by vm_compute).
  - vm_compute. left.
  - reflexivity.
  - vm_compute. reflexivity.
  - simpl. lia.
  - simpl. lia.
Defined.

(** The rectangles drawn for a solution enclose cells of their group
    only: on a valid input, in both forms, [solveCustom] returns, and with
    its groups given to the grid, every cell of a map that lies inside a
    rectangle of [buildGroupOverlays] with [groupId] equal to [i] holds a
    position of group [i]. *)
Theorem solution_overlays_enclose (variables : Z) (trueSet dontCareSet : list Z)
    (isSop : bool) (fuel : nat) :
  validInput variables trueSet dontCareSet → enoughFuel variables fuel →
  ∃ res,
    solveCustom fuel variables trueSet dontCareSet isSop = Returned res
    ∧ ∀ (mapIndex : Z) (i : nat) (g : list Z) (rect : GroupRect) (m r col : Z),
        0 <= mapIndex <= 1 → essentials res !! i = Some g →
        rect ∈ buildGroupOverlays variables (Some (essentials res)) mapIndex →
        groupId rect = Z.of_nat i →
        coordTable (generateGrayCodes (rowBits (getGridDimensions variables)))
                   (generateGrayCodes (colBits (getGridDimensions variables)))
                   mapIndex !! Num m = Some (r, col) →
        x rect <= col < x rect + w rect → y rect <= r < y rect + h rect →
        m ∈ g.
Proof. intros valid Hfuel. by apply solution_overlays. Qed.

Lemma solution_overlays_enclose_witness :
  ∃ res,
    solveCustom 40 4 [4; 8; 10; 11; 12; 15] [9; 14] true = Returned res
    ∧ ∀ (mapIndex : Z) (i : nat) (g : list Z) (rect : GroupRect) (m r col : Z),
        0 <= mapIndex <= 1 → essentials res !! i = Some g →
        rect ∈ buildGroupOverlays 4 (Some (essentials res)) mapIndex →
        groupId rect = Z.of_nat i →
        coordTable (generateGrayCodes (rowBits (getGridDimensions 4)))
                   (generateGrayCodes (colBits (getGridDimensions 4)))
                   mapIndex !! Num m = Some (r, col) →
        x rect <= col < x rect + w rect → y rect <= r < y rect + h rect →
        m ∈ g.
Proof.
  apply (solution_overlays_enclose 4 [4; 8; 10; 11; 12; 15] [9; 14] true 40).
  - exact validInput_example.
  - unfold enoughFuel. simpl. lia.
Defined.
